(** * TODOKANAI storage core: encrypted block store, free-space index,
      value encoder and the log-structured keyed map.

    Shallow embedding of [src/util/ssdb.cpp], [src/util/ssdb.hpp],
    [src/util/sfs.cpp] and [src/util/sstl.hpp], of the text forms of a
    public key in [to_pubkey.cpp] and of the list [lfs::list].  Machine
    integers are [Z] with the wrap-around written out. *)

From Stdlib Require Import ZArith List Bool Lia.
From Stdlib Require Ascii String.
Import ListNotations.
Open Scope Z_scope.

(** ** Machine arithmetic *)

Definition u32 (x : Z) : Z := x mod 2 ^ 32.
Definition u64 (x : Z) : Z := x mod 2 ^ 64.
Definition UINT32_MAX : Z := 2 ^ 32 - 1.
Definition INT64_MAX : Z := 2 ^ 63 - 1.

(** ** [ssdb::free_space] (ssdb.cpp, lines 43-147)

    [std::map<uint32_t, uint32_t> m_free] is a list of (start, length)
    pairs kept in increasing order of start, keys unique. *)

Module free_space.

Definition fmap := list (Z * Z).

Definition lower (k : Z) (m : fmap) : fmap := filter (fun e => fst e <? k) m.
Definition upper (k : Z) (m : fmap) : fmap := filter (fun e => k <? fst e) m.

Definition get (k : Z) (m : fmap) : option Z :=
  match find (fun e => fst e =? k) m with
  | Some e => Some (snd e)
  | None => None
  end.

(** [m_free.emplace(k, v)]: no effect when the key is present. *)
Definition emplace (k v : Z) (m : fmap) : fmap :=
  match get k m with
  | Some _ => m
  | None => lower k m ++ (k, v) :: upper k m
  end.

(** [it->second = v] for the iterator at key [k]. *)
Definition set (k v : Z) (m : fmap) : fmap :=
  map (fun e => if fst e =? k then (k, v) else e) m.

Definition erase (k : Z) (m : fmap) : fmap :=
  filter (fun e => negb (fst e =? k)) m.

(** [--it] and [++it] for the iterator at key [k]. *)
Definition prev (k : Z) (m : fmap) : option (Z * Z) :=
  match rev (lower k m) with e :: _ => Some e | [] => None end.

Definition next (k : Z) (m : fmap) : option (Z * Z) :=
  match upper k m with e :: _ => Some e | [] => None end.

Definition second (k : Z) (m : fmap) : Z :=
  match get k m with Some v => v | None => 0 end.

(** [add_free], first half: [emplace], "Extend if necessary" and
    "Check overflow". *)
Definition insert_clamped (block count : Z) (m : fmap) : fmap :=
  let m1 := emplace block count m in
  (* Extend if necessary *)
  let m2 := if second block m1 <? count then set block count m1 else m1 in
  (* Check overflow *)
  if u32 (second block m2 + block) <? block
  then set block (u32 (UINT32_MAX - block)) m2 else m2.

(** "Check previous entry": returns the map and the key [it] points to. *)
Definition merge_prev (block : Z) (m : fmap) : fmap * Z :=
  match prev block m with
  | Some (f2, s2) =>
      if u32 (f2 + s2) >=? block then
        (* Merge with the previous entry *)
        let s := second block m in
        (set f2 (u32 (s2 + u32 (s - u32 (u32 (f2 + s2) - block))))
                (erase block m), f2)
      else (m, block)
  | None => (m, block)
  end.

(** "Check next entry". *)
Definition merge_next (it : Z) (m : fmap) : fmap :=
  match next it m with
  | Some (f3, s3) =>
      let s := second it m in
      if u32 (it + s) >=? f3 then
        (* Merge with the next entry *)
        erase f3 (set it (u32 (s + u32 (s3 - u32 (u32 (it + s) - f3)))) m)
      else m
  | None => m
  end.

Definition add_free (block count : Z) (m : fmap) : fmap :=
  if count =? 0 then m else
  let '(m4, it) := merge_prev block (insert_clamped block count m) in
  merge_next it m4.

(** The best-fit scan of [get_free]: [res] is the candidate so far. *)
Fixpoint scan (count : Z) (res : option (Z * Z)) (m : fmap) : option (Z * Z) :=
  match m with
  | [] => res
  | (f, s) :: rest =>
      if s >=? count then
        let better := match res with
                      | None => true
                      | Some (_, rs) => rs >? s
                      end in
        if better then
          if s =? count then Some (f, s) else scan count (Some (f, s)) rest
        else scan count res rest
      else scan count res rest
  end.

(** [get_free]: [None] stands for the thrown [std::bad_alloc]. *)
Definition get_free (count : Z) (m : fmap) : option (Z * fmap) :=
  match scan count None m with
  | None =>
      match m with
      | [] =>
          (* Initialize from default state *)
          Some (0, if count =? 0 then m else emplace count (u32 (0 - count)) m)
      | _ => None
      end
  | Some (pos, s) =>
      let diff := u32 (s - count) in
      if diff =? 0 then
        let m1 := erase pos m in
        (* Prevent from restoring the default state *)
        Some (pos, match m1 with [] => emplace 0 0 m1 | _ => m1 end)
      else
        (* Restore the fragment *)
        Some (pos, emplace (u32 (pos + count)) diff (erase pos m))
  end.

(** *** Well-formedness of the index

    [chain gap limit lo m]: starts increase strictly from [lo], every
    interval lies in [[0, limit]], and consecutive intervals are at least
    [gap] blocks apart. *)
Fixpoint chain (gap limit lo : Z) (m : fmap) : Prop :=
  match m with
  | [] => True
  | (f, s) :: r =>
      lo <= f /\ f <= UINT32_MAX /\ 0 <= s /\ f + s <= limit /\
      chain gap limit (Z.max (f + 1) (f + s + gap)) r
  end.

(** Pairwise disjoint intervals over the 32-bit block address space. *)
Definition disjoint (m : fmap) : Prop := chain 0 (2 ^ 32) 0 m.

(** Disjoint, never abutting, and ending at or below [UINT32_MAX]:
    what the clamp of [add_free] establishes for the interval it adds. *)
Definition coalesced (m : fmap) : Prop := chain 1 UINT32_MAX 0 m.

(** Block [b] is covered by a stored interval. *)
Definition is_free (m : fmap) (b : Z) : Prop :=
  exists f s, In (f, s) m /\ f <= b < f + s.

(** States reachable from the default (empty) index through the two
    operations. *)
Inductive reachable : fmap -> Prop :=
| reach_default : reachable []
| reach_add b c m : reachable m -> 0 <= b <= UINT32_MAX -> 0 <= c <= UINT32_MAX ->
    reachable (add_free b c m)
| reach_get c p m m' : reachable m -> 0 <= c <= UINT32_MAX ->
    get_free c m = Some (p, m') -> reachable m'.


(** *** Membership facts for the map operations *)

Lemma u32_small (x : Z) : 0 <= x < 2 ^ 32 -> u32 x = x.
Proof. intros H. unfold u32. apply Z.mod_small; exact H. Qed.

Lemma u32_neg (c : Z) : 1 <= c <= UINT32_MAX -> u32 (0 - c) = 2 ^ 32 - c.
Proof.
  unfold UINT32_MAX, u32. intros H. symmetry.
  apply Z.mod_unique with (q := -1); lia.
Qed.

Lemma get_None_keys (k : Z) (m : fmap) :
  get k m = None -> forall e, In e m -> fst e <> k.
Proof.
  unfold get. intros H e He Hk.
  destruct (find (fun e0 => fst e0 =? k) m) eqn:F; [discriminate|].
  apply (find_none _ _ F) in He. apply Z.eqb_neq in He. contradiction.
Qed.

Lemma In_erase (k : Z) (m : fmap) (e : Z * Z) :
  In e (erase k m) <-> In e m /\ fst e <> k.
Proof.
  unfold erase. rewrite filter_In, negb_true_iff, Z.eqb_neq. tauto.
Qed.

Lemma In_emplace_absent (k v : Z) (m : fmap) (e : Z * Z) :
  get k m = None -> (In e (emplace k v m) <-> e = (k, v) \/ In e m).
Proof.
  intros G. unfold emplace. rewrite G.
  rewrite in_app_iff. simpl. unfold lower, upper. rewrite !filter_In.
  rewrite Z.ltb_lt, Z.ltb_lt. split.
  - intros [[H _]|[H|[H _]]]; auto.
  - intros [H|H]; auto.
    pose proof (get_None_keys _ _ G _ H).
    destruct (Z.lt_total (fst e) k) as [L|[L|L]]; [auto|contradiction|auto].
Qed.

Lemma chain_weaken (gap limit lo lo' : Z) (m : fmap) :
  lo' <= lo -> chain gap limit lo m -> chain gap limit lo' m.
Proof.
  destruct m as [|[f s] r]; simpl; [tauto|].
  intros L (H1 & H2 & H3 & H4 & H5). repeat split; try assumption; lia.
Qed.

Lemma chain_In (gap limit : Z) (m : fmap) :
  forall lo f s, chain gap limit lo m -> In (f, s) m ->
    lo <= f /\ f <= UINT32_MAX /\ 0 <= s /\ f + s <= limit.
Proof.
  induction m as [|[f0 s0] r IH]; simpl; intros lo f s C I; [contradiction|].
  destruct C as (H1 & H2 & H3 & H4 & H5). destruct I as [E|I].
  - inversion E; subst. lia.
  - destruct (IH _ _ _ H5 I) as (A & B & C' & D). lia.
Qed.

(** Two stored intervals are the same entry or lie [gap] apart. *)
Lemma chain_apart (gap limit : Z) (m : fmap) :
  0 <= gap ->
  forall lo f s f' s', chain gap limit lo m -> In (f, s) m -> In (f', s') m ->
    (f = f' /\ s = s') \/ (f < f' /\ f + s + gap <= f') \/
    (f' < f /\ f' + s' + gap <= f).
Proof.
  intros G. induction m as [|[f0 s0] r IH]; simpl; intros lo f s f' s' C I I';
    [contradiction|].
  destruct C as (H1 & H2 & H3 & H4 & H5).
  destruct I as [E|I]; destruct I' as [E'|I'].
  - inversion E; inversion E'; subst. left. split; reflexivity.
  - inversion E; subst. pose proof (chain_In _ _ _ _ _ _ H5 I'). right; left. lia.
  - inversion E'; subst. pose proof (chain_In _ _ _ _ _ _ H5 I). right; right. lia.
  - exact (IH _ _ _ _ _ H5 I I').
Qed.

(** *** The best-fit scan *)

Definition fits (count : Z) (res : option (Z * Z)) : Prop :=
  match res with Some (_, rs) => count <= rs | None => True end.

Lemma scan_spec (count : Z) (m : fmap) :
  forall res, fits count res ->
  match scan count res m with
  | None => res = None /\ forall f s, In (f, s) m -> s < count
  | Some (pf, ps) =>
      count <= ps /\ (res = Some (pf, ps) \/ In (pf, ps) m) /\
      (forall rf rs, res = Some (rf, rs) -> ps <= rs) /\
      (forall f s, In (f, s) m -> count <= s -> ps <= s)
  end.
Proof.
  induction m as [|[f s] r IH]; intros res F; simpl.
  - destruct res as [[rf rs]|]; simpl in *.
    + split; [exact F|]. split; [left; reflexivity|]. split.
      * intros ? ? E; inversion E; lia.
      * intros ? ? [].
    + split; [reflexivity|intros ? ? []].
  - destruct (s >=? count) eqn:Hs.
    + apply Z.geb_le in Hs.
      destruct (match res with None => true | Some (_, rs) => rs >? s end) eqn:B.
      * destruct (s =? count) eqn:Q.
        { apply Z.eqb_eq in Q. subst s. split; [lia|].
          split; [right; left; reflexivity|]. split.
          - intros rf rs E. subst res. simpl in F. exact F.
          - intros f' s' _ L. exact L. }
        { specialize (IH (Some (f, s)) Hs).
          destruct (scan count (Some (f, s)) r) as [[pf ps]|].
          - destruct IH as (A & B' & C & D). pose proof (C _ _ eq_refl) as Cs.
            split; [exact A|]. split; [|split].
            + destruct B' as [E|I]; [inversion E; subst; auto|auto].
            + intros rf rs E. subst res. apply Z.gtb_lt in B. lia.
            + intros f' s' [E|I] L; [inversion E; subst; lia|eauto].
          - destruct IH as [E _]. discriminate. }
      * destruct res as [[rf rs]|]; [|discriminate].
        assert (Hrs : rs <= s) by (destruct (rs >? s) eqn:G; [discriminate|];
          rewrite Z.gtb_ltb in G; apply Z.ltb_ge in G; exact G).
        specialize (IH (Some (rf, rs)) F).
        destruct (scan count (Some (rf, rs)) r) as [[pf ps]|].
        { destruct IH as (A & B' & C & D). pose proof (C _ _ eq_refl) as Cs.
          split; [exact A|]. split; [|split].
          - destruct B' as [E|I]; auto.
          - exact C.
          - intros f' s' [E|I] L; [inversion E; subst; lia|eauto]. }
        { destruct IH as [E _]. discriminate. }
    + rewrite Z.geb_leb in Hs. apply Z.leb_gt in Hs.
      specialize (IH res F).
      destruct (scan count res r) as [[pf ps]|].
      * destruct IH as (A & B' & C & D).
        split; [exact A|]. split; [|split].
        { destruct B' as [E|I]; auto. }
        { exact C. }
        { intros f' s' [E|I] L; [inversion E; subst; lia|eauto]. }
      * destruct IH as [E N]. split; [exact E|].
        intros f' s' [E'|I]; [inversion E'; subst; lia|eauto].
Qed.


Lemma keys_get_None (k : Z) (m : fmap) :
  (forall e, In e m -> fst e <> k) -> get k m = None.
Proof.
  unfold get. intros H.
  destruct (find (fun e0 => fst e0 =? k) m) as [e|] eqn:F; [|reflexivity].
  apply find_some in F. destruct F as [I E]. apply Z.eqb_eq in E.
  exfalso. exact (H e I E).
Qed.

Lemma is_free_dummy (b : Z) : ~ is_free [(0, 0)] b.
Proof.
  intros (f & s & [E|[]] & H). inversion E; subst. lia.
Qed.

(** Removing [count] blocks from the front of the stored interval
    [(pos, len)] of a disjoint index, as [get_free] does it. *)
Lemma take_front (m : fmap) (pos len count : Z) :
  disjoint m -> In (pos, len) m -> 1 <= count <= len ->
  let m' := if u32 (len - count) =? 0
            then match erase pos m with [] => emplace 0 0 (erase pos m) | _ => erase pos m end
            else emplace (u32 (pos + count)) (u32 (len - count)) (erase pos m) in
  forall b, is_free m' b <-> is_free m b /\ ~ (pos <= b < pos + count).
Proof.
  intros D I C. cbv zeta. intros b.
  pose proof (chain_In _ _ _ _ _ _ D I) as (P0 & P1 & P2 & P3).
  assert (AP := fun f s => chain_apart 0 (2 ^ 32) m (Z.le_refl 0) 0 pos len f s D I).
  unfold UINT32_MAX in *.
  rewrite (u32_small (len - count)) by lia.
  assert (ER : is_free (erase pos m) b <-> is_free m b /\ ~ (pos <= b < pos + len)).
  { split.
    - intros (f & s & J & B). apply In_erase in J. destruct J as [J N]. simpl in N.
      split; [exists f, s; auto|]. destruct (AP f s J) as [[E _]|[L|L]]; [congruence|lia|lia].
    - intros [(f & s & J & B) N]. exists f, s. split; [|exact B].
      apply In_erase. split; [exact J|]. simpl. intros E. subst f.
      destruct (AP pos s J) as [[_ E]|[L|L]]; [subst; lia|lia|lia]. }
  destruct (len - count =? 0) eqn:Q.
  - apply Z.eqb_eq in Q. assert (len = count) by lia. subst len.
    destruct (erase pos m) as [|e r] eqn:EM.
    + split; [intros H; exfalso; exact (is_free_dummy b H)|].
      intros H. apply ER in H. destruct H as (f & s & [] & _).
    + exact ER.
  - apply Z.eqb_neq in Q. rewrite (u32_small (pos + count)) by lia.
    assert (G : get (pos + count) (erase pos m) = None).
    { apply keys_get_None. intros [f s] J. apply In_erase in J. destruct J as [J N].
      simpl in *. pose proof (chain_In _ _ _ _ _ _ D J).
      destruct (AP f s J) as [[E _]|[L|L]]; [congruence|lia|lia]. }
    split.
    + intros (f & s & J & B). apply (In_emplace_absent _ _ _ _ G) in J.
      destruct J as [E|J].
      * inversion E; subst. split; [exists pos, len; split; [exact I|lia]|lia].
      * assert (F : is_free (erase pos m) b) by (exists f, s; auto).
        apply ER in F. destruct F as [F N]. split; [exact F|lia].
    + intros [F N]. destruct (Z_lt_le_dec b (pos + len)) as [L|L].
      * destruct (Z_lt_le_dec b pos) as [L'|L'].
        { assert (F' : is_free (erase pos m) b) by (apply ER; split; [exact F|lia]).
          destruct F' as (f & s & J & B). exists f, s. split; [|exact B].
          apply (In_emplace_absent _ _ _ _ G). right. exact J. }
        { exists (pos + count), (len - count). split; [|lia].
          apply (In_emplace_absent _ _ _ _ G). left. reflexivity. }
      * assert (F' : is_free (erase pos m) b) by (apply ER; split; [exact F|lia]).
        destruct F' as (f & s & J & B). exists f, s. split; [|exact B].
        apply (In_emplace_absent _ _ _ _ G). right. exact J.
Qed.

(** [get_free(count)] on an index of pairwise disjoint intervals within
    [[0, 2^32]], for [count >= 1]: the default (empty) index is
    initialised to the remainder [(count, 2^32 - count)] and block 0 is
    returned; a non-empty index without an interval
    of length at least [count] makes the allocation fail; otherwise the
    start of a smallest sufficient interval is returned, exactly the
    [count] blocks at its front stop being free, and an index emptied by
    the removal holds the [(0, 0)] dummy. *)
Theorem get_free_best_fit (m : fmap) (count : Z) :
  1 <= count <= UINT32_MAX -> disjoint m ->
  (m = [] -> get_free count m = Some (0, [(count, 2 ^ 32 - count)])) /\
  (m <> [] -> (forall f s, In (f, s) m -> s < count) -> get_free count m = None) /\
  (forall f s, In (f, s) m -> count <= s ->
     exists pos len m',
       get_free count m = Some (pos, m') /\
       In (pos, len) m /\ count <= len /\
       (forall f' s', In (f', s') m -> count <= s' -> len <= s') /\
       (forall b, is_free m' b <-> is_free m b /\ ~ (pos <= b < pos + count)) /\
       (len = count -> erase pos m = [] -> m' = [(0, 0)])).
Proof.
  intros C D. unfold UINT32_MAX in C.
  pose proof (scan_spec count m None I) as S. unfold get_free.
  split; [|split].
  - intros E. subst m. cbn [scan].
    replace (count =? 0) with false by (symmetry; apply Z.eqb_neq; lia).
    rewrite u32_neg by (unfold UINT32_MAX; lia). reflexivity.
  - intros N A. destruct (scan count None m) as [[pf ps]|].
    + destruct S as (S1 & [S2|S2] & _); [discriminate|].
      specialize (A _ _ S2). lia.
    + destruct m; [contradiction|reflexivity].
  - intros f s J L. destruct (scan count None m) as [[pos len]|].
    + destruct S as (S1 & [S2|S2] & _ & S4); [discriminate|].
      pose proof (take_front m pos len count D S2 (conj (proj1 C) S1)) as T.
      simpl in T.
      exists pos, len.
      destruct (u32 (len - count) =? 0) eqn:Q.
      * eexists. split; [reflexivity|]. split; [exact S2|]. split; [exact S1|].
        split; [exact S4|]. split; [exact T|].
        intros _ E. rewrite E. reflexivity.
      * eexists. split; [reflexivity|]. split; [exact S2|]. split; [exact S1|].
        split; [exact S4|]. split; [exact T|].
        intros E _. subst len. rewrite Z.sub_diag in Q. discriminate Q.
    + destruct S as [_ S]. specialize (S _ _ J). lia.
Qed.

(** Witness for [get_free_best_fit]: a three-interval index. *)
Lemma get_free_best_fit_witness :
  get_free 3 [(0, 5); (10, 3); (20, 4)] = Some (10, [(0, 5); (20, 4)]) /\
  exists pos len m',
    get_free 3 [(0, 5); (10, 3); (20, 4)] = Some (pos, m') /\
    In (pos, len) [(0, 5); (10, 3); (20, 4)] /\ 3 <= len.
Proof.
  split; [reflexivity|].
  assert (C : 1 <= 3 <= UINT32_MAX) by (unfold UINT32_MAX; lia).
  assert (D : disjoint [(0, 5); (10, 3); (20, 4)])
    by (unfold disjoint; cbn [chain]; unfold UINT32_MAX; lia).
  destruct (proj2 (proj2 (get_free_best_fit _ 3 C D)) 0 5) as (pos & len & m' & G & J & L & _).
  - simpl. left. reflexivity.
  - lia.
  - exists pos, len, m'. auto.
Defined.


(** *** The map operations on a list split around a key *)

Definition lt_all (k : Z) (l : fmap) : Prop := forall e, In e l -> fst e < k.
Definition gt_all (k : Z) (l : fmap) : Prop := forall e, In e l -> k < fst e.

Lemma filter_all {A} (p : A -> bool) (l : list A) :
  (forall e, In e l -> p e = true) -> filter p l = l.
Proof.
  induction l as [|a l IH]; simpl; intros H; [reflexivity|].
  rewrite (H a (or_introl eq_refl)). f_equal. apply IH. intros e I. apply H. right. exact I.
Qed.

Lemma filter_none {A} (p : A -> bool) (l : list A) :
  (forall e, In e l -> p e = false) -> filter p l = [].
Proof.
  induction l as [|a l IH]; simpl; intros H; [reflexivity|].
  rewrite (H a (or_introl eq_refl)). apply IH. intros e I. apply H. right. exact I.
Qed.

Section SplitAround.
Variables (k : Z) (pre post : fmap).
Hypothesis Hpre : lt_all k pre.
Hypothesis Hpost : gt_all k post.

Lemma lower_pre : lower k pre = pre.
Proof. apply filter_all. intros e I. apply Z.ltb_lt. exact (Hpre e I). Qed.

Lemma lower_post : lower k post = [].
Proof. apply filter_none. intros e I. apply Z.ltb_ge. specialize (Hpost e I). lia. Qed.

Lemma upper_pre : upper k pre = [].
Proof. apply filter_none. intros e I. apply Z.ltb_ge. specialize (Hpre e I). lia. Qed.

Lemma upper_post : upper k post = post.
Proof. apply filter_all. intros e I. apply Z.ltb_lt. exact (Hpost e I). Qed.

Lemma lower_mid (v : Z) : lower k (pre ++ (k, v) :: post) = pre.
Proof.
  unfold lower. rewrite filter_app. simpl. rewrite Z.ltb_irrefl.
  fold (lower k pre) (lower k post). rewrite lower_pre, lower_post. apply app_nil_r.
Qed.

Lemma upper_mid (v : Z) : upper k (pre ++ (k, v) :: post) = post.
Proof.
  unfold upper. rewrite filter_app. simpl. rewrite Z.ltb_irrefl.
  fold (upper k pre) (upper k post). rewrite upper_pre, upper_post. reflexivity.
Qed.

Lemma lower_gap : lower k (pre ++ post) = pre.
Proof.
  unfold lower. rewrite filter_app.
  fold (lower k pre) (lower k post). rewrite lower_pre, lower_post. apply app_nil_r.
Qed.

Lemma upper_gap : upper k (pre ++ post) = post.
Proof.
  unfold upper. rewrite filter_app.
  fold (upper k pre) (upper k post). rewrite upper_pre, upper_post. reflexivity.
Qed.

Lemma get_mid (v : Z) : get k (pre ++ (k, v) :: post) = Some v.
Proof.
  unfold get. induction pre as [|a l IH]; simpl.
  - rewrite Z.eqb_refl. reflexivity.
  - assert (fst a < k) by (apply Hpre; left; reflexivity).
    replace (fst a =? k) with false by (symmetry; apply Z.eqb_neq; lia).
    apply IH. intros e I. apply Hpre. right. exact I.
Qed.

Lemma get_gap : get k (pre ++ post) = None.
Proof.
  apply keys_get_None. intros e I. apply in_app_or in I. destruct I as [I|I].
  - specialize (Hpre e I). lia.
  - specialize (Hpost e I). lia.
Qed.

Lemma second_mid (v : Z) : second k (pre ++ (k, v) :: post) = v.
Proof. unfold second. rewrite get_mid. reflexivity. Qed.

Lemma emplace_mid (v v' : Z) :
  emplace k v' (pre ++ (k, v) :: post) = pre ++ (k, v) :: post.
Proof. unfold emplace. rewrite get_mid. reflexivity. Qed.

Lemma emplace_gap (v : Z) : emplace k v (pre ++ post) = pre ++ (k, v) :: post.
Proof. unfold emplace. rewrite get_gap, lower_gap, upper_gap. reflexivity. Qed.

Lemma set_mid (v v' : Z) :
  set k v' (pre ++ (k, v) :: post) = pre ++ (k, v') :: post.
Proof.
  unfold set. rewrite map_app. simpl. rewrite Z.eqb_refl. f_equal; [|f_equal].
  - rewrite <- (map_id pre) at 2. apply map_ext_in. intros e I.
    specialize (Hpre e I). replace (fst e =? k) with false; [reflexivity|].
    symmetry; apply Z.eqb_neq; lia.
  - rewrite <- (map_id post) at 2. apply map_ext_in. intros e I.
    specialize (Hpost e I). replace (fst e =? k) with false; [reflexivity|].
    symmetry; apply Z.eqb_neq; lia.
Qed.

Lemma erase_mid (v : Z) : erase k (pre ++ (k, v) :: post) = pre ++ post.
Proof.
  unfold erase. rewrite filter_app. simpl. rewrite Z.eqb_refl. simpl. f_equal.
  - apply filter_all. intros e I. specialize (Hpre e I).
    apply negb_true_iff, Z.eqb_neq. lia.
  - apply filter_all. intros e I. specialize (Hpost e I).
    apply negb_true_iff, Z.eqb_neq. lia.
Qed.

Lemma next_mid (v : Z) :
  next k (pre ++ (k, v) :: post) = match post with e :: _ => Some e | [] => None end.
Proof. unfold next. rewrite upper_mid. reflexivity. Qed.

Lemma prev_mid (v : Z) :
  prev k (pre ++ (k, v) :: post) = match rev pre with e :: _ => Some e | [] => None end.
Proof. unfold prev. rewrite lower_mid. reflexivity. Qed.

End SplitAround.


(** *** Chains and concatenation *)

(** Lowest admissible start after the intervals of [l]. *)
Fixpoint top (gap lo : Z) (l : fmap) : Z :=
  match l with
  | [] => lo
  | (f, s) :: r => top gap (Z.max (f + 1) (f + s + gap)) r
  end.

Lemma chain_app (gap limit : Z) (a b : fmap) :
  forall lo, chain gap limit lo (a ++ b) <->
             chain gap limit lo a /\ chain gap limit (top gap lo a) b.
Proof.
  induction a as [|[f s] r IH]; intros lo; simpl; [tauto|].
  rewrite IH. tauto.
Qed.


Lemma chain_raise (gap limit lo lo' : Z) (m : fmap) :
  chain gap limit lo m -> gt_all (lo' - 1) m -> chain gap limit lo' m.
Proof.
  destruct m as [|[f s] r]; simpl; [tauto|].
  intros (H1 & H2 & H3 & H4 & H5) G. specialize (G (f, s) (or_introl eq_refl)).
  simpl in G. repeat split; try assumption; lia.
Qed.

Lemma chain_gt_all (gap limit lo k : Z) (m : fmap) :
  chain gap limit lo m -> k < lo -> gt_all k m.
Proof.
  intros C L [f s] I. destruct (chain_In _ _ _ _ _ _ C I) as (A & _). simpl. lia.
Qed.

Lemma chain_top (gap limit : Z) (m : fmap) :
  0 <= gap -> forall lo, chain gap limit lo m ->
  lo <= top gap lo m /\ lt_all (top gap lo m) m.
Proof.
  intros G. induction m as [|[f s] r IH]; intros lo C; simpl.
  - split; [lia|intros e []].
  - destruct C as (H1 & H2 & H3 & H4 & H5). destruct (IH _ H5) as [A B].
    split; [lia|]. intros e [E|I]; [subst e; simpl; lia|exact (B e I)].
Qed.

Lemma lt_all_weaken (k k' : Z) (l : fmap) : k <= k' -> lt_all k l -> lt_all k' l.
Proof. intros L H e I. specialize (H e I). lia. Qed.

Lemma gt_all_weaken (k k' : Z) (l : fmap) : k' <= k -> gt_all k l -> gt_all k' l.
Proof. intros L H e I. specialize (H e I). lia. Qed.

(** A chain splits around any key. *)
Lemma chain_split (gap limit : Z) (k : Z) (m : fmap) :
  0 <= gap -> forall lo, chain gap limit lo m ->
  exists pre post, lt_all k pre /\ gt_all k post /\
    (m = pre ++ post \/ exists v, m = pre ++ (k, v) :: post).
Proof.
  intros G. induction m as [|[f s] r IH]; intros lo C.
  - exists [], []. split; [intros e []|]. split; [intros e []|]. left. reflexivity.
  - simpl in C. destruct C as (H1 & H2 & H3 & H4 & H5).
    destruct (Z.lt_total f k) as [L|[L|L]].
    + destruct (IH _ H5) as (pre & post & A & B & E).
      exists ((f, s) :: pre), post. split; [|split; [exact B|]].
      * intros e [E'|I]; [subst e; exact L|exact (A e I)].
      * destruct E as [E|[v E]]; subst r; [left|right; exists v]; reflexivity.
    + subst f. exists [], r. split; [intros e []|]. split.
      * apply (chain_gt_all _ _ _ _ _ H5). lia.
      * right. exists s. reflexivity.
    + exists [], ((f, s) :: r). split; [intros e []|]. split.
      * intros e [E|I]; [subst e; exact L|].
        assert (T := chain_gt_all _ _ _ f _ H5). apply T in I; lia.
      * left. reflexivity.
Qed.


(** *** The stages of [add_free] on a coalesced index *)


Lemma u32_merge (a c d e : Z) :
  u32 (a + u32 (c - u32 (u32 d - e))) = u32 (a + c - (d - e)).
Proof.
  unfold u32. rewrite Zplus_mod_idemp_r.
  replace (a + (c - (d mod 2 ^ 32 - e) mod 2 ^ 32))
    with (a + c - (d mod 2 ^ 32 - e) mod 2 ^ 32) by ring.
  rewrite Zminus_mod_idemp_r.
  replace (a + c - (d mod 2 ^ 32 - e)) with (a + c + e - d mod 2 ^ 32) by ring.
  rewrite Zminus_mod_idemp_r. f_equal. ring.
Qed.







(** C8 at its failing input.  The default index after [get_free(2)] holds
    the single interval [(2, 2^32 - 2)], which ends at [2^32]: the sum
    [first + second] of "Check previous entry" wraps to 0 in 32 bits, so
    [add_free] does not see the interval as a left neighbour.
    [add_free(5, 1)] then stores a second interval covering block 5, which
    the first interval covers too, and the call [add_free(UINT32_MAX, 1)]
    (the release of the "none" terminator index by the first flush) stores
    an entry that starts inside the first interval: after either call the
    stored intervals are not pairwise disjoint. *)
Theorem add_free_overlaps_top_interval :
  get_free 2 [] = Some (0, [(2, 2 ^ 32 - 2)]) /\
  reachable [(2, 2 ^ 32 - 2)] /\ disjoint [(2, 2 ^ 32 - 2)] /\
  add_free 5 1 [(2, 2 ^ 32 - 2)] = [(2, 2 ^ 32 - 2); (5, 1)] /\
  ~ disjoint (add_free 5 1 [(2, 2 ^ 32 - 2)]) /\
  add_free UINT32_MAX 1 [(2, 2 ^ 32 - 2)] = [(2, 2 ^ 32 - 2); (UINT32_MAX, 0)] /\
  ~ disjoint (add_free UINT32_MAX 1 [(2, 2 ^ 32 - 2)]).
Proof.
  assert (G : get_free 2 [] = Some (0, [(2, 2 ^ 32 - 2)])) by reflexivity.
  split; [exact G|]. split.
  { apply (reach_get 2 0 [] _ reach_default); [unfold UINT32_MAX; lia|exact G]. }
  split; [unfold disjoint; cbn [chain]; unfold UINT32_MAX; lia|].
  assert (A1 : add_free 5 1 [(2, 2 ^ 32 - 2)] = [(2, 2 ^ 32 - 2); (5, 1)])
    by (vm_compute; reflexivity).
  assert (A2 : add_free UINT32_MAX 1 [(2, 2 ^ 32 - 2)]
               = [(2, 2 ^ 32 - 2); (UINT32_MAX, 0)])
    by (vm_compute; reflexivity).
  split; [exact A1|]. split.
  { rewrite A1. unfold disjoint. cbn [chain]. unfold UINT32_MAX. lia. }
  split; [exact A2|].
  rewrite A2. unfold disjoint. cbn [chain]. unfold UINT32_MAX. lia.
Qed.


(** *** The set of free blocks *)

Lemma is_free_app (a b : fmap) (x : Z) :
  is_free (a ++ b) x <-> is_free a x \/ is_free b x.
Proof.
  unfold is_free. split.
  - intros (f & s & I & R). apply in_app_or in I.
    destruct I as [I|I]; [left|right]; exists f, s; auto.
  - intros [(f & s & I & R)|(f & s & I & R)]; exists f, s; split; auto;
      apply in_or_app; auto.
Qed.

Lemma is_free_cons (f s : Z) (r : fmap) (x : Z) :
  is_free ((f, s) :: r) x <-> f <= x < f + s \/ is_free r x.
Proof.
  unfold is_free. split.
  - intros (f' & s' & [E|I] & R); [inversion E; subst; auto|right; exists f', s'; auto].
  - intros [R|(f' & s' & I & R)]; [exists f, s|exists f', s']; split; auto;
      [left; reflexivity|right; exact I].
Qed.

Lemma is_free_nil (x : Z) : ~ is_free [] x.
Proof. intros (f & s & [] & _). Qed.

(** [add_free], first half, for a run that no stored interval touches from
    inside: the run is stored as it is. *)
Lemma insert_run (b c : Z) (pre post : fmap) (old : option Z) :
  lt_all b pre -> gt_all b post ->
  0 <= b -> 1 <= c -> b + c <= UINT32_MAX ->
  match old with Some v => v = 0 | None => True end ->
  insert_clamped b c
    (pre ++ match old with Some v => (b, v) :: post | None => post end)
  = pre ++ (b, c) :: post.
Proof.
  intros Hpre Hpost Hb Hc Hbc Hold. unfold insert_clamped. unfold UINT32_MAX in *.
  assert (E1 :
     (if second b (emplace b c (pre ++ match old with Some v => (b, v) :: post | None => post end)) <? c
      then set b c (emplace b c (pre ++ match old with Some v => (b, v) :: post | None => post end))
      else emplace b c (pre ++ match old with Some v => (b, v) :: post | None => post end))
     = pre ++ (b, c) :: post).
  { destruct old as [v|].
    - subst v. rewrite emplace_mid, second_mid by assumption.
      replace (0 <? c) with true by (symmetry; apply Z.ltb_lt; lia).
      rewrite set_mid by assumption. reflexivity.
    - rewrite emplace_gap, second_mid by assumption.
      rewrite Z.ltb_irrefl. reflexivity. }
  rewrite E1, second_mid by assumption.
  rewrite u32_small by lia.
  replace (c + b <? b) with false by (symmetry; apply Z.ltb_ge; lia).
  reflexivity.
Qed.

(** "Check previous entry" when every interval before the run ends at or
    before its start: the run is appended to a neighbour that ends exactly
    there, and stays an entry of its own otherwise. *)
Lemma merge_prev_run (b c : Z) (pre post : fmap) :
  chain 1 UINT32_MAX 0 pre -> lt_all b pre -> gt_all b post ->
  0 <= b -> 1 <= c -> b + c <= UINT32_MAX ->
  (forall f s, In (f, s) pre -> f + s <= b) ->
  exists pre' it s',
    merge_prev b (pre ++ (b, c) :: post) = (pre' ++ (it, s') :: post, it) /\
    it + s' = b + c /\ 0 <= it <= b /\ 0 <= s' /\ lt_all it pre' /\
    (forall x, is_free (pre' ++ [(it, s')]) x <-> is_free pre x \/ b <= x < b + c).
Proof.
  intros C Hpre Hpost Hb Hc Hbc Ap. unfold merge_prev.
  rewrite prev_mid by assumption.
  destruct (rev pre) as [|[p pl] rp] eqn:R.
  - assert (pre = []) by (rewrite <- (rev_involutive pre), R; reflexivity). subst pre.
    exists [], b, c. split; [reflexivity|]. split; [reflexivity|]. split; [lia|].
    split; [lia|]. split; [intros e []|]. intros x. cbn [app].
    rewrite is_free_cons. pose proof (is_free_nil x). tauto.
  - assert (E : pre = rev rp ++ [(p, pl)])
      by (rewrite <- (rev_involutive pre), R; reflexivity).
    subst pre. clear R. set (pre0 := rev rp) in *.
    apply chain_app in C. destruct C as [C0 C1]. simpl in C1.
    destruct C1 as (T1 & T2 & T3 & T4 & _).
    assert (Lp : p < b) by (apply (Hpre (p, pl)), in_or_app; right; left; reflexivity).
    assert (Ep : p + pl <= b) by (apply Ap, in_or_app; right; left; reflexivity).
    destruct (chain_top 1 UINT32_MAX pre0 ltac:(lia) 0 C0) as [P0 A].
    assert (Hpre0 : lt_all p pre0)
      by (apply (lt_all_weaken (top 1 0 pre0)); assumption).
    unfold UINT32_MAX in *.
    destruct (u32 (p + pl) >=? b) eqn:Q; rewrite (u32_small (p + pl)) in Q by lia.
    + apply Z.geb_le in Q.
      rewrite erase_mid, second_mid by assumption.
      rewrite u32_merge. rewrite u32_small by lia.
      rewrite <- app_assoc. simpl.
      rewrite set_mid; [|exact Hpre0|apply (gt_all_weaken b); [lia|exact Hpost]].
      exists pre0, p, (pl + c - (p + pl - b)).
      split; [reflexivity|]. split; [lia|]. split; [lia|]. split; [lia|].
      split; [exact Hpre0|]. intros x.
      rewrite !is_free_app, !is_free_cons. pose proof (is_free_nil x).
      assert (p <= x < p + (pl + c - (p + pl - b)) <-> p <= x < p + pl \/ b <= x < b + c)
        by lia.
      tauto.
    + rewrite Z.geb_leb in Q. apply Z.leb_gt in Q.
      exists (pre0 ++ [(p, pl)]), b, c. split; [reflexivity|]. split; [reflexivity|].
      split; [lia|]. split; [lia|]. split; [exact Hpre|]. intros x.
      rewrite (is_free_app (pre0 ++ [(p, pl)])), is_free_cons.
      pose proof (is_free_nil x). tauto.
Qed.

(** "Check next entry" when every later interval starts at or after the
    end of the entry at [it]. *)
Lemma merge_next_run (it s' lo : Z) (pre' post : fmap) :
  lt_all it pre' -> gt_all it post -> chain 1 UINT32_MAX lo post ->
  0 <= it -> 0 <= s' -> it + s' <= UINT32_MAX ->
  (forall f s, In (f, s) post -> it + s' <= f) ->
  forall x, is_free (merge_next it (pre' ++ (it, s') :: post)) x <->
            is_free (pre' ++ [(it, s')]) x \/ is_free post x.
Proof.
  intros Hpre Hpost Cp Hit Hs Hb Ap x. unfold merge_next.
  rewrite next_mid by assumption.
  destruct post as [|[n nl] post'].
  - pose proof (is_free_nil x). tauto.
  - simpl in Cp. destruct Cp as (N1 & N2 & N3 & N4 & N5).
    assert (En : it + s' <= n) by (apply (Ap n nl); left; reflexivity).
    assert (Ln : it < n) by (apply (Hpost (n, nl)); left; reflexivity).
    rewrite second_mid by assumption. unfold UINT32_MAX in *.
    destruct (u32 (it + s') >=? n) eqn:Q; rewrite (u32_small (it + s')) in Q by lia.
    + apply Z.geb_le in Q.
      rewrite u32_merge. rewrite u32_small by lia.
      rewrite set_mid by assumption.
      replace (pre' ++ (it, s' + nl - (it + s' - n)) :: (n, nl) :: post')
        with ((pre' ++ [(it, s' + nl - (it + s' - n))]) ++ (n, nl) :: post')
        by (rewrite <- app_assoc; reflexivity).
      rewrite erase_mid.
      * rewrite !is_free_app, !is_free_cons. pose proof (is_free_nil x).
        assert (it <= x < it + (s' + nl - (it + s' - n)) <->
                it <= x < it + s' \/ n <= x < n + nl) by lia.
        tauto.
      * intros e I. apply in_app_or in I. destruct I as [I|[E|[]]].
        { specialize (Hpre e I). lia. }
        { subst e. cbn [fst]. lia. }
      * apply (chain_gt_all _ _ _ _ _ N5). lia.
    + replace (pre' ++ (it, s') :: (n, nl) :: post')
        with ((pre' ++ [(it, s')]) ++ (n, nl) :: post')
        by (rewrite <- app_assoc; reflexivity).
      rewrite (is_free_app (pre' ++ [(it, s')])). tauto.
Qed.

Lemma add_free_run (b c : Z) (m : fmap) :
  coalesced m -> 0 <= b -> 0 <= c -> b + c <= UINT32_MAX ->
  (forall f s, In (f, s) m -> f + s <= b \/ b + c <= f) ->
  forall x, is_free (add_free b c m) x <-> is_free m x \/ b <= x < b + c.
Proof.
  intros C Hb Hc Hbc Ap x. unfold add_free.
  destruct (c =? 0) eqn:Q.
  { apply Z.eqb_eq in Q. split; [auto|]. intros [H|H]; [exact H|lia]. }
  apply Z.eqb_neq in Q.
  destruct (chain_split 1 UINT32_MAX b m ltac:(lia) 0 C) as (pre & post & Hpre & Hpost & E).
  assert (S : exists old, m = pre ++ match old with Some v => (b, v) :: post | None => post end
          /\ match old with Some v => v = 0 | None => True end).
  { destruct E as [E|[v E]].
    - exists None. split; [exact E|exact I].
    - exists (Some v). split; [exact E|]. subst m.
      assert (J : In (b, v) (pre ++ (b, v) :: post))
        by (apply in_or_app; right; left; reflexivity).
      pose proof (chain_In _ _ _ _ _ _ C J). specialize (Ap _ _ J). lia. }
  destruct S as (old & E' & Hold). clear E.
  assert (Cpre : chain 1 UINT32_MAX 0 pre).
  { subst m. apply chain_app in C. tauto. }
  assert (Cpost : chain 1 UINT32_MAX (b + 1) post).
  { subst m. apply chain_app in C. destruct C as [_ C]. destruct old as [v|].
    - cbn [chain] in C. destruct C as (_ & _ & _ & _ & C).
      apply (chain_weaken _ _ (Z.max (b + 1) (b + v + 1))); [lia|exact C].
    - apply (chain_raise _ _ (top 1 0 pre)); [exact C|].
      replace (b + 1 - 1) with b by ring. exact Hpost. }
  assert (Apre : forall f s, In (f, s) pre -> f + s <= b).
  { intros f s J. specialize (Hpre _ J). cbn [fst] in Hpre.
    assert (J' : In (f, s) m) by (subst m; apply in_or_app; left; exact J).
    specialize (Ap _ _ J'). lia. }
  assert (Apost : forall f s, In (f, s) post -> b + c <= f).
  { intros f s J. specialize (Hpost _ J) as G. cbn [fst] in G.
    pose proof (chain_In _ _ _ _ _ _ Cpost J) as (_ & _ & S0 & _).
    assert (J' : In (f, s) m).
    { subst m. apply in_or_app. right. destruct old; [right|]; exact J. }
    specialize (Ap _ _ J'). lia. }
  assert (Fm : is_free m x <-> is_free pre x \/ is_free post x).
  { subst m. rewrite is_free_app. destruct old as [v|]; [|tauto].
    subst v. rewrite is_free_cons. assert (~ b <= x < b + 0) by lia. tauto. }
  rewrite Fm. clear Fm.
  rewrite E', (insert_run b c pre post old Hpre Hpost Hb ltac:(lia) Hbc Hold).
  destruct (merge_prev_run b c pre post Cpre Hpre Hpost Hb ltac:(lia) Hbc Apre)
    as (pre' & it & s' & E3 & Hs & Hit & Hs' & Hpre' & F3).
  rewrite E3.
  rewrite (merge_next_run it s' (b + 1) pre' post Hpre'
             (gt_all_weaken b it post ltac:(lia) Hpost) Cpost
             ltac:(lia) Hs' ltac:(lia)
             ltac:(intros f s J; specialize (Apost _ _ J); lia) x).
  rewrite F3. tauto.
Qed.

(** [add_free(block, count)] of a run that ends at or below [UINT32_MAX]
    and that no stored interval overlaps, on a coalesced index: afterwards
    exactly the blocks that were free and the blocks of the run are free. *)
Theorem add_free_frees_run (b c : Z) (m : fmap) :
  coalesced m -> 0 <= b -> 0 <= c -> b + c <= UINT32_MAX ->
  (forall f s, In (f, s) m -> f + s <= b \/ b + c <= f) ->
  forall x, is_free (add_free b c m) x <-> is_free m x \/ b <= x < b + c.
Proof. exact (add_free_run b c m). Qed.

(** Witness for [add_free_frees_run]: the run between two intervals it
    abuts on both sides. *)
Lemma add_free_frees_run_witness :
  add_free 3 2 [(0, 3); (5, 1); (10, 1)] = [(0, 6); (10, 1)] /\
  forall x, is_free (add_free 3 2 [(0, 3); (5, 1); (10, 1)]) x <->
            is_free [(0, 3); (5, 1); (10, 1)] x \/ 3 <= x < 3 + 2.
Proof.
  split; [reflexivity|].
  apply add_free_frees_run.
  - unfold coalesced; cbn [chain]; unfold UINT32_MAX; lia.
  - lia.
  - lia.
  - unfold UINT32_MAX; lia.
  - intros f s [E|[E|[E|[]]]]; inversion E; subst; lia.
Defined.

(** Freeing a run that lies strictly inside a stored interval (a double
    free) truncates that interval to the end of the run: the blocks of the
    interval behind the run stop being free. *)
Theorem add_free_inside_truncates (b c p pl : Z) (m : fmap) :
  coalesced m -> In (p, pl) m -> p < b -> 1 <= c -> b + c < p + pl ->
  forall x, is_free (add_free b c m) x <->
            is_free m x /\ ~ (b + c <= x < p + pl).
Proof.
  intros C J Lp Hc Hbc x. unfold add_free.
  replace (c =? 0) with false by (symmetry; apply Z.eqb_neq; lia).
  destruct (chain_split 1 UINT32_MAX p m ltac:(lia) 0 C) as (pre0 & post & Hpre0 & Hpost0 & E).
  assert (E' : m = pre0 ++ (p, pl) :: post).
  { destruct E as [E|[v E]].
    - exfalso. subst m. apply in_app_or in J. destruct J as [J|J].
      + specialize (Hpre0 _ J). cbn [fst] in Hpre0. lia.
      + specialize (Hpost0 _ J). cbn [fst] in Hpost0. lia.
    - subst m. apply in_app_or in J. destruct J as [J|[J|J]].
      + specialize (Hpre0 _ J). cbn [fst] in Hpre0. lia.
      + inversion J; subst. reflexivity.
      + specialize (Hpost0 _ J). cbn [fst] in Hpost0. lia. }
  clear E. subst m. pose proof C as Cm.
  apply chain_app in C. destruct C as [C0 C1]. cbn [chain] in C1.
  destruct C1 as (T1 & T2 & T3 & T4 & C1).
  destruct (chain_top 1 UINT32_MAX pre0 ltac:(lia) 0 C0) as [P0 A].
  assert (Gpost : gt_all (p + pl) post) by (apply (chain_gt_all _ _ _ _ _ C1); lia).
  assert (Hpre : lt_all b (pre0 ++ [(p, pl)])).
  { intros e I. apply in_app_or in I. destruct I as [I|[I|[]]].
    - specialize (Hpre0 _ I). lia.
    - subst e. exact Lp. }
  assert (Hpost : gt_all b post) by (apply (gt_all_weaken (p + pl)); [lia|exact Gpost]).
  unfold UINT32_MAX in *.
  replace (pre0 ++ (p, pl) :: post) with ((pre0 ++ [(p, pl)]) ++ post)
    by (rewrite <- app_assoc; reflexivity).
  rewrite (insert_run b c (pre0 ++ [(p, pl)]) post None Hpre Hpost ltac:(lia) Hc
             ltac:(unfold UINT32_MAX; lia) I).
  unfold merge_prev. rewrite prev_mid by assumption.
  rewrite rev_app_distr. cbn [rev app].
  replace (u32 (p + pl) >=? b) with true
    by (symmetry; rewrite u32_small by lia; apply Z.geb_le; lia).
  rewrite erase_mid, second_mid by assumption.
  rewrite u32_merge, u32_small by lia.
  rewrite <- app_assoc. cbn [app].
  rewrite set_mid by assumption.
  unfold merge_next. rewrite next_mid by assumption.
  rewrite second_mid by assumption.
  assert (R : is_free (pre0 ++ (p, pl + c - (p + pl - b)) :: post) x <->
              is_free (pre0 ++ (p, pl) :: post) x /\ ~ (b + c <= x < p + pl)).
  { rewrite !is_free_app, !is_free_cons. split.
    - intros [H|[H|H]]; [| |].
      + split; [auto|]. destruct H as (f & s & I1 & R1).
        specialize (Hpre0 _ I1). cbn [fst] in Hpre0.
        destruct (chain_apart 1 _ _ ltac:(lia) 0 f s p pl Cm
                    ltac:(apply in_or_app; left; exact I1) J) as [Q|[Q|Q]]; lia.
      + split; [right; left; lia|lia].
      + split; [auto|]. destruct H as (f & s & I1 & R1).
        specialize (Gpost _ I1). cbn [fst] in Gpost. lia.
    - intros [[H|[H|H]] N]; [auto| |auto]. right. left. lia. }
  destruct post as [|[n nl] post']; [exact R|].
  assert (Ln : p + pl < n) by (apply (Gpost (n, nl)); left; reflexivity).
  rewrite (u32_small (p + (pl + c - (p + pl - b)))) by lia.
  replace (p + (pl + c - (p + pl - b)) >=? n) with false
    by (symmetry; rewrite Z.geb_leb; apply Z.leb_gt; lia).
  exact R.
Qed.

(** Witness for [add_free_inside_truncates]: blocks 2..4 of the free
    interval 0..9 are freed again; blocks 5..9 are lost. *)
Lemma add_free_inside_truncates_witness :
  add_free 2 3 [(0, 10)] = [(0, 5)] /\
  forall x, is_free (add_free 2 3 [(0, 10)]) x <->
            is_free [(0, 10)] x /\ ~ (2 + 3 <= x < 0 + 10).
Proof.
  split; [reflexivity|].
  apply add_free_inside_truncates.
  - unfold coalesced; cbn [chain]; unfold UINT32_MAX; lia.
  - left. reflexivity.
  - lia.
  - lia.
  - lia.
Defined.

(** What [get_free] leaves of a coalesced index from which it takes the
    front of the interval [(pos, len)]. *)
Lemma get_free_shape (m : fmap) (c pos len : Z) :
  coalesced m -> 1 <= c <= len -> In (pos, len) m ->
  exists pre post rest,
    m = pre ++ (pos, len) :: post /\
    (if u32 (len - c) =? 0
     then match erase pos m with [] => emplace 0 0 (erase pos m) | _ => erase pos m end
     else emplace (u32 (pos + c)) (u32 (len - c)) (erase pos m)) = rest /\
    coalesced rest /\
    (forall f s, In (f, s) rest -> f + s <= pos \/ pos + c <= f) /\
    (forall x, is_free rest x <->
               is_free pre x \/ pos + c <= x < pos + len \/ is_free post x).
Proof.
  intros C Hc J.
  destruct (chain_split 1 UINT32_MAX pos m ltac:(lia) 0 C) as (pre & post & Hpre & Hpost & E).
  assert (E' : m = pre ++ (pos, len) :: post).
  { destruct E as [E|[v E]].
    - exfalso. subst m. apply in_app_or in J. destruct J as [J|J].
      + specialize (Hpre _ J). cbn [fst] in Hpre. lia.
      + specialize (Hpost _ J). cbn [fst] in Hpost. lia.
    - subst m. apply in_app_or in J. destruct J as [J|[J|J]].
      + specialize (Hpre _ J). cbn [fst] in Hpre. lia.
      + inversion J; subst. reflexivity.
      + specialize (Hpost _ J). cbn [fst] in Hpost. lia. }
  clear E. subst m. pose proof C as Cm.
  apply chain_app in C. destruct C as [C0 C1]. cbn [chain] in C1.
  destruct C1 as (T1 & T2 & T3 & T4 & C1).
  assert (Gpost : gt_all (pos + len) post) by (apply (chain_gt_all _ _ _ _ _ C1); lia).
  assert (Apre : forall f s, In (f, s) pre -> f + s < pos).
  { intros f s I1. specialize (Hpre _ I1). cbn [fst] in Hpre.
    destruct (chain_apart 1 _ _ ltac:(lia) 0 f s pos len Cm
                ltac:(apply in_or_app; left; exact I1) J) as [Q|[Q|Q]]; lia. }
  assert (Cpp : chain 1 UINT32_MAX 0 (pre ++ post)).
  { apply chain_app. split; [exact C0|].
    apply (chain_raise _ _ (Z.max (pos + 1) (pos + len + 1))); [exact C1|].
    apply (gt_all_weaken (pos + len)); [|exact Gpost].
    destruct (chain_top 1 UINT32_MAX pre ltac:(lia) 0 C0). lia. }
  pose proof (chain_In _ _ _ _ _ _ Cm J) as (P0 & _).
  exists pre, post. rewrite erase_mid by assumption. unfold UINT32_MAX in *.
  rewrite (u32_small (len - c)) by lia.
  destruct (len - c =? 0) eqn:Q.
  - apply Z.eqb_eq in Q.
    exists (match pre ++ post with [] => [(0, 0)] | _ => pre ++ post end).
    split; [reflexivity|]. split; [destruct (pre ++ post); reflexivity|].
    destruct (pre ++ post) as [|e r] eqn:PP.
    + apply app_eq_nil in PP. destruct PP; subst pre post.
      split; [unfold coalesced; cbn [chain]; unfold UINT32_MAX; lia|].
      split; [intros f s [E|[]]; inversion E; subst; lia|].
      intros x. rewrite is_free_cons. pose proof (is_free_nil x) as Nx.
      split; [intros [H|H]; [lia|contradiction]|].
      intros [H|[H|H]]; [contradiction|lia|contradiction].
    + rewrite <- PP in *. split; [exact Cpp|]. split.
      * intros f s I1. apply in_app_or in I1. destruct I1 as [I1|I1].
        { specialize (Apre _ _ I1). lia. }
        { specialize (Gpost _ I1). cbn [fst] in Gpost. lia. }
      * intros x. rewrite is_free_app. assert (~ pos + c <= x < pos + len) by lia. tauto.
  - apply Z.eqb_neq in Q. rewrite u32_small by lia.
    assert (Hpre' : lt_all (pos + c) pre)
      by (apply (lt_all_weaken pos); [lia|exact Hpre]).
    assert (Hpost' : gt_all (pos + c) post)
      by (apply (gt_all_weaken (pos + len)); [lia|exact Gpost]).
    rewrite emplace_gap by assumption.
    exists (pre ++ (pos + c, len - c) :: post).
    split; [reflexivity|]. split; [reflexivity|]. split; [|split].
    + apply chain_app. split; [exact C0|]. cbn [chain]. unfold UINT32_MAX.
      repeat split; try lia.
      apply (chain_weaken _ _ (Z.max (pos + 1) (pos + len + 1))); [lia|exact C1].
    + intros f s I1. apply in_app_or in I1. destruct I1 as [I1|[I1|I1]].
      * specialize (Apre _ _ I1). lia.
      * inversion I1; subst. lia.
      * specialize (Gpost _ I1). cbn [fst] in Gpost. lia.
    + intros x. rewrite is_free_app, is_free_cons.
      assert (pos + c <= x < pos + c + (len - c) <-> pos + c <= x < pos + len) by lia.
      tauto.
Qed.

(** Allocating a run from a non-empty coalesced index and freeing it
    again: the index left by the allocation is coalesced, and after the
    release the same blocks are free as before the allocation. *)
Theorem get_free_then_add_free (m m' : fmap) (c pos : Z) :
  coalesced m -> m <> [] -> 1 <= c ->
  get_free c m = Some (pos, m') ->
  coalesced m' /\
  forall x, is_free (add_free pos c m') x <-> is_free m x.
Proof.
  intros C N Hc G. unfold get_free in G.
  pose proof (scan_spec c m None I) as S.
  destruct (scan c None m) as [[p len]|]; [|destruct m; [contradiction|discriminate G]].
  destruct S as (S1 & [S2|S2] & _); [discriminate S2|].
  destruct (get_free_shape m c p len C (conj Hc S1) S2)
    as (pre & post & rest & Em & Er & Cr & Ar & Fr).
  assert (E : pos = p /\ m' = rest).
  { cbv zeta in G. destruct (u32 (len - c) =? 0); inversion G; subst; auto. }
  destruct E; subst pos m'. clear G.
  pose proof (chain_In _ _ _ _ _ _ C S2) as (P0 & P1 & P2 & P3).
  assert (Hp : p + c <= UINT32_MAX) by lia.
  split; [exact Cr|].
  intros x. rewrite (add_free_run p c rest Cr P0 ltac:(lia) Hp Ar x), Fr, Em.
  rewrite is_free_app, is_free_cons.
  assert (p + c <= x < p + len \/ p <= x < p + c <-> p <= x < p + len) by lia.
  tauto.
Qed.

(** Witness for [get_free_then_add_free]. *)
Lemma get_free_then_add_free_witness :
  get_free 3 [(0, 5); (10, 3); (20, 4)] = Some (10, [(0, 5); (20, 4)]) /\
  coalesced [(0, 5); (20, 4)] /\
  forall x, is_free (add_free 10 3 [(0, 5); (20, 4)]) x <->
            is_free [(0, 5); (10, 3); (20, 4)] x.
Proof.
  split; [reflexivity|].
  apply (get_free_then_add_free [(0, 5); (10, 3); (20, 4)] _ 3 10).
  - unfold coalesced; cbn [chain]; unfold UINT32_MAX; lia.
  - discriminate.
  - lia.
  - reflexivity.
Defined.

End free_space.

(** ** Big-endian scalars ([std::be_t], endian.hpp)

    Bytes are integers in [[0, 256)]. *)

Fixpoint le_bytes (n : nat) (x : Z) : list Z :=
  match n with
  | O => []
  | S k => x mod 256 :: le_bytes k (x / 256)
  end.

Fixpoint le_value (l : list Z) : Z :=
  match l with
  | [] => 0
  | b :: r => b + 256 * le_value r
  end.

(** The [n] bytes of [x], most significant first. *)
Definition be_bytes (n : nat) (x : Z) : list Z := rev (le_bytes n x).
Definition be_value (l : list Z) : Z := le_value (rev l).

Lemma le_bytes_length (n : nat) : forall x, length (le_bytes n x) = n.
Proof. induction n as [|k IH]; intros x; simpl; [reflexivity|]. rewrite IH. reflexivity. Qed.

Lemma be_bytes_length (n : nat) (x : Z) : length (be_bytes n x) = n.
Proof. unfold be_bytes. rewrite length_rev. apply le_bytes_length. Qed.

Lemma le_value_bytes (n : nat) :
  forall x, le_value (le_bytes n x) = x mod 256 ^ Z.of_nat n.
Proof.
  induction n as [|k IH]; intros x.
  - simpl. rewrite Z.mod_1_r. reflexivity.
  - cbn [le_bytes le_value]. rewrite IH.
    rewrite Nat2Z.inj_succ, Z.pow_succ_r by lia.
    rewrite Z.rem_mul_r by (try apply Z.pow_nonzero; lia). reflexivity.
Qed.

Lemma be_value_bytes (n : nat) (x : Z) :
  0 <= x < 256 ^ Z.of_nat n -> be_value (be_bytes n x) = x.
Proof.
  intros H. unfold be_value, be_bytes. rewrite rev_involutive, le_value_bytes.
  apply Z.mod_small. exact H.
Qed.

Lemma be_bytes_inj (n : nat) (x y : Z) :
  0 <= x < 256 ^ Z.of_nat n -> 0 <= y < 256 ^ Z.of_nat n ->
  be_bytes n x = be_bytes n y -> x = y.
Proof.
  intros Hx Hy E. rewrite <- (be_value_bytes n x Hx), <- (be_value_bytes n y Hy), E.
  reflexivity.
Qed.

(** ** [sfs::view] block operations (sfs.cpp, lines 207-313)

    The cipher is OpenSSL's AES-256-GCM, keyed at construction; it enters
    as the two functions [seal] and [open] together with the contract of an
    authenticated cipher.  The random nonce and the outcome of the file
    system calls are inputs of each operation. *)

Module sfs.

Definition block_size : Z := 4096 - 32.

(** Layout of the 4096-byte file block: nonce, ciphertext, tag. *)
Definition nonce_len : nat := 16.
Definition payload_len : nat := Z.to_nat block_size.
Definition tag_len : nat := 16.
Definition aad_len : nat := 16.

Record view := {
  m_enc : bool;          (* encryption context is non-null *)
  m_dec : bool;          (* decryption context is non-null *)
  m_count : Z;           (* actual file size in blocks *)
  disk : Z -> list Z     (* the 4096 bytes stored at each block index *)
}.

(** [block_aad]: big-endian storage identifier, big-endian block index. *)
Definition block_aad (ident index : Z) : list Z :=
  be_bytes 8 (u64 ident) ++ be_bytes 8 (u64 index).

Definition store (d : Z -> list Z) (i : Z) (b : list Z) : Z -> list Z :=
  fun j => if j =? i then b else d j.

Section Cipher.

(** [seal nonce aad plaintext = Some (ciphertext, tag)];
    [open nonce aad ciphertext tag = Some plaintext] when the tag verifies. *)
Variable seal : list Z -> list Z -> list Z -> option (list Z * list Z).
Variable open : list Z -> list Z -> list Z -> list Z -> option (list Z).

Definition read_block (v : view) (block ident : Z) (io_ok : bool) : option (list Z) :=
  if negb (m_dec v) || (block >=? m_count v) then None
  else if negb io_ok then None
  else
    let fblock := disk v block in
    open (firstn nonce_len fblock) (block_aad ident block)
         (firstn payload_len (skipn nonce_len fblock))
         (firstn tag_len (skipn (nonce_len + payload_len) fblock)).

Definition write_block (v : view) (block : Z) (buf : list Z) (ident : Z)
    (rand : option (list Z)) (io_ok : bool) : option view :=
  if negb (m_enc v) || (block >? m_count v) then None
  else match rand with
  | None => None
  | Some nonce =>
      match seal nonce (block_aad ident block) buf with
      | None => None
      | Some (ct, tag) =>
          if negb io_ok then None
          else Some {| m_enc := m_enc v; m_dec := m_dec v;
                       (* Update file size if appending *)
                       m_count := if block =? m_count v then block + 1 else m_count v;
                       disk := store (disk v) block (nonce ++ ct ++ tag) |}
      end
  end.

End Cipher.

(** A cipher for running the model: the tag is the additional data. *)
Definition toy_seal (nonce aad pt : list Z) : option (list Z * list Z) :=
  Some (pt, aad).

Definition toy_open (nonce aad ct tag : list Z) : option (list Z) :=
  if list_eq_dec Z.eq_dec tag aad then Some ct else None.

Definition empty_view : view :=
  {| m_enc := true; m_dec := true; m_count := 0; disk := fun _ => [] |}.

(** *** Read after write *)

Lemma block_aad_length (c i : Z) : length (block_aad c i) = aad_len.
Proof. unfold block_aad. rewrite length_app, !be_bytes_length. reflexivity. Qed.

Lemma block_aad_inj (c c' i : Z) :
  0 <= c < 2 ^ 64 -> 0 <= c' < 2 ^ 64 -> block_aad c' i = block_aad c i -> c' = c.
Proof.
  intros Hc Hc' E. unfold block_aad in E. apply app_inv_tail in E.
  unfold u64 in E. rewrite !Z.mod_small in E by assumption.
  apply (be_bytes_inj 8); [exact Hc'|exact Hc|exact E].
Qed.

Lemma firstn_exact {A} (a b : list A) : firstn (length a) (a ++ b) = a.
Proof. induction a as [|x a IH]; simpl; [reflexivity|]. rewrite IH. reflexivity. Qed.

Lemma skipn_exact {A} (a b : list A) : skipn (length a) (a ++ b) = b.
Proof. induction a as [|x a IH]; simpl; [reflexivity|exact IH]. Qed.

Lemma sealed_block_parts (nonce ct tag : list Z) :
  length nonce = nonce_len -> length ct = payload_len -> length tag = tag_len ->
  firstn nonce_len (nonce ++ ct ++ tag) = nonce /\
  firstn payload_len (skipn nonce_len (nonce ++ ct ++ tag)) = ct /\
  firstn tag_len (skipn (nonce_len + payload_len) (nonce ++ ct ++ tag)) = tag.
Proof.
  intros Hn Hc Ht. rewrite <- Hn, <- Hc, <- Ht. split; [|split].
  - apply firstn_exact.
  - rewrite skipn_exact. apply firstn_exact.
  - rewrite app_assoc, <- length_app, skipn_exact.
    rewrite <- (app_nil_r tag) at 2. apply firstn_exact.
Qed.

Section Contract.

Variable seal : list Z -> list Z -> list Z -> option (list Z * list Z).
Variable open : list Z -> list Z -> list Z -> list Z -> option (list Z).

(** The contract is the one of an ideal authenticated cipher, stated for
    the 16-byte additional data the view uses.  The ciphertext is as long
    as the plaintext, the tag has 16 bytes. *)
Hypothesis seal_shape : forall n a p c t,
  length a = aad_len ->
  seal n a p = Some (c, t) -> length c = length p /\ length t = tag_len.
(** Opening with the nonce and additional data used for sealing returns
    the plaintext. *)
Hypothesis open_seal : forall n a p c t,
  seal n a p = Some (c, t) -> open n a c t = Some p.
(** Opening under different additional data fails the tag check. *)
Hypothesis open_aad : forall n a a' p c t,
  length a = aad_len -> length a' = aad_len ->
  seal n a p = Some (c, t) -> a' <> a -> open n a' c t = None.

(** C3. [write_block(i, P, c)] fails when [i > count] and a successful
    write at [i = count] increments [count] by one (a write below [count]
    leaves it); after a successful write, [read_block(i, c)] returns [P]
    and [read_block(i, c')] fails for every other container id;
    [read_block(i, c)] fails whenever [i >= count]. *)
Theorem write_then_read (v : view) (i c : Z) (P : list Z)
    (rand : option (list Z)) (io : bool) :
  0 <= c < 2 ^ 64 -> length P = payload_len ->
  (forall nonce, rand = Some nonce -> length nonce = nonce_len) ->
  (m_count v < i -> write_block seal v i P c rand io = None) /\
  (forall io', m_count v <= i -> read_block open v i c io' = None) /\
  (forall v', write_block seal v i P c rand io = Some v' ->
     i <= m_count v /\
     (i = m_count v -> m_count v' = m_count v + 1) /\
     (i < m_count v -> m_count v' = m_count v) /\
     (m_dec v = true -> read_block open v' i c true = Some P) /\
     (forall c' io', 0 <= c' < 2 ^ 64 -> c' <> c ->
        read_block open v' i c' io' = None)).
Proof.
  intros Hc HP Hrand. split; [|split].
  - intros L. unfold write_block.
    replace (i >? m_count v) with true by (symmetry; apply Z.gtb_lt; lia).
    rewrite orb_true_r. reflexivity.
  - intros io' L. unfold read_block.
    replace (i >=? m_count v) with true by (symmetry; apply Z.geb_le; lia).
    rewrite orb_true_r. reflexivity.
  - intros v' W. unfold write_block in W.
    destruct (m_enc v); simpl in W; [|discriminate].
    destruct (i >? m_count v) eqn:G; [discriminate|].
    rewrite Z.gtb_ltb in G. apply Z.ltb_ge in G.
    destruct rand as [nonce|]; [|discriminate].
    destruct (seal nonce (block_aad c i) P) as [[ct tag]|] eqn:S; [|discriminate].
    destruct io; simpl in W; [|discriminate].
    inversion W; subst v'; clear W. cbn [m_count m_dec disk].
    destruct (seal_shape _ _ _ _ _ (block_aad_length c i) S) as [Lc Lt]. rewrite HP in Lc.
    destruct (sealed_block_parts nonce ct tag (Hrand _ eq_refl) Lc Lt) as (F1 & F2 & F3).
    split; [exact G|]. split; [|split; [|split]].
    + intros E. rewrite E, Z.eqb_refl. reflexivity.
    + intros L. replace (i =? m_count v) with false; [reflexivity|].
      symmetry. apply Z.eqb_neq. lia.
    + intros D. unfold read_block. cbn [m_count m_dec disk]. rewrite D.
      replace (i >=? (if i =? m_count v then i + 1 else m_count v)) with false.
      * cbn [negb orb]. unfold store. rewrite Z.eqb_refl, F1, F2, F3.
        exact (open_seal _ _ _ _ _ S).
      * symmetry. rewrite Z.geb_leb. apply Z.leb_gt.
        destruct (i =? m_count v) eqn:Q; [lia|apply Z.eqb_neq in Q; lia].
    + intros c' io' Hc' N. unfold read_block. cbn [m_count m_dec disk].
      destruct (negb (m_dec v) || (i >=? (if i =? m_count v then i + 1 else m_count v)));
        [reflexivity|].
      destruct (negb io'); [reflexivity|].
      unfold store. rewrite Z.eqb_refl, F1, F2, F3.
      apply (open_aad _ _ _ _ _ _ (block_aad_length c i) (block_aad_length c' i) S).
      intros E. apply N.
      exact (block_aad_inj c c' i Hc Hc' E).
Qed.

End Contract.

Lemma toy_seal_shape n a p c t :
  length a = aad_len ->
  toy_seal n a p = Some (c, t) -> length c = length p /\ length t = tag_len.
Proof. intros L E. inversion E; subst. split; [reflexivity|exact L]. Qed.

Lemma toy_open_seal n a p c t :
  toy_seal n a p = Some (c, t) -> toy_open n a c t = Some p.
Proof.
  intros E. inversion E; subst. unfold toy_open.
  destruct (list_eq_dec Z.eq_dec t t); [reflexivity|contradiction].
Qed.

Lemma toy_open_aad n a a' p c t :
  length a = aad_len -> length a' = aad_len ->
  toy_seal n a p = Some (c, t) -> a' <> a -> toy_open n a' c t = None.
Proof.
  intros _ _ E N. inversion E; subst. unfold toy_open.
  destruct (list_eq_dec Z.eq_dec t a'); [|reflexivity].
  exfalso. apply N. symmetry. assumption.
Qed.

(** Scenario S1 of the specification: 4064 bytes [0xAA], container id
    [0x0102030405060708]. *)
Definition s1_payload : list Z := repeat 170 payload_len.
Definition s1_ident : Z := 72623859790382856.
Definition s1_nonce : list Z := repeat 7 nonce_len.

(** Witness for [write_then_read]: block 0 of an empty view is written
    with the S1 payload; the count becomes 1, reading it back under the
    same id returns the payload, reading under id 0 fails. *)
Lemma write_then_read_witness :
  exists v',
    write_block toy_seal empty_view 0 s1_payload s1_ident (Some s1_nonce) true = Some v' /\
    m_count v' = 1 /\
    read_block toy_open v' 0 s1_ident true = Some s1_payload /\
    read_block toy_open v' 0 0 true = None.
Proof.
  assert (Hc : 0 <= s1_ident < 2 ^ 64) by (unfold s1_ident; lia).
  assert (HP : length s1_payload = payload_len) by apply repeat_length.
  assert (Hr : forall nonce, Some s1_nonce = Some nonce -> length nonce = nonce_len).
  { intros nonce E. assert (N : nonce = s1_nonce) by congruence.
    rewrite N. apply repeat_length. }
  destruct (write_then_read toy_seal toy_open toy_seal_shape toy_open_seal toy_open_aad
              empty_view 0 s1_ident s1_payload (Some s1_nonce) true Hc HP Hr)
    as (_ & _ & R).
  destruct (write_block toy_seal empty_view 0 s1_payload s1_ident (Some s1_nonce) true)
    as [v'|] eqn:W.
  - exists v'. destruct (R v' eq_refl) as (_ & R1 & _ & R2 & R3).
    split; [reflexivity|]. split; [exact (R1 eq_refl)|]. split; [exact (R2 eq_refl)|].
    apply R3; [lia|unfold s1_ident; lia].
  - exfalso. vm_compute in W. discriminate W.
Defined.

(** *** Moving a block *)

Lemma block_aad_index_inj (c i j : Z) :
  0 <= i < 2 ^ 64 -> 0 <= j < 2 ^ 64 -> block_aad c j = block_aad c i -> j = i.
Proof.
  intros Hi Hj E. unfold block_aad in E. apply app_inv_head in E.
  unfold u64 in E. rewrite !Z.mod_small in E by assumption.
  apply (be_bytes_inj 8); [exact Hj|exact Hi|exact E].
Qed.

Section Relocation.

Variable seal : list Z -> list Z -> list Z -> option (list Z * list Z).
Variable open : list Z -> list Z -> list Z -> list Z -> option (list Z).

Hypothesis seal_shape : forall n a p c t,
  length a = aad_len ->
  seal n a p = Some (c, t) -> length c = length p /\ length t = tag_len.
Hypothesis open_aad : forall n a a' p c t,
  length a = aad_len -> length a' = aad_len ->
  seal n a p = Some (c, t) -> a' <> a -> open n a' c t = None.

(** The 4096 bytes stored for block [i], found at another index [j] of a
    file of the same container id, do not pass for block [j]: the block
    index is part of the authenticated data. *)
Theorem moved_block_rejected (v v' w : view) (i j c : Z) (P : list Z)
    (rand : option (list Z)) (io io' : bool) :
  0 <= i < 2 ^ 64 -> 0 <= j < 2 ^ 64 -> j <> i ->
  length P = payload_len ->
  (forall nonce, rand = Some nonce -> length nonce = nonce_len) ->
  write_block seal v i P c rand io = Some v' ->
  disk w j = disk v' i ->
  read_block open w j c io' = None.
Proof.
  intros Hi Hj N HP Hrand W D. unfold write_block in W.
  destruct (negb (m_enc v) || (i >? m_count v)); [discriminate|].
  destruct rand as [nonce|]; [|discriminate].
  destruct (seal nonce (block_aad c i) P) as [[ct tag]|] eqn:S; [|discriminate].
  destruct (negb io); [discriminate|].
  inversion W; subst v'; clear W. cbn [disk] in D. unfold store in D.
  rewrite Z.eqb_refl in D.
  destruct (seal_shape _ _ _ _ _ (block_aad_length c i) S) as [Lc Lt]. rewrite HP in Lc.
  destruct (sealed_block_parts nonce ct tag (Hrand _ eq_refl) Lc Lt) as (F1 & F2 & F3).
  unfold read_block.
  destruct (negb (m_dec w) || (j >=? m_count w)); [reflexivity|].
  destruct (negb io'); [reflexivity|].
  rewrite D, F1, F2, F3.
  apply (open_aad _ _ _ _ _ _ (block_aad_length c i) (block_aad_length c j) S).
  intros E. apply N. exact (block_aad_index_inj c i j Hi Hj E).
Qed.

End Relocation.

(** Witness for [moved_block_rejected]: block 0 of a one-block file is
    copied behind itself. *)
Lemma moved_block_rejected_witness :
  exists v',
    write_block toy_seal empty_view 0 s1_payload s1_ident (Some s1_nonce) true = Some v' /\
    read_block toy_open
      {| m_enc := true; m_dec := true; m_count := 2;
         disk := store (disk v') 1 (disk v' 0) |} 1 s1_ident true = None.
Proof.
  destruct (write_block toy_seal empty_view 0 s1_payload s1_ident (Some s1_nonce) true)
    as [v'|] eqn:W; [|exfalso; vm_compute in W; discriminate W].
  exists v'. split; [reflexivity|].
  apply (moved_block_rejected toy_seal toy_open toy_seal_shape toy_open_aad
           empty_view v' _ 0 1 s1_ident s1_payload (Some s1_nonce) true true).
  - lia.
  - lia.
  - discriminate.
  - apply repeat_length.
  - intros nonce E. assert (Nn : nonce = s1_nonce) by congruence.
    rewrite Nn. apply repeat_length.
  - exact W.
  - reflexivity.
Defined.

(** *** [sfs::view::trunc] (sfs.cpp, lines 390-441)

    [shrink_ok] is the outcome of the [ftruncate] call; [env i] gives the
    random nonce and the outcome of the file write for the zero block
    written at index [i]. *)

Section Resize.

Variable seal : list Z -> list Z -> list Z -> option (list Z * list Z).
Variable open : list Z -> list Z -> list Z -> list Z -> option (list Z).

(** [size()] *)
Definition size (v : view) : Z := u64 (m_count v * block_size).

(** "Convert to real filesizes" *)
Definition real_size (n : Z) : Z :=
  u64 (u64 (n / block_size * 4096) + (if n mod block_size =? 0 then 0 else 4096)).

Definition s_zeros : list Z := repeat 0 payload_len.

(** "Encrypt zero blocks": the index of the write that failed, if any. *)
Fixpoint grow (fuel : nat) (i stop : Z) (env : Z -> option (list Z) * bool) (v : view)
    : option Z * view :=
  match fuel with
  | O => (None, v)
  | S f =>
      if i <? stop then
        match write_block seal v i s_zeros 0 (fst (env i)) (snd (env i)) with
        | None => (Some i, v)
        | Some v' => grow f (u64 (i + 1)) stop env v'
        end
      else (None, v)
  end.

Definition trunc (v : view) (new_size : Z) (shrink_ok : bool)
    (env : Z -> option (list Z) * bool) : Z * view :=
  let old_rs := u64 (m_count v * 4096) in
  let new_rs := real_size new_size in
  (* Limit absurd values *)
  if (old_rs =? new_rs) || (new_size >? 2 ^ 50) then (size v, v)
  else if (new_rs <? old_rs) && negb shrink_ok then (size v, v)
  else
    let '(failed, v1) :=
      if new_rs >? old_rs
      then grow (Z.to_nat (new_rs / 4096 - old_rs / 4096)) (old_rs / 4096) (new_rs / 4096)
                env v
      else (None, v) in
    match failed with
    | Some i => (u64 (i * block_size), v1)
    | None =>
        (* Decrease file size *)
        let v2 := if new_rs <? old_rs
                  then {| m_enc := m_enc v1; m_dec := m_dec v1; m_count := new_rs / 4096;
                          disk := disk v1 |}
                  else v1 in
        (u64 (new_rs / 4096 * block_size), v2)
    end.

Lemma append_count (v v' : view) (i : Z) (buf : list Z) (c : Z)
    (rand : option (list Z)) (io : bool) :
  write_block seal v i buf c rand io = Some v' -> i = m_count v ->
  m_count v' = i + 1 /\ m_dec v' = m_dec v.
Proof.
  intros W E. unfold write_block in W.
  destruct (negb (m_enc v) || (i >? m_count v)); [discriminate|].
  destruct rand as [nonce|]; [|discriminate].
  destruct (seal nonce (block_aad c i) buf) as [[ct tag]|]; [|discriminate].
  destruct (negb io); [discriminate|].
  inversion W; subst v'. cbn [m_count m_dec]. rewrite E, Z.eqb_refl. auto.
Qed.

Lemma grow_count (env : Z -> option (list Z) * bool) (stop : Z) (fuel : nat) :
  forall i v, m_count v = i -> 0 <= i <= stop -> stop < 2 ^ 64 ->
    fuel = Z.to_nat (stop - i) ->
    match grow fuel i stop env v with
    | (Some k, v1) => m_count v1 = k /\ i <= k < stop
    | (None, v1) => m_count v1 = stop
    end.
Proof.
  induction fuel as [|f IH]; intros i v C B S F; cbn [grow].
  - lia.
  - replace (i <? stop) with true by (symmetry; apply Z.ltb_lt; lia).
    destruct (write_block seal v i s_zeros 0 (fst (env i)) (snd (env i))) as [v'|] eqn:W.
    + destruct (append_count _ _ _ _ _ _ _ W (eq_sym C)) as [C' _].
      unfold u64. rewrite Z.mod_small by lia.
      destruct (Z.eq_dec (i + 1) stop) as [E|N].
      * destruct f as [|f']; [cbn [grow]; lia|lia].
      * specialize (IH (i + 1) v' C' ltac:(lia) S ltac:(lia)).
        destruct (grow f (i + 1) stop env v') as [[k|] v1]; lia.
    + split; [exact C|lia].
Qed.

(** [trunc] returns the size of the view as it leaves it, whether the
    request is refused, the shrinking system call fails, a zero block
    cannot be written half way, or everything succeeds. *)
Theorem trunc_returns_size (v : view) (new_size : Z) (shrink_ok : bool)
    (env : Z -> option (list Z) * bool) :
  0 <= m_count v < 2 ^ 52 -> 0 <= new_size ->
  fst (trunc v new_size shrink_ok env) = size (snd (trunc v new_size shrink_ok env)).
Proof.
  intros C N. unfold trunc. cbv zeta.
  destruct ((u64 (m_count v * 4096) =? real_size new_size) || (new_size >? 2 ^ 50)) eqn:A;
    [reflexivity|].
  destruct ((real_size new_size <? u64 (m_count v * 4096)) && negb shrink_ok);
    [reflexivity|].
  apply orb_false_iff in A. destruct A as [A0 A]. apply Z.eqb_neq in A0.
  rewrite Z.gtb_ltb in A. apply Z.ltb_ge in A.
  assert (Old : u64 (m_count v * 4096) / 4096 = m_count v).
  { unfold u64. rewrite Z.mod_small by lia. apply Z.div_mul. lia. }
  assert (Bs : block_size = 4064) by reflexivity.
  assert (Q : 0 <= new_size / block_size <= 2 ^ 50).
  { rewrite Bs. split; [apply Z.div_pos; lia|].
    apply Z.div_le_upper_bound; lia. }
  assert (New : 0 <= real_size new_size / 4096 < 2 ^ 51).
  { unfold real_size, u64. rewrite (Z.mod_small (_ * 4096)) by lia.
    destruct (new_size mod block_size =? 0); rewrite Z.mod_small by lia.
    - rewrite Z.add_0_r, Z.div_mul by lia. lia.
    - replace (new_size / block_size * 4096 + 4096)
        with ((new_size / block_size + 1) * 4096) by ring.
      rewrite Z.div_mul by lia. lia. }
  destruct (real_size new_size >? u64 (m_count v * 4096)) eqn:G.
  - rewrite Old. apply Z.gtb_lt in G.
    assert (L : m_count v <= real_size new_size / 4096).
    { rewrite <- Old. apply Z.div_le_mono; lia. }
    pose proof (grow_count env (real_size new_size / 4096) _ (m_count v) v eq_refl
                  ltac:(lia) ltac:(lia) eq_refl) as H.
    destruct (grow _ (m_count v) (real_size new_size / 4096) env v) as [[k|] v1].
    + cbn [fst snd]. unfold size. destruct H as [H _]. rewrite H. reflexivity.
    + replace (real_size new_size <? u64 (m_count v * 4096)) with false
        by (symmetry; apply Z.ltb_ge; lia).
      cbn [fst snd]. unfold size. rewrite H. reflexivity.
  - rewrite Z.gtb_ltb in G. apply Z.ltb_ge in G.
    destruct (real_size new_size <? u64 (m_count v * 4096)) eqn:L; [reflexivity|].
    apply Z.ltb_ge in L. lia.
Qed.

Hypothesis seal_shape : forall n a p c t,
  length a = aad_len ->
  seal n a p = Some (c, t) -> length c = length p /\ length t = tag_len.
Hypothesis open_seal : forall n a p c t,
  seal n a p = Some (c, t) -> open n a c t = Some p.

Lemma read_after_write (v v' : view) (i c : Z) (P : list Z) (rand : option (list Z))
    (io : bool) :
  length P = payload_len ->
  (forall nonce, rand = Some nonce -> length nonce = nonce_len) ->
  m_dec v = true ->
  write_block seal v i P c rand io = Some v' ->
  read_block open v' i c true = Some P.
Proof.
  intros HP Hrand D W. unfold write_block in W.
  destruct (m_enc v); cbn [negb orb] in W; [|discriminate].
  destruct (i >? m_count v) eqn:G; [discriminate|].
  rewrite Z.gtb_ltb in G. apply Z.ltb_ge in G.
  destruct rand as [nonce|]; [|discriminate].
  destruct (seal nonce (block_aad c i) P) as [[ct tag]|] eqn:S; [|discriminate].
  destruct io; cbn [negb] in W; [|discriminate].
  inversion W; subst v'; clear W.
  destruct (seal_shape _ _ _ _ _ (block_aad_length c i) S) as [Lc Lt]. rewrite HP in Lc.
  destruct (sealed_block_parts nonce ct tag (Hrand _ eq_refl) Lc Lt) as (F1 & F2 & F3).
  unfold read_block. cbn [m_count m_dec disk]. rewrite D.
  replace (i >=? (if i =? m_count v then i + 1 else m_count v)) with false.
  - cbn [negb orb]. unfold store. rewrite Z.eqb_refl, F1, F2, F3.
    exact (open_seal _ _ _ _ _ S).
  - symmetry. rewrite Z.geb_leb. apply Z.leb_gt.
    destruct (i =? m_count v) eqn:Q; [lia|apply Z.eqb_neq in Q; lia].
Qed.

(** A write leaves the other blocks of the file as they are. *)
Lemma read_other (v v' : view) (i k c c' : Z) (P : list Z) (rand : option (list Z))
    (io io' : bool) :
  write_block seal v i P c rand io = Some v' -> k <> i -> k < m_count v ->
  read_block open v' k c' io' = read_block open v k c' io'.
Proof.
  intros W N L. unfold write_block in W.
  destruct (negb (m_enc v) || (i >? m_count v)) eqn:G; [discriminate|].
  apply orb_false_iff in G. destruct G as [_ G].
  rewrite Z.gtb_ltb in G. apply Z.ltb_ge in G.
  destruct rand as [nonce|]; [|discriminate].
  destruct (seal nonce (block_aad c i) P) as [[ct tag]|]; [|discriminate].
  destruct (negb io); [discriminate|].
  inversion W; subst v'; clear W. unfold read_block. cbn [m_count m_dec disk].
  replace (k >=? (if i =? m_count v then i + 1 else m_count v)) with false
    by (symmetry; rewrite Z.geb_leb; apply Z.leb_gt;
        destruct (i =? m_count v) eqn:Q; [apply Z.eqb_eq in Q|]; lia).
  replace (k >=? m_count v) with false
    by (symmetry; rewrite Z.geb_leb; apply Z.leb_gt; lia).
  unfold store. replace (k =? i) with false by (symmetry; apply Z.eqb_neq; exact N).
  reflexivity.
Qed.

Lemma grow_zeros (env : Z -> option (list Z) * bool) (stop : Z) (fuel : nat) :
  (forall i nonce, fst (env i) = Some nonce -> length nonce = nonce_len) ->
  stop < 2 ^ 64 ->
  forall i v, m_count v = i -> 0 <= i -> m_dec v = true ->
    let v1 := snd (grow fuel i stop env v) in
    m_dec v1 = true /\ i <= m_count v1 /\
    (forall k, i <= k < m_count v1 -> read_block open v1 k 0 true = Some s_zeros) /\
    (forall k c io, k < i -> read_block open v1 k c io = read_block open v k c io).
Proof.
  intros Hn S. induction fuel as [|f IH]; intros i v C B D; cbn [grow]; cbv zeta.
  - cbn [snd]. split; [exact D|]. split; [lia|]. split; [intros k Hk; lia|auto].
  - destruct (i <? stop) eqn:L.
    2:{ cbn [snd]. split; [exact D|]. split; [lia|]. split; [intros k Hk; lia|auto]. }
    apply Z.ltb_lt in L.
    destruct (write_block seal v i s_zeros 0 (fst (env i)) (snd (env i))) as [v'|] eqn:W.
    2:{ cbn [snd]. split; [exact D|]. split; [lia|]. split; [intros k Hk; lia|auto]. }
    destruct (append_count _ _ _ _ _ _ _ W (eq_sym C)) as [C' D'].
    unfold u64. rewrite Z.mod_small by lia.
    destruct (IH (i + 1) v' C' ltac:(lia) ltac:(congruence)) as (D1 & C1 & Z1 & F1).
    split; [exact D1|]. split; [lia|]. split.
    + intros k Hk. destruct (Z.eq_dec k i) as [E|N].
      * subst k. rewrite F1 by lia.
        apply (read_after_write v v' _ 0 s_zeros (fst (env (m_count v))) (snd (env (m_count v))));
          [apply repeat_length|apply Hn|exact D|rewrite C; exact W].
      * apply Z1. lia.
    + intros k c io Hk. rewrite F1 by lia.
      apply (read_other v v' i k 0 c s_zeros (fst (env i)) (snd (env i)) io W); lia.
Qed.

(** What [trunc] leaves in the file: the blocks it has appended decrypt
    to zeros, and the blocks below the old and the new block count are the
    ones that were there. *)
Theorem trunc_appends_zeros (v : view) (new_size : Z) (shrink_ok : bool)
    (env : Z -> option (list Z) * bool) :
  0 <= m_count v < 2 ^ 52 -> 0 <= new_size -> m_dec v = true ->
  (forall i nonce, fst (env i) = Some nonce -> length nonce = nonce_len) ->
  let v' := snd (trunc v new_size shrink_ok env) in
  (forall k, m_count v <= k < m_count v' -> read_block open v' k 0 true = Some s_zeros) /\
  (forall k c io, k < m_count v -> k < m_count v' ->
     read_block open v' k c io = read_block open v k c io).
Proof.
  intros C N D Hn. unfold trunc. cbv zeta.
  destruct ((u64 (m_count v * 4096) =? real_size new_size) || (new_size >? 2 ^ 50)) eqn:A.
  { cbn [snd]. split; [intros k Hk; lia|auto]. }
  destruct ((real_size new_size <? u64 (m_count v * 4096)) && negb shrink_ok).
  { cbn [snd]. split; [intros k Hk; lia|auto]. }
  apply orb_false_iff in A. destruct A as [A0 A]. apply Z.eqb_neq in A0.
  rewrite Z.gtb_ltb in A. apply Z.ltb_ge in A.
  assert (Old : u64 (m_count v * 4096) / 4096 = m_count v).
  { unfold u64. rewrite Z.mod_small by lia. apply Z.div_mul. lia. }
  assert (New : real_size new_size / 4096 < 2 ^ 64).
  { apply Z.div_lt_upper_bound; [lia|]. unfold real_size, u64.
    pose proof (Z.mod_pos_bound
      ((new_size / block_size * 4096) mod 2 ^ 64 +
       (if new_size mod block_size =? 0 then 0 else 4096)) (2 ^ 64) eq_refl). lia. }
  destruct (real_size new_size >? u64 (m_count v * 4096)) eqn:G.
  - rewrite Old. apply Z.gtb_lt in G.
    pose proof (grow_zeros env (real_size new_size / 4096)
                  (Z.to_nat (real_size new_size / 4096 - m_count v)) Hn New
                  (m_count v) v eq_refl ltac:(lia) D) as H. cbv zeta in H.
    destruct (grow _ (m_count v) (real_size new_size / 4096) env v) as [[k0|] v1];
      cbn [snd] in *.
    + destruct H as (_ & _ & H1 & H2). split; [exact H1|]. intros k c io L _. apply H2, L.
    + replace (real_size new_size <? u64 (m_count v * 4096)) with false
        by (symmetry; apply Z.ltb_ge; lia).
      destruct H as (_ & _ & H1 & H2). split; [exact H1|]. intros k c io L _. apply H2, L.
  - rewrite Z.gtb_ltb in G. apply Z.ltb_ge in G.
    replace (real_size new_size <? u64 (m_count v * 4096)) with true
      by (symmetry; apply Z.ltb_lt; lia).
    cbn [snd m_count]. split.
    + intros k Hk. exfalso.
      assert (real_size new_size / 4096 <= m_count v)
        by (rewrite <- Old; apply Z.div_le_mono; lia).
      lia.
    + intros k c io L L'. unfold read_block. cbn [m_count m_dec disk].
      replace (k >=? real_size new_size / 4096) with false
        by (symmetry; rewrite Z.geb_leb; apply Z.leb_gt; lia).
      replace (k >=? m_count v) with false
        by (symmetry; rewrite Z.geb_leb; apply Z.leb_gt; lia).
      reflexivity.
Qed.

(** *** [sfs::view::read] and [sfs::view::write] (sfs.cpp, lines 443-538)

    [rio i] is the outcome of the file read for block [i], [env i] the
    random nonce and the outcome of the file write for block [i]; a call
    reads and writes every block once at most; [shrink_ok] is passed on
    to [trunc].  The argument [size] of the source is [len] here. *)

(** [memcpy(m_buf + _mod, data, n)] and [memset(m_buf + _mod, 0, n)] *)
Definition patch (m_buf : list Z) (_mod : Z) (data : list Z) : list Z :=
  firstn (Z.to_nat _mod) m_buf ++ data ++ skipn (Z.to_nat _mod + length data) m_buf.

(** The [_size] bytes at [buf + result]. *)
Definition chunk (buf : list Z) (result _size : Z) : list Z :=
  firstn (Z.to_nat _size) (skipn (Z.to_nat result) buf).

(** The loop of [read]; [buf] tells whether the caller passed a buffer,
    [out] holds the bytes stored in it so far.  A block that is asked for
    whole is decrypted into the buffer, another one into [m_buf], from
    where [_size] bytes are copied. *)
Fixpoint read_loop (fuel : nat) (v : view) (rio : Z -> bool) (buf : bool)
    (len offset result : Z) (out : list Z) : Z * list Z :=
  match fuel with
  | O => (result, out)
  | S f =>
      if result <? len then
        let _mod := offset mod block_size in
        let _size := Z.min (len - result) (block_size - _mod) in
        match read_block open v (offset / block_size) 0 (rio (offset / block_size)) with
        | None => (result, out)
        | Some data =>
            let out' :=
              if buf then
                out ++ (if _size <? block_size
                        then firstn (Z.to_nat _size) (skipn (Z.to_nat _mod) data)
                        else data)
              else out in
            read_loop f v rio buf len (u64 (offset + _size)) (result + _size) out'
        end
      else (result, out)
  end.

Definition read (v : view) (rio : Z -> bool) (_offset : Z) (buf : bool) (len : Z)
    : Z * list Z :=
  read_loop (Z.to_nat len) v rio buf len _offset 0 [].

(** The loop of [write]; [buf] is the caller's buffer, if there is one,
    and [m_buf] the member buffer. *)
Fixpoint write_loop (fuel : nat) (rio : Z -> bool) (env : Z -> option (list Z) * bool)
    (buf : option (list Z)) (len fsize offset result : Z) (m_buf : list Z) (v : view)
    : Z * view :=
  match fuel with
  | O => (result, v)
  | S f =>
      if result <? len then
        let _mod := offset mod block_size in
        let _size := Z.min (len - result) (block_size - _mod) in
        let block := offset / block_size in
        let loaded :=
          if (offset >=? fsize) && (_size <? block_size) then
            (* New block *)
            Some s_zeros
          else if _size <? block_size then read_block open v block 0 (rio block)
          else Some m_buf in
        match loaded with
        | None =>
            (* Partial block overwrite failed *)
            (result, v)
        | Some m_buf1 =>
            let m_buf2 :=
              match buf with
              | Some b =>
                  if _size <? block_size then patch m_buf1 _mod (chunk b result _size)
                  else if (offset <? fsize) || (_size =? block_size)
                  then patch m_buf1 _mod (repeat 0 (Z.to_nat _size))
                  else m_buf1
              | None =>
                  if (offset <? fsize) || (_size =? block_size)
                  then patch m_buf1 _mod (repeat 0 (Z.to_nat _size))
                  else m_buf1
              end in
            let src :=
              match buf with
              | Some b => if _size <? block_size then m_buf2 else chunk b result block_size
              | None => m_buf2
              end in
            match write_block seal v block src 0 (fst (env block)) (snd (env block)) with
            | None => (result, v)
            | Some v' =>
                let m_buf3 :=
                  match buf with
                  | Some _ => if _size <? block_size then s_zeros else m_buf2
                  | None => s_zeros
                  end in
                write_loop f rio env buf len fsize (u64 (offset + _size)) (result + _size)
                           m_buf3 v'
            end
        end
      else (result, v)
  end.

Definition write (v : view) (m_buf : list Z) (shrink_ok : bool) (rio : Z -> bool)
    (env : Z -> option (list Z) * bool) (_offset : Z) (buf : option (list Z)) (len : Z)
    : Z * view :=
  let fsize := size v in
  let fneed := u64 (_offset - _offset mod block_size) in
  if fsize <? fneed then
    (* Limit automatic extension to 1 GiB (offset may be absurd) *)
    if u64 (fneed - fsize) >? 1024 * 1024 * 1024 then (0, v)
    else
      (* Initialize gap between previous EOF and new write offset *)
      let '(got, v1) := trunc v fneed shrink_ok env in
      if negb (got =? fneed) then (0, v1)
      else write_loop (Z.to_nat len) rio env buf len fneed _offset 0 m_buf v1
  else write_loop (Z.to_nat len) rio env buf len fsize _offset 0 m_buf v.

(** The byte at position [p] of a file whose block [i] decrypts to
    [c i]; the positions [a], ..., [a + n - 1]. *)
Definition byte_at (c : Z -> list Z) (p : Z) : Z :=
  nth (Z.to_nat (p mod block_size)) (c (p / block_size)) 0.

Definition zrange (a n : Z) : list Z :=
  map (fun k => a + Z.of_nat k) (seq 0 (Z.to_nat n)).

(** Every block of the file is there and decrypts under container id 0:
    block [i] holds the 4064 bytes [c i]. *)
Definition holds (v : view) (c : Z -> list Z) : Prop :=
  m_dec v = true /\ 0 <= m_count v < 2 ^ 52 /\
  forall i, 0 <= i < m_count v ->
    read_block open v i 0 true = Some (c i) /\ length (c i) = payload_len.

Lemma zrange_length (a n : Z) : length (zrange a n) = Z.to_nat n.
Proof. unfold zrange. rewrite length_map, length_seq. reflexivity. Qed.

Lemma zrange_app (a n m : Z) :
  0 <= n -> 0 <= m -> zrange a (n + m) = zrange a n ++ zrange (a + n) m.
Proof.
  intros Hn Hm. unfold zrange. rewrite Z2Nat.inj_add by assumption.
  rewrite seq_app, map_app. f_equal.
  assert (G : forall len s,
            map (fun k => a + Z.of_nat k) (seq (s + Z.to_nat n) len)
            = map (fun k => a + n + Z.of_nat k) (seq s len)).
  { induction len as [|k IH]; intros s; [reflexivity|].
    cbn [seq map]. f_equal; [lia|]. exact (IH (S s)). }
  exact (G (Z.to_nat m) 0%nat).
Qed.

Lemma zrange_nth (f : Z -> Z) (a n : Z) (k : nat) (d : Z) :
  (k < Z.to_nat n)%nat -> nth k (map f (zrange a n)) d = f (a + Z.of_nat k).
Proof.
  intros L. unfold zrange. rewrite map_map.
  rewrite (nth_indep _ d ((fun x => f (a + Z.of_nat x)) 0%nat))
    by (rewrite length_map, length_seq; exact L).
  rewrite (map_nth (fun x => f (a + Z.of_nat x))), seq_nth by exact L. reflexivity.
Qed.

Lemma size_holds (v : view) (c : Z -> list Z) :
  holds v c -> size v = m_count v * block_size.
Proof.
  intros (_ & B & _). unfold size, u64. apply Z.mod_small.
  unfold block_size. lia.
Qed.

Lemma same_block (o k : Z) :
  0 <= o -> 0 <= k -> o mod block_size + k < block_size ->
  (o + k) / block_size = o / block_size /\
  (o + k) mod block_size = o mod block_size + k.
Proof.
  intros Ho Hk L. change block_size with 4064 in *.
  Z.div_mod_to_equations. lia.
Qed.

(** [s] bytes of a block, from the byte at position [o] of the file. *)
Lemma block_bytes (c : Z -> list Z) (o s : Z) :
  0 <= o -> 0 <= s -> o mod block_size + s <= block_size ->
  length (c (o / block_size)) = payload_len ->
  firstn (Z.to_nat s) (skipn (Z.to_nat (o mod block_size)) (c (o / block_size)))
  = map (byte_at c) (zrange o s).
Proof.
  intros Ho Hs L Len.
  assert (M : 0 <= o mod block_size) by (apply Z.mod_pos_bound; reflexivity).
  assert (P : Z.of_nat payload_len = block_size) by reflexivity.
  apply (nth_ext _ _ 0 0).
  - rewrite length_firstn, length_skipn, length_map, zrange_length, Len. lia.
  - intros k Lk. rewrite length_firstn, length_skipn, Len in Lk.
    rewrite nth_firstn.
    replace (k <? Z.to_nat s)%nat with true by (symmetry; apply Nat.ltb_lt; lia).
    rewrite nth_skipn, zrange_nth by lia. unfold byte_at.
    destruct (same_block o (Z.of_nat k) Ho ltac:(lia) ltac:(lia)) as [E1 E2].
    rewrite E1, E2. f_equal. lia.
Qed.

(** What [read] returns from a file whose blocks decrypt: the bytes of
    the range asked for, as far as the file has them. *)
Lemma read_loop_spec (v : view) (c : Z -> list Z) (off len : Z) :
  holds v c -> 0 <= off -> 0 <= len -> off + len < 2 ^ 64 ->
  forall fuel result,
    0 <= result <= Z.max 0 (Z.min len (size v - off)) ->
    (Z.to_nat (len - result) <= fuel)%nat ->
    read_loop fuel v (fun _ => true) true len (off + result) result
              (map (byte_at c) (zrange off result))
    = (Z.max 0 (Z.min len (size v - off)),
       map (byte_at c) (zrange off (Z.max 0 (Z.min len (size v - off))))).
Proof.
  intros H Ho Hl B. pose proof (size_holds v c H) as Sz.
  destruct H as (D & Cn & Hc).
  assert (Bs : block_size = 4064) by reflexivity.
  induction fuel as [|f IH]; intros result R F.
  - cbn [read_loop]. replace result with (Z.max 0 (Z.min len (size v - off))) by lia.
    reflexivity.
  - cbn [read_loop]. destruct (result <? len) eqn:L.
    2:{ apply Z.ltb_ge in L.
        replace result with (Z.max 0 (Z.min len (size v - off))) by lia. reflexivity. }
    apply Z.ltb_lt in L. cbv zeta.
    assert (M : 0 <= (off + result) mod block_size < block_size)
      by (apply Z.mod_pos_bound; reflexivity).
    destruct (Z_lt_dec ((off + result) / block_size) (m_count v)) as [In|Out].
    + assert (Q : 0 <= (off + result) / block_size) by (apply Z.div_pos; lia).
      destruct (Hc _ (conj Q In)) as [Rd Len]. rewrite Rd.
      set (_size := Z.min (len - result) (block_size - (off + result) mod block_size)).
      assert (S1 : 0 < _size <= block_size - (off + result) mod block_size)
        by (unfold _size; lia).
      assert (End : off + result + _size <= size v).
      { rewrite Sz. rewrite Bs in *. Z.div_mod_to_equations. nia. }
      unfold u64. rewrite Z.mod_small by lia.
      replace (off + result + _size) with (off + (result + _size)) by ring.
      replace (map (byte_at c) (zrange off result) ++
               (if _size <? block_size
                then firstn (Z.to_nat _size)
                       (skipn (Z.to_nat ((off + result) mod block_size))
                          (c ((off + result) / block_size)))
                else c ((off + result) / block_size)))
        with (map (byte_at c) (zrange off (result + _size))).
      * apply IH; [unfold _size in *; lia|lia].
      * rewrite zrange_app, map_app by lia. f_equal.
        rewrite <- block_bytes by (try assumption; lia).
        destruct (_size <? block_size) eqn:Full; [reflexivity|].
        apply Z.ltb_ge in Full.
        replace ((off + result) mod block_size) with 0 by lia.
        cbn [Z.to_nat skipn]. rewrite firstn_all2; [reflexivity|].
        rewrite Len. unfold payload_len. lia.
    + unfold read_block. rewrite D.
      replace ((off + result) / block_size >=? m_count v) with true
        by (symmetry; apply Z.geb_le; lia).
      cbn [negb orb].
      assert (E : size v <= off + result).
      { rewrite Sz. rewrite Bs in *. Z.div_mod_to_equations. nia. }
      replace result with (Z.max 0 (Z.min len (size v - off))) at 1 2 by lia.
      reflexivity.
Qed.

Lemma read_spec (v : view) (c : Z -> list Z) (off len : Z) :
  holds v c -> 0 <= off -> 0 <= len -> off + len < 2 ^ 64 ->
  read v (fun _ => true) off true len
  = (Z.max 0 (Z.min len (size v - off)),
     map (byte_at c) (zrange off (Z.max 0 (Z.min len (size v - off))))).
Proof.
  intros H Ho Hl B. unfold read.
  pose proof (read_loop_spec v c off len H Ho Hl B (Z.to_nat len) 0) as R.
  rewrite Z.add_0_r in R. apply R; lia.
Qed.

Lemma patch_length (base : list Z) (m : Z) (d : list Z) :
  (Z.to_nat m + length d <= length base)%nat -> length (patch base m d) = length base.
Proof.
  intros L. unfold patch. rewrite !length_app, length_firstn, length_skipn. lia.
Qed.

Lemma patch_nth (base : list Z) (m : Z) (d : list Z) (k : nat) :
  (Z.to_nat m + length d <= length base)%nat ->
  nth k (patch base m d) 0 =
  if (Z.to_nat m <=? k)%nat && (k <? Z.to_nat m + length d)%nat
  then nth (k - Z.to_nat m) d 0 else nth k base 0.
Proof.
  intros L. unfold patch.
  assert (Lf : length (firstn (Z.to_nat m) base) = Z.to_nat m)
    by (rewrite length_firstn; lia).
  destruct (Z.to_nat m <=? k)%nat eqn:A; cbn [andb].
  - apply Nat.leb_le in A. rewrite app_nth2 by lia. rewrite Lf.
    destruct (k <? Z.to_nat m + length d)%nat eqn:B.
    + apply Nat.ltb_lt in B. apply app_nth1. lia.
    + apply Nat.ltb_ge in B. rewrite app_nth2 by lia.
      rewrite nth_skipn. f_equal. lia.
  - apply Nat.leb_gt in A. rewrite app_nth1 by lia.
    rewrite nth_firstn. replace (k <? Z.to_nat m)%nat with true; [reflexivity|].
    symmetry. apply Nat.ltb_lt. exact A.
Qed.

Lemma chunk_length (b : list Z) (result s : Z) :
  0 <= result -> 0 <= s -> result + s <= Z.of_nat (length b) ->
  length (chunk b result s) = Z.to_nat s.
Proof.
  intros Hr Hs L. unfold chunk. rewrite length_firstn, length_skipn. lia.
Qed.

Lemma chunk_nth (b : list Z) (result s : Z) (j : nat) :
  (j < Z.to_nat s)%nat -> nth j (chunk b result s) 0 = nth (Z.to_nat result + j) b 0.
Proof.
  intros L. unfold chunk. rewrite nth_firstn.
  replace (j <? Z.to_nat s)%nat with true by (symmetry; apply Nat.ltb_lt; exact L).
  apply nth_skipn.
Qed.

(** A block written into a file whose blocks decrypt: the file still
    decrypts, with the new bytes at this block. *)
Lemma write_block_holds (v v' : view) (c : Z -> list Z) (i : Z) (src : list Z)
    (rand : option (list Z)) (io : bool) :
  holds v c -> 0 <= i < 2 ^ 51 -> length src = payload_len ->
  (forall nonce, rand = Some nonce -> length nonce = nonce_len) ->
  write_block seal v i src 0 rand io = Some v' ->
  i <= m_count v /\ m_count v' = Z.max (m_count v) (i + 1) /\
  holds v' (fun j => if j =? i then src else c j).
Proof.
  intros (D & Cn & Hc) Hi Ls Hn W.
  pose proof (read_after_write v v' i 0 src rand io Ls Hn D W) as Rd.
  assert (Oth : forall k, k <> i -> k < m_count v ->
            read_block open v' k 0 true = read_block open v k 0 true).
  { intros k N L. exact (read_other v v' i k 0 0 src rand io true W N L). }
  unfold write_block in W.
  destruct (negb (m_enc v) || (i >? m_count v)) eqn:G; [discriminate|].
  apply orb_false_iff in G. destruct G as [_ G].
  rewrite Z.gtb_ltb in G. apply Z.ltb_ge in G.
  destruct rand as [nonce|]; [|discriminate].
  destruct (seal nonce (block_aad 0 i) src) as [[ct tag]|]; [|discriminate].
  destruct (negb io); [discriminate|].
  assert (Cv : m_count v' = Z.max (m_count v) (i + 1)).
  { inversion W; subst v'. cbn [m_count].
    destruct (i =? m_count v) eqn:Q; [apply Z.eqb_eq in Q|apply Z.eqb_neq in Q]; lia. }
  assert (Dv : m_dec v' = true) by (inversion W; subst v'; exact D).
  split; [exact G|]. split; [exact Cv|].
  split; [exact Dv|]. split; [lia|].
  intros j Hj. destruct (j =? i) eqn:E.
  - apply Z.eqb_eq in E. subst j. split; [exact Rd|exact Ls].
  - apply Z.eqb_neq in E. rewrite Oth by lia. apply Hc. lia.
Qed.

(** The bytes of a file after [r] bytes of [b] have been written at
    [off]: the file had [m0] blocks with the bytes [c0]. *)
Definition stored (c0 : Z -> list Z) (m0 off : Z) (b : list Z) (r p : Z) : Z :=
  if (off <=? p) && (p <? off + r) then nth (Z.to_nat (p - off)) b 0
  else if p <? m0 * block_size then byte_at c0 p else 0.

(** One round of the loop of [write], from the bytes [src] handed to
    [write_block]. *)
Lemma write_step (b : list Z) (len off m0 : Z) (c0 : Z -> list Z) (result : Z)
    (v v' : view) (c : Z -> list Z) (src : list Z) (rand : option (list Z)) (io : bool) :
  let o := off + result in
  let _size := Z.min (len - result) (block_size - o mod block_size) in
  let i := o / block_size in
  holds v c -> 0 <= off -> off + len < 2 ^ 62 -> 0 <= result < len ->
  (forall nonce, rand = Some nonce -> length nonce = nonce_len) ->
  (forall p, 0 <= p < size v -> byte_at c p = stored c0 m0 off b result p) ->
  length src = payload_len ->
  (forall k, 0 <= k < block_size ->
     nth (Z.to_nat k) src 0 = stored c0 m0 off b (result + _size) (i * block_size + k)) ->
  write_block seal v i src 0 rand io = Some v' ->
  holds v' (fun j => if j =? i then src else c j) /\
  m_count v <= m_count v' /\ off + (result + _size) <= size v' /\
  (forall p, 0 <= p < size v' ->
     byte_at (fun j => if j =? i then src else c j) p
     = stored c0 m0 off b (result + _size) p).
Proof.
  intros o _size i H Ho B R Hn Inv Ls Src W.
  assert (Bs : block_size = 4064) by reflexivity.
  assert (M : 0 <= o mod block_size < block_size) by (apply Z.mod_pos_bound; reflexivity).
  assert (Io : o = i * block_size + o mod block_size).
  { unfold i. rewrite Z.mul_comm. apply Z.div_mod. rewrite Bs. lia. }
  assert (Hi : 0 <= i < 2 ^ 51).
  { unfold i, o. rewrite Bs. split; [apply Z.div_pos; lia|].
    apply Z.div_lt_upper_bound; lia. }
  assert (S1 : 0 < _size <= block_size - o mod block_size) by (unfold _size; lia).
  pose proof (size_holds v c H) as Sz.
  destruct (write_block_holds v v' c i src rand io H Hi Ls Hn W) as (Le & Cv & H').
  pose proof (size_holds v' _ H') as Sz'.
  split; [exact H'|]. split; [lia|]. split.
  { rewrite Sz', Cv. fold o. nia. }
  intros p Hp. rewrite Sz', Cv in Hp.
  assert (Pd : p = p / block_size * block_size + p mod block_size).
  { rewrite Z.mul_comm. apply Z.div_mod. rewrite Bs. lia. }
  assert (Pm : 0 <= p mod block_size < block_size) by (apply Z.mod_pos_bound; reflexivity).
  unfold byte_at. destruct (p / block_size =? i) eqn:E.
  - apply Z.eqb_eq in E. rewrite Src by exact Pm. f_equal. rewrite <- E. lia.
  - apply Z.eqb_neq in E.
    assert (Lt : p / block_size < m_count v).
    { assert (p / block_size < Z.max (m_count v) (i + 1)).
      { apply Z.div_lt_upper_bound; lia. }
      lia. }
    assert (Ps : 0 <= p < size v).
    { rewrite Sz. split; [lia|]. nia. }
    pose proof (Inv p Ps) as Ip. unfold byte_at in Ip. rewrite Ip.
    unfold stored. fold o.
    replace (p <? off + (result + _size)) with (p <? off + result); [reflexivity|].
    destruct (Z_lt_dec (p / block_size) i) as [Lo|Hi'].
    + assert (p < o) by nia.
      unfold o in *. destruct (p <? off + result) eqn:Q1;
        destruct (p <? off + (result + _size)) eqn:Q2; try reflexivity;
        [apply Z.ltb_lt in Q1; apply Z.ltb_ge in Q2|apply Z.ltb_ge in Q1]; lia.
    + assert (o + _size <= p) by nia.
      unfold o in *. destruct (p <? off + result) eqn:Q1;
        destruct (p <? off + (result + _size)) eqn:Q2; try reflexivity;
        [apply Z.ltb_lt in Q1|apply Z.ltb_lt in Q2]; lia.
Qed.

Lemma read_block_some (v : view) (i c : Z) (io : bool) (d : list Z) :
  read_block open v i c io = Some d ->
  i < m_count v /\ read_block open v i c true = Some d.
Proof.
  unfold read_block. destruct (negb (m_dec v) || (i >=? m_count v)) eqn:G; [discriminate|].
  apply orb_false_iff in G. destruct G as [_ G]. rewrite Z.geb_leb in G.
  apply Z.leb_gt in G. destruct io; cbn [negb]; [|discriminate]. auto.
Qed.

Lemma block_byte (c : Z -> list Z) (i k : Z) :
  0 <= k < block_size -> byte_at c (i * block_size + k) = nth (Z.to_nat k) (c i) 0.
Proof.
  intros Hk. unfold byte_at.
  assert (Bs : 0 < block_size) by reflexivity.
  rewrite Z.add_comm, Z.mod_add, Z.div_add, Z.mod_small, Z.div_small by lia.
  reflexivity.
Qed.

(** The bytes handed to [write_block] for a block written in part: the
    member buffer, loaded with [base], after the copy from the caller's
    buffer. *)
Lemma src_partial (b : list Z) (len off m0 : Z) (c0 : Z -> list Z) (result : Z)
    (base : list Z) :
  let o := off + result in
  let _size := Z.min (len - result) (block_size - o mod block_size) in
  let i := o / block_size in
  Z.of_nat (length b) = len -> 0 <= off -> 0 <= result < len ->
  (result = 0 \/ o mod block_size = 0) ->
  length base = payload_len ->
  (forall k, 0 <= k < block_size ->
     ~ (o mod block_size <= k < o mod block_size + _size) ->
     nth (Z.to_nat k) base 0 =
     if i * block_size + k <? m0 * block_size
     then byte_at c0 (i * block_size + k) else 0) ->
  length (patch base (o mod block_size) (chunk b result _size)) = payload_len /\
  (forall k, 0 <= k < block_size ->
     nth (Z.to_nat k) (patch base (o mod block_size) (chunk b result _size)) 0
     = stored c0 m0 off b (result + _size) (i * block_size + k)).
Proof.
  intros o _size i Lb Ho R Al Lbase Base.
  assert (Bs : block_size = 4064) by reflexivity.
  assert (P : Z.of_nat payload_len = block_size) by reflexivity.
  assert (M : 0 <= o mod block_size < block_size) by (apply Z.mod_pos_bound; reflexivity).
  assert (Io : o = i * block_size + o mod block_size).
  { unfold i. rewrite Z.mul_comm. apply Z.div_mod. rewrite Bs. lia. }
  assert (S1 : 0 < _size <= block_size - o mod block_size) by (unfold _size; lia).
  assert (S2 : result + _size <= len) by (unfold _size; lia).
  assert (Lc : length (chunk b result _size) = Z.to_nat _size)
    by (apply chunk_length; lia).
  assert (Fit : (Z.to_nat (o mod block_size) + length (chunk b result _size)
                 <= length base)%nat) by (rewrite Lc, Lbase; lia).
  split; [rewrite patch_length by exact Fit; exact Lbase|].
  intros k Hk. rewrite patch_nth by exact Fit. rewrite Lc. unfold stored.
  destruct (Z_le_dec (o mod block_size) k) as [A|A];
    [destruct (Z_lt_dec k (o mod block_size + _size)) as [A'|A']|].
  - replace (Z.to_nat (o mod block_size) <=? Z.to_nat k)%nat with true
      by (symmetry; apply Nat.leb_le; lia).
    replace (Z.to_nat k <? Z.to_nat (o mod block_size) + Z.to_nat _size)%nat with true
      by (symmetry; apply Nat.ltb_lt; lia).
    cbn [andb]. rewrite chunk_nth by lia.
    replace (off <=? i * block_size + k) with true
      by (symmetry; apply Z.leb_le; unfold o in *; lia).
    replace (i * block_size + k <? off + (result + _size)) with true
      by (symmetry; apply Z.ltb_lt; unfold o in *; lia).
    cbn [andb]. f_equal. unfold o in *. lia.
  - replace (Z.to_nat k <? Z.to_nat (o mod block_size) + Z.to_nat _size)%nat with false
      by (symmetry; apply Nat.ltb_ge; lia).
    rewrite andb_false_r.
    replace (i * block_size + k <? off + (result + _size)) with false
      by (symmetry; apply Z.ltb_ge; unfold o in *; lia).
    rewrite andb_false_r. apply Base; [exact Hk|lia].
  - replace (Z.to_nat (o mod block_size) <=? Z.to_nat k)%nat with false
      by (symmetry; apply Nat.leb_gt; lia).
    cbn [andb].
    replace (off <=? i * block_size + k) with false
      by (symmetry; apply Z.leb_gt; unfold o in *; lia).
    cbn [andb]. apply Base; [exact Hk|lia].
Qed.

(** The bytes handed to [write_block] for a block written whole. *)
Lemma src_full (b : list Z) (len off m0 : Z) (c0 : Z -> list Z) (result : Z) :
  let o := off + result in
  let _size := Z.min (len - result) (block_size - o mod block_size) in
  let i := o / block_size in
  Z.of_nat (length b) = len -> 0 <= off -> 0 <= result < len ->
  block_size <= _size ->
  length (chunk b result block_size) = payload_len /\
  (forall k, 0 <= k < block_size ->
     nth (Z.to_nat k) (chunk b result block_size) 0
     = stored c0 m0 off b (result + _size) (i * block_size + k)).
Proof.
  intros o _size i Lb Ho R Full.
  assert (Bs : block_size = 4064) by reflexivity.
  assert (M : 0 <= o mod block_size < block_size) by (apply Z.mod_pos_bound; reflexivity).
  assert (Io : o = i * block_size + o mod block_size).
  { unfold i. rewrite Z.mul_comm. apply Z.div_mod. rewrite Bs. lia. }
  assert (S1 : _size = block_size /\ o mod block_size = 0) by (unfold _size in *; lia).
  destruct S1 as [S1 M0].
  assert (S2 : result + _size <= len) by (unfold _size; lia).
  split; [rewrite chunk_length by lia; reflexivity|].
  intros k Hk. rewrite chunk_nth by lia. unfold stored.
  replace (off <=? i * block_size + k) with true
    by (symmetry; apply Z.leb_le; unfold o in *; lia).
  replace (i * block_size + k <? off + (result + _size)) with true
    by (symmetry; apply Z.ltb_lt; unfold o in *; lia).
  cbn [andb]. f_equal. unfold o in *. lia.
Qed.

(** The loop of [write], from any round on: whatever stops it, the file
    decrypts afterwards and holds the [r] bytes counted. *)
Lemma write_loop_spec (rio : Z -> bool) (env : Z -> option (list Z) * bool) (b : list Z)
    (len fsize off m0 : Z) (c0 : Z -> list Z) :
  (forall i nonce, fst (env i) = Some nonce -> length nonce = nonce_len) ->
  Z.of_nat (length b) = len -> 0 <= off -> off + len < 2 ^ 62 -> 0 <= m0 ->
  fsize = m0 * block_size ->
  forall fuel result m_buf v c r v',
    holds v c -> m0 <= m_count v -> 0 <= result <= len ->
    (result = 0 \/ result = len \/ (off + result) mod block_size = 0) ->
    (result = 0 \/ off + result <= size v) ->
    (forall p, 0 <= p < size v -> byte_at c p = stored c0 m0 off b result p) ->
    write_loop fuel rio env (Some b) len fsize (off + result) result m_buf v = (r, v') ->
    exists c', holds v' c' /\ result <= r <= len /\ m_count v <= m_count v' /\
      (r = 0 \/ off + r <= size v') /\
      (forall p, 0 <= p < size v' -> byte_at c' p = stored c0 m0 off b r p).
Proof.
  intros Hn Lb Ho B Hm Fs.
  assert (Bs : block_size = 4064) by reflexivity.
  assert (Stop : forall result v c r v',
            holds v c -> 0 <= result <= len -> (result = 0 \/ off + result <= size v) ->
            (forall p, 0 <= p < size v -> byte_at c p = stored c0 m0 off b result p) ->
            (result, v) = (r, v') ->
            exists c', holds v' c' /\ result <= r <= len /\ m_count v <= m_count v' /\
              (r = 0 \/ off + r <= size v') /\
              (forall p, 0 <= p < size v' -> byte_at c' p = stored c0 m0 off b r p)).
  { intros result v c r v' H R Sz Inv E. inversion E; subst r v'. exists c.
    split; [exact H|]. split; [lia|]. split; [lia|]. split; [exact Sz|exact Inv]. }
  induction fuel as [|f IH]; intros result m_buf v c r v' H M0 R Al Sz Inv E.
  - cbn [write_loop] in E. exact (Stop _ _ _ _ _ H R Sz Inv E).
  - cbn [write_loop] in E. destruct (result <? len) eqn:L.
    2:{ exact (Stop _ _ _ _ _ H R Sz Inv E). }
    apply Z.ltb_lt in L. cbv zeta in E.
    set (o := off + result) in *.
    set (_size := Z.min (len - result) (block_size - o mod block_size)) in *.
    set (i := o / block_size) in *.
    assert (M : 0 <= o mod block_size < block_size)
      by (apply Z.mod_pos_bound; reflexivity).
    assert (Io : o = i * block_size + o mod block_size).
    { unfold i. rewrite Z.mul_comm. apply Z.div_mod. rewrite Bs. lia. }
    assert (S1 : 0 < _size <= block_size - o mod block_size) by (unfold _size; lia).
    assert (Al' : result = 0 \/ o mod block_size = 0) by lia.
    (* The rest of the round, from the bytes handed to [write_block]. *)
    assert (G : forall src m_buf3,
              length src = payload_len ->
              (forall k, 0 <= k < block_size ->
                 nth (Z.to_nat k) src 0
                 = stored c0 m0 off b (result + _size) (i * block_size + k)) ->
              match write_block seal v i src 0 (fst (env i)) (snd (env i)) with
              | None => (result, v)
              | Some v1 =>
                  write_loop f rio env (Some b) len fsize (u64 (o + _size))
                             (result + _size) m_buf3 v1
              end = (r, v') ->
              exists c', holds v' c' /\ result <= r <= len /\ m_count v <= m_count v' /\
                (r = 0 \/ off + r <= size v') /\
                (forall p, 0 <= p < size v' -> byte_at c' p = stored c0 m0 off b r p)).
    { intros src m_buf3 Ls Src E1.
      destruct (write_block seal v i src 0 (fst (env i)) (snd (env i))) as [v1|] eqn:W.
      2:{ exact (Stop _ _ _ _ _ H R Sz Inv E1). }
      destruct (write_step b len off m0 c0 result v v1 c src (fst (env i)) (snd (env i))
                  H Ho B ltac:(lia) (Hn i) Inv Ls Src W) as (H1 & C1 & Sz1 & Inv1).
      fold o in Sz1, Inv1. fold _size in Sz1, Inv1. fold i in H1, Inv1.
      unfold u64 in E1. rewrite Z.mod_small in E1 by (unfold o; lia).
      replace (o + _size) with (off + (result + _size)) in E1 by (unfold o; ring).
      destruct (IH (result + _size) m_buf3 v1 _ r v' H1 ltac:(lia)
                  ltac:(unfold _size in *; lia)) with (4 := E1)
        as (c' & H' & R' & C' & Sz' & Inv').
      - destruct (Z.eq_dec (result + _size) len) as [Q|Q]; [auto|].
        right. right.
        replace (off + (result + _size)) with ((i + 1) * block_size)
          by (unfold _size, o in *; lia).
        apply Z.mod_mul. rewrite Bs. lia.
      - right. exact Sz1.
      - exact Inv1.
      - exists c'. split; [exact H'|]. split; [lia|]. split; [lia|].
        split; [exact Sz'|exact Inv']. }
    pose proof (size_holds v c H) as Szv.
    (* The bytes of block [i] that the round leaves alone. *)
    assert (Keep : forall k, 0 <= k < block_size -> i < m_count v ->
              ~ (o mod block_size <= k < o mod block_size + _size) ->
              nth (Z.to_nat k) (c i) 0 =
              if i * block_size + k <? m0 * block_size
              then byte_at c0 (i * block_size + k) else 0).
    { intros k Hk Li Nk. rewrite <- block_byte by exact Hk.
      rewrite Inv by (rewrite Szv; split; [unfold o in *; nia|nia]).
      unfold stored.
      replace ((off <=? i * block_size + k) && (i * block_size + k <? off + result))
        with false; [reflexivity|].
      symmetry. apply andb_false_iff.
      destruct (Z_lt_dec (i * block_size + k) off) as [A|A];
        [left; apply Z.leb_gt; exact A|right; apply Z.ltb_ge; unfold o in *; lia]. }
    destruct (_size <? block_size) eqn:Part.
    + apply Z.ltb_lt in Part. rewrite andb_true_r in E.
      destruct (o >=? fsize) eqn:New.
      * (* New block *)
        rewrite Z.geb_leb in New. apply Z.leb_le in New.
        destruct (src_partial b len off m0 c0 result s_zeros Lb Ho ltac:(lia) Al'
                    (repeat_length _ _)) as [Ls Src].
        { intros k Hk Nk. unfold s_zeros. rewrite nth_repeat. fold o. fold i.
          replace (i * block_size + k <? m0 * block_size) with false; [reflexivity|].
          symmetry. apply Z.ltb_ge. rewrite Fs in New.
          assert (m0 <= i) by (unfold i; apply Z.div_le_lower_bound; lia).
          nia. }
        fold o in Ls, Src. fold _size in Ls, Src. fold i in Src.
        exact (G _ _ Ls Src E).
      * (* Block loaded and written back *)
        destruct (read_block open v i 0 (rio i)) as [data|] eqn:Rd.
        2:{ exact (Stop _ _ _ _ _ H R Sz Inv E). }
        destruct (read_block_some _ _ _ _ _ Rd) as [Li Rd'].
        assert (Qi : 0 <= i) by (unfold i, o; apply Z.div_pos; lia).
        destruct H as (D & Cn & Hc). destruct (Hc i (conj Qi Li)) as [Rc Lc].
        assert (Dc : data = c i) by congruence. subst data.
        destruct (src_partial b len off m0 c0 result (c i) Lb Ho ltac:(lia) Al' Lc)
          as [Ls Src].
        { intros k Hk Nk. fold o in Nk. fold _size in Nk. fold i. fold o.
          apply Keep; assumption. }
        fold o in Ls, Src. fold _size in Ls, Src. fold i in Src.
        exact (G _ _ Ls Src E).
    + apply Z.ltb_ge in Part. rewrite andb_false_r in E.
      destruct (src_full b len off m0 c0 result Lb Ho ltac:(lia)) as [Ls Src].
      { fold o. fold _size. exact Part. }
      fold o in Src. fold _size in Src. fold i in Src.
      exact (G _ _ Ls Src E).
Qed.

Lemma real_size_blocks (n : Z) :
  0 <= n <= 2 ^ 50 -> n mod block_size = 0 ->
  real_size n = n / block_size * 4096.
Proof.
  intros Hn M. unfold real_size. rewrite M. cbn [Z.eqb].
  assert (Bs : block_size = 4064) by reflexivity.
  assert (Q : 0 <= n / block_size <= 2 ^ 50).
  { rewrite Bs. split; [apply Z.div_pos; lia|]. apply Z.div_le_upper_bound; lia. }
  unfold u64. rewrite Z.add_0_r, Z.mod_mod, Z.mod_small by lia. reflexivity.
Qed.

(** [trunc] called to extend the file up to a block boundary [fneed]:
    whatever comes of it, the file decrypts, with zeros behind the bytes
    it had. *)
Lemma trunc_grown (v : view) (c : Z -> list Z) (fneed : Z) (shrink_ok : bool)
    (env : Z -> option (list Z) * bool) (got : Z) (v1 : view) :
  holds v c ->
  (forall i nonce, fst (env i) = Some nonce -> length nonce = nonce_len) ->
  size v < fneed -> fneed mod block_size = 0 ->
  trunc v fneed shrink_ok env = (got, v1) ->
  got = size v1 /\ m_count v <= m_count v1 /\
  holds v1 (fun j => if j <? m_count v then c j else s_zeros) /\
  (got = fneed -> m_count v1 = fneed / block_size).
Proof.
  intros H Hn Lt Mo E. pose proof (size_holds v c H) as Sz.
  destruct H as (D & Cn & Hc).
  assert (Bs : block_size = 4064) by reflexivity.
  assert (Same : holds v (fun j => if j <? m_count v then c j else s_zeros)).
  { split; [exact D|]. split; [exact Cn|]. intros j Hj.
    replace (j <? m_count v) with true by (symmetry; apply Z.ltb_lt; lia).
    apply Hc, Hj. }
  unfold trunc in E. cbv zeta in E.
  destruct ((u64 (m_count v * 4096) =? real_size fneed) || (fneed >? 2 ^ 50)) eqn:A.
  { inversion E; subst got v1. split; [reflexivity|]. split; [lia|].
    split; [exact Same|]. intros Q. lia. }
  apply orb_false_iff in A. destruct A as [A0 A]. apply Z.eqb_neq in A0.
  rewrite Z.gtb_ltb in A. apply Z.ltb_ge in A.
  assert (Old : u64 (m_count v * 4096) = m_count v * 4096)
    by (unfold u64; apply Z.mod_small; lia).
  rewrite Old in *.
  rewrite real_size_blocks in * by (try assumption; lia).
  assert (Q : m_count v < fneed / block_size <= 2 ^ 50).
  { clear E. change block_size with 4064 in *. Z.div_mod_to_equations. lia. }
  replace (fneed / block_size * 4096 <? m_count v * 4096) with false in E
    by (symmetry; apply Z.ltb_ge; lia).
  cbn [andb] in E.
  replace (fneed / block_size * 4096 >? m_count v * 4096) with true in E
    by (symmetry; apply Z.gtb_lt; lia).
  rewrite !Z.div_mul in E by lia.
  pose proof (grow_count env (fneed / block_size) _ (m_count v) v eq_refl
                ltac:(lia) ltac:(lia) eq_refl) as Gc.
  pose proof (grow_zeros env (fneed / block_size)
                (Z.to_nat (fneed / block_size - m_count v)) Hn ltac:(lia)
                (m_count v) v eq_refl ltac:(lia) D) as Gz. cbv zeta in Gz.
  destruct (grow _ (m_count v) (fneed / block_size) env v) as [failed v2].
  cbn [snd] in Gz. destruct Gz as (D2 & C2 & Z2 & F2).
  assert (H2 : m_count v2 <= fneed / block_size ->
            holds v2 (fun j => if j <? m_count v then c j else s_zeros)).
  { intros Le. split; [exact D2|]. split; [lia|]. intros j Hj.
    destruct (j <? m_count v) eqn:J.
    - apply Z.ltb_lt in J. rewrite F2 by exact J. apply Hc. lia.
    - apply Z.ltb_ge in J. split; [apply Z2; lia|apply repeat_length]. }
  destruct failed as [k|].
  - destruct Gc as [Ck Bk]. inversion E; subst got v1.
    assert (Sk : size v2 = k * block_size).
    { unfold size, u64. rewrite Ck. apply Z.mod_small. lia. }
    split; [rewrite Sk; unfold u64; apply Z.mod_small; lia|].
    split; [lia|]. split; [apply H2; lia|].
    intros G. exfalso. unfold u64 in G. rewrite Z.mod_small in G by lia.
    rewrite Bs in *. Z.div_mod_to_equations. nia.
  - inversion E; subst got v1.
    split; [unfold size; rewrite Gc; reflexivity|].
    split; [lia|]. split; [apply H2; lia|]. intros _. exact Gc.
Qed.

Lemma stored_none (c0 : Z -> list Z) (m0 off : Z) (b : list Z) (p : Z) :
  stored c0 m0 off b 0 p = if p <? m0 * block_size then byte_at c0 p else 0.
Proof.
  unfold stored. replace ((off <=? p) && (p <? off + 0)) with false; [reflexivity|].
  symmetry. apply andb_false_iff.
  destruct (Z_lt_dec p off); [left; apply Z.leb_gt|right; apply Z.ltb_ge]; lia.
Qed.

Lemma zeros_byte (k : nat) : nth k s_zeros 0 = 0.
Proof. unfold s_zeros. apply nth_repeat. Qed.

(** What [write] leaves, whatever it returns: the file decrypts and
    holds the [r] bytes counted, at their place; every other byte of the
    old file is the one it was, every other byte of a new block is zero. *)
Lemma write_spec (v : view) (c : Z -> list Z) (m_buf : list Z) (shrink_ok : bool)
    (rio : Z -> bool) (env : Z -> option (list Z) * bool) (off : Z) (b : list Z)
    (len r : Z) (v' : view) :
  holds v c ->
  (forall i nonce, fst (env i) = Some nonce -> length nonce = nonce_len) ->
  Z.of_nat (length b) = len -> 0 <= off -> off + len < 2 ^ 62 ->
  write v m_buf shrink_ok rio env off (Some b) len = (r, v') ->
  exists c', holds v' c' /\ 0 <= r <= len /\ m_count v <= m_count v' /\
    (r = 0 \/ off + r <= size v') /\
    (forall p, 0 <= p < size v' -> byte_at c' p = stored c (m_count v) off b r p).
Proof.
  intros H Hn Lb Ho B E. pose proof (size_holds v c H) as Sz.
  assert (Bs : block_size = 4064) by reflexivity.
  assert (M : 0 <= off mod block_size < block_size)
    by (apply Z.mod_pos_bound; reflexivity).
  assert (Ml : off mod block_size <= off) by (apply Z.mod_le; [exact Ho|reflexivity]).
  assert (Fneed : u64 (off - off mod block_size) = off - off mod block_size)
    by (unfold u64; apply Z.mod_small; lia).
  assert (Fmod : (off - off mod block_size) mod block_size = 0).
  { rewrite Zminus_mod_idemp_r, Z.sub_diag. reflexivity. }
  assert (Cn : 0 <= m_count v < 2 ^ 52) by (destruct H as (_ & Cn & _); exact Cn).
  unfold write in E. cbv zeta in E. rewrite Fneed in E.
  destruct (size v <? off - off mod block_size) eqn:Gap.
  - apply Z.ltb_lt in Gap.
    destruct (u64 (off - off mod block_size - size v) >? 1024 * 1024 * 1024).
    { inversion E; subst r v'. exists c. split; [exact H|]. split; [lia|].
      split; [lia|]. split; [auto|]. intros p Hp. rewrite stored_none.
      replace (p <? m_count v * block_size) with true
        by (symmetry; apply Z.ltb_lt; lia).
      reflexivity. }
    destruct (trunc v (off - off mod block_size) shrink_ok env) as [got v1] eqn:T.
    destruct (trunc_grown v c _ shrink_ok env got v1 H Hn Gap Fmod T)
      as (G1 & C1 & H1 & Full).
    pose proof (size_holds v1 _ H1) as Sz1.
    assert (Old : forall p, 0 <= p < size v1 ->
              byte_at (fun j => if j <? m_count v then c j else s_zeros) p
              = if p <? m_count v * block_size then byte_at c p else 0).
    { intros p Hp. unfold byte_at.
      assert (Pd : p = p / block_size * block_size + p mod block_size).
      { rewrite Z.mul_comm. apply Z.div_mod. rewrite Bs. lia. }
      assert (Pm : 0 <= p mod block_size < block_size)
        by (apply Z.mod_pos_bound; reflexivity).
      destruct (p / block_size <? m_count v) eqn:J.
      - apply Z.ltb_lt in J.
        replace (p <? m_count v * block_size) with true
          by (symmetry; apply Z.ltb_lt; nia).
        reflexivity.
      - apply Z.ltb_ge in J.
        replace (p <? m_count v * block_size) with false
          by (symmetry; apply Z.ltb_ge; nia).
        apply zeros_byte. }
    destruct (got =? off - off mod block_size) eqn:Q; cbn [negb] in E.
    + apply Z.eqb_eq in Q. specialize (Full Q).
      assert (F1 : off - off mod block_size = m_count v1 * block_size) by lia.
      destruct (write_loop_spec rio env b len _ off (m_count v1)
                  (fun j => if j <? m_count v then c j else s_zeros)
                  Hn Lb Ho B ltac:(lia) F1 (Z.to_nat len) 0 m_buf v1 _ r v' H1
                  ltac:(lia) ltac:(lia) ltac:(auto) ltac:(auto))
        as (c' & H' & R' & C' & Sz' & Inv').
      * intros p Hp. rewrite stored_none.
        replace (p <? m_count v1 * block_size) with true
          by (symmetry; apply Z.ltb_lt; lia).
        reflexivity.
      * rewrite Z.add_0_r. exact E.
      * exists c'. split; [exact H'|]. split; [lia|]. split; [lia|].
        split; [exact Sz'|]. intros p Hp. rewrite Inv' by exact Hp. unfold stored.
        destruct ((off <=? p) && (p <? off + r)); [reflexivity|].
        destruct (p <? m_count v1 * block_size) eqn:P1.
        -- apply Z.ltb_lt in P1. apply Old. lia.
        -- apply Z.ltb_ge in P1.
           replace (p <? m_count v * block_size) with false; [reflexivity|].
           symmetry. apply Z.ltb_ge. nia.
    + inversion E; subst r v'. exists (fun j => if j <? m_count v then c j else s_zeros).
      split; [exact H1|]. split; [lia|]. split; [lia|]. split; [auto|].
      intros p Hp. rewrite Old by exact Hp. rewrite stored_none. reflexivity.
  - apply Z.ltb_ge in Gap.
    destruct (write_loop_spec rio env b len _ off (m_count v) c
                Hn Lb Ho B ltac:(lia) Sz (Z.to_nat len) 0 m_buf v c r v' H
                ltac:(lia) ltac:(lia) ltac:(auto) ltac:(auto))
      as (c' & H' & R' & C' & Sz' & Inv').
    + intros p Hp. rewrite stored_none.
      replace (p <? m_count v * block_size) with true
        by (symmetry; apply Z.ltb_lt; lia).
      reflexivity.
    + rewrite Z.add_0_r. exact E.
    + exists c'. split; [exact H'|]. split; [lia|]. split; [lia|].
      split; [exact Sz'|exact Inv'].
Qed.

Lemma map_zrange_ext (f g : Z -> Z) (p n : Z) :
  (forall q, p <= q < p + n -> f q = g q) ->
  map f (zrange p n) = map g (zrange p n).
Proof.
  intros Ext. apply (nth_ext _ _ 0 0).
  - rewrite !length_map. reflexivity.
  - intros k L. rewrite length_map, zrange_length in L.
    rewrite !zrange_nth by exact L. apply Ext. lia.
Qed.

Lemma firstn_zrange (b : list Z) (off r : Z) :
  0 <= r <= Z.of_nat (length b) ->
  map (fun q => nth (Z.to_nat (q - off)) b 0) (zrange off r) = firstn (Z.to_nat r) b.
Proof.
  intros R. apply (nth_ext _ _ 0 0).
  - rewrite length_map, zrange_length, length_firstn. lia.
  - intros k L. rewrite length_map, zrange_length in L.
    rewrite zrange_nth by exact L. rewrite nth_firstn.
    replace (k <? Z.to_nat r)%nat with true by (symmetry; apply Nat.ltb_lt; exact L).
    f_equal. lia.
Qed.

Lemma zeros_zrange (p n : Z) : map (fun _ : Z => 0) (zrange p n) = repeat 0 (Z.to_nat n).
Proof.
  unfold zrange. rewrite map_map.
  assert (G : forall l : list nat, map (fun _ => 0) l = repeat 0 (length l)).
  { induction l as [|a l IH]; [reflexivity|]. cbn [map length repeat]. rewrite IH.
    reflexivity. }
  rewrite G, length_seq. reflexivity.
Qed.

(** [read] returns the bytes of the range asked for, as far as the file
    has them: the count is the part of the range below the size of the
    file, and byte [k] of the buffer is byte [(off + k) mod 4064] of block
    [(off + k) / 4064]. *)
Theorem read_returns_stored_bytes (v : view) (c : Z -> list Z) (off len : Z) :
  holds v c -> 0 <= off -> 0 <= len -> off + len < 2 ^ 64 ->
  read v (fun _ => true) off true len
  = (Z.max 0 (Z.min len (size v - off)),
     map (byte_at c) (zrange off (Z.max 0 (Z.min len (size v - off))))).
Proof. exact (read_spec v c off len). Qed.

(** Whatever [write] returns, the bytes it has counted are in the file:
    reading as many bytes at the same offset gives the head of the
    buffer. *)
Theorem write_read_bytes (v : view) (c : Z -> list Z) (m_buf : list Z)
    (shrink_ok : bool) (rio : Z -> bool) (env : Z -> option (list Z) * bool)
    (off : Z) (b : list Z) (len r : Z) (v' : view) :
  holds v c ->
  (forall i nonce, fst (env i) = Some nonce -> length nonce = nonce_len) ->
  Z.of_nat (length b) = len -> 0 <= off -> off + len < 2 ^ 62 ->
  write v m_buf shrink_ok rio env off (Some b) len = (r, v') ->
  read v' (fun _ => true) off true r = (r, firstn (Z.to_nat r) b).
Proof.
  intros H Hn Lb Ho B W.
  destruct (write_spec v c m_buf shrink_ok rio env off b len r v' H Hn Lb Ho B W)
    as (c' & H' & R & _ & Sz & Inv).
  rewrite (read_spec v' c' off r H' Ho) by lia.
  pose proof (size_holds v' c' H') as S'.
  assert (Q : Z.max 0 (Z.min r (size v' - off)) = r) by lia.
  rewrite Q. f_equal. rewrite <- (firstn_zrange b off r) by lia.
  apply map_zrange_ext. intros q Hq. rewrite Inv by lia. unfold stored.
  replace (off <=? q) with true by (symmetry; apply Z.leb_le; lia).
  replace (q <? off + r) with true by (symmetry; apply Z.ltb_lt; lia).
  reflexivity.
Qed.

(** [write] changes no byte of the file outside the range it has
    written, whether it completes or stops half way. *)
Theorem write_keeps_other_bytes (v : view) (c : Z -> list Z) (m_buf : list Z)
    (shrink_ok : bool) (rio : Z -> bool) (env : Z -> option (list Z) * bool)
    (off : Z) (b : list Z) (len r : Z) (v' : view) (p n : Z) :
  holds v c ->
  (forall i nonce, fst (env i) = Some nonce -> length nonce = nonce_len) ->
  Z.of_nat (length b) = len -> 0 <= off -> off + len < 2 ^ 62 ->
  write v m_buf shrink_ok rio env off (Some b) len = (r, v') ->
  0 <= p -> 0 <= n -> p + n <= size v -> p + n <= off \/ off + r <= p ->
  read v' (fun _ => true) p true n = read v (fun _ => true) p true n.
Proof.
  intros H Hn Lb Ho B W Hp Hl In Out.
  destruct (write_spec v c m_buf shrink_ok rio env off b len r v' H Hn Lb Ho B W)
    as (c' & H' & R & Cv & _ & Inv).
  pose proof (size_holds v c H) as S. pose proof (size_holds v' c' H') as S'.
  assert (Sv : size v <= size v').
  { rewrite S, S'. apply Z.mul_le_mono_nonneg_r; [unfold block_size; lia|exact Cv]. }
  assert (Bn : p + n < 2 ^ 64).
  { destruct H as (_ & Cn & _). rewrite S in In. unfold block_size in In. lia. }
  rewrite (read_spec v' c' p n H' Hp Hl Bn), (read_spec v c p n H Hp Hl Bn).
  replace (Z.max 0 (Z.min n (size v' - p))) with n by lia.
  replace (Z.max 0 (Z.min n (size v - p))) with n by lia.
  f_equal. apply map_zrange_ext. intros q Hq. rewrite Inv by lia. unfold stored.
  replace ((off <=? q) && (q <? off + r)) with false.
  - replace (q <? m_count v * block_size) with true; [reflexivity|].
    symmetry. apply Z.ltb_lt. lia.
  - symmetry. apply andb_false_iff.
    destruct Out; [left; apply Z.leb_gt|right; apply Z.ltb_ge]; lia.
Qed.

(** What [write] adds to the file around the bytes it has written reads
    as zeros: the gap behind the old end of the file, the front of the
    first new block and the rest of the last one. *)
Theorem write_pads_with_zeros (v : view) (c : Z -> list Z) (m_buf : list Z)
    (shrink_ok : bool) (rio : Z -> bool) (env : Z -> option (list Z) * bool)
    (off : Z) (b : list Z) (len r : Z) (v' : view) (p n : Z) :
  holds v c ->
  (forall i nonce, fst (env i) = Some nonce -> length nonce = nonce_len) ->
  Z.of_nat (length b) = len -> 0 <= off -> off + len < 2 ^ 62 ->
  write v m_buf shrink_ok rio env off (Some b) len = (r, v') ->
  size v <= p -> 0 <= n -> p + n <= size v' -> p + n <= off \/ off + r <= p ->
  read v' (fun _ => true) p true n = (n, repeat 0 (Z.to_nat n)).
Proof.
  intros H Hn Lb Ho B W Hp Hl In Out.
  destruct (write_spec v c m_buf shrink_ok rio env off b len r v' H Hn Lb Ho B W)
    as (c' & H' & R & Cv & _ & Inv).
  pose proof (size_holds v c H) as S. pose proof (size_holds v' c' H') as S'.
  assert (P0 : 0 <= p).
  { destruct H as (_ & Cn & _). rewrite S in Hp. unfold block_size in Hp. lia. }
  assert (Bn : p + n < 2 ^ 64).
  { destruct H' as (_ & Cn & _). rewrite S' in In. unfold block_size in In. lia. }
  rewrite (read_spec v' c' p n H' P0 Hl Bn).
  replace (Z.max 0 (Z.min n (size v' - p))) with n by lia.
  f_equal. rewrite <- (zeros_zrange p n).
  apply map_zrange_ext. intros q Hq. rewrite Inv by lia. unfold stored.
  replace ((off <=? q) && (q <? off + r)) with false.
  - replace (q <? m_count v * block_size) with false; [reflexivity|].
    symmetry. apply Z.ltb_ge. lia.
  - symmetry. apply andb_false_iff.
    destruct Out; [left; apply Z.leb_gt|right; apply Z.ltb_ge]; lia.
Qed.

Lemma patch_zeros (base : list Z) (m s : Z) :
  0 <= m -> 0 <= s -> m + s <= Z.of_nat (length base) ->
  (forall k, nth k base 0 = 0) ->
  patch base m (repeat 0 (Z.to_nat s)) = base.
Proof.
  intros Hm Hs L Zero.
  assert (Fit : (Z.to_nat m + length (repeat 0%Z (Z.to_nat s)) <= length base)%nat)
    by (rewrite repeat_length; lia).
  apply (nth_ext _ _ 0 0); [apply patch_length, Fit|].
  intros k _. rewrite patch_nth by exact Fit.
  destruct ((Z.to_nat m <=? k)%nat
            && (k <? Z.to_nat m + length (repeat 0%Z (Z.to_nat s)))%nat);
    [|reflexivity].
  rewrite nth_repeat, Zero. reflexivity.
Qed.

Lemma patch_whole (m_buf : list Z) :
  length m_buf = payload_len ->
  patch m_buf 0 (repeat 0 (Z.to_nat block_size)) = s_zeros.
Proof.
  intros L. unfold patch. cbn [Z.to_nat firstn app Nat.add].
  rewrite repeat_length, skipn_all2 by (rewrite L; unfold payload_len; lia).
  apply app_nil_r.
Qed.

Lemma chunk_zeros (len result s : Z) :
  0 <= result -> 0 <= s -> result + s <= len ->
  chunk (repeat 0 (Z.to_nat len)) result s = repeat 0 (Z.to_nat s).
Proof.
  intros Hr Hs L. apply (nth_ext _ _ 0 0).
  - rewrite chunk_length, repeat_length by (rewrite ?repeat_length; lia). reflexivity.
  - intros k Lk. rewrite chunk_length in Lk by (rewrite ?repeat_length; lia).
    rewrite chunk_nth by exact Lk. rewrite !nth_repeat. reflexivity.
Qed.

Lemma write_loop_null (rio : Z -> bool) (env : Z -> option (list Z) * bool)
    (len fsize : Z) :
  forall fuel offset result m_buf v,
    length m_buf = payload_len -> 0 <= result ->
    write_loop fuel rio env None len fsize offset result m_buf v
    = write_loop fuel rio env (Some (repeat 0 (Z.to_nat len))) len fsize offset result
                 m_buf v.
Proof.
  assert (Bs : block_size = 4064) by reflexivity.
  induction fuel as [|f IH]; intros offset result m_buf v Lm R; [reflexivity|].
  cbn [write_loop]. destruct (result <? len) eqn:L; [|reflexivity].
  apply Z.ltb_lt in L. cbv zeta.
  set (_mod := offset mod block_size).
  set (_size := Z.min (len - result) (block_size - _mod)).
  assert (M : 0 <= _mod < block_size) by (apply Z.mod_pos_bound; reflexivity).
  assert (S1 : 0 < _size <= block_size - _mod) by (unfold _size; lia).
  assert (S2 : result + _size <= len) by (unfold _size; lia).
  destruct (_size <? block_size) eqn:Part.
  - replace (_size =? block_size) with false
      by (symmetry; apply Z.eqb_neq; apply Z.ltb_lt in Part; lia).
    rewrite !andb_true_r, !orb_false_r. rewrite chunk_zeros by lia.
    destruct (offset >=? fsize) eqn:New.
    + replace (offset <? fsize) with false
        by (symmetry; rewrite Z.geb_leb in New; apply Z.leb_le in New;
            apply Z.ltb_ge; exact New).
      rewrite patch_zeros;
        [|lia|lia|unfold s_zeros; rewrite repeat_length; unfold payload_len; lia
         |intros k; apply zeros_byte].
      destruct (write_block seal v (offset / block_size) s_zeros 0 _ _);
        [|reflexivity].
      apply IH; [apply repeat_length|lia].
    + replace (offset <? fsize) with true
        by (symmetry; rewrite Z.geb_leb in New; apply Z.leb_gt in New;
            apply Z.ltb_lt; exact New).
      destruct (read_block open v (offset / block_size) 0 _); [|reflexivity].
      destruct (write_block seal v (offset / block_size) _ 0 _ _); [|reflexivity].
      apply IH; [apply repeat_length|lia].
  - rewrite !andb_false_r. cbv iota beta.
    apply Z.ltb_ge in Part.
    assert (Sz : _size = block_size) by lia. rewrite Sz.
    assert (M0 : _mod = 0) by lia. rewrite M0.
    rewrite Z.eqb_refl, orb_true_r.
    rewrite chunk_zeros by lia. rewrite patch_whole by exact Lm.
    destruct (write_block seal v (offset / block_size) _ 0 _ _); [|reflexivity].
    apply IH; [apply repeat_length|lia].
Qed.

(** [write] without a buffer writes zeros: it does to the file what it
    does with a buffer of [len] zero bytes, and returns the same count,
    whatever fails on the way. *)
Theorem write_without_buffer_writes_zeros (v : view) (m_buf : list Z) (shrink_ok : bool)
    (rio : Z -> bool) (env : Z -> option (list Z) * bool) (off len : Z) :
  length m_buf = payload_len ->
  write v m_buf shrink_ok rio env off None len
  = write v m_buf shrink_ok rio env off (Some (repeat 0 (Z.to_nat len))) len.
Proof.
  intros Lm. unfold write. cbv zeta.
  destruct (size v <? u64 (off - off mod block_size)).
  - destruct (u64 (u64 (off - off mod block_size) - size v) >? 1024 * 1024 * 1024);
      [reflexivity|].
    destruct (trunc v (u64 (off - off mod block_size)) shrink_ok env) as [got v1].
    destruct (negb (got =? u64 (off - off mod block_size))); [reflexivity|].
    apply write_loop_null; [exact Lm|lia].
  - apply write_loop_null; [exact Lm|lia].
Qed.

(** *** A write that nothing stops

    The random generator, the cipher and the file do not fail. *)

Section Calm.

Variable rio : Z -> bool.
Variable env : Z -> option (list Z) * bool.
Hypothesis rio_ok : forall i, rio i = true.
Hypothesis env_ok : forall i, exists nonce,
  env i = (Some nonce, true) /\ length nonce = nonce_len.
Hypothesis seal_ok : forall n a p, seal n a p <> None.

Lemma env_nonce (i : Z) (nonce : list Z) :
  fst (env i) = Some nonce -> length nonce = nonce_len.
Proof.
  intros E. destruct (env_ok i) as (n0 & E0 & L0). rewrite E0 in E. cbn [fst] in E.
  congruence.
Qed.

Lemma write_block_ok (v : view) (i : Z) (src : list Z) :
  m_enc v = true -> i <= m_count v ->
  exists v', write_block seal v i src 0 (fst (env i)) (snd (env i)) = Some v' /\
             m_enc v' = true.
Proof.
  intros En Le. destruct (env_ok i) as (nonce & E & _). rewrite E. cbn [fst snd].
  unfold write_block. rewrite En.
  replace (i >? m_count v) with false by (symmetry; rewrite Z.gtb_ltb; apply Z.ltb_ge; lia).
  cbn [negb orb].
  destruct (seal nonce (block_aad 0 i) src) as [[ct tag]|] eqn:S;
    [|exfalso; exact (seal_ok _ _ _ S)].
  eexists. split; [reflexivity|]. reflexivity.
Qed.

Lemma grow_ok (stop : Z) :
  stop < 2 ^ 64 ->
  forall fuel i v, m_enc v = true -> m_count v = i -> 0 <= i ->
    fst (grow fuel i stop env v) = None /\ m_enc (snd (grow fuel i stop env v)) = true.
Proof.
  intros S. induction fuel as [|f IH]; intros i v En C Hi; cbn [grow]; [auto|].
  destruct (i <? stop) eqn:L; [|auto]. apply Z.ltb_lt in L.
  destruct (write_block_ok v i s_zeros En ltac:(lia)) as (v' & W & En').
  rewrite W. destruct (append_count _ _ _ _ _ _ _ W (eq_sym C)) as [C' _].
  unfold u64. rewrite Z.mod_small by lia. apply IH; [exact En'|exact C'|lia].
Qed.

Lemma trunc_ok (v : view) (c : Z -> list Z) (fneed : Z) (shrink_ok : bool) :
  holds v c -> m_enc v = true ->
  size v < fneed -> fneed mod block_size = 0 -> fneed <= 2 ^ 50 ->
  fst (trunc v fneed shrink_ok env) = fneed /\
  m_enc (snd (trunc v fneed shrink_ok env)) = true.
Proof.
  intros H En Lt Mo Le. pose proof (size_holds v c H) as Sz.
  destruct H as (D & Cn & Hc).
  assert (Bs : block_size = 4064) by reflexivity.
  assert (Old : u64 (m_count v * 4096) = m_count v * 4096)
    by (unfold u64; apply Z.mod_small; lia).
  assert (Q : m_count v < fneed / block_size <= 2 ^ 50).
  { change block_size with 4064 in *. Z.div_mod_to_equations. lia. }
  assert (Fd : fneed / block_size * block_size = fneed).
  { change block_size with 4064 in *. Z.div_mod_to_equations. lia. }
  unfold trunc. cbv zeta. rewrite Old.
  rewrite real_size_blocks by (try assumption; lia).
  replace (m_count v * 4096 =? fneed / block_size * 4096) with false
    by (symmetry; apply Z.eqb_neq; lia).
  replace (fneed >? 2 ^ 50) with false
    by (symmetry; rewrite Z.gtb_ltb; apply Z.ltb_ge; lia).
  replace (fneed / block_size * 4096 <? m_count v * 4096) with false
    by (symmetry; apply Z.ltb_ge; lia).
  replace (fneed / block_size * 4096 >? m_count v * 4096) with true
    by (symmetry; apply Z.gtb_lt; lia).
  cbn [orb andb]. rewrite !Z.div_mul by lia.
  destruct (grow_ok (fneed / block_size) ltac:(lia)
              (Z.to_nat (fneed / block_size - m_count v)) (m_count v) v En eq_refl
              ltac:(lia)) as [G1 G2].
  destruct (grow _ (m_count v) (fneed / block_size) env v) as [failed v1].
  cbn [fst snd] in G1, G2. subst failed. cbn [fst snd].
  split; [|exact G2]. rewrite Fd. unfold u64. apply Z.mod_small. lia.
Qed.

Lemma write_loop_full (b : list Z) (len fsize off m0 : Z) :
  Z.of_nat (length b) = len -> 0 <= off -> off + len < 2 ^ 62 ->
  fsize = m0 * block_size ->
  forall fuel result m_buf v c,
    holds v c -> m_enc v = true -> m0 <= m_count v -> 0 <= result <= len ->
    (off + result) / block_size <= m_count v ->
    (Z.to_nat (len - result) <= fuel)%nat ->
    fst (write_loop fuel rio env (Some b) len fsize (off + result) result m_buf v) = len.
Proof.
  intros Lb Ho B Fs.
  assert (Bs : block_size = 4064) by reflexivity.
  assert (P : Z.of_nat payload_len = block_size) by reflexivity.
  induction fuel as [|f IH]; intros result m_buf v c H En M0 R Le F.
  - cbn [write_loop fst]. lia.
  - cbn [write_loop]. destruct (result <? len) eqn:L.
    2:{ apply Z.ltb_ge in L. cbn [fst]. lia. }
    apply Z.ltb_lt in L. cbv zeta.
    set (o := off + result) in *.
    set (_size := Z.min (len - result) (block_size - o mod block_size)).
    set (i := o / block_size) in *.
    assert (M : 0 <= o mod block_size < block_size)
      by (apply Z.mod_pos_bound; reflexivity).
    assert (Io : o = i * block_size + o mod block_size).
    { unfold i. rewrite Z.mul_comm. apply Z.div_mod. rewrite Bs. lia. }
    assert (S1 : 0 < _size <= block_size - o mod block_size) by (unfold _size; lia).
    assert (S2 : result + _size <= len) by (unfold _size; lia).
    assert (Hi : 0 <= i < 2 ^ 51).
    { unfold i, o. rewrite Bs. split; [apply Z.div_pos; lia|].
      apply Z.div_lt_upper_bound; lia. }
    assert (Lc : length (chunk b result _size) = Z.to_nat _size)
      by (apply chunk_length; lia).
    assert (G : forall src m_buf3,
              length src = payload_len ->
              fst match write_block seal v i src 0 (fst (env i)) (snd (env i)) with
                  | None => (result, v)
                  | Some v1 =>
                      write_loop f rio env (Some b) len fsize (u64 (o + _size))
                                 (result + _size) m_buf3 v1
                  end = len).
    { intros src m_buf3 Ls.
      destruct (write_block_ok v i src En Le) as (v1 & W & En1). rewrite W.
      destruct (write_block_holds v v1 c i src _ _ H Hi Ls (env_nonce i) W)
        as (_ & C1 & H1).
      unfold u64. rewrite Z.mod_small by (unfold o; lia).
      replace (o + _size) with (off + (result + _size)) by (unfold o; ring).
      apply (IH _ _ _ _ H1 En1); [lia|lia| |lia].
      rewrite C1. apply Z.le_trans with (i + 1); [|lia].
      apply Z.div_le_upper_bound; [rewrite Bs; lia|]. unfold o in *. lia. }
    destruct (_size <? block_size) eqn:Part.
    + apply Z.ltb_lt in Part. rewrite andb_true_r.
      destruct (o >=? fsize) eqn:New.
      * apply G. rewrite patch_length; [apply repeat_length|].
        rewrite Lc. unfold s_zeros. rewrite repeat_length. lia.
      * rewrite Z.geb_leb in New. apply Z.leb_gt in New.
        assert (Li : i < m_count v).
        { assert (i < m0); [|lia].
          unfold i. apply Z.div_lt_upper_bound; [rewrite Bs; lia|]. lia. }
        rewrite rio_ok. destruct H as (D & Cn & Hc).
        destruct (Hc i ltac:(lia)) as [Rd Ld]. rewrite Rd.
        apply G. rewrite patch_length; [exact Ld|]. rewrite Lc, Ld. lia.
    + rewrite andb_false_r. apply G. apply chunk_length; [lia|lia|].
      apply Z.ltb_ge in Part. lia.
Qed.

(** With a generator, a cipher and a file that do not fail, [write]
    stores the whole buffer: it returns [len], when the offset is no
    further than 1 GiB behind the end of the file. *)
Theorem write_completes (v : view) (c : Z -> list Z) (m_buf : list Z) (shrink_ok : bool)
    (off : Z) (b : list Z) (len : Z) :
  holds v c -> m_enc v = true ->
  Z.of_nat (length b) = len -> 0 <= off -> off + len <= 2 ^ 50 ->
  off <= size v + 2 ^ 30 ->
  fst (write v m_buf shrink_ok rio env off (Some b) len) = len.
Proof.
  intros H En Lb Ho B Near. pose proof (size_holds v c H) as Sz.
  assert (Bs : block_size = 4064) by reflexivity.
  assert (M : 0 <= off mod block_size < block_size)
    by (apply Z.mod_pos_bound; reflexivity).
  assert (Ml : off mod block_size <= off) by (apply Z.mod_le; [exact Ho|reflexivity]).
  assert (Fneed : u64 (off - off mod block_size) = off - off mod block_size)
    by (unfold u64; apply Z.mod_small; lia).
  assert (Fmod : (off - off mod block_size) mod block_size = 0).
  { rewrite Zminus_mod_idemp_r, Z.sub_diag. reflexivity. }
  assert (Cn : 0 <= m_count v < 2 ^ 52) by (destruct H as (_ & Cn & _); exact Cn).
  assert (Od : off / block_size * block_size = off - off mod block_size).
  { pose proof (Z.div_mod off block_size ltac:(rewrite Bs; lia)). lia. }
  unfold write. cbv zeta. rewrite Fneed.
  destruct (size v <? off - off mod block_size) eqn:Gap.
  - apply Z.ltb_lt in Gap.
    replace (u64 (off - off mod block_size - size v) >? 1024 * 1024 * 1024) with false.
    2:{ symmetry. rewrite Z.gtb_ltb. apply Z.ltb_ge. unfold u64.
        rewrite Z.mod_small by lia. lia. }
    destruct (trunc_ok v c _ shrink_ok H En Gap Fmod ltac:(lia)) as [T1 T2].
    destruct (trunc v (off - off mod block_size) shrink_ok env) as [got v1] eqn:T.
    cbn [fst snd] in T1, T2. subst got. rewrite Z.eqb_refl. cbn [negb].
    destruct (trunc_grown v c _ shrink_ok env _ v1 H env_nonce Gap Fmod T)
      as (G1 & C1 & H1 & Full).
    specialize (Full eq_refl).
    assert (F0 : m_count v1 = off / block_size).
    { rewrite Full, <- Od. apply Z.div_mul. rewrite Bs. lia. }
    pose proof (write_loop_full b len (off - off mod block_size) off (m_count v1)
                  Lb Ho ltac:(lia) ltac:(lia) (Z.to_nat len) 0 m_buf v1 _ H1 T2
                  ltac:(lia) ltac:(lia)) as W.
    rewrite Z.add_0_r in W. apply W; lia.
  - apply Z.ltb_ge in Gap.
    pose proof (write_loop_full b len (size v) off (m_count v)
                  Lb Ho ltac:(lia) Sz (Z.to_nat len) 0 m_buf v c H En
                  ltac:(lia) ltac:(lia)) as W.
    rewrite Z.add_0_r in W. apply W; [|lia].
    rewrite Bs in *. nia.
Qed.

End Calm.

End Resize.

(** Every zero block gets the same nonce and is written. *)
Definition calm (i : Z) : option (list Z) * bool := (Some s1_nonce, true).

(** Witness for [trunc_returns_size]: an empty file is extended to 5000
    bytes, that is to two blocks. *)
Lemma trunc_returns_size_witness :
  fst (trunc toy_seal empty_view 5000 true calm) = 2 * block_size /\
  fst (trunc toy_seal empty_view 5000 true calm)
  = size (snd (trunc toy_seal empty_view 5000 true calm)).
Proof.
  split; [vm_compute; reflexivity|].
  apply trunc_returns_size; cbn [m_count empty_view]; lia.
Defined.

(** Witness for [trunc_appends_zeros]: the second of the two blocks. *)
Lemma trunc_appends_zeros_witness :
  read_block toy_open (snd (trunc toy_seal empty_view 5000 true calm)) 1 0 true
  = Some s_zeros.
Proof.
  apply (trunc_appends_zeros toy_seal toy_open toy_seal_shape toy_open_seal
           empty_view 5000 true calm).
  - cbn [m_count empty_view]. lia.
  - lia.
  - reflexivity.
  - intros i nonce E. assert (Nn : nonce = s1_nonce) by (cbn [calm fst] in E; congruence).
    rewrite Nn. apply repeat_length.
  - vm_compute. split; [discriminate|reflexivity].
Defined.

(** Three bytes written at offset 5000 of an empty file: the gap is filled
    with a block of zeros and the bytes land in the second block. *)
Definition far_write : Z * view :=
  write toy_seal toy_open empty_view s_zeros true (fun _ => true) calm 5000
        (Some [1; 2; 3]) 3.

Definition two_blocks : view := snd far_write.

Definition plain (v : view) (i : Z) : list Z :=
  match read_block toy_open v i 0 true with Some d => d | None => [] end.

Lemma calm_nonce (i : Z) (nonce : list Z) :
  fst (calm i) = Some nonce -> length nonce = nonce_len.
Proof.
  intros E. assert (Nn : nonce = s1_nonce) by (cbn [calm fst] in E; congruence).
  rewrite Nn. apply repeat_length.
Qed.

Lemma holds_empty : holds toy_open empty_view (plain empty_view).
Proof.
  split; [reflexivity|]. split; [cbn [m_count empty_view]; lia|].
  intros i Hi. cbn [m_count empty_view] in Hi. lia.
Qed.

Lemma holds_two_blocks : holds toy_open two_blocks (plain two_blocks).
Proof.
  assert (C : m_count two_blocks = 2) by (vm_compute; reflexivity).
  split; [vm_compute; reflexivity|]. split; [rewrite C; lia|].
  intros i Hi. rewrite C in Hi.
  assert (I : i = 0 \/ i = 1) by lia.
  destruct I; subst i; split; vm_compute; reflexivity.
Qed.

(** Witness for [read_returns_stored_bytes]: ten bytes asked for at
    offset 8120 of the two blocks, eight returned. *)
Lemma read_returns_stored_bytes_witness :
  read toy_open two_blocks (fun _ => true) 8120 true 10
  = (8, map (byte_at (plain two_blocks)) (zrange 8120 8)).
Proof.
  exact (read_returns_stored_bytes toy_open two_blocks (plain two_blocks) 8120 10
           holds_two_blocks ltac:(lia) ltac:(lia) ltac:(lia)).
Defined.

(** Witness for [write_read_bytes]. *)
Lemma write_read_bytes_witness :
  fst far_write = 3 /\
  read toy_open two_blocks (fun _ => true) 5000 true 3 = (3, [1; 2; 3]).
Proof.
  assert (R : fst far_write = 3) by (vm_compute; reflexivity).
  split; [exact R|].
  exact (write_read_bytes toy_seal toy_open toy_seal_shape toy_open_seal
           empty_view (plain empty_view) s_zeros true (fun _ => true) calm 5000
           [1; 2; 3] 3 3 two_blocks holds_empty calm_nonce eq_refl ltac:(lia) ltac:(lia)
           (eq_trans (surjective_pairing far_write)
                     (f_equal (fun r => (r, snd far_write)) R))).
Defined.

(** Two bytes written into the first of the two blocks. *)
Definition near_write : Z * view :=
  write toy_seal toy_open two_blocks s_zeros true (fun _ => true) calm 100
        (Some [9; 9]) 2.

(** Witness for [write_keeps_other_bytes]: the three bytes at offset 5000
    are still there. *)
Lemma write_keeps_other_bytes_witness :
  read toy_open (snd near_write) (fun _ => true) 5000 true 3
  = read toy_open two_blocks (fun _ => true) 5000 true 3.
Proof.
  apply (write_keeps_other_bytes toy_seal toy_open toy_seal_shape toy_open_seal
           two_blocks (plain two_blocks) s_zeros true (fun _ => true) calm 100
           [9; 9] 2 (fst near_write) (snd near_write) 5000 3
           holds_two_blocks calm_nonce eq_refl ltac:(lia) ltac:(lia)
           (surjective_pairing near_write) ltac:(lia) ltac:(lia)).
  - vm_compute. discriminate.
  - right. vm_compute. discriminate.
Defined.

(** Witness for [write_pads_with_zeros]: the block that fills the gap. *)
Lemma write_pads_with_zeros_witness :
  read toy_open two_blocks (fun _ => true) 0 true 4064 = (4064, repeat 0 4064).
Proof.
  apply (write_pads_with_zeros toy_seal toy_open toy_seal_shape toy_open_seal
           empty_view (plain empty_view) s_zeros true (fun _ => true) calm 5000
           [1; 2; 3] 3 (fst far_write) two_blocks 0 4064
           holds_empty calm_nonce eq_refl ltac:(lia) ltac:(lia)
           (surjective_pairing far_write)).
  - vm_compute. discriminate.
  - lia.
  - vm_compute. discriminate.
  - left. lia.
Defined.

(** Witness for [write_without_buffer_writes_zeros]: 5000 bytes from
    offset 4000 of the two blocks. *)
Lemma write_without_buffer_writes_zeros_witness :
  write toy_seal toy_open two_blocks s_zeros true (fun _ => true) calm 4000 None 5000
  = write toy_seal toy_open two_blocks s_zeros true (fun _ => true) calm 4000
          (Some (repeat 0 (Z.to_nat 5000))) 5000.
Proof.
  apply write_without_buffer_writes_zeros. apply repeat_length.
Defined.

Lemma toy_seal_ok (n a p : list Z) : toy_seal n a p <> None.
Proof. discriminate. Qed.

Lemma calm_ok (i : Z) :
  exists nonce, calm i = (Some nonce, true) /\ length nonce = nonce_len.
Proof. exists s1_nonce. split; [reflexivity|apply repeat_length]. Qed.

(** Witness for [write_completes]: the three bytes written at offset 5000
    of the empty file. *)
Lemma write_completes_witness : fst far_write = 3.
Proof.
  apply (write_completes toy_seal toy_open toy_seal_shape toy_open_seal
           (fun _ => true) calm (fun _ => eq_refl) calm_ok toy_seal_ok
           empty_view (plain empty_view) s_zeros true 5000 [1; 2; 3] 3
           holds_empty eq_refl eq_refl).
  - lia.
  - lia.
  - vm_compute. discriminate.
Defined.

End sfs.

(** ** [sstl]: the value encoder (sstl.hpp)

    A C++ value handed to the encoder is described by the tree of
    [traverse] specializations it goes through. *)

Module sstl.

Set Warnings "-register-all".

(** [enum class byte] *)
Definition terminator : Z := 0.
Definition document : Z := 1.
Definition bit_false : Z := 2.
Definition bit_true : Z := 3.
Definition u8_value : Z := 4.
Definition u8_sized : Z := 5.
Definition u32_value : Z := 6.
Definition u32_sized : Z := 7.
Definition u64_value : Z := 8.
Definition u64_sized : Z := 9.
Definition null_value : Z := 31.

(** A simple type [T] (arithmetic, enum or [serialize_copy]):
    [sizeof(T)], the bytes of the value-initialized [T{}] as [data_type]
    stores them, and the outcome of [arg == T{}] for the object stored as
    the given bytes. *)
Record simple := {
  sizeof : nat;
  init : list Z;
  equals_init : list Z -> bool
}.

Definition is_zero (bytes : list Z) : bool := forallb (fun b => b =? 0) bytes.

(** Integers, characters and enums of [n] bytes, and byte-copy classes
    that compare bytewise: the zero value alone equals [T{}]. *)
Definition integral (n : nat) : simple :=
  {| sizeof := n; init := repeat 0 n; equals_init := is_zero |}.

(** [float] and [double] (IEEE 754, stored big-endian): [-0.0 == 0.0]. *)
Definition signed_zero (bytes : list Z) : bool :=
  ((hd 0 bytes =? 0) || (hd 0 bytes =? 128)) && is_zero (tl bytes).

Definition float32 : simple :=
  {| sizeof := 4; init := repeat 0 4; equals_init := signed_zero |}.

Definition float64 : simple :=
  {| sizeof := 8; init := repeat 0 8; equals_init := signed_zero |}.

Inductive val :=
| VBool (b : bool)
    (* [bool] *)
| VSimple (T : simple) (bytes : list Z)
    (* object of the simple type [T]: its [sizeof(T)] bytes as [data_type]
       stores them, so that [size_of bytes] is [sizeof(T)] *)
| VBytes (l : list Z)
    (* simple container of one-byte elements: [std::string],
       [std::vector<uchar>] *)
| VWide (csize : Z) (elems : list (list Z))
    (* simple container of wider elements; [csize] is [sizeof] of the
       container type *)
| VDoc (fields : list val)
    (* class with a [serialize] method: what it passes to the context *)
| VVector (l : list val)
    (* [std::vector] or [std::basic_string] of a complex type *)
| VDeque (l : list val)
    (* [std::deque], [std::array] of a complex type *)
| VSet (l : list val)
    (* the four set containers: keys in iteration order *)
| VMap (l : list val)
    (* the map containers: [VPair] entries in iteration order *)
| VPair (k v : val)
| VPtr (target : option val)
    (* [std::unique_ptr], [std::shared_ptr] *)
| VNull
    (* [ctx.null()] inside [serialize] *)
| VName (s : list Z).
    (* [ctx.name(str)] inside [serialize]: the bytes above 0x1f *)

(** [struct context_data] in probing and writing mode.  [begin] is the
    write cursor as an offset into the output region [mem]; [None] is the
    null pointer of a probing context. *)
Record context_data := {
  begin : option nat;
  mem : list Z;
  psize : Z
}.

(** [memcpy(begin, data, size)] into the region. *)
Definition splice (p : nat) (d m : list Z) : list Z :=
  firstn p m ++ d ++ skipn (p + length d) m.

(** [context_data::write] (lines 443-454) *)
Definition write (d : list Z) (c : context_data) : context_data :=
  match begin c with
  | Some p => {| begin := Some (p + length d)%nat; mem := splice p d (mem c);
                 psize := psize c |}
  | None => {| begin := None; mem := mem c; psize := psize c + Z.of_nat (length d) |}
  end.

(** [size_type::type_sized], [size_type::type_value] *)
Definition type_sized (n : Z) : Z :=
  if n <? 256 then u8_sized else if n <=? UINT32_MAX then u32_sized else u64_sized.
Definition type_value (n : Z) : Z :=
  if n <? 256 then u8_value else if n <=? UINT32_MAX then u32_value else u64_value.

(** [operator+=(const size_type&)] (lines 464-478) *)
Definition write_size (n : Z) (c : context_data) : context_data :=
  if n <? 256 then write [n] c
  else if n <=? UINT32_MAX then write (be_bytes 4 n) c
  else write (be_bytes 8 n) c.

(** [write_sized] (lines 481-502) *)
Definition write_sized (d : list Z) (n : Z) (c : context_data) : context_data :=
  if n =? 0 then write [bit_false] c
  else
    let c := write [type_sized n] c in
    let c := write_size n c in
    match begin c with
    | Some p => {| begin := Some (p + Z.to_nat n)%nat;
                   mem := splice p (firstn (Z.to_nat n) d) (mem c);
                   psize := psize c |}
    | None => {| begin := None; mem := mem c; psize := psize c + n |}
    end.

(** [traverse<Type, size_type>], not reading (lines 884-897) *)
Definition write_count (n : Z) (c : context_data) : context_data :=
  if n =? 0 then write [bit_false] c
  else write_size n (write [type_value n] c).

(** [my_type] of a simple type with [sizeof(T) = n] *)
Definition my_type (n : Z) : Z :=
  if n =? 1 then u8_value else if n =? 4 then u32_value
  else if n =? 8 then u64_value
  else if n <? 256 then u8_sized else u32_sized.

Definition size_of {A} (l : list A) : Z := Z.of_nat (length l).

(** The branches [Type != context_type::reading] of the [traverse]
    specializations, shared by probing and writing. *)
Fixpoint traverse (v : val) (c : context_data) : context_data :=
  let seq := fix seq (l : list val) (c : context_data) : context_data :=
    match l with
    | [] => c
    | x :: r => seq r (traverse x c)
    end in
  match v with
  | VBool b => write [if b then bit_true else bit_false] c
  | VSimple T bytes =>
      if equals_init T bytes then
        (* Zero (default) value optimization *)
        write [bit_false] c
      else if (my_type (size_of bytes) =? u8_sized)
              || (my_type (size_of bytes) =? u32_sized)
      then write_sized bytes (size_of bytes) c
      else write bytes (write [my_type (size_of bytes)] c)
  | VBytes l =>
      match l with
      | [] => write [bit_false] c
      | _ => write_sized l (size_of l) c
      end
  | VWide csize elems =>
      match elems with
      | [] => write [bit_false] c
      | _ =>
          let n := size_of elems * csize in
          let c := write_size n (write [type_sized n] c) in
          fold_left (fun c e => write e c) elems c
      end
  | VDoc fields => write [terminator] (seq fields (write [document] c))
  | VVector l | VSet l | VMap l =>
      match l with
      | [] => write [bit_false] c
      | _ =>
          write [terminator]
            (seq l (write_count (size_of l) (write [document] c)))
      end
  | VDeque l =>
      match l with
      | [] => write [bit_false] c
      | _ => write [terminator] (seq l (write [document] c))
      end
  | VPair k x => traverse x (traverse k c)
  | VPtr _ => write [null_value] c
  | VNull => write [null_value] c
  | VName s => write s c
  end.

(** [sstl::append] (lines 1362-1383): the bytes appended to [out] and the
    returned size; the second component of the region result is the final
    write cursor. *)
Definition append (out : list Z) (v : val) : list Z * Z * option nat :=
  let probe := traverse v {| begin := None; mem := []; psize := 0 |} in
  if negb (psize probe =? 0) then
    let pos := length out in
    let out' := out ++ repeat 0 (Z.to_nat (psize probe)) in
    let ctx := traverse v {| begin := Some pos; mem := out'; psize := psize probe |} in
    (mem ctx, psize probe, begin ctx)
  else (out, 0, None).

(** [sstl::save] *)
Definition save (v : val) : list Z := fst (fst (append [] v)).

(** *** Probing and writing agree *)

Definition traverse_seq : list val -> context_data -> context_data :=
  fix seq (l : list val) (c : context_data) : context_data :=
    match l with
    | [] => c
    | x :: r => seq r (traverse x c)
    end.

(** The bytes a value is written as. *)
Definition enc_size (n : Z) : list Z :=
  if n <? 256 then [n] else if n <=? UINT32_MAX then be_bytes 4 n else be_bytes 8 n.

Definition enc_sized (d : list Z) : list Z :=
  if size_of d =? 0 then [bit_false]
  else type_sized (size_of d) :: enc_size (size_of d) ++ d.

Definition enc_count (n : Z) : list Z :=
  if n =? 0 then [bit_false] else type_value n :: enc_size n.

Fixpoint enc (v : val) : list Z :=
  let seq := fix seq (l : list val) : list Z :=
    match l with
    | [] => []
    | x :: r => enc x ++ seq r
    end in
  match v with
  | VBool b => [if b then bit_true else bit_false]
  | VSimple T bytes =>
      if equals_init T bytes then [bit_false]
      else if (my_type (size_of bytes) =? u8_sized)
              || (my_type (size_of bytes) =? u32_sized)
      then enc_sized bytes
      else my_type (size_of bytes) :: bytes
  | VBytes l => match l with [] => [bit_false] | _ => enc_sized l end
  | VWide csize elems =>
      match elems with
      | [] => [bit_false]
      | _ => type_sized (size_of elems * csize)
             :: enc_size (size_of elems * csize) ++ concat elems
      end
  | VDoc fields => document :: seq fields ++ [terminator]
  | VVector l | VSet l | VMap l =>
      match l with
      | [] => [bit_false]
      | _ => document :: enc_count (size_of l) ++ seq l ++ [terminator]
      end
  | VDeque l =>
      match l with
      | [] => [bit_false]
      | _ => document :: seq l ++ [terminator]
      end
  | VPair k x => enc k ++ enc x
  | VPtr _ => [null_value]
  | VNull => [null_value]
  | VName s => s
  end.

Definition enc_seq : list val -> list Z :=
  fix seq (l : list val) : list Z :=
    match l with
    | [] => []
    | x :: r => enc x ++ seq r
    end.

(** Induction over values, with the hypothesis for every element of the
    nested lists. *)
Section ValInduction.
Variable P : val -> Prop.
Hypothesis HBool : forall b, P (VBool b).
Hypothesis HSimple : forall T bytes, P (VSimple T bytes).
Hypothesis HBytes : forall l, P (VBytes l).
Hypothesis HWide : forall cs elems, P (VWide cs elems).
Hypothesis HDoc : forall l, Forall P l -> P (VDoc l).
Hypothesis HVector : forall l, Forall P l -> P (VVector l).
Hypothesis HDeque : forall l, Forall P l -> P (VDeque l).
Hypothesis HSet : forall l, Forall P l -> P (VSet l).
Hypothesis HMap : forall l, Forall P l -> P (VMap l).
Hypothesis HPair : forall k v, P k -> P v -> P (VPair k v).
Hypothesis HPtr : forall t, P (VPtr t).
Hypothesis HNull : P VNull.
Hypothesis HName : forall s, P (VName s).

Fixpoint val_induction (v : val) : P v :=
  let all := fix all (l : list val) : Forall P l :=
    match l with
    | [] => Forall_nil P
    | x :: r => Forall_cons x (val_induction x) (all r)
    end in
  match v with
  | VBool b => HBool b
  | VSimple T bytes => HSimple T bytes
  | VBytes l => HBytes l
  | VWide cs elems => HWide cs elems
  | VDoc l => HDoc l (all l)
  | VVector l => HVector l (all l)
  | VDeque l => HDeque l (all l)
  | VSet l => HSet l (all l)
  | VMap l => HMap l (all l)
  | VPair k x => HPair k x (val_induction k) (val_induction x)
  | VPtr t => HPtr t
  | VNull => HNull
  | VName s => HName s
  end.
End ValInduction.

(** The cursor of a writing context lies within its region. *)
Definition in_region (c : context_data) : Prop :=
  match begin c with Some p => (p <= length (mem c))%nat | None => True end.


Lemma skipn_past {A} (l1 l2 : list A) (n : nat) :
  skipn (length l1 + n) (l1 ++ l2) = skipn n l2.
Proof. induction l1 as [|x l1 IH]; simpl; [reflexivity|exact IH]. Qed.

Lemma splice_app (p : nat) (a b m : list Z) :
  (p <= length m)%nat ->
  splice (p + length a) b (splice p a m) = splice p (a ++ b) m.
Proof.
  intros H. unfold splice.
  assert (L : length (firstn p m ++ a) = (p + length a)%nat)
    by (rewrite length_app, firstn_length_le by exact H; reflexivity).
  rewrite (app_assoc (firstn p m) a), <- L.
  rewrite sfs.firstn_exact, skipn_past, skipn_skipn.
  rewrite <- !app_assoc. do 3 f_equal.
  rewrite !length_app, firstn_length_le by exact H. f_equal. lia.
Qed.

Lemma splice_length (p : nat) (d m : list Z) :
  (p <= length m)%nat -> (p + length d <= length (splice p d m))%nat.
Proof.
  intros H. unfold splice. rewrite !length_app, firstn_length_le by exact H. lia.
Qed.

Lemma in_region_write (d : list Z) (c : context_data) :
  in_region c -> in_region (write d c).
Proof.
  unfold in_region, write. destruct (begin c) as [p|]; simpl; [|tauto].
  apply splice_length.
Qed.

Lemma write_app (a b : list Z) (c : context_data) :
  in_region c -> write b (write a c) = write (a ++ b) c.
Proof.
  unfold in_region, write. destruct (begin c) as [p|]; simpl; intros H.
  - rewrite splice_app by exact H. rewrite length_app, Nat.add_assoc. reflexivity.
  - f_equal. rewrite length_app, Nat2Z.inj_add. ring.
Qed.

Lemma write_nil (c : context_data) : in_region c -> write [] c = c.
Proof.
  unfold in_region, write, splice. destruct c as [[p|] m ps]; simpl; intros H.
  - rewrite !Nat.add_0_r, firstn_skipn. reflexivity.
  - rewrite Z.add_0_r. reflexivity.
Qed.

Lemma write_size_enc (n : Z) (c : context_data) :
  write_size n c = write (enc_size n) c.
Proof.
  unfold write_size, enc_size.
  destruct (n <? 256); [reflexivity|]. destruct (n <=? UINT32_MAX); reflexivity.
Qed.

Lemma write_sized_enc (d : list Z) (c : context_data) :
  in_region c -> write_sized d (size_of d) c = write (enc_sized d) c.
Proof.
  intros H. unfold write_sized, enc_sized.
  destruct (size_of d =? 0); [reflexivity|].
  rewrite write_size_enc.
  assert (R : in_region (write (enc_size (size_of d)) (write [type_sized (size_of d)] c)))
    by (apply in_region_write, in_region_write, H).
  assert (E : forall c', in_region c' ->
     match begin c' with
     | Some p => {| begin := Some (p + Z.to_nat (size_of d))%nat;
                    mem := splice p (firstn (Z.to_nat (size_of d)) d) (mem c');
                    psize := psize c' |}
     | None => {| begin := None; mem := mem c'; psize := psize c' + size_of d |}
     end = write d c').
  { intros c' _. unfold write, size_of. rewrite Nat2Z.id, firstn_all. reflexivity. }
  rewrite (E _ R). rewrite write_app by (apply in_region_write, H).
  rewrite write_app by exact H. reflexivity.
Qed.

Lemma write_count_enc (n : Z) (c : context_data) :
  in_region c -> write_count n c = write (enc_count n) c.
Proof.
  intros H. unfold write_count, enc_count. destruct (n =? 0); [reflexivity|].
  rewrite write_size_enc, write_app by exact H. reflexivity.
Qed.

Lemma write_concat (elems : list (list Z)) :
  forall c, in_region c ->
  fold_left (fun c e => write e c) elems c = write (concat elems) c.
Proof.
  induction elems as [|e r IH]; intros c H; simpl.
  - symmetry. apply write_nil, H.
  - rewrite IH by (apply in_region_write, H). apply write_app, H.
Qed.

Lemma traverse_seq_enc (l : list val) :
  Forall (fun v => forall c, in_region c -> traverse v c = write (enc v) c) l ->
  forall c, in_region c -> traverse_seq l c = write (enc_seq l) c.
Proof.
  induction 1 as [|x r Hx _ IH]; intros c H; simpl.
  - symmetry. apply write_nil, H.
  - rewrite Hx by exact H. rewrite IH by (apply in_region_write, H).
    apply write_app, H.
Qed.

(** Every value is written as [enc v], in both modes. *)
Lemma traverse_enc (v : val) :
  forall c, in_region c -> traverse v c = write (enc v) c.
Proof.
  induction v as [b|T bytes|l|cs elems|l IH|l IH|l IH|l IH|l IH|k x IHk IHx|t| |s]
    using val_induction; intros c H.
  - reflexivity.
  - cbn [traverse enc]. destruct (equals_init T bytes); [reflexivity|].
    destruct ((my_type (size_of bytes) =? u8_sized) || (my_type (size_of bytes) =? u32_sized)).
    + apply write_sized_enc, H.
    + apply write_app, H.
  - cbn [traverse enc]. destruct l; [reflexivity|]. apply write_sized_enc, H.
  - cbn [traverse enc]. destruct elems as [|e r]; [reflexivity|].
    rewrite write_size_enc, write_concat by (apply in_region_write, in_region_write, H).
    rewrite write_app by (apply in_region_write, H).
    rewrite write_app by exact H. reflexivity.
  - change (traverse (VDoc l) c) with (write [terminator] (traverse_seq l (write [document] c))).
    change (enc (VDoc l)) with (document :: enc_seq l ++ [terminator]).
    rewrite (traverse_seq_enc l IH) by (apply in_region_write, H).
    rewrite write_app by (apply in_region_write, H).
    rewrite write_app by exact H. reflexivity.
  - destruct l as [|x r]; [reflexivity|].
    change (traverse (VVector (x :: r)) c) with
      (write [terminator] (traverse_seq (x :: r)
         (write_count (size_of (x :: r)) (write [document] c)))).
    change (enc (VVector (x :: r))) with
      (document :: enc_count (size_of (x :: r)) ++ enc_seq (x :: r) ++ [terminator]).
    rewrite write_count_enc by (apply in_region_write, H).
    rewrite (traverse_seq_enc _ IH) by (apply in_region_write, in_region_write, H).
    rewrite write_app by (apply in_region_write, in_region_write, H).
    rewrite write_app by (apply in_region_write, H).
    rewrite write_app by exact H. reflexivity.
  - destruct l as [|x r]; [reflexivity|].
    change (traverse (VDeque (x :: r)) c) with
      (write [terminator] (traverse_seq (x :: r) (write [document] c))).
    change (enc (VDeque (x :: r))) with (document :: enc_seq (x :: r) ++ [terminator]).
    rewrite (traverse_seq_enc _ IH) by (apply in_region_write, H).
    rewrite write_app by (apply in_region_write, H).
    rewrite write_app by exact H. reflexivity.
  - destruct l as [|x r]; [reflexivity|].
    change (traverse (VSet (x :: r)) c) with
      (write [terminator] (traverse_seq (x :: r)
         (write_count (size_of (x :: r)) (write [document] c)))).
    change (enc (VSet (x :: r))) with
      (document :: enc_count (size_of (x :: r)) ++ enc_seq (x :: r) ++ [terminator]).
    rewrite write_count_enc by (apply in_region_write, H).
    rewrite (traverse_seq_enc _ IH) by (apply in_region_write, in_region_write, H).
    rewrite write_app by (apply in_region_write, in_region_write, H).
    rewrite write_app by (apply in_region_write, H).
    rewrite write_app by exact H. reflexivity.
  - destruct l as [|x r]; [reflexivity|].
    change (traverse (VMap (x :: r)) c) with
      (write [terminator] (traverse_seq (x :: r)
         (write_count (size_of (x :: r)) (write [document] c)))).
    change (enc (VMap (x :: r))) with
      (document :: enc_count (size_of (x :: r)) ++ enc_seq (x :: r) ++ [terminator]).
    rewrite write_count_enc by (apply in_region_write, H).
    rewrite (traverse_seq_enc _ IH) by (apply in_region_write, in_region_write, H).
    rewrite write_app by (apply in_region_write, in_region_write, H).
    rewrite write_app by (apply in_region_write, H).
    rewrite write_app by exact H. reflexivity.
  - cbn [traverse enc]. rewrite IHk by exact H.
    rewrite IHx by (apply in_region_write, H). apply write_app, H.
  - reflexivity.
  - reflexivity.
  - reflexivity.
Qed.


(** C10. The size accumulated by a probing context equals the number of
    bytes a writing context emits for the same value: in the region
    [sstl::append] reserves behind [out], the write cursor advances by
    exactly the probed size and ends exactly at the end of the region,
    which keeps its length and holds [out] followed by the emitted bytes. *)
Theorem probe_matches_write (v : val) (out : list Z) :
  let probe := traverse v {| begin := None; mem := []; psize := 0 |} in
  let region := out ++ repeat 0 (Z.to_nat (psize probe)) in
  let ctx := traverse v {| begin := Some (length out); mem := region;
                           psize := psize probe |} in
  psize probe = size_of (enc v) /\
  begin ctx = Some (length out + Z.to_nat (psize probe))%nat /\
  begin ctx = Some (length region) /\
  length (mem ctx) = length region /\
  mem ctx = out ++ enc v /\
  (psize probe <> 0 ->
   append out v = (out ++ enc v, psize probe, Some (length (out ++ enc v)))).
Proof.
  cbv zeta.
  assert (P : traverse v {| begin := None; mem := []; psize := 0 |}
              = {| begin := None; mem := []; psize := size_of (enc v) |}).
  { rewrite traverse_enc by exact I. reflexivity. }
  assert (N : Z.to_nat (size_of (enc v)) = length (enc v)) by apply Nat2Z.id.
  rewrite P. cbn [psize]. rewrite !N.
  assert (W : traverse v {| begin := Some (length out);
                            mem := out ++ repeat 0 (length (enc v));
                            psize := size_of (enc v) |}
              = {| begin := Some (length out + length (enc v))%nat;
                   mem := out ++ enc v; psize := size_of (enc v) |}).
  { rewrite traverse_enc.
    - unfold write. cbn [begin mem psize]. f_equal. unfold splice.
      rewrite sfs.firstn_exact, skipn_past, skipn_all2 by (rewrite repeat_length; lia).
      rewrite app_nil_r. reflexivity.
    - unfold in_region. cbn [begin mem]. rewrite length_app. lia. }
  rewrite W. cbn [begin mem].
  split; [reflexivity|]. split; [reflexivity|].
  split; [rewrite length_app, repeat_length; reflexivity|].
  split; [rewrite !length_app, repeat_length; reflexivity|].
  split; [reflexivity|].
  intros NZ. unfold append. rewrite P. cbn [psize].
  replace (size_of (enc v) =? 0) with false by (symmetry; apply Z.eqb_neq; exact NZ).
  cbn [negb]. rewrite N, W. cbn [begin mem].
  rewrite length_app. reflexivity.
Qed.


(** *** Reading mode

    The static type of the object read into.  [TNull] and [TName] stand
    for the [ctx.null()] and [ctx.name(str)] calls of a [serialize]
    method. *)
Inductive ty :=
| TBool
| TSimple (T : simple)
| TBytes
| TWide (esize : nat) (csize : Z)
| TDoc (fields : list ty)
| TVector (t : ty)
| TDeque (t : ty)
| TSet (t : ty)
| TMap (k v : ty)
| TPtr (t : ty)
| TNull
| TName (s : list Z).

(** The value-initialized object, [T{}]. *)
Fixpoint default (t : ty) : val :=
  match t with
  | TBool => VBool false
  | TSimple T => VSimple T (init T)
  | TBytes => VBytes []
  | TWide _ cs => VWide cs []
  | TDoc fields => VDoc (map default fields)
  | TVector _ => VVector []
  | TDeque _ => VDeque []
  | TSet _ => VSet []
  | TMap _ _ => VMap []
  | TPtr _ => VPtr None
  | TNull => VNull
  | TName s => VName s
  end.

(** A reading context is the bytes from [begin] to [end] and the
    recursion level kept in [psize]. *)
Definition max_level : Z := 128.

Definition remaining (r : list Z) : Z := Z.of_nat (length r).

(** [context_data::read] (lines 306-318); at the end of the data the
    output is left as it was, which is modelled as zero bytes. *)
Definition read (n : nat) (r : list Z) : list Z * list Z :=
  if (n <=? length r)%nat then (firstn n r, skipn n r) else (repeat 0 n, []).

(** [read_size] (lines 330-365) *)
Definition read_size (_type : Z) (r : list Z) : Z * list Z :=
  if (_type =? u8_value) || (_type =? u8_sized) then
    let '(d, r1) := read 1 r in
    let size8 := hd 0 d in
    if remaining r1 >=? size8 then (size8, r1) else (0, [])
  else if (_type =? u32_value) || (_type =? u32_sized) then
    let '(d, r1) := read 4 r in
    let size32 := be_value d in
    if remaining r1 >=? size32 then (size32, r1) else (0, [])
  else if (_type =? u64_value) || (_type =? u64_sized) then
    let '(d, r1) := read 8 r in
    let size64 := be_value d in
    if remaining r1 >=? size64 then (size64, r1) else (0, [])
  else (0, []).

(** [skip(level)] (lines 368-431) *)
Fixpoint skip (fuel : nat) (level : Z) (r : list Z) : list Z :=
  match fuel with
  | O => r
  | S f =>
      match r with
      | [] => r
      | _b :: r1 =>
          if (level =? 0) && (_b =? terminator) then r
          else
            let next (level : Z) (r : list Z) :=
              if level =? 0 then r else skip f level r in
            if _b =? terminator then next (level - 1) r1
            else if _b =? document then next (level + 1) r1
            else if (_b =? null_value) || (_b =? bit_false) || (_b =? bit_true)
            then next level r1
            else if _b =? u8_value then next level (snd (read 1 r1))
            else if _b =? u32_value then next level (snd (read 4 r1))
            else if _b =? u64_value then next level (snd (read 8 r1))
            else if (_b =? u8_sized) || (_b =? u32_sized) || (_b =? u64_sized) then
              let '(n, r2) := read_size _b r1 in
              next level (skipn (Z.to_nat n) r2)
            else if _b <? null_value then []     (* Reserved bytes: abort *)
            else skip f level r1                 (* Skip metadata *)
      end
  end.

(** [drop()] (lines 434-440) *)
Fixpoint drop (fuel : nat) (r : list Z) : list Z :=
  match fuel with
  | O => r
  | S f =>
      match r with
      | [] => r
      | b :: _ => if b =? terminator then r
                  else drop f (skip (S (length r)) 0 r)
      end
  end.

Definition skip_all (level : Z) (r : list Z) : list Z := skip (S (length r)) level r.
Definition drop_all (r : list Z) : list Z := drop (S (length r)) r.

(** [explicit operator bool] of a reading context. *)
Definition more (r : list Z) : bool :=
  match r with
  | [] => false
  | b :: _ => negb (b =? terminator)
  end.

(** [traverse<reading, size_type>] into [size_type size = 0] (lines
    900-924). *)
Definition read_count (r : list Z) : Z * list Z :=
  match r with
  | [] => (0, r)
  | b :: r1 =>
      if b =? bit_false then (0, r1)
      else if (b =? u8_value) || (b =? u32_value) || (b =? u64_value)
      then read_size b r1
      else if b =? null_value then (0, r1)
      else (0, drop_all r)
  end.

(** The elements of a simple container of wide elements (lines
    613-625): one per element of the resized container, read while
    [begin < last]; [len0] bytes were left when the loop started and
    [last] lies [total] bytes further. *)
Fixpoint read_wide (n : nat) (esize : nat) (total len0 : Z) (r : list Z)
    : list (list Z) * list Z :=
  match n with
  | O => ([], r)
  | S k =>
      if len0 - remaining r <? total then
        let '(d, r1) := read esize r in
        let '(es, r2) := read_wide k esize total len0 r1 in
        (d :: es, r2)
      else
        let '(es, r2) := read_wide k esize total len0 r in
        (repeat 0 esize :: es, r2)
  end.

(** [traverse_container], reading (lines 530-556), around the loop
    [body] of the container's [serialize] lambda; [wrap] builds the
    container from the elements emplaced. *)
Definition container (wrap : list val -> val) (body : list Z -> list val * list Z)
    (lvl : Z) (r : list Z) : val * list Z :=
  match r with
  | [] => (wrap [], r)
  | b :: r1 =>
      if b =? document then
        (* Check recursion level *)
        let '(xs, r2) := if lvl + 1 <? max_level then body r1 else ([], r1) in
        (wrap xs, skip_all 1 r2)
      else if b =? bit_false then (wrap [], r1)
      else if b =? null_value then (wrap [], r1)
      else (wrap [], drop_all r)
  end.

(** [while (ctx) { arg.emplace_back(); ctx(arg.back()); }] with the
    element reader [dec]. *)
Fixpoint elems (dec : list Z -> val * list Z) (fuel : nat) (r : list Z)
    : list val * list Z :=
  match fuel with
  | O => ([], r)
  | S f =>
      if more r then
        let '(x, r1) := dec r in
        let '(xs, r2) := elems dec f r1 in
        (x :: xs, r2)
      else ([], r)
  end.

(** [while (ctx) { K key{}; ctx(key); ctx(map.emplace(key).second); }] *)
Fixpoint pairs (deck decv : list Z -> val * list Z) (fuel : nat) (r : list Z)
    : list val * list Z :=
  match fuel with
  | O => ([], r)
  | S f =>
      if more r then
        let '(k, r1) := deck r in
        let '(x, r2) := decv r1 in
        let '(xs, r3) := pairs deck decv f r2 in
        (VPair k x :: xs, r3)
      else ([], r)
  end.

(** The calls [ctx(a, b, ...)] of a [serialize] method, in order. *)
Fixpoint fields (dec : ty -> list Z -> val * list Z) (ts : list ty) (r : list Z)
    : list val * list Z :=
  match ts with
  | [] => ([], r)
  | t1 :: rest =>
      let '(x, r1) := dec t1 r in
      let '(xs, r2) := fields dec rest r1 in
      (x :: xs, r2)
  end.

(** [traverse<reading>] into a value-initialized object of type [t], at
    recursion level [lvl]: the object read and the bytes left. *)
Fixpoint decode (t : ty) (lvl : Z) (r : list Z) {struct t} : val * list Z :=
  match t with
  | TBool =>
      match r with
      | [] => (VBool false, r)
      | b :: r1 =>
          if (b =? bit_false) || (b =? bit_true) then (VBool (b =? bit_true), r1)
          else if b =? null_value then (VBool false, r1)
          else (VBool false, drop_all r)
      end
  | TSimple T =>
      let n := sizeof T in
      let mt := my_type (Z.of_nat n) in
      match r with
      | [] => (VSimple T (init T), r)
      | b :: r1 =>
          if b =? bit_false then (VSimple T (init T), r1)
          else if b =? mt then
            if (mt =? u8_sized) || (mt =? u32_sized) then
              let '(sz, r2) := read_size mt r1 in
              if sz =? Z.of_nat n then
                let '(d, r3) := read n r2 in (VSimple T d, r3)
              else
                (* Invalid size: abort document *)
                (VSimple T (init T), drop_all (skipn n r2))
            else
              let '(d, r2) := read n r1 in (VSimple T d, r2)
          else if b =? null_value then (VSimple T (init T), r1)
          else (VSimple T (init T), drop_all r)
      end
  | TBytes =>
      match r with
      | [] => (VBytes [], r)
      | b :: r1 =>
          if b =? bit_false then (VBytes [], r1)
          else if (b =? u8_sized) || (b =? u32_sized) || (b =? u64_sized) then
            let '(sz, r2) := read_size b r1 in
            (VBytes (firstn (Z.to_nat sz) r2), skipn (Z.to_nat sz) r2)
          else if b =? null_value then (VBytes [], r1)
          else (VBytes [], drop_all r)
      end
  | TWide esize csize =>
      match r with
      | [] => (VWide csize [], r)
      | b :: r1 =>
          if b =? bit_false then (VWide csize [], r1)
          else if (b =? u8_sized) || (b =? u32_sized) || (b =? u64_sized) then
            let '(sz, r2) := read_size b r1 in
            let total := Z.of_nat esize * sz in
            let '(es, _) := read_wide (Z.to_nat sz) esize total (remaining r2) r2 in
            (VWide csize es, skipn (Z.to_nat total) r2)
          else if b =? null_value then (VWide csize [], r1)
          else (VWide csize [], drop_all r)
      end
  | TDoc ts =>
      match r with
      | [] => (VDoc (map default ts), r)
      | b :: r1 =>
          if b =? document then
            (* Check recursion level *)
            let '(xs, r2) :=
              if lvl + 1 <? max_level
              then fields (fun t1 => decode t1 (lvl + 1)) ts r1
              else (map default ts, r1) in
            (VDoc xs, skip_all 1 r2)
          else if b =? null_value then (VDoc (map default ts), r1)
          else (VDoc (map default ts), drop_all r)
      end
  | TVector t1 =>
      container VVector
        (fun r1 => let '(_, r2) := read_count r1 in
                   elems (decode t1 (lvl + 1)) (S (length r2)) r2) lvl r
  | TSet t1 =>
      container VSet
        (fun r1 => let '(_, r2) := read_count r1 in
                   elems (decode t1 (lvl + 1)) (S (length r2)) r2) lvl r
  | TDeque t1 =>
      container VDeque (fun r1 => elems (decode t1 (lvl + 1)) (S (length r1)) r1) lvl r
  | TMap tk tv =>
      container VMap
        (fun r1 => let '(_, r2) := read_count r1 in
                   pairs (decode tk (lvl + 1)) (decode tv (lvl + 1)) (S (length r2)) r2)
        lvl r
  | TPtr _ => (VPtr None, skip_all 0 r)
  | TNull => (VNull, skip_all 0 r)
  | TName s =>
      if (Z.of_nat (length s) <=? remaining r)
         && (if list_eq_dec Z.eq_dec (firstn (length s) r) s then true else false)
      then (VName s, skipn (length s) r)
      else (VName s, drop_all r)
  end.

(** [sstl::load] into a value-initialized object. *)
Definition load (t : ty) (bytes : list Z) : val := fst (decode t 0 bytes).

(** *** Values that survive a round trip

    [wt t v]: [v] is an object of static type [t] that the format can
    carry.  Smart pointers are written as the null value and left
    untouched by reading, so only the null pointer qualifies; containers
    of wide elements are left out. *)

Definition value_ty (t : ty) : bool :=
  match t with TNull | TName _ => false | _ => true end.

Fixpoint wt (t : ty) (v : val) {struct t} : Prop :=
  match t, v with
  | TBool, VBool _ => True
  | TSimple T, VSimple T' d =>
      T' = T /\ length d = sizeof T /\ (1 <= sizeof T)%nat /\
      Z.of_nat (sizeof T) <= UINT32_MAX
  | TBytes, VBytes l => size_of l < 2 ^ 64
  | TDoc ts, VDoc xs =>
      (fix all2 (ts : list ty) (xs : list val) : Prop :=
         match ts, xs with
         | [], [] => True
         | t1 :: tr, x :: xr => wt t1 x /\ all2 tr xr
         | _, _ => False
         end) ts xs
  | TVector t1, VVector l | TDeque t1, VDeque l | TSet t1, VSet l =>
      value_ty t1 = true /\ size_of l < 2 ^ 64 /\
      (fix all (l : list val) : Prop :=
         match l with [] => True | x :: r => wt t1 x /\ all r end) l
  | TMap tk tv, VMap l =>
      value_ty tk = true /\ value_ty tv = true /\ size_of l < 2 ^ 64 /\
      (fix all (l : list val) : Prop :=
         match l with
         | [] => True
         | VPair k x :: r => wt tk k /\ wt tv x /\ all r
         | _ :: _ => False
         end) l
  | TPtr _, VPtr None => True
  | TNull, VNull => True
  | TName s, VName s' => s' = s
  | _, _ => False
  end.

(** Nesting of documents and non-empty containers: the recursion level
    reading needs. *)
Fixpoint depth (v : val) : Z :=
  let deepest := fix deepest (l : list val) : Z :=
    match l with [] => 0 | x :: r => Z.max (depth x) (deepest r) end in
  match v with
  | VDoc l => 1 + deepest l
  | VVector l | VDeque l | VSet l | VMap l =>
      match l with [] => 0 | _ => 1 + deepest l end
  | VPair k x => Z.max (depth k) (depth x)
  | _ => 0
  end.

Definition deepest : list val -> Z :=
  fix deepest (l : list val) : Z :=
    match l with [] => 0 | x :: r => Z.max (depth x) (deepest r) end.

(** Every scalar of [v] that compares equal to [T{}] is [T{}] byte for
    byte, so that the zero value optimization loses nothing of [v]: true
    of every integer, false of the [float] [-0.0]. *)
Fixpoint normal (v : val) : Prop :=
  let all := fix all (l : list val) : Prop :=
    match l with [] => True | x :: r => normal x /\ all r end in
  match v with
  | VSimple T d => equals_init T d = true -> d = init T
  | VDoc l | VVector l | VDeque l | VSet l | VMap l => all l
  | VPair k x => normal k /\ normal x
  | _ => True
  end.

Lemma depth_nonneg (v : val) : 0 <= depth v.
Proof.
  assert (D : forall l, Forall (fun v => 0 <= depth v) l -> 0 <= deepest l).
  { induction 1; simpl; lia. }
  induction v as [b|T bytes|l|cs elems|l IH|l IH|l IH|l IH|l IH|k x IHk IHx|t| |s]
    using val_induction; try (simpl; lia).
  - change (depth (VDoc l)) with (1 + deepest l). specialize (D l IH). lia.
  - destruct l; [simpl; lia|]. change (0 <= 1 + deepest (v :: l)). specialize (D _ IH). lia.
  - destruct l; [simpl; lia|]. change (0 <= 1 + deepest (v :: l)). specialize (D _ IH). lia.
  - destruct l; [simpl; lia|]. change (0 <= 1 + deepest (v :: l)). specialize (D _ IH). lia.
  - destruct l; [simpl; lia|]. change (0 <= 1 + deepest (v :: l)). specialize (D _ IH). lia.
Qed.

(** *** Reading back what was written *)

Lemma read_exact (d tail : list Z) : read (length d) (d ++ tail) = (d, tail).
Proof.
  unfold read. rewrite length_app.
  replace (length d <=? length d + length tail)%nat with true
    by (symmetry; apply Nat.leb_le; lia).
  rewrite sfs.firstn_exact, sfs.skipn_exact. reflexivity.
Qed.

Lemma enc_size_read (tag n : Z) (rest : list Z) :
  0 < n < 2 ^ 64 -> n <= remaining rest ->
  tag = type_sized n \/ tag = type_value n ->
  read_size tag (enc_size n ++ rest) = (n, rest).
Proof.
  intros Hn Hr Ht. unfold read_size, enc_size, type_sized, type_value in *.
  assert (G : (remaining rest >=? n) = true) by (apply Z.geb_le; exact Hr).
  destruct (n <? 256) eqn:A.
  - assert (E : (tag =? u8_value) || (tag =? u8_sized) = true)
      by (destruct Ht; subst tag; reflexivity).
    rewrite E. pose proof (read_exact [n] rest) as R. cbn [length] in R.
    rewrite R. cbn [hd]. rewrite G. reflexivity.
  - apply Z.ltb_ge in A. destruct (n <=? UINT32_MAX) eqn:B.
    + apply Z.leb_le in B. unfold UINT32_MAX in B.
      assert (E1 : (tag =? u8_value) || (tag =? u8_sized) = false)
        by (destruct Ht; subst tag; reflexivity).
      assert (E2 : (tag =? u32_value) || (tag =? u32_sized) = true)
        by (destruct Ht; subst tag; reflexivity).
      rewrite E1, E2.
      pose proof (read_exact (be_bytes 4 n) rest) as R.
      rewrite be_bytes_length in R. rewrite R.
      rewrite (be_value_bytes 4 n) by (change (256 ^ Z.of_nat 4) with (2 ^ 32); lia).
      rewrite G. reflexivity.
    + assert (E1 : (tag =? u8_value) || (tag =? u8_sized) = false)
        by (destruct Ht; subst tag; reflexivity).
      assert (E2 : (tag =? u32_value) || (tag =? u32_sized) = false)
        by (destruct Ht; subst tag; reflexivity).
      assert (E3 : (tag =? u64_value) || (tag =? u64_sized) = true)
        by (destruct Ht; subst tag; reflexivity).
      rewrite E1, E2, E3.
      pose proof (read_exact (be_bytes 8 n) rest) as R.
      rewrite be_bytes_length in R. rewrite R.
      rewrite (be_value_bytes 8 n) by (change (256 ^ Z.of_nat 8) with (2 ^ 64); lia).
      rewrite G. reflexivity.
Qed.

Lemma skip_terminator (tail : list Z) : skip_all 1 (terminator :: tail) = tail.
Proof. reflexivity. Qed.

Lemma skip_null (tail : list Z) : skip_all 0 (null_value :: tail) = tail.
Proof. reflexivity. Qed.


(** The first byte of an encoded value is a tag, never the terminator. *)
Definition tagged (v : val) : Prop :=
  exists b rest, enc v = b :: rest /\ b <> terminator.

Lemma type_sized_tag (n : Z) : type_sized n <> terminator.
Proof.
  unfold type_sized. destruct (n <? 256); [discriminate|].
  destruct (n <=? UINT32_MAX); discriminate.
Qed.

Lemma my_type_tag (n : Z) : my_type n <> terminator.
Proof.
  unfold my_type. destruct (n =? 1); [discriminate|]. destruct (n =? 4); [discriminate|].
  destruct (n =? 8); [discriminate|]. destruct (n <? 256); discriminate.
Qed.

Lemma enc_sized_tagged (d : list Z) :
  exists b rest, enc_sized d = b :: rest /\ b <> terminator.
Proof.
  unfold enc_sized. destruct (size_of d =? 0).
  - exists bit_false, []. split; [reflexivity|discriminate].
  - eexists _, _. split; [reflexivity|apply type_sized_tag].
Qed.

Lemma enc_tagged (t : ty) (v : val) : wt t v -> value_ty t = true -> tagged v.
Proof.
  unfold tagged. intros W V.
  destruct t; destruct v; simpl in W; try contradiction; try discriminate V.
  - exists (if b then bit_true else bit_false), []. split; [reflexivity|destruct b; discriminate].
  - cbn [enc]. destruct (equals_init T0 bytes).
    + exists bit_false, []. split; [reflexivity|discriminate].
    + destruct ((my_type (size_of bytes) =? u8_sized) || (my_type (size_of bytes) =? u32_sized)).
      * apply enc_sized_tagged.
      * eexists _, _. split; [reflexivity|apply my_type_tag].
  - cbn [enc]. destruct l.
    + exists bit_false, []. split; [reflexivity|discriminate].
    + apply enc_sized_tagged.
  - eexists _, _. split; [reflexivity|discriminate].
  - destruct l.
    + exists bit_false, []. split; [reflexivity|discriminate].
    + eexists _, _. split; [reflexivity|discriminate].
  - destruct l.
    + exists bit_false, []. split; [reflexivity|discriminate].
    + eexists _, _. split; [reflexivity|discriminate].
  - destruct l.
    + exists bit_false, []. split; [reflexivity|discriminate].
    + eexists _, _. split; [reflexivity|discriminate].
  - destruct l.
    + exists bit_false, []. split; [reflexivity|discriminate].
    + eexists _, _. split; [reflexivity|discriminate].
  - exists null_value, []. split; [reflexivity|discriminate].
Qed.

Lemma more_tagged (v : val) (tail : list Z) : tagged v -> more (enc v ++ tail) = true.
Proof.
  intros (b & rest & E & N). rewrite E. simpl.
  apply negb_true_iff, Z.eqb_neq. exact N.
Qed.

Lemma tagged_length (v : val) : tagged v -> (1 <= length (enc v))%nat.
Proof. intros (b & rest & E & _). rewrite E. simpl. lia. Qed.

Lemma enc_seq_length (l : list val) :
  Forall tagged l -> (length l <= length (enc_seq l))%nat.
Proof.
  induction 1 as [|x r Hx _ IH]; simpl; [lia|].
  rewrite length_app. pose proof (tagged_length x Hx). lia.
Qed.

Lemma elems_exact (dec : list Z -> val * list Z) (l : list val) (tail : list Z) :
  Forall (fun x => tagged x /\ forall tl, dec (enc x ++ tl) = (x, tl)) l ->
  forall fuel, (length l < fuel)%nat ->
  elems dec fuel (enc_seq l ++ terminator :: tail) = (l, terminator :: tail).
Proof.
  induction 1 as [|x r [Tx Dx] _ IH]; intros fuel F.
  - destruct fuel; [lia|]. reflexivity.
  - destruct fuel; [simpl in F; lia|]. cbn [elems enc_seq].
    rewrite <- app_assoc, (more_tagged x _ Tx), Dx.
    rewrite IH by (simpl in F; lia). reflexivity.
Qed.

Lemma pairs_exact (deck decv : list Z -> val * list Z) (l : list val) (tail : list Z) :
  Forall (fun e => exists k x, e = VPair k x /\ tagged k /\
            (forall tl, deck (enc k ++ tl) = (k, tl)) /\
            (forall tl, decv (enc x ++ tl) = (x, tl))) l ->
  forall fuel, (length l < fuel)%nat ->
  pairs deck decv fuel (enc_seq l ++ terminator :: tail) = (l, terminator :: tail).
Proof.
  induction 1 as [|e r (k & x & E & Tk & Dk & Dx) _ IH]; intros fuel F.
  - destruct fuel; [lia|]. reflexivity.
  - destruct fuel; [simpl in F; lia|]. subst e. cbn [pairs enc_seq enc].
    rewrite <- !app_assoc, (more_tagged k _ Tk), Dk, Dx.
    rewrite IH by (simpl in F; lia). reflexivity.
Qed.

Lemma fields_exact (dec : ty -> list Z -> val * list Z) (ts : list ty) (xs : list val)
    (tail : list Z) :
  Forall2 (fun t x => forall tl, dec t (enc x ++ tl) = (x, tl)) ts xs ->
  fields dec ts (enc_seq xs ++ tail) = (xs, tail).
Proof.
  induction 1 as [|t x tr xr D _ IH]; [reflexivity|].
  cbn [fields enc_seq]. rewrite <- app_assoc, D, IH. reflexivity.
Qed.

Lemma read_count_exact (n : Z) (rest : list Z) :
  0 < n < 2 ^ 64 -> n <= remaining rest ->
  read_count (enc_count n ++ rest) = (n, rest).
Proof.
  intros Hn Hr. unfold enc_count.
  replace (n =? 0) with false by (symmetry; apply Z.eqb_neq; lia).
  cbn [app read_count].
  assert (T : type_value n = u8_value \/ type_value n = u32_value \/ type_value n = u64_value).
  { unfold type_value. destruct (n <? 256); [auto|]. destruct (n <=? UINT32_MAX); auto. }
  replace (type_value n =? bit_false) with false
    by (destruct T as [E|[E|E]]; rewrite E; reflexivity).
  replace ((type_value n =? u8_value) || (type_value n =? u32_value)
           || (type_value n =? u64_value)) with true
    by (destruct T as [E|[E|E]]; rewrite E; reflexivity).
  apply enc_size_read; [exact Hn|exact Hr|right; reflexivity].
Qed.


Section TyInduction.
Variable P : ty -> Prop.
Hypothesis HBool : P TBool.
Hypothesis HSimple : forall T, P (TSimple T).
Hypothesis HBytes : P TBytes.
Hypothesis HWide : forall es cs, P (TWide es cs).
Hypothesis HDoc : forall ts, Forall P ts -> P (TDoc ts).
Hypothesis HVector : forall t, P t -> P (TVector t).
Hypothesis HDeque : forall t, P t -> P (TDeque t).
Hypothesis HSet : forall t, P t -> P (TSet t).
Hypothesis HMap : forall k v, P k -> P v -> P (TMap k v).
Hypothesis HPtr : forall t, P t -> P (TPtr t).
Hypothesis HNull : P TNull.
Hypothesis HName : forall s, P (TName s).

Fixpoint ty_induction (t : ty) : P t :=
  match t with
  | TBool => HBool
  | TSimple T => HSimple T
  | TBytes => HBytes
  | TWide es cs => HWide es cs
  | TDoc ts =>
      HDoc ts ((fix all (l : list ty) : Forall P l :=
                  match l with
                  | [] => Forall_nil P
                  | x :: r => Forall_cons x (ty_induction x) (all r)
                  end) ts)
  | TVector t1 => HVector t1 (ty_induction t1)
  | TDeque t1 => HDeque t1 (ty_induction t1)
  | TSet t1 => HSet t1 (ty_induction t1)
  | TMap k v => HMap k v (ty_induction k) (ty_induction v)
  | TPtr t1 => HPtr t1 (ty_induction t1)
  | TNull => HNull
  | TName s => HName s
  end.
End TyInduction.

Lemma wt_doc (ts : list ty) : forall xs, wt (TDoc ts) (VDoc xs) -> Forall2 wt ts xs.
Proof.
  induction ts as [|t tr IH]; intros [|x xr] W; simpl in W; try contradiction.
  - constructor.
  - destruct W as [W1 W2]. constructor; [exact W1|apply IH; exact W2].
Qed.

Lemma wt_all (t1 : ty) (l : list val) :
  (fix all (l : list val) : Prop :=
     match l with [] => True | x :: r => wt t1 x /\ all r end) l ->
  Forall (wt t1) l.
Proof.
  induction l as [|x r IH]; intros W; constructor; [tauto|apply IH; tauto].
Qed.

Lemma wt_all_pairs (tk tv : ty) (l : list val) :
  (fix all (l : list val) : Prop :=
     match l with
     | [] => True
     | VPair k x :: r => wt tk k /\ wt tv x /\ all r
     | _ :: _ => False
     end) l ->
  Forall (fun e => exists k x, e = VPair k x /\ wt tk k /\ wt tv x) l.
Proof.
  induction l as [|e r IH]; intros W; constructor.
  - destruct e; try contradiction. exists e1, e2. tauto.
  - apply IH. destruct e; try contradiction. tauto.
Qed.

Lemma normal_all (l : list val) :
  (fix all (l : list val) : Prop :=
     match l with [] => True | x :: r => normal x /\ all r end) l ->
  Forall normal l.
Proof.
  induction l as [|x r IH]; intros W; constructor; [tauto|apply IH; tauto].
Qed.

Lemma normal_doc (l : list val) : normal (VDoc l) -> Forall normal l.
Proof. exact (normal_all l). Qed.

Lemma deepest_bound (l : list val) : Forall (fun x => depth x <= deepest l) l.
Proof.
  induction l as [|x r IH]; constructor.
  - simpl. lia.
  - eapply Forall_impl; [|exact IH]. intros y Hy. simpl in *. lia.
Qed.

Lemma is_zero_repeat (d : list Z) : is_zero d = true -> d = repeat 0 (length d).
Proof.
  induction d as [|b r IH]; simpl; [reflexivity|].
  intros H. apply andb_true_iff in H. destruct H as [B R].
  apply Z.eqb_eq in B. subst b. f_equal. apply IH, R.
Qed.

Lemma sized_type_agrees (n : Z) :
  n <= UINT32_MAX ->
  ((my_type n =? u8_sized) || (my_type n =? u32_sized)) = true ->
  type_sized n = my_type n.
Proof.
  unfold my_type, type_sized. intros B.
  destruct (n =? 1); [discriminate|]. destruct (n =? 4); [discriminate|].
  destruct (n =? 8); [discriminate|]. destruct (n <? 256); [reflexivity|].
  apply Z.leb_le in B. rewrite B. reflexivity.
Qed.

Lemma enc_sized_read (d tail : list Z) :
  d <> [] -> size_of d < 2 ^ 64 ->
  exists b, enc_sized d ++ tail = b :: enc_size (size_of d) ++ d ++ tail /\
            b = type_sized (size_of d) /\
            read_size b (enc_size (size_of d) ++ d ++ tail) = (size_of d, d ++ tail).
Proof.
  intros N B. unfold enc_sized.
  assert (L : 0 < size_of d) by (destruct d; [contradiction|unfold size_of; simpl; lia]).
  replace (size_of d =? 0) with false by (symmetry; apply Z.eqb_neq; lia).
  exists (type_sized (size_of d)). split; [|split; [reflexivity|]].
  - cbn [app]. rewrite <- app_assoc. reflexivity.
  - apply enc_size_read; [lia| |left; reflexivity].
    unfold remaining, size_of. rewrite length_app. lia.
Qed.


Definition round_trips (t : ty) : Prop :=
  forall v lvl tail, wt t v -> normal v -> lvl + depth v < max_level ->
    decode t lvl (enc v ++ tail) = (v, tail).

Lemma container_exact (wrap : list val -> val) (body : list Z -> list val * list Z)
    (lvl : Z) (l : list val) (mid tail : list Z) :
  lvl + 1 < max_level ->
  body (mid ++ terminator :: tail) = (l, terminator :: tail) ->
  container wrap body lvl (document :: (mid ++ [terminator]) ++ tail) = (wrap l, tail).
Proof.
  intros L B. unfold container. cbn [Z.eqb document Pos.eqb].
  replace (lvl + 1 <? max_level) with true by (symmetry; apply Z.ltb_lt; exact L).
  rewrite <- app_assoc. cbn [app]. rewrite B. rewrite skip_terminator. reflexivity.
Qed.

Lemma round_trips_elems (t1 : ty) (l : list val) (lvl : Z) :
  round_trips t1 -> value_ty t1 = true -> Forall (wt t1) l -> Forall normal l ->
  lvl + (1 + deepest l) < max_level ->
  Forall (fun x => tagged x /\
            forall tl, decode t1 (lvl + 1) (enc x ++ tl) = (x, tl)) l.
Proof.
  intros R V W Nl D. apply Forall_forall. intros x Hx.
  pose proof (proj1 (Forall_forall _ _) W x Hx) as Wx.
  pose proof (proj1 (Forall_forall _ _) Nl x Hx) as Nx.
  pose proof (proj1 (Forall_forall _ _) (deepest_bound l) x Hx) as Bx. cbv beta in Bx.
  split; [exact (enc_tagged t1 x Wx V)|]. intros tl. apply R; [exact Wx|exact Nx|lia].
Qed.

Lemma round_trips_pairs (tk tv : ty) (l : list val) (lvl : Z) :
  round_trips tk -> round_trips tv -> value_ty tk = true ->
  Forall (fun e => exists k x, e = VPair k x /\ wt tk k /\ wt tv x) l ->
  Forall normal l ->
  lvl + (1 + deepest l) < max_level ->
  Forall (fun e => exists k x, e = VPair k x /\ tagged k /\
            (forall tl, decode tk (lvl + 1) (enc k ++ tl) = (k, tl)) /\
            (forall tl, decode tv (lvl + 1) (enc x ++ tl) = (x, tl))) l.
Proof.
  intros Rk Rv V W Nl D. apply Forall_forall. intros e He.
  destruct (proj1 (Forall_forall _ _) W e He) as (k & x & E & Wk & Wx).
  pose proof (proj1 (Forall_forall _ _) Nl e He) as Ne.
  pose proof (proj1 (Forall_forall _ _) (deepest_bound l) e He) as Be. cbv beta in Be.
  subst e. cbn [depth] in Be. cbn [normal] in Ne. destruct Ne as [Nk Nx].
  exists k, x. split; [reflexivity|]. split; [exact (enc_tagged tk k Wk V)|]. split.
  - intros tl. apply Rk; [exact Wk|exact Nk|lia].
  - intros tl. apply Rv; [exact Wx|exact Nx|lia].
Qed.

Lemma pairs_tagged (tk tv : ty) (l : list val) :
  value_ty tk = true ->
  Forall (fun e => exists k x, e = VPair k x /\ wt tk k /\ wt tv x) l ->
  Forall tagged l.
Proof.
  intros V W. eapply Forall_impl; [|exact W].
  intros e (k & x & E & Wk & _). subst e.
  destruct (enc_tagged tk k Wk V) as (b & rest & Eb & N).
  exists b, (rest ++ enc x). split; [cbn [enc]; rewrite Eb; reflexivity|exact N].
Qed.

(** The body of a counted container reads back its elements. *)
Lemma counted_exact (loop : nat -> list Z -> list val * list Z) (l : list val)
    (tail : list Z) :
  l <> [] -> size_of l < 2 ^ 64 -> Forall tagged l ->
  (forall fuel, (length l < fuel)%nat ->
     loop fuel (enc_seq l ++ terminator :: tail) = (l, terminator :: tail)) ->
  (let '(_, r2) := read_count ((enc_count (size_of l) ++ enc_seq l) ++ terminator :: tail) in
   loop (S (length r2)) r2) = (l, terminator :: tail).
Proof.
  intros N B T L.
  assert (P : 0 < size_of l) by (destruct l; [contradiction|unfold size_of; simpl; lia]).
  pose proof (enc_seq_length l T) as E.
  rewrite <- app_assoc, read_count_exact.
  - apply L. rewrite length_app. lia.
  - lia.
  - unfold remaining, size_of. rewrite length_app. lia.
Qed.


Lemma decode_enc (t : ty) : round_trips t.
Proof.
  induction t as [|T| |es cs|ts IH|t1 IH|t1 IH|t1 IH|tk tv IHk IHv|t1 IH| |s]
    using ty_induction; intros v lvl tail W Nv D.
  - (* bool *)
    destruct v; try contradiction. destruct b; reflexivity.
  - (* simple *)
    destruct v; simpl in W; try contradiction. destruct W as (ET & Ln & N1 & N2).
    subst T0. cbn [normal] in Nv.
    assert (S : size_of bytes = Z.of_nat (sizeof T))
      by (unfold size_of; rewrite Ln; reflexivity).
    cbn [enc decode]. rewrite S. set (n := sizeof T) in *.
    destruct (equals_init T bytes) eqn:Zr.
    + rewrite (Nv eq_refl). reflexivity.
    + destruct ((my_type (Z.of_nat n) =? u8_sized) || (my_type (Z.of_nat n) =? u32_sized)) eqn:Sz.
      * assert (NE : bytes <> []) by (intros E; subst bytes; simpl in Ln; lia).
        destruct (enc_sized_read bytes tail NE ltac:(rewrite S; unfold UINT32_MAX in N2; lia))
          as (b & E & Eb & R).
        rewrite E. rewrite S in Eb, R.
        rewrite (sized_type_agrees _ N2 Sz) in Eb. subst b.
        replace (my_type (Z.of_nat n) =? bit_false) with false
          by (apply orb_true_iff in Sz; destruct Sz as [Q|Q]; apply Z.eqb_eq in Q;
              rewrite Q; reflexivity).
        rewrite Z.eqb_refl, ?Sz. rewrite S, R, Z.eqb_refl.
        rewrite <- Ln, read_exact. reflexivity.
      * cbn [app].
        assert (M : my_type (Z.of_nat n) = u8_value \/ my_type (Z.of_nat n) = u32_value
                    \/ my_type (Z.of_nat n) = u64_value).
        { revert Sz. unfold my_type. destruct (Z.of_nat n =? 1); [auto|].
          destruct (Z.of_nat n =? 4); [auto|]. destruct (Z.of_nat n =? 8); [auto|].
          destruct (Z.of_nat n <? 256); discriminate. }
        replace (my_type (Z.of_nat n) =? bit_false) with false
          by (destruct M as [Q|[Q|Q]]; rewrite Q; reflexivity).
        rewrite Z.eqb_refl, ?Sz. rewrite <- Ln, read_exact. reflexivity.
  - (* one-byte container *)
    destruct v; simpl in W; try contradiction.
    cbn [enc decode]. destruct l as [|x l]; [reflexivity|].
    destruct (enc_sized_read (x :: l) tail ltac:(discriminate) W) as (b & E & Eb & R).
    rewrite E.
    assert (T : b = u8_sized \/ b = u32_sized \/ b = u64_sized).
    { subst b. unfold type_sized. destruct (_ <? 256); [auto|].
      destruct (_ <=? UINT32_MAX); auto. }
    replace (b =? bit_false) with false by (destruct T as [Q|[Q|Q]]; rewrite Q; reflexivity).
    replace ((b =? u8_sized) || (b =? u32_sized) || (b =? u64_sized)) with true
      by (destruct T as [Q|[Q|Q]]; rewrite Q; reflexivity).
    rewrite R. unfold size_of. rewrite Nat2Z.id, sfs.firstn_exact, sfs.skipn_exact.
    reflexivity.
  - (* wide container *)
    destruct v; simpl in W; contradiction.
  - (* document *)
    destruct v; try (simpl in W; contradiction).
    apply wt_doc in W.
    change (depth (VDoc fields0)) with (1 + deepest fields0) in D.
    change (enc (VDoc fields0)) with (document :: enc_seq fields0 ++ [terminator]).
    pose proof (depth_nonneg (VDoc fields0)) as DN.
    change (depth (VDoc fields0)) with (1 + deepest fields0) in DN.
    assert (DS : 0 <= deepest fields0).
    { clear. induction fields0; simpl; [lia|]. pose proof (depth_nonneg a). lia. }
    cbn [decode app]. cbn [Z.eqb document Pos.eqb].
    replace (lvl + 1 <? max_level) with true by (symmetry; apply Z.ltb_lt; lia).
    rewrite <- app_assoc. cbn [app].
    rewrite (fields_exact (fun t1 => decode t1 (lvl + 1)) ts fields0).
    + rewrite skip_terminator. reflexivity.
    + pose proof (deepest_bound fields0) as B. clear DN DS.
      apply normal_doc in Nv.
      induction W as [|t x tr xr Wx Wr IHW]; constructor.
      * inversion IH; subst. inversion B; subst. inversion Nv; subst.
        intros tl. apply H1; [exact Wx|assumption|lia].
      * inversion IH; subst. inversion Nv; subst.
        apply IHW; [exact H2|assumption| |exact (deepest_bound xr)].
        change (deepest (x :: xr)) with (Z.max (depth x) (deepest xr)) in D. lia.
  - (* vector *)
    destruct v; simpl in W; try contradiction. destruct W as (V & B & W).
    apply wt_all in W. cbn [decode]. destruct l as [|x l]; [reflexivity|].
    change (depth (VVector (x :: l))) with (1 + deepest (x :: l)) in D.
    change (enc (VVector (x :: l))) with
      (document :: enc_count (size_of (x :: l)) ++ enc_seq (x :: l) ++ [terminator]).
    pose proof (round_trips_elems t1 (x :: l) lvl IH V W (normal_all (x :: l) Nv) D) as E.
    assert (DS : 0 <= deepest (x :: l)).
    { clear. induction (x :: l); simpl; [lia|]. pose proof (depth_nonneg a). lia. }
    cbn [app]. rewrite (app_assoc (enc_count _)).
    apply container_exact; [lia|].
    apply counted_exact; [discriminate|exact B| |].
    + eapply Forall_impl; [|exact E]. intros y Hy. exact (proj1 Hy).
    + intros fuel F. apply elems_exact; assumption.
  - (* deque *)
    destruct v; simpl in W; try contradiction. destruct W as (V & B & W).
    apply wt_all in W. cbn [decode]. destruct l as [|x l]; [reflexivity|].
    change (depth (VDeque (x :: l))) with (1 + deepest (x :: l)) in D.
    change (enc (VDeque (x :: l))) with (document :: enc_seq (x :: l) ++ [terminator]).
    pose proof (round_trips_elems t1 (x :: l) lvl IH V W (normal_all (x :: l) Nv) D) as E.
    assert (DS : 0 <= deepest (x :: l)).
    { clear. induction (x :: l); simpl; [lia|]. pose proof (depth_nonneg a). lia. }
    cbn [app]. apply container_exact; [lia|].
    apply elems_exact; [exact E|].
    assert (T : Forall tagged (x :: l))
      by (eapply Forall_impl; [|exact E]; intros y Hy; exact (proj1 Hy)).
    pose proof (enc_seq_length _ T). rewrite length_app. lia.
  - (* set *)
    destruct v; simpl in W; try contradiction. destruct W as (V & B & W).
    apply wt_all in W. cbn [decode]. destruct l as [|x l]; [reflexivity|].
    change (depth (VSet (x :: l))) with (1 + deepest (x :: l)) in D.
    change (enc (VSet (x :: l))) with
      (document :: enc_count (size_of (x :: l)) ++ enc_seq (x :: l) ++ [terminator]).
    pose proof (round_trips_elems t1 (x :: l) lvl IH V W (normal_all (x :: l) Nv) D) as E.
    assert (DS : 0 <= deepest (x :: l)).
    { clear. induction (x :: l); simpl; [lia|]. pose proof (depth_nonneg a). lia. }
    cbn [app]. rewrite (app_assoc (enc_count _)).
    apply container_exact; [lia|].
    apply counted_exact; [discriminate|exact B| |].
    + eapply Forall_impl; [|exact E]. intros y Hy. exact (proj1 Hy).
    + intros fuel F. apply elems_exact; assumption.
  - (* map *)
    destruct v; simpl in W; try contradiction. destruct W as (Vk & Vv & B & W).
    apply wt_all_pairs in W. cbn [decode]. destruct l as [|x l]; [reflexivity|].
    change (depth (VMap (x :: l))) with (1 + deepest (x :: l)) in D.
    change (enc (VMap (x :: l))) with
      (document :: enc_count (size_of (x :: l)) ++ enc_seq (x :: l) ++ [terminator]).
    pose proof (round_trips_pairs tk tv (x :: l) lvl IHk IHv Vk W (normal_all (x :: l) Nv) D) as E.
    assert (DS : 0 <= deepest (x :: l)).
    { clear. induction (x :: l); simpl; [lia|]. pose proof (depth_nonneg a). lia. }
    cbn [app]. rewrite (app_assoc (enc_count _)).
    apply container_exact; [lia|].
    apply counted_exact; [discriminate|exact B|exact (pairs_tagged tk tv _ Vk W)|].
    intros fuel F. apply pairs_exact; assumption.
  - (* smart pointer *)
    destruct v; simpl in W; try contradiction. destruct target; [contradiction|].
    reflexivity.
  - (* null *)
    destruct v; simpl in W; try contradiction. reflexivity.
  - (* name *)
    destruct v; simpl in W; try contradiction. subst s0.
    cbn [enc decode]. unfold remaining. rewrite length_app, sfs.firstn_exact, sfs.skipn_exact.
    replace (Z.of_nat (length s) <=? Z.of_nat (length s + length tail)) with true
      by (symmetry; apply Z.leb_le; lia).
    destruct (list_eq_dec Z.eq_dec s s); [reflexivity|contradiction].
Qed.


Lemma save_enc (v : val) : save v = enc v.
Proof.
  unfold save. destruct (probe_matches_write v []) as (P & _ & _ & _ & _ & A).
  cbv zeta in P, A.
  destruct (Z.eq_dec (psize (traverse v {| begin := None; mem := []; psize := 0 |})) 0)
    as [E|N].
  - unfold append. rewrite E. cbn [Z.eqb negb fst].
    rewrite E in P. unfold size_of in P. destruct (enc v); [reflexivity|discriminate P].
  - rewrite (A N). reflexivity.
Qed.

(** C6 (amended). For every object of a type built from [bool], scalars
    and byte-copy types, one-byte-element containers, classes with a
    [serialize] method (fields, [null] placeholders, names), vectors,
    deques, sets and maps of such types, nested fewer than 128 levels deep,
    with every smart pointer null, and in which every scalar that compares
    equal to [T{}] is [T{}] byte for byte (every integer is, the [float]
    [-0.0] is not): reading the bytes written for the object into a
    value-initialized object yields the object back, and consumes exactly
    those bytes. *)
Theorem load_save (t : ty) (v : val) :
  wt t v -> normal v -> depth v < max_level ->
  load t (save v) = v /\
  forall tail, decode t 0 (save v ++ tail) = (v, tail).
Proof.
  intros W Nv D. rewrite save_enc.
  assert (R : forall tail, decode t 0 (enc v ++ tail) = (v, tail))
    by (intros tail; apply decode_enc; [exact W|exact Nv|lia]).
  split; [|exact R].
  unfold load. rewrite <- (app_nil_r (enc v)), R. reflexivity.
Qed.

(** Integers are normal: only the zero value equals [T{}]. *)
Lemma integral_normal (n : nat) (d : list Z) :
  length d = n -> normal (VSimple (integral n) d).
Proof.
  intros L E. cbn [integral equals_init init] in *. rewrite <- L.
  apply is_zero_repeat, E.
Qed.

(** A record with a flag, a 32-bit number, a string, a deleted field, a
    named set of strings, a list of sub-records and a [float] (1.5). *)
Definition sample_ty : ty :=
  TDoc [TBool; TSimple (integral 4); TBytes; TNull; TName [67]; TSet TBytes;
        TVector (TDoc [TBool; TSimple (integral 2)]); TSimple float32].

Definition sample : val :=
  VDoc [VBool true; VSimple (integral 4) [0; 0; 1; 2]; VBytes [104; 105]; VNull;
        VName [67]; VSet [VBytes [7]; VBytes [8; 9]];
        VVector [VDoc [VBool false; VSimple (integral 2) [0; 0]];
                 VDoc [VBool true; VSimple (integral 2) [3; 4]]];
        VSimple float32 [63; 192; 0; 0]].

Lemma sample_wt : wt sample_ty sample.
Proof. cbn. unfold UINT32_MAX. repeat split; try reflexivity; lia. Qed.

Lemma sample_normal : normal sample.
Proof. cbn. repeat split; intros E; try reflexivity; discriminate E. Qed.

(** Witness for [load_save]. *)
Lemma load_save_witness :
  wt sample_ty sample /\ normal sample /\ depth sample < max_level /\
  load sample_ty (save sample) = sample.
Proof.
  assert (D : depth sample < max_level) by reflexivity.
  split; [exact sample_wt|]. split; [exact sample_normal|]. split; [exact D|].
  exact (proj1 (load_save sample_ty sample sample_wt sample_normal D)).
Defined.

(** C6 as stated fails: a smart pointer is written as the null value and
    reading skips that value, so a non-null pointer does not come back. *)
Lemma smart_pointer_not_restored :
  save (VPtr (Some (VBool true))) = [null_value] /\
  load (TPtr TBool) (save (VPtr (Some (VBool true)))) = VPtr None /\
  load (TPtr TBool) (save (VPtr (Some (VBool true)))) <> VPtr (Some (VBool true)).
Proof.
  split; [reflexivity|]. split; [reflexivity|]. discriminate.
Qed.

(** A [std::vector<uint32_t>] (24-byte container object) with one element:
    the writer stores [size() * sizeof(T)] as the size of the run, the
    reader finds fewer bytes than announced and gives up. *)
Lemma wide_vector_not_restored :
  save (VWide 24 [[0; 0; 0; 1]]) = [u8_sized; 24; 0; 0; 0; 1] /\
  load (TWide 4 24) (save (VWide 24 [[0; 0; 0; 1]])) = VWide 24 [].
Proof. split; reflexivity. Qed.

(** The [float] [-0.0] compares equal to [float{}]: it is written as the
    one-byte zero value and read back as [+0.0]. *)
Lemma negative_zero_not_restored :
  wt (TSimple float32) (VSimple float32 [128; 0; 0; 0]) /\
  save (VSimple float32 [128; 0; 0; 0]) = [bit_false] /\
  load (TSimple float32) (save (VSimple float32 [128; 0; 0; 0]))
  = VSimple float32 [0; 0; 0; 0] /\
  load (TSimple float32) (save (VSimple float32 [128; 0; 0; 0]))
  <> VSimple float32 [128; 0; 0; 0].
Proof.
  split; [cbn; unfold UINT32_MAX; repeat split; lia|].
  split; [reflexivity|]. split; [reflexivity|]. discriminate.
Qed.


(** *** Skipping values *)

Lemma read_rest_length (n : nat) (r : list Z) :
  (length (snd (read n r)) <= length r)%nat.
Proof.
  unfold read. destruct (n <=? length r)%nat; cbn [snd length]; [|lia].
  rewrite length_skipn. lia.
Qed.

Lemma read_size_rest_length (b : Z) (r : list Z) :
  (length (snd (read_size b r)) <= length r)%nat.
Proof.
  unfold read_size.
  destruct ((b =? u8_value) || (b =? u8_sized)).
  { pose proof (read_rest_length 1 r) as L. destruct (read 1 r) as [d r1].
    cbn [snd] in L. destruct (remaining r1 >=? hd 0 d); cbn [snd length]; lia. }
  destruct ((b =? u32_value) || (b =? u32_sized)).
  { pose proof (read_rest_length 4 r) as L. destruct (read 4 r) as [d r1].
    cbn [snd] in L. destruct (remaining r1 >=? be_value d); cbn [snd length]; lia. }
  destruct ((b =? u64_value) || (b =? u64_sized)).
  { pose proof (read_rest_length 8 r) as L. destruct (read 8 r) as [d r1].
    cbn [snd] in L. destruct (remaining r1 >=? be_value d); cbn [snd length]; lia. }
  cbn [snd length]. lia.
Qed.

(** The loop of [skip] ends before the fuel given to it runs out: any
    amount above the number of bytes left gives the same result. *)
Lemma skip_fuel (f1 : nat) :
  forall f2 level r, (length r < f1)%nat -> (length r < f2)%nat ->
    skip f1 level r = skip f2 level r.
Proof.
  induction f1 as [|f1 IH]; intros f2 level r L1 L2; [lia|].
  destruct f2 as [|f2]; [lia|]. cbn [skip].
  destruct r as [|b r1]; [reflexivity|]. cbn [length] in L1, L2.
  destruct ((level =? 0) && (b =? terminator)); [reflexivity|].
  assert (N : forall l r', (length r' <= length r1)%nat ->
            (if l =? 0 then r' else skip f1 l r') = (if l =? 0 then r' else skip f2 l r')).
  { intros l r' Lr. destruct (l =? 0); [reflexivity|]. apply IH; lia. }
  destruct (b =? terminator); [apply N; lia|].
  destruct (b =? document); [apply N; lia|].
  destruct ((b =? null_value) || (b =? bit_false) || (b =? bit_true)); [apply N; lia|].
  destruct (b =? u8_value); [apply N, read_rest_length|].
  destruct (b =? u32_value); [apply N, read_rest_length|].
  destruct (b =? u64_value); [apply N, read_rest_length|].
  destruct ((b =? u8_sized) || (b =? u32_sized) || (b =? u64_sized)).
  { pose proof (read_size_rest_length b r1) as L. destruct (read_size b r1) as [n r2].
    cbn [snd] in L. apply N. rewrite length_skipn. lia. }
  destruct (b <? null_value); [reflexivity|]. apply IH; lia.
Qed.

(** One round of the loop of [skip], with the rest of the loop as
    [skip_all]. *)
Definition skip_next (level : Z) (r : list Z) : list Z :=
  if level =? 0 then r else skip_all level r.

Lemma skip_all_cons (level b : Z) (r1 : list Z) :
  skip_all level (b :: r1) =
  if (level =? 0) && (b =? terminator) then b :: r1
  else if b =? terminator then skip_next (level - 1) r1
  else if b =? document then skip_next (level + 1) r1
  else if (b =? null_value) || (b =? bit_false) || (b =? bit_true)
  then skip_next level r1
  else if b =? u8_value then skip_next level (snd (read 1 r1))
  else if b =? u32_value then skip_next level (snd (read 4 r1))
  else if b =? u64_value then skip_next level (snd (read 8 r1))
  else if (b =? u8_sized) || (b =? u32_sized) || (b =? u64_sized)
  then skip_next level (skipn (Z.to_nat (fst (read_size b r1))) (snd (read_size b r1)))
  else if b <? null_value then []
  else skip_all level r1.
Proof.
  unfold skip_all at 1. cbn [length].
  remember (S (length r1)) as f eqn:Ef. cbn [skip].
  assert (N : forall l r', (length r' <= length r1)%nat ->
            (if l =? 0 then r' else skip f l r') = skip_next l r').
  { intros l r' Lr. unfold skip_next, skip_all. destruct (l =? 0); [reflexivity|].
    apply skip_fuel; lia. }
  destruct ((level =? 0) && (b =? terminator)); [reflexivity|].
  destruct (b =? terminator); [apply N; lia|].
  destruct (b =? document); [apply N; lia|].
  destruct ((b =? null_value) || (b =? bit_false) || (b =? bit_true)); [apply N; lia|].
  destruct (b =? u8_value); [apply N, read_rest_length|].
  destruct (b =? u32_value); [apply N, read_rest_length|].
  destruct (b =? u64_value); [apply N, read_rest_length|].
  destruct ((b =? u8_sized) || (b =? u32_sized) || (b =? u64_sized)).
  { pose proof (read_size_rest_length b r1) as L. destruct (read_size b r1) as [n r2].
    cbn [fst snd] in *. apply N. rewrite length_skipn. lia. }
  destruct (b <? null_value); [reflexivity|].
  subst f. reflexivity.
Qed.

Lemma skip_tag_simple (level b : Z) (r1 : list Z) :
  b = null_value \/ b = bit_false \/ b = bit_true ->
  skip_all level (b :: r1) = skip_next level r1.
Proof.
  intros [E|[E|E]]; subst b; rewrite skip_all_cons; cbn;
    rewrite ?andb_false_r; reflexivity.
Qed.

Lemma skip_tag_fixed (level b : Z) (n : nat) (r1 : list Z) :
  (b = u8_value /\ n = 1%nat) \/ (b = u32_value /\ n = 4%nat) \/
  (b = u64_value /\ n = 8%nat) ->
  skip_all level (b :: r1) = skip_next level (snd (read n r1)).
Proof.
  intros [[E N]|[[E N]|[E N]]]; subst b n; rewrite skip_all_cons; cbn;
    rewrite ?andb_false_r; reflexivity.
Qed.

Lemma skip_tag_sized (level b : Z) (r1 : list Z) :
  b = u8_sized \/ b = u32_sized \/ b = u64_sized ->
  skip_all level (b :: r1) =
  skip_next level (skipn (Z.to_nat (fst (read_size b r1))) (snd (read_size b r1))).
Proof.
  intros [E|[E|E]]; subst b; rewrite skip_all_cons; cbn [Z.eqb Pos.eqb orb andb
    terminator document null_value bit_false bit_true u8_value u32_value u64_value
    u8_sized u32_sized u64_sized]; rewrite ?andb_false_r; reflexivity.
Qed.

Lemma skip_document (level : Z) (r1 : list Z) :
  skip_all level (document :: r1) = skip_next (level + 1) r1.
Proof. rewrite skip_all_cons. cbn. rewrite ?andb_false_r. reflexivity. Qed.

Lemma skip_close (level : Z) (r1 : list Z) :
  level <> 0 -> skip_all level (terminator :: r1) = skip_next (level - 1) r1.
Proof.
  intros N. rewrite skip_all_cons.
  replace (level =? 0) with false by (symmetry; apply Z.eqb_neq; exact N).
  reflexivity.
Qed.

(** A byte above [null_value] is metadata: the loop goes on behind it. *)
Lemma skip_meta (level b : Z) (r1 : list Z) :
  null_value < b -> skip_all level (b :: r1) = skip_all level r1.
Proof.
  intros L. unfold null_value in L. rewrite skip_all_cons.
  unfold terminator, document, null_value, bit_false, bit_true, u8_value, u32_value,
    u64_value, u8_sized, u32_sized, u64_sized.
  repeat match goal with
  | |- context [b =? ?k] =>
      replace (b =? k) with false by (symmetry; apply Z.eqb_neq; lia)
  end.
  replace (b <? 31) with false by (symmetry; apply Z.ltb_ge; lia).
  rewrite andb_false_r. reflexivity.
Qed.

Lemma skip_sized (level : Z) (d tail : list Z) :
  size_of d < 2 ^ 64 -> skip_all level (enc_sized d ++ tail) = skip_next level tail.
Proof.
  intros B. destruct d as [|x d].
  - cbn [enc_sized size_of length Z.of_nat Z.eqb app].
    apply skip_tag_simple. auto.
  - destruct (enc_sized_read (x :: d) tail ltac:(discriminate) B) as (b & E & Eb & R).
    rewrite E.
    assert (T : b = u8_sized \/ b = u32_sized \/ b = u64_sized).
    { subst b. unfold type_sized. destruct (_ <? 256); [auto|].
      destruct (_ <=? UINT32_MAX); auto. }
    rewrite (skip_tag_sized _ _ _ T), R. cbn [fst snd].
    unfold size_of. rewrite Nat2Z.id, sfs.skipn_exact. reflexivity.
Qed.

Lemma skip_count (level n : Z) (rest : list Z) :
  0 <= n -> skip_all level (enc_count n ++ rest) = skip_next level rest.
Proof.
  intros Hn. unfold enc_count. destruct (n =? 0).
  { cbn [app]. apply skip_tag_simple. auto. }
  cbn [app]. unfold type_value, enc_size.
  destruct (n <? 256).
  - rewrite (skip_tag_fixed level u8_value 1) by auto.
    pose proof (read_exact [n] rest) as R. cbn [length app] in R. cbn [app].
    rewrite R. reflexivity.
  - destruct (n <=? UINT32_MAX).
    + rewrite (skip_tag_fixed level u32_value 4) by auto.
      pose proof (read_exact (be_bytes 4 n) rest) as R. rewrite be_bytes_length in R.
      rewrite R. reflexivity.
    + rewrite (skip_tag_fixed level u64_value 8) by auto.
      pose proof (read_exact (be_bytes 8 n) rest) as R. rewrite be_bytes_length in R.
      rewrite R. reflexivity.
Qed.

(** The names a [serialize] method passes to [ctx.name] consist of bytes
    above [null_value], as [name] cuts them. *)
Fixpoint names_ok (t : ty) : Prop :=
  match t with
  | TName s => Forall (fun b => null_value < b) s
  | TDoc ts =>
      (fix all (ts : list ty) : Prop :=
         match ts with [] => True | t1 :: r => names_ok t1 /\ all r end) ts
  | TVector t1 | TDeque t1 | TSet t1 => names_ok t1
  | TMap k v => names_ok k /\ names_ok v
  | _ => True
  end.

Lemma names_doc (ts : list ty) : names_ok (TDoc ts) -> Forall names_ok ts.
Proof.
  induction ts as [|t tr IH]; intros N; constructor; [exact (proj1 N)|].
  apply IH. exact (proj2 N).
Qed.

(** [skip] halts behind everything but a name. *)
Definition stops (t : ty) : bool := match t with TName _ => false | _ => true end.

Definition skipped (t : ty) : Prop :=
  forall v level tail, wt t v -> names_ok t -> 0 <= level ->
    skip_all level (enc v ++ tail) =
    if stops t then skip_next level tail else skip_all level tail.

(** Inside a document, every element is passed over. *)
Definition passed (v : val) : Prop :=
  forall level tail, 1 <= level -> skip_all level (enc v ++ tail) = skip_all level tail.

Lemma skipped_passed (t : ty) (v : val) :
  skipped t -> wt t v -> names_ok t -> passed v.
Proof.
  intros S W N level tail L. rewrite (S v level tail W N) by lia.
  unfold skip_next. replace (level =? 0) with false by (symmetry; apply Z.eqb_neq; lia).
  destruct (stops t); reflexivity.
Qed.

Lemma skip_seq (xs : list val) (level : Z) (tail : list Z) :
  Forall passed xs -> 1 <= level ->
  skip_all level (enc_seq xs ++ tail) = skip_all level tail.
Proof.
  intros F L. induction F as [|x r Px _ IH]; [reflexivity|].
  cbn [enc_seq]. rewrite <- app_assoc, (Px level _ L). exact IH.
Qed.

(** A document or a non-empty container: the opening byte, what is in
    it, the terminator. *)
Lemma skip_enclosed (level : Z) (mid tail : list Z) :
  0 <= level ->
  skip_all (level + 1) (mid ++ terminator :: tail) = skip_all (level + 1) (terminator :: tail) ->
  skip_all level (document :: (mid ++ [terminator]) ++ tail) = skip_next level tail.
Proof.
  intros L E. rewrite skip_document. unfold skip_next at 1.
  replace (level + 1 =? 0) with false by (symmetry; apply Z.eqb_neq; lia).
  rewrite <- app_assoc. cbn [app]. rewrite E, skip_close by lia.
  replace (level + 1 - 1) with level by ring. reflexivity.
Qed.

Lemma passed_elems (t1 : ty) (l : list val) :
  skipped t1 -> names_ok t1 -> Forall (wt t1) l -> Forall passed l.
Proof.
  intros S N W. eapply Forall_impl; [|exact W].
  intros x Wx. exact (skipped_passed t1 x S Wx N).
Qed.

Lemma skip_counted (l : list val) (level : Z) (tail : list Z) :
  Forall passed l -> 0 <= level ->
  skip_all level (document :: enc_count (size_of l) ++ enc_seq l ++ [terminator] ++ tail)
  = skip_next level tail.
Proof.
  intros F L.
  replace (document :: enc_count (size_of l) ++ enc_seq l ++ [terminator] ++ tail)
    with (document :: ((enc_count (size_of l) ++ enc_seq l) ++ [terminator]) ++ tail)
    by (rewrite <- !app_assoc; reflexivity).
  apply skip_enclosed; [exact L|].
  rewrite <- app_assoc, skip_count by (unfold size_of; lia).
  unfold skip_next. replace (level + 1 =? 0) with false by (symmetry; apply Z.eqb_neq; lia).
  apply skip_seq; [exact F|lia].
Qed.

Lemma skip_enc (t : ty) : skipped t.
Proof.
  induction t as [|T| |es cs|ts IH|t1 IH|t1 IH|t1 IH|tk tv IHk IHv|t1 IH| |s]
    using ty_induction; intros v level tail W N L; cbn [stops].
  - (* bool *)
    destruct v; try contradiction. cbn [enc app].
    apply skip_tag_simple. destruct b; auto.
  - (* simple *)
    destruct v; simpl in W; try contradiction. destruct W as (ET & Ln & N1 & N2).
    subst T0. set (n := sizeof T) in *.
    assert (S : size_of bytes = Z.of_nat n) by (unfold size_of; rewrite Ln; reflexivity).
    cbn [enc]. rewrite S. destruct (equals_init T bytes).
    + apply skip_tag_simple. auto.
    + destruct ((my_type (Z.of_nat n) =? u8_sized) || (my_type (Z.of_nat n) =? u32_sized))
        eqn:Sz.
      * apply skip_sized. rewrite S. unfold UINT32_MAX in N2. lia.
      * cbn [app].
        assert (M : (my_type (Z.of_nat n) = u8_value /\ n = 1%nat) \/
                    (my_type (Z.of_nat n) = u32_value /\ n = 4%nat) \/
                    (my_type (Z.of_nat n) = u64_value /\ n = 8%nat)).
        { revert Sz. unfold my_type.
          destruct (Z.of_nat n =? 1) eqn:Q1; [apply Z.eqb_eq in Q1; left; split; [reflexivity|lia]|].
          destruct (Z.of_nat n =? 4) eqn:Q4;
            [apply Z.eqb_eq in Q4; right; left; split; [reflexivity|lia]|].
          destruct (Z.of_nat n =? 8) eqn:Q8;
            [apply Z.eqb_eq in Q8; right; right; split; [reflexivity|lia]|].
          destruct (Z.of_nat n <? 256); discriminate. }
        rewrite (skip_tag_fixed level _ n _ M), <- Ln, read_exact. reflexivity.
  - (* one-byte container *)
    destruct v; simpl in W; try contradiction. cbn [enc].
    destruct l as [|x l]; [apply skip_tag_simple; auto|].
    apply skip_sized. exact W.
  - (* wide container *)
    destruct v; simpl in W; contradiction.
  - (* document *)
    destruct v; try (simpl in W; contradiction).
    apply wt_doc in W. apply names_doc in N.
    change (enc (VDoc fields0)) with (document :: enc_seq fields0 ++ [terminator]).
    apply skip_enclosed; [exact L|]. apply skip_seq; [|lia].
    clear L level tail. revert N IH.
    induction W as [|t x tr xr Wx Wr IHW]; intros N IH; constructor.
    + inversion IH; subst. inversion N; subst.
      exact (skipped_passed t x H1 Wx H3).
    + inversion IH; subst. inversion N; subst. apply IHW; assumption.
  - (* vector *)
    destruct v; simpl in W; try contradiction. destruct W as (V & B & W).
    apply wt_all in W. destruct l as [|x l]; [apply skip_tag_simple; auto|].
    change (enc (VVector (x :: l))) with
      (document :: enc_count (size_of (x :: l)) ++ enc_seq (x :: l) ++ [terminator]).
    rewrite <- !app_comm_cons, <- !app_assoc.
    apply skip_counted; [exact (passed_elems t1 _ IH N W)|exact L].
  - (* deque *)
    destruct v; simpl in W; try contradiction. destruct W as (V & B & W).
    apply wt_all in W. destruct l as [|x l]; [apply skip_tag_simple; auto|].
    change (enc (VDeque (x :: l))) with (document :: enc_seq (x :: l) ++ [terminator]).
    apply skip_enclosed; [exact L|].
    apply skip_seq; [exact (passed_elems t1 _ IH N W)|lia].
  - (* set *)
    destruct v; simpl in W; try contradiction. destruct W as (V & B & W).
    apply wt_all in W. destruct l as [|x l]; [apply skip_tag_simple; auto|].
    change (enc (VSet (x :: l))) with
      (document :: enc_count (size_of (x :: l)) ++ enc_seq (x :: l) ++ [terminator]).
    rewrite <- !app_comm_cons, <- !app_assoc.
    apply skip_counted; [exact (passed_elems t1 _ IH N W)|exact L].
  - (* map *)
    destruct v; simpl in W; try contradiction. destruct W as (Vk & Vv & B & W).
    apply wt_all_pairs in W. destruct l as [|x l]; [apply skip_tag_simple; auto|].
    change (enc (VMap (x :: l))) with
      (document :: enc_count (size_of (x :: l)) ++ enc_seq (x :: l) ++ [terminator]).
    rewrite <- !app_comm_cons, <- !app_assoc.
    apply skip_counted; [|exact L].
    eapply Forall_impl; [|exact W].
    intros e (k & y & E & Wk & Wy). subst e. intros lv tl Hl. cbn [enc].
    rewrite <- app_assoc.
    rewrite (skipped_passed tk k IHk Wk (proj1 N) lv _ Hl).
    exact (skipped_passed tv y IHv Wy (proj2 N) lv _ Hl).
  - (* smart pointer *)
    destruct v; simpl in W; try contradiction. cbn [enc app].
    apply skip_tag_simple. auto.
  - (* null *)
    destruct v; simpl in W; try contradiction. cbn [enc app].
    apply skip_tag_simple. auto.
  - (* name *)
    destruct v; simpl in W; try contradiction. subst s0. cbn [enc].
    cbn [names_ok] in N. induction N as [|b r Hb _ IHs]; [reflexivity|].
    cbn [app]. rewrite (skip_meta _ _ _ Hb). exact IHs.
Qed.

(** [skip(0)], which reads over a deleted field ([ctx.null()]) or a smart
    pointer, consumes exactly the bytes written for one object, whatever its
    type: booleans, scalars, strings, documents with names, containers. *)
Theorem skip_saved_value (t : ty) (v : val) (tail : list Z) :
  wt t v -> names_ok t -> stops t = true ->
  skip_all 0 (save v ++ tail) = tail.
Proof.
  intros W N S. rewrite save_enc, (skip_enc t v 0 tail W N) by lia.
  rewrite S. reflexivity.
Qed.

(** Witness for [skip_saved_value]. *)
Lemma skip_saved_value_witness :
  skip_all 0 (save sample ++ [bit_true]) = [bit_true].
Proof.
  apply (skip_saved_value sample_ty).
  - cbn. unfold UINT32_MAX. repeat split; try reflexivity; lia.
  - cbn. repeat split; auto. repeat constructor.
  - reflexivity.
Defined.

(** *** Missing and additional fields *)

Lemma drop_at_end (tail : list Z) : drop_all (terminator :: tail) = terminator :: tail.
Proof. reflexivity. Qed.

Lemma decode_end (t : ty) (lvl : Z) (tail : list Z) :
  names_ok t ->
  decode t lvl [] = (default t, []) /\
  decode t lvl (terminator :: tail) = (default t, terminator :: tail).
Proof.
  intros N. destruct t; cbn [decode default container]; try (split; reflexivity).
  - (* simple *)
    split; [reflexivity|].
    replace (terminator =? my_type (Z.of_nat (sizeof T))) with false
      by (symmetry; apply Z.eqb_neq; intros E; exact (my_type_tag _ (eq_sym E))).
    reflexivity.
  - (* name *)
    cbn [names_ok] in N. destruct s as [|b s].
    + split; reflexivity.
    + inversion N; subst. split.
      * reflexivity.
      * cbn [length firstn].
        destruct (list_eq_dec Z.eq_dec (terminator :: firstn (length s) tail) (b :: s))
          as [E|E].
        { exfalso. inversion E. unfold null_value, terminator in *. lia. }
        rewrite andb_false_r. reflexivity.
Qed.

(** Reading at the end of the input, or in front of the terminator of the
    enclosing document, leaves the object value-initialized and consumes
    nothing. *)
Theorem decode_at_end (t : ty) (lvl : Z) (tail : list Z) :
  names_ok t ->
  decode t lvl [] = (default t, []) /\
  decode t lvl (terminator :: tail) = (default t, terminator :: tail).
Proof. exact (decode_end t lvl tail). Qed.

(** Witness for [decode_at_end]. *)
Lemma decode_at_end_witness :
  decode sample_ty 0 [] = (default sample_ty, []) /\
  decode sample_ty 0 [terminator; bit_true] = (default sample_ty, [terminator; bit_true]).
Proof.
  apply decode_at_end. cbn. repeat split; auto. repeat constructor.
Defined.

Lemma enc_seq_app (xs ys : list val) : enc_seq (xs ++ ys) = enc_seq xs ++ enc_seq ys.
Proof.
  induction xs as [|x r IH]; [reflexivity|].
  cbn [app enc_seq]. rewrite IH, app_assoc. reflexivity.
Qed.

Lemma fields_app (dec : ty -> list Z -> val * list Z) (ts ts' : list ty) (r : list Z) :
  fields dec (ts ++ ts') r =
  let '(xs, r1) := fields dec ts r in
  let '(ys, r2) := fields dec ts' r1 in
  (xs ++ ys, r2).
Proof.
  revert r. induction ts as [|t tr IH]; intros r; cbn [app fields].
  - destruct (fields dec ts' r) as [ys r2]. reflexivity.
  - destruct (dec t r) as [x r1]. rewrite IH.
    destruct (fields dec tr r1) as [xs r2]. destruct (fields dec ts' r2) as [ys r3].
    reflexivity.
Qed.

Lemma deepest_nonneg (l : list val) : 0 <= deepest l.
Proof. induction l as [|a l IH]; simpl; [lia|]. pose proof (depth_nonneg a). lia. Qed.

(** The fields of a document read back one by one. *)
Lemma fields_round_trip (ts : list ty) (xs : list val) (lvl : Z) :
  Forall2 wt ts xs -> Forall normal xs -> lvl + deepest xs < max_level ->
  Forall2 (fun t x => forall tl, decode t lvl (enc x ++ tl) = (x, tl)) ts xs.
Proof.
  intros W. induction W as [|t x tr xr Wx Wr IH]; intros Nx D; constructor.
  - inversion Nx; subst. intros tl. apply decode_enc; [exact Wx|assumption|].
    change (deepest (x :: xr)) with (Z.max (depth x) (deepest xr)) in D. lia.
  - inversion Nx; subst. apply IH; [assumption|].
    change (deepest (x :: xr)) with (Z.max (depth x) (deepest xr)) in D. lia.
Qed.

Lemma fields_at_end (dec : ty -> list Z -> val * list Z) (ts : list ty) (r : list Z) :
  Forall (fun t => dec t r = (default t, r)) ts ->
  fields dec ts r = (map default ts, r).
Proof.
  induction 1 as [|t tr D _ IH]; [reflexivity|].
  cbn [fields map]. rewrite D, IH. reflexivity.
Qed.

Lemma passed_fields (ts : list ty) (xs : list val) :
  Forall2 wt ts xs -> Forall names_ok ts -> Forall passed xs.
Proof.
  intros W. induction W as [|t x tr xr Wx Wr IH]; intros N; constructor.
  - inversion N; subst. exact (skipped_passed t x (skip_enc t) Wx H1).
  - inversion N; subst. apply IH. assumption.
Qed.

(** A document written by a later version of a class, with further
    fields [ys] behind the ones the reader knows: the known fields are
    read (as they were written, when every scalar among them that
    compares equal to [T{}] is [T{}]), the others are skipped together
    with the terminator. *)
Theorem document_skips_added_fields (ts ts' : list ty) (xs ys : list val) (lvl : Z)
    (tail : list Z) :
  wt (TDoc ts) (VDoc xs) -> normal (VDoc xs) ->
  wt (TDoc ts') (VDoc ys) -> names_ok (TDoc ts') ->
  lvl + depth (VDoc xs) < max_level ->
  decode (TDoc ts) lvl (save (VDoc (xs ++ ys)) ++ tail) = (VDoc xs, tail).
Proof.
  intros W Nx W' N D. rewrite save_enc. apply normal_doc in Nx.
  apply wt_doc in W. apply wt_doc in W'. apply names_doc in N.
  change (depth (VDoc xs)) with (1 + deepest xs) in D.
  change (enc (VDoc (xs ++ ys))) with (document :: enc_seq (xs ++ ys) ++ [terminator]).
  cbn [decode app]. cbn [Z.eqb document Pos.eqb].
  replace (lvl + 1 <? max_level) with true
    by (symmetry; apply Z.ltb_lt; pose proof (deepest_nonneg xs); lia).
  rewrite enc_seq_app, <- !app_assoc.
  rewrite (fields_exact (fun t1 => decode t1 (lvl + 1)) ts xs)
    by (apply fields_round_trip; [exact W|exact Nx|lia]).
  cbn [app]. rewrite (skip_seq ys 1 _ (passed_fields ts' ys W' N)) by lia.
  rewrite skip_terminator. reflexivity.
Qed.

(** Witness for [document_skips_added_fields]: a reader that knows a
    flag, a number and a [float] (1.5), a writer that appends a string and
    a set. *)
Lemma document_skips_added_fields_witness :
  decode (TDoc [TBool; TSimple (integral 4); TSimple float32]) 0
    (save (VDoc ([VBool true; VSimple (integral 4) [0; 0; 1; 2];
                  VSimple float32 [63; 192; 0; 0]] ++
                 [VBytes [104; 105]; VSet [VBytes [7]]])) ++ [bit_true])
  = (VDoc [VBool true; VSimple (integral 4) [0; 0; 1; 2];
           VSimple float32 [63; 192; 0; 0]], [bit_true]).
Proof.
  apply (document_skips_added_fields _ [TBytes; TSet TBytes]).
  - cbn. unfold UINT32_MAX. repeat split; try reflexivity; lia.
  - cbn. repeat split; intros E; discriminate E.
  - cbn. repeat split; try reflexivity; lia.
  - cbn. auto.
  - reflexivity.
Defined.

(** A document written by an earlier version of a class, without the
    fields [ts'] the reader has since gained: the written fields are read
    (as they were written, when every scalar among them that compares
    equal to [T{}] is [T{}]) and the new ones stay value-initialized. *)
Theorem document_defaults_missing_fields (ts ts' : list ty) (xs : list val) (lvl : Z)
    (tail : list Z) :
  wt (TDoc ts) (VDoc xs) -> normal (VDoc xs) -> names_ok (TDoc ts') ->
  lvl + depth (VDoc xs) < max_level ->
  decode (TDoc (ts ++ ts')) lvl (save (VDoc xs) ++ tail)
  = (VDoc (xs ++ map default ts'), tail).
Proof.
  intros W Nx N D. rewrite save_enc. apply normal_doc in Nx.
  apply wt_doc in W. apply names_doc in N.
  change (depth (VDoc xs)) with (1 + deepest xs) in D.
  change (enc (VDoc xs)) with (document :: enc_seq xs ++ [terminator]).
  cbn [decode app]. cbn [Z.eqb document Pos.eqb].
  replace (lvl + 1 <? max_level) with true
    by (symmetry; apply Z.ltb_lt; pose proof (deepest_nonneg xs); lia).
  rewrite <- app_assoc, fields_app.
  rewrite (fields_exact (fun t1 => decode t1 (lvl + 1)) ts xs)
    by (apply fields_round_trip; [exact W|exact Nx|lia]).
  cbn [app]. rewrite fields_at_end.
  - rewrite skip_terminator. reflexivity.
  - eapply Forall_impl; [|exact N]. intros t Nt.
    exact (proj2 (decode_end t (lvl + 1) tail Nt)).
Qed.

(** Witness for [document_defaults_missing_fields]: the reader has gained
    a string, a name, a set and a [float]. *)
Lemma document_defaults_missing_fields_witness :
  decode (TDoc ([TBool; TSimple (integral 4)]
                ++ [TBytes; TName [67]; TSet TBytes; TSimple float32])) 0
    (save (VDoc [VBool true; VSimple (integral 4) [0; 0; 1; 2]]) ++ [bit_true])
  = (VDoc ([VBool true; VSimple (integral 4) [0; 0; 1; 2]]
           ++ [VBytes []; VName [67]; VSet []; VSimple float32 [0; 0; 0; 0]]),
     [bit_true]).
Proof.
  apply (document_defaults_missing_fields [TBool; TSimple (integral 4)]
           [TBytes; TName [67]; TSet TBytes; TSimple float32]).
  - cbn. unfold UINT32_MAX. repeat split; try reflexivity; lia.
  - cbn. repeat split; intros E; discriminate E.
  - cbn. repeat split; auto. repeat constructor.
  - reflexivity.
Defined.

(** A document met at recursion level 127 or deeper is not entered: its
    bytes are skipped and the object stays value-initialized. *)
Theorem deep_document_left_default (ts : list ty) (xs : list val) (lvl : Z)
    (tail : list Z) :
  wt (TDoc ts) (VDoc xs) -> names_ok (TDoc ts) -> max_level <= lvl + 1 ->
  decode (TDoc ts) lvl (save (VDoc xs) ++ tail) = (VDoc (map default ts), tail).
Proof.
  intros W N D. rewrite save_enc.
  apply wt_doc in W. apply names_doc in N.
  change (enc (VDoc xs)) with (document :: enc_seq xs ++ [terminator]).
  cbn [decode app]. cbn [Z.eqb document Pos.eqb].
  replace (lvl + 1 <? max_level) with false by (symmetry; apply Z.ltb_ge; lia).
  rewrite <- app_assoc. cbn [app].
  rewrite (skip_seq xs 1 _ (passed_fields ts xs W N)) by lia.
  rewrite skip_terminator. reflexivity.
Qed.

(** Witness for [deep_document_left_default]. *)
Lemma deep_document_left_default_witness :
  decode (TDoc [TBool; TSimple (integral 4)]) 127
    (save (VDoc [VBool true; VSimple (integral 4) [0; 0; 1; 2]]) ++ [bit_true])
  = (VDoc [VBool false; VSimple (integral 4) [0; 0; 0; 0]], [bit_true]).
Proof.
  apply (deep_document_left_default [TBool; TSimple (integral 4)]).
  - cbn. unfold UINT32_MAX. repeat split; try reflexivity; lia.
  - cbn. auto.
  - unfold max_level. lia.
Defined.

(** *** A field of another type

    Every reading branch ends in [ctx.drop()] when the byte it meets is
    not one it handles: the rest of the enclosing document is given up. *)

Lemma skip_length (f : nat) :
  forall level r, (length (skip f level r) <= length r)%nat.
Proof.
  induction f as [|f IH]; intros level r; [cbn [skip]; lia|].
  cbn [skip]. destruct r as [|b r1]; [lia|]. cbn [length].
  destruct ((level =? 0) && (b =? terminator)); [cbn [length]; lia|].
  assert (N : forall (l : Z) (r' : list Z), (length r' <= length r1)%nat ->
            (length (if (l =? 0)%Z then r' else skip f l r') <= S (length r1))%nat).
  { intros l r' Lr. destruct (l =? 0); [lia|]. pose proof (IH l r'). lia. }
  destruct (b =? terminator); [apply N; lia|].
  destruct (b =? document); [apply N; lia|].
  destruct ((b =? null_value) || (b =? bit_false) || (b =? bit_true)); [apply N; lia|].
  destruct (b =? u8_value); [apply N, read_rest_length|].
  destruct (b =? u32_value); [apply N, read_rest_length|].
  destruct (b =? u64_value); [apply N, read_rest_length|].
  destruct ((b =? u8_sized) || (b =? u32_sized) || (b =? u64_sized)).
  { pose proof (read_size_rest_length b r1) as L. destruct (read_size b r1) as [n r2].
    cbn [snd] in L. apply N. rewrite length_skipn. lia. }
  destruct (b <? null_value); [cbn [length]; lia|]. pose proof (IH level r1). lia.
Qed.

(** A call of [skip(0)] in front of a byte other than the terminator
    consumes that byte at least. *)
Lemma skip_progress (b : Z) (r1 : list Z) :
  b <> terminator -> (length (skip_all 0 (b :: r1)) <= length r1)%nat.
Proof.
  intros B. unfold skip_all. remember (length (b :: r1)) as f. cbn [skip].
  apply Z.eqb_neq in B. rewrite B, andb_false_r.
  assert (N : forall (l : Z) (r' : list Z), (length r' <= length r1)%nat ->
            (length (if (l =? 0)%Z then r' else skip f l r') <= length r1)%nat).
  { intros l r' Lr. destruct (l =? 0); [lia|]. pose proof (skip_length f l r'). lia. }
  destruct (b =? document); [apply N; lia|].
  destruct ((b =? null_value) || (b =? bit_false) || (b =? bit_true)); [apply N; lia|].
  destruct (b =? u8_value); [apply N, read_rest_length|].
  destruct (b =? u32_value); [apply N, read_rest_length|].
  destruct (b =? u64_value); [apply N, read_rest_length|].
  destruct ((b =? u8_sized) || (b =? u32_sized) || (b =? u64_sized)).
  { pose proof (read_size_rest_length b r1) as L. destruct (read_size b r1) as [n r2].
    cbn [snd] in L. apply N. rewrite length_skipn. lia. }
  destruct (b <? null_value); [cbn [length]; lia|]. apply skip_length.
Qed.

(** The loop of [drop] ends before its fuel runs out. *)
Lemma drop_fuel (f1 : nat) :
  forall f2 r, (length r < f1)%nat -> (length r < f2)%nat -> drop f1 r = drop f2 r.
Proof.
  induction f1 as [|f1 IH]; intros f2 r L1 L2; [lia|].
  destruct f2 as [|f2]; [lia|]. cbn [drop]. destruct r as [|b r1]; [reflexivity|].
  destruct (b =? terminator) eqn:B; [reflexivity|].
  apply Z.eqb_neq in B. pose proof (skip_progress b r1 B) as P.
  unfold skip_all in P. cbn [length] in L1, L2. apply IH; lia.
Qed.

Lemma drop_step (b : Z) (r1 : list Z) :
  b <> terminator -> drop_all (b :: r1) = drop_all (skip_all 0 (b :: r1)).
Proof.
  intros B. pose proof (skip_progress b r1 B) as P.
  unfold drop_all at 1. cbn [drop]. apply Z.eqb_neq in B. rewrite B.
  unfold drop_all. apply drop_fuel; unfold skip_all in P |- *;
    remember (skip (S (length (b :: r1))) 0 (b :: r1)) as X; cbn [length]; lia.
Qed.

Lemma drop_after_skip (r : list Z) : drop_all (skip_all 0 r) = drop_all r.
Proof.
  destruct r as [|b r1]; [reflexivity|].
  destruct (Z.eq_dec b terminator) as [B|B].
  - subst b. reflexivity.
  - symmetry. apply drop_step, B.
Qed.

(** [drop()] in front of any objects written into a document stops at
    the terminator of the document. *)
Lemma drop_seq (ts : list ty) (xs : list val) (tail : list Z) :
  Forall2 wt ts xs -> Forall names_ok ts ->
  drop_all (enc_seq xs ++ terminator :: tail) = terminator :: tail.
Proof.
  intros W. induction W as [|t x tr xr Wx Wr IH]; intros N.
  - apply drop_at_end.
  - inversion N; subst. cbn [enc_seq]. rewrite <- app_assoc.
    rewrite <- drop_after_skip.
    rewrite (skip_enc t x 0 _ Wx H1) by lia.
    destruct (stops t).
    + unfold skip_next. cbn [Z.eqb]. apply IH; assumption.
    + rewrite drop_after_skip. apply IH; assumption.
Qed.

(** The first bytes that reading into an object of type [t] handles
    itself.  Smart pointers and [ctx.null()] skip whatever they meet and
    a name compares whole strings: they are no part of this. *)
Definition handles (t : ty) (b : Z) : bool :=
  match t with
  | TBool => (b =? bit_false) || (b =? bit_true) || (b =? null_value)
  | TSimple T =>
      (b =? bit_false) || (b =? my_type (Z.of_nat (sizeof T))) || (b =? null_value)
  | TBytes | TWide _ _ =>
      (b =? bit_false) || (b =? u8_sized) || (b =? u32_sized) || (b =? u64_sized)
      || (b =? null_value)
  | TDoc _ => (b =? document) || (b =? null_value)
  | TVector _ | TDeque _ | TSet _ | TMap _ _ =>
      (b =? document) || (b =? bit_false) || (b =? null_value)
  | TPtr _ | TNull | TName _ => true
  end.

Lemma decode_refused (t : ty) (lvl b : Z) (r1 : list Z) :
  handles t b = false -> decode t lvl (b :: r1) = (default t, drop_all (b :: r1)).
Proof.
  intros H. destruct t; cbn [handles] in H; try discriminate;
    repeat (apply orb_false_iff in H; destruct H as [H ?]);
    cbn [decode default container];
    repeat match goal with E : (_ =? _) = false |- _ => rewrite E; clear E end;
    cbn [orb]; reflexivity.
Qed.

(** A field written with another type than the one it is read into
    aborts the document: the fields in front of it are read (as they were
    written, when every scalar among them that compares equal to [T{}] is
    [T{}]), this field and every later field of the reader stay
    value-initialized, and the document is consumed exactly. *)
Theorem mismatched_field_aborts_document (ts ts' tzs : list ty) (t ty' : ty)
    (xs zs : list val) (y : val) (b : Z) (e : list Z) (lvl : Z) (tail : list Z) :
  wt (TDoc ts) (VDoc xs) -> normal (VDoc xs) -> wt ty' y -> names_ok ty' ->
  wt (TDoc tzs) (VDoc zs) -> names_ok (TDoc tzs) -> names_ok (TDoc ts') ->
  enc y = b :: e -> handles t b = false ->
  lvl + depth (VDoc xs) < max_level ->
  decode (TDoc (ts ++ t :: ts')) lvl (save (VDoc (xs ++ y :: zs)) ++ tail)
  = (VDoc (xs ++ default t :: map default ts'), tail).
Proof.
  intros W Nx Wy Ny Wz Nz N' E H D. rewrite save_enc. apply normal_doc in Nx.
  apply wt_doc in W. apply wt_doc in Wz. apply names_doc in Nz. apply names_doc in N'.
  change (depth (VDoc xs)) with (1 + deepest xs) in D.
  change (enc (VDoc (xs ++ y :: zs)))
    with (document :: enc_seq (xs ++ y :: zs) ++ [terminator]).
  cbn [decode app]. cbn [Z.eqb document Pos.eqb].
  replace (lvl + 1 <? max_level) with true
    by (symmetry; apply Z.ltb_lt; pose proof (deepest_nonneg xs); lia).
  rewrite enc_seq_app, <- !app_assoc, fields_app.
  rewrite (fields_exact (fun t1 => decode t1 (lvl + 1)) ts xs)
    by (apply fields_round_trip; [exact W|exact Nx|lia]).
  assert (Dr : drop_all (enc_seq (y :: zs) ++ terminator :: tail) = terminator :: tail).
  { apply (drop_seq (ty' :: tzs)); constructor; assumption. }
  cbn [enc_seq] in Dr |- *. rewrite E in Dr |- *. cbn [app] in Dr |- *.
  cbn [fields]. rewrite (decode_refused t (lvl + 1) b _ H), Dr.
  rewrite fields_at_end.
  - rewrite skip_terminator. reflexivity.
  - eapply Forall_impl; [|exact N']. intros t1 Nt.
    exact (proj2 (decode_end t1 (lvl + 1) tail Nt)).
Qed.

(** Witness for [mismatched_field_aborts_document]: the third field was
    written as a string and is read as a 32-bit number; the set behind
    it is lost with it. *)
Lemma mismatched_field_aborts_document_witness :
  decode (TDoc ([TBool; TSimple float32] ++ TSimple (integral 4) :: [TSet TBytes])) 0
    (save (VDoc ([VBool true; VSimple float32 [63; 192; 0; 0]]
                 ++ VBytes [104; 105] :: [VSet [VBytes [7]]])) ++ [bit_true])
  = (VDoc ([VBool true; VSimple float32 [63; 192; 0; 0]]
           ++ default (TSimple (integral 4)) :: map default [TSet TBytes]), [bit_true]).
Proof.
  apply (mismatched_field_aborts_document [TBool; TSimple float32] [TSet TBytes]
           [TSet TBytes] (TSimple (integral 4)) TBytes
           [VBool true; VSimple float32 [63; 192; 0; 0]] [VSet [VBytes [7]]]
           (VBytes [104; 105]) u8_sized [2; 104; 105]).
  - cbn. unfold UINT32_MAX. repeat split; try reflexivity; lia.
  - cbn. repeat split; intros E; discriminate E.
  - cbn. unfold UINT32_MAX. repeat split; try reflexivity; lia.
  - exact I.
  - cbn. unfold UINT32_MAX. repeat split; try reflexivity; lia.
  - cbn. auto.
  - cbn. auto.
  - reflexivity.
  - reflexivity.
  - reflexivity.
Defined.

End sstl.

(** ** [ssdb::umap] (ssdb.hpp)

    The map is generic in the key and value types and in their
    serialization; the HMAC of the combined hash is keyed by the salt and
    enters as a function of the (order, position) pair.  The view is used
    through blocks of plaintext [block_layout]; [sfs.write_then_read]
    justifies reading back what was written. *)

Module ssdb.

Import free_space.

(** [struct block_layout]; the reserved words [x10], [x18] are written as
    zero and never read. *)
Record block_layout := {
  order : Z;          (* increasing identifier of the block sequence, from 1 *)
  size : Z;           (* data size; 0 = terminator; -1 = continuation *)
  data : list Z       (* [sizeof(data)] bytes *)
}.

(** [sizeof(block_layout::data)] *)
Definition data_size : Z := sfs.block_size - 4 * 8.

Definition CONT : Z := 2 ^ 64 - 1.        (* (uint64_t)-1 *)
Definition NONE32 : Z := 2 ^ 32 - 1.      (* (uint32_t)-1 *)

Record control := {
  c_order : Z;
  load_block : Z; load_count : Z;
  new_block : Z; new_count : Z
}.

Definition null_control : control :=
  {| c_order := 0; load_block := 0; load_count := 0; new_block := 0; new_count := 0 |}.

(** The view as the map uses it.  [blocks] holds, per block index, the
    plaintext that [read_block] returns ([None]: the block fails to
    decrypt).  [plan] lists, for the coming [write_block] calls, whether
    the environment lets them succeed (cipher, random source, file I/O);
    an exhausted plan means success. *)
Record view := {
  blocks : list (option block_layout);
  plan : list bool
}.

Definition count (v : view) : Z := Z.of_nat (length (blocks v)).

Definition read_block (v : view) (i : Z) : option block_layout :=
  if (i <? 0) || (i >=? count v) then None
  else nth (Z.to_nat i) (blocks v) None.

Fixpoint replace_nth {A} (n : nat) (x : A) (l : list A) : list A :=
  match l, n with
  | [], _ => []
  | _ :: r, O => x :: r
  | y :: r, S k => y :: replace_nth k x r
  end.

Definition write_block (v : view) (i : Z) (b : block_layout) : bool * view :=
  let '(ok, rest) := match plan v with [] => (true, []) | x :: r => (x, r) end in
  if ok && (0 <=? i) && (i <=? count v) then
    (true, {| blocks := if i =? count v then blocks v ++ [Some b]
                        else replace_nth (Z.to_nat i) (Some b) (blocks v);
              plan := rest |})
  else (false, {| blocks := blocks v; plan := rest |}).

Section Umap.

Variables K T : Type.
Variable K_eqb : K -> K -> bool.
(** [K{}] and [T{}] *)
Variable K_default : K.
Variable T_default : T.
(** [sstl::save] of the key followed by the value. *)
Variable save : K -> T -> list Z.
(** [ctx.traverse<reading>(key)] on a fresh context over the record: the
    key and the bytes left for the value. *)
Variable load_key : list Z -> K * list Z.
(** [ctx.traverse<reading>(pair.second)] into a value-initialized [T]. *)
Variable load_value : list Z -> T.
(** HMAC-SHA-512 under the salt of the big-endian (order, position) pair,
    read as a 512-bit integer. *)
Variable hmac : Z -> Z -> Z.

Record umap := {
  m_map : list (K * (control * T));
  m_free : fmap;
  m_data : view;
  m_error : Z;
  m_lastf : Z;
  m_order : Z;
  m_flush : Z;
  m_hash : Z
}.

Definition set_map (u : umap) x := {| m_map := x; m_free := m_free u; m_data := m_data u;
  m_error := m_error u; m_lastf := m_lastf u; m_order := m_order u; m_flush := m_flush u;
  m_hash := m_hash u |}.
Definition set_free (u : umap) x := {| m_map := m_map u; m_free := x; m_data := m_data u;
  m_error := m_error u; m_lastf := m_lastf u; m_order := m_order u; m_flush := m_flush u;
  m_hash := m_hash u |}.
Definition set_data (u : umap) x := {| m_map := m_map u; m_free := m_free u; m_data := x;
  m_error := m_error u; m_lastf := m_lastf u; m_order := m_order u; m_flush := m_flush u;
  m_hash := m_hash u |}.
Definition set_error (u : umap) x := {| m_map := m_map u; m_free := m_free u; m_data := m_data u;
  m_error := x; m_lastf := m_lastf u; m_order := m_order u; m_flush := m_flush u;
  m_hash := m_hash u |}.
Definition set_lastf (u : umap) x := {| m_map := m_map u; m_free := m_free u; m_data := m_data u;
  m_error := m_error u; m_lastf := x; m_order := m_order u; m_flush := m_flush u;
  m_hash := m_hash u |}.
Definition set_order (u : umap) x := {| m_map := m_map u; m_free := m_free u; m_data := m_data u;
  m_error := m_error u; m_lastf := m_lastf u; m_order := x; m_flush := m_flush u;
  m_hash := m_hash u |}.
Definition set_flush (u : umap) x := {| m_map := m_map u; m_free := m_free u; m_data := m_data u;
  m_error := m_error u; m_lastf := m_lastf u; m_order := m_order u; m_flush := x;
  m_hash := m_hash u |}.
Definition set_hash (u : umap) x := {| m_map := m_map u; m_free := m_free u; m_data := m_data u;
  m_error := m_error u; m_lastf := m_lastf u; m_order := m_order u; m_flush := m_flush u;
  m_hash := x |}.

(** [m_error |= bit] *)
Definition raise (bit : Z) (u : umap) : umap := set_error u (Z.lor (m_error u) bit).

(** [add_free] on the base class. *)
Definition free (block cnt : Z) (u : umap) : umap :=
  set_free u (add_free block cnt (m_free u)).

(** [xor_order]: add or remove an order hash. *)
Definition xor_order (ord pos : Z) (u : umap) : umap :=
  set_hash u (Z.lxor (m_hash u) (hmac ord pos)).

(** *** The [std::unordered_map]: a list of entries with distinct keys,
    iterated in list order. *)

Fixpoint lookup (k : K) (m : list (K * (control * T))) : option (control * T) :=
  match m with
  | [] => None
  | (k', e) :: r => if K_eqb k' k then Some e else lookup k r
  end.

Fixpoint update (k : K) (e : control * T) (m : list (K * (control * T))) :=
  match m with
  | [] => []
  | (k', e') :: r => if K_eqb k' k then (k', e) :: r else (k', e') :: update k e r
  end.

(** [m_map.emplace(key, value)]: the entry found or inserted, and whether
    it was inserted. *)
Definition map_emplace (k : K) (e : control * T) (m : list (K * (control * T))) :=
  match lookup k m with
  | Some e' => (m, e', false)
  | None => (m ++ [(k, e)], e, true)
  end.

(** *** [reload] (lines 127-294) *)

Definition FLUSH_FIRST : Z := 2 ^ 64 - 1.     (* m_flush == -1: first attempt *)
Definition FLUSH_THIRD : Z := 2 ^ 64 - 2.     (* m_flush == -2: third attempt *)

(** The loop reading the continuation blocks of a record (lines 218-229).
    Returns [i], the remaining [size], [buf], [sbuf] and the state. *)
Fixpoint continuation (fuel : nat) (cnt _order _block i j sz : Z)
    (buf : list Z) (sbuf : block_layout) (u : umap)
    : Z * Z * list Z * block_layout * umap :=
  match fuel with
  | O => (i, sz, buf, sbuf, u)
  | S f =>
      if (sz >? data_size) && (j <? cnt) then
        match read_block (m_data u) i with
        | Some sb =>
            if (u64 (order sb) =? _order) && (u64 (size sb) =? CONT) then
              let n := Z.min sz data_size in
              continuation f cnt _order _block (u32 (i + 1)) (u32 (j + 1)) (sz - n)
                (buf ++ firstn (Z.to_nat n) (data sb)) sb u
            else
              (i, sz, buf, sb, free _block (u32 (u32 (i + 1) - _block)) (raise 8 u))
        | None =>
            (i, sz, buf, sbuf, free _block (u32 (u32 (i + 1) - _block)) (raise 8 u))
        end
      else (i, sz, buf, sbuf, u)
  end.

(** One iteration of the block loop (lines 146-264) at index [i] with the
    terminator hash [lh] seen so far; returns the index reached. *)
Definition reload_block (cnt i : Z) (lh : list Z) (u : umap) : Z * list Z * umap :=
  match read_block (m_data u) i with
  | None => (i, lh, free i 1 (raise 1 u))
  | Some sbuf =>
      let _order := u64 (order sbuf) in
      let _block := i in
      if u64 (_order - 1) >=? INT64_MAX then (i, lh, free i 1 (raise 2 u))
      else if u64 (size sbuf) >=? 2 ^ 31 then
        (i, lh, free i 1 (if negb (u64 (size sbuf) =? CONT) then raise 2 u else u))
      else
        (* Remember max order *)
        let u := if negb (m_flush u =? FLUSH_FIRST) && (_order >? m_order u)
                 then set_order u _order else u in
        if _order >? m_flush u then (i, lh, free i 1 (raise 4 u))
        else
          let sz := u64 (size sbuf) in
          if sz =? 0 then
            (* Terminator *)
            if (m_flush u =? FLUSH_FIRST) && (_order >? m_order u) then
              (i, firstn 64 (data sbuf),
               set_lastf (set_order (free (m_lastf u) 1 u) _order) _block)
            else if m_flush u =? _order then
              (i, firstn 64 (data sbuf), set_lastf u _block)
            else (i, lh, free i 1 u)
          else
            let n := Z.min sz data_size in
            let '(i, sz, buf, sbuf, u) :=
              continuation (Z.to_nat cnt) cnt _order _block i (u32 (i + 1)) (sz - n)
                (firstn (Z.to_nat n) (data sbuf)) sbuf u in
            if negb (sz =? 0) then (i, lh, raise 16 u)
            else
              let '(key, rest) := load_key buf in
              let '(m, (ctrl, _), _) :=
                map_emplace key (null_control, T_default) (m_map u) in
              let u := set_map u m in
              if c_order ctrl <? _order then
                let u := if negb (c_order ctrl =? 0)
                         then (* Overwrite the block *)
                              free (load_block ctrl) (load_count ctrl)
                                (xor_order (c_order ctrl) (load_block ctrl) u)
                         else u in
                let ctrl' := {| c_order := _order; load_block := _block;
                                load_count := u32 (u32 (i + 1) - _block);
                                new_block := new_block ctrl;
                                new_count := new_count ctrl |} in
                let u := set_map u (update key (ctrl', load_value rest) (m_map u)) in
                (i, lh, xor_order (u64 (order sbuf)) _block u)
              else (i, lh, free _block (u32 (u32 (i + 1) - _block)) u)
  end.

(** [for (i = 0; i < count; i++)] *)
Fixpoint scan_blocks (fuel : nat) (cnt i : Z) (lh : list Z) (u : umap)
    : list Z * umap :=
  match fuel with
  | O => (lh, u)
  | S f =>
      if i <? cnt then
        let '(i', lh', u') := reload_block cnt i lh u in
        scan_blocks f cnt (u32 (i' + 1)) lh' u'
      else (lh, u)
  end.

(** Lines 129-265: reset the state and scan every block. *)
Definition reload_pass (u : umap) : list Z * umap :=
  let cnt := u32 (count (m_data u)) in
  let u0 := {| m_map := []; m_free := []; m_data := m_data u; m_error := m_error u;
               m_lastf := NONE32; m_order := 0; m_flush := m_flush u; m_hash := 0 |} in
  scan_blocks (Z.to_nat cnt) cnt 0 (repeat 0 64%nat) (free cnt (u32 (0 - cnt)) u0).

(** [m_hash.check(last_hash)]: [memcmp] of the 64 bytes. *)
Definition check (u : umap) (lh : list Z) : bool :=
  if list_eq_dec Z.eq_dec (be_bytes 64 (m_hash u)) lh then true else false.

(** [reload] with its tail calls (lines 267-293); three rounds suffice. *)
Fixpoint reload (fuel : nat) (u : umap) : option umap :=
  match fuel with
  | O => None
  | S f =>
      let '(lh, u) := reload_pass u in
      if m_flush u =? FLUSH_FIRST then
        (* Complete first (optimistic) attempt *)
        let u := set_flush u (m_order u) in
        if negb (check u lh) then reload f u else Some u
      else if m_flush u =? FLUSH_THIRD then
        (* Complete third attempt (heavy damage) *)
        Some (raise 32 (set_flush u 0))
      else if negb (check u lh) then reload f (set_flush u FLUSH_THIRD)
      else
        (* Complete second attempt (rollback unfinished modifications) *)
        Some (set_flush u (m_order u))
  end.


(** *** [dirty], [write] and [finalize] (lines 296-428) *)

Definition with_order (c : control) (x : Z) : control :=
  {| c_order := x; load_block := load_block c; load_count := load_count c;
     new_block := new_block c; new_count := new_count c |}.

Definition with_new (c : control) (b n : Z) : control :=
  {| c_order := c_order c; load_block := load_block c; load_count := load_count c;
     new_block := b; new_count := n |}.

(** The block whose position enters the order hash. *)
Definition head_block (c : control) : Z :=
  if negb (new_count c =? 0) then new_block c else load_block c.

Definition dirty (k : K) (u : umap) : umap :=
  match lookup k (m_map u) with
  | Some (ctrl, v) =>
      if negb (c_order ctrl =? 0) then
        let u := xor_order (c_order ctrl) (head_block ctrl) u in
        set_map u (update k (with_order ctrl 0, v) (m_map u))
      else u
  | None => u
  end.

Definition len (buf : list Z) : Z := Z.of_nat (length buf).

(** The payload of block [i]: [memcpy] of the next slice over the previous
    contents [prev] of [sbuf.data], and the [memset] of the tail of the last
    block. *)
Definition fill_data (buf prev : list Z) (i cnt : Z) : list Z :=
  let n := Z.min (len buf - i * data_size) data_size in
  let d := firstn (Z.to_nat n) (skipn (Z.to_nat (i * data_size)) buf)
           ++ skipn (Z.to_nat n) prev in
  if negb (i =? 0) && (i =? cnt - 1) then
    firstn (Z.to_nat (len buf - i * data_size)) d
    ++ repeat 0 (Z.to_nat (cnt * data_size - len buf))
  else d.

(** The block loop of [write] (lines 342-373) from index [i]; [prev] is the
    current contents of [sbuf.data]. *)
Fixpoint write_blocks (fuel : nat) (k : K) (v : T) (ctrl : control)
    (buf prev : list Z) (i cnt : Z) (u : umap) : umap :=
  match fuel with
  | O => u
  | S f =>
      if i <? cnt then
        let d := fill_data buf prev i cnt in
        let sbuf := {| order := c_order ctrl;
                       size := if i =? 0 then len buf else CONT;
                       data := d |} in
        let '(ok, vw) := write_block (m_data u) (u32 (new_block ctrl + i)) sbuf in
        let u := set_data u vw in
        if ok then write_blocks f k v ctrl buf d (u32 (i + 1)) cnt u
        else
          let u := free (new_block ctrl) (new_count ctrl) u in
          let u := xor_order (c_order ctrl) (new_block ctrl) u in
          let u := set_map u (update k (with_order (with_new ctrl 0 0) 0, v) (m_map u)) in
          set_order (raise 64 u) (u64 (m_order u - 1))
      else u
  end.

(** Lines 319-324: the number of blocks a record needs, in 32 bits. *)
Definition blocks_needed (buf : list Z) : Z :=
  let cnt := u32 (len buf / data_size) in
  if negb (len buf mod data_size =? 0) then u32 (cnt + 1) else cnt.

(** [write(item)] for the entry under key [k]; [None] is the
    [std::bad_alloc] leaving [get_free]. *)
Definition write (k : K) (u : umap) : option umap :=
  match lookup k (m_map u) with
  | None => Some u
  | Some (_, v) =>
      (* Initialize data *)
      let buf := save k v in
      (* Get number of blocks required *)
      let cnt := blocks_needed buf in
      (* Update order *)
      let u := dirty k u in
      let u := set_order u (u64 (m_order u + 1)) in
      match lookup k (m_map u) with
      | None => Some u
      | Some (ctrl, _) =>
          let ctrl := with_order ctrl (m_order u) in
          (* Update blocks *)
          let alloc :=
            if negb (new_count ctrl =? cnt) then
              let u := free (new_block ctrl) (new_count ctrl) u in
              match get_free cnt (m_free u) with
              | Some (pos, fm) => Some (with_new ctrl pos cnt, set_free u fm)
              | None => None
              end
            else Some (ctrl, u) in
          match alloc with
          | None => None
          | Some (ctrl, u) =>
              let u := xor_order (c_order ctrl) (new_block ctrl) u in
              let u := set_map u (update k (ctrl, v) (m_map u)) in
              Some (write_blocks (Z.to_nat cnt) k v ctrl buf
                      (repeat 0 (Z.to_nat data_size)) 0 cnt u)
          end
      end
  end.

(** [for (auto& item : m_map) if (!item.second.first.order) write(item)] *)
Fixpoint write_dirty (keys : list K) (u : umap) : option umap :=
  match keys with
  | [] => Some u
  | k :: r =>
      match lookup k (m_map u) with
      | Some (ctrl, _) =>
          if c_order ctrl =? 0 then
            match write k u with
            | Some u' => write_dirty r u'
            | None => None
            end
          else write_dirty r u
      | None => write_dirty r u
      end
  end.

(** Lines 415-427: promote the written runs. *)
Fixpoint promote (keys : list K) (u : umap) : umap :=
  match keys with
  | [] => u
  | k :: r =>
      match lookup k (m_map u) with
      | Some (ctrl, v) =>
          if negb (new_count ctrl =? 0) then
            let u := free (load_block ctrl) (load_count ctrl) u in
            let ctrl' := {| c_order := c_order ctrl;
                            load_block := new_block ctrl; load_count := new_count ctrl;
                            new_block := 0; new_count := 0 |} in
            promote r (set_map u (update k (ctrl', v) (m_map u)))
          else promote r u
      | None => promote r u
      end
  end.

(** Lines 393-427: the terminator.  The flag tells whether its block was
    written. *)
Definition emit_terminator (u : umap) : option (bool * umap) :=
  match get_free 1 (m_free u) with
  | None => None
  | Some (new_pos, fm) =>
      let u := set_free u fm in
      let u := set_order u (u64 (m_order u + 1)) in
      let term := {| order := m_order u; size := 0;
                     data := be_bytes 64 (m_hash u)
                             ++ repeat 0 (Z.to_nat (data_size - 64)) |} in
      let '(ok, vw) := write_block (m_data u) new_pos term in
      let u := set_data u vw in
      if negb ok then
        Some (false, free new_pos 1 (raise 128 (set_order u (u64 (m_order u - 1)))))
      else
        let u := free (m_lastf u) 1 u in
        let u := set_lastf u new_pos in
        let u := set_flush u (m_order u) in
        (* Update free space *)
        Some (true, promote (map fst (m_map u)) u)
  end.

Definition finalize (u : umap) : option umap :=
  if m_order u <=? m_flush u then Some u
  else
    match write_dirty (map fst (m_map u)) u with
    | None => None
    | Some u =>
        match emit_terminator u with
        | None => None
        | Some (_, u) => Some u
        end
    end.

(** *** [init] and the writer (lines 444-461, 542-638) *)

Definition init (vw : view) (u : umap) : option umap :=
  match reload 3 (set_flush (set_data u vw) FLUSH_FIRST) with
  | None => None
  | Some u => if m_lastf u =? NONE32 then finalize u else Some u
  end.

(** The state of a constructed map before [init]. *)
Definition fresh : umap :=
  {| m_map := []; m_free := []; m_data := {| blocks := []; plan := [] |};
     m_error := 0; m_lastf := 0; m_order := 0; m_flush := 0; m_hash := 0 |}.

(** What the user does with a writer: [writer[k]] followed by an
    assignment through the pointer, and [writer.add(k, v)]. *)
Inductive wop :=
| Index (k : K) (f : T -> T)
| Add (k : K) (v : T).

(** One writer call on the map and the writer's [m_modify]. *)
Definition apply_wop (o : wop) (st : umap * bool) : umap * bool :=
  let '(u, modify) := st in
  match o with
  | Index k f =>
      match lookup k (m_map u) with
      | None => (u, modify)
      | Some _ =>
          let u := dirty k u in
          match lookup k (m_map u) with
          | Some (ctrl, v) => (set_map u (update k (ctrl, f v) (m_map u)), true)
          | None => (u, true)
          end
      end
  | Add k v =>
      let '(m, _, _) := map_emplace k (null_control, v) (m_map u) in
      (dirty k (set_map u m), true)
  end.

(** [write(f)] ([flush = false]) and [flush(f)] ([flush = true]): the
    calls of [f] on the writer, then the writer's destructor. *)
Definition transaction (ops : list wop) (flush : bool) (u : umap) : option umap :=
  let '(u, modify) := fold_left (fun st o => apply_wop o st) ops (u, false) in
  match (if modify then write_dirty (map fst (m_map u)) u else Some u) with
  | None => None
  | Some u => if flush then finalize u else Some u
  end.


(** *** Records longer than one block *)

(** Started on a head block, the continuation loop reads block [i], the
    head itself, and stops at once: its size field is not [-1]. *)
Lemma continuation_stuck (fuel : nat) (cnt _order _block i j sz : Z)
    (buf : list Z) (sbuf hd : block_layout) (u : umap) :
  read_block (m_data u) i = Some hd -> u64 (size hd) <> CONT -> 0 < sz ->
  exists i' buf' sbuf' u',
    continuation fuel cnt _order _block i j sz buf sbuf u = (i', sz, buf', sbuf', u') /\
    m_map u' = m_map u /\ m_hash u' = m_hash u /\ m_data u' = m_data u /\
    m_lastf u' = m_lastf u /\ m_order u' = m_order u /\
    (m_error u' = m_error u \/ m_error u' = Z.lor (m_error u) 8).
Proof.
  intros R N P. destruct fuel as [|f]; cbn [continuation].
  - exists i, buf, sbuf, u. repeat split; auto.
  - destruct ((sz >? data_size) && (j <? cnt)).
    + rewrite R.
      replace (u64 (size hd) =? CONT) with false by (symmetry; apply Z.eqb_neq; exact N).
      rewrite andb_false_r.
      eexists _, _, _, _. split; [reflexivity|]. repeat split; auto.
    + exists i, buf, sbuf, u. repeat split; auto.
Qed.

(** C2, as the code has it.  Whatever the state of the scan, a readable
    head block that announces more than [sizeof(data)] bytes never
    materializes an entry: the map and the combined hash are left as they
    were, and when the block passes the header and order checks the run
    size mismatch bit 16 is raised. *)
Theorem long_record_dropped (cnt i : Z) (lh : list Z) (u : umap) (hd : block_layout) :
  read_block (m_data u) i = Some hd ->
  data_size < u64 (size hd) ->
  exists i' lh' u',
    reload_block cnt i lh u = (i', lh', u') /\
    m_map u' = m_map u /\ m_hash u' = m_hash u /\
    (u64 (u64 (order hd) - 1) < INT64_MAX -> u64 (size hd) < 2 ^ 31 ->
     u64 (order hd) <= m_flush u ->
     Z.testbit (m_error u') 4 = true).
Proof.
  intros R L. unfold reload_block. rewrite R.
  destruct (u64 (u64 (order hd) - 1) >=? INT64_MAX) eqn:A.
  { eexists _, _, _. split; [reflexivity|]. split; [reflexivity|]. split; [reflexivity|].
    intros H. apply Z.geb_le in A. lia. }
  destruct (u64 (size hd) >=? 2 ^ 31) eqn:B.
  { destruct (negb (u64 (size hd) =? CONT));
      (eexists _, _, _; split; [reflexivity|]; split; [reflexivity|];
       split; [reflexivity|]; intros _ H; apply Z.geb_le in B; lia). }
  set (u1 := if negb (m_flush u =? FLUSH_FIRST) && (u64 (order hd) >? m_order u)
             then set_order u (u64 (order hd)) else u).
  assert (U1 : m_map u1 = m_map u /\ m_hash u1 = m_hash u /\ m_data u1 = m_data u
               /\ m_flush u1 = m_flush u /\ m_error u1 = m_error u).
  { unfold u1. destruct (negb (m_flush u =? FLUSH_FIRST) && (u64 (order hd) >? m_order u));
      repeat split; reflexivity. }
  destruct U1 as (M1 & H1 & D1 & F1 & E1).
  destruct (u64 (order hd) >? m_flush u1) eqn:C.
  { eexists _, _, _. split; [reflexivity|]. cbn [free raise set_free set_error m_map m_hash].
    split; [exact M1|]. split; [exact H1|].
    intros _ _ H. rewrite F1 in C. apply Z.gtb_lt in C. lia. }
  replace (u64 (size hd) =? 0) with false
    by (symmetry; apply Z.eqb_neq; unfold data_size, sfs.block_size in L; lia).
  assert (S1 : 0 < u64 (size hd) - Z.min (u64 (size hd)) data_size)
    by (rewrite Z.min_r by lia; lia).
  assert (NC : u64 (size hd) <> CONT).
  { rewrite Z.geb_leb in B. apply Z.leb_gt in B. unfold CONT. lia. }
  assert (R1 : read_block (m_data u1) i = Some hd) by (rewrite D1; exact R).
  destruct (continuation_stuck (Z.to_nat cnt) cnt (u64 (order hd)) i i (u32 (i + 1))
              (u64 (size hd) - Z.min (u64 (size hd)) data_size)
              (firstn (Z.to_nat (Z.min (u64 (size hd)) data_size)) (data hd)) hd hd u1
              R1 NC S1)
    as (i' & buf' & sbuf' & u' & E & M & H & _ & _ & _ & Er).
  rewrite E.
  replace (u64 (size hd) - Z.min (u64 (size hd)) data_size =? 0) with false
    by (symmetry; apply Z.eqb_neq; lia).
  cbn [negb]. eexists _, _, _. split; [reflexivity|].
  cbn [raise set_error m_map m_hash m_error].
  split; [congruence|]. split; [congruence|].
  intros _ _ _. rewrite Z.lor_spec. replace (Z.testbit 16 4) with true by reflexivity.
  apply orb_true_r.
Qed.


(** *** Invariants of the block scan *)

Ltac fields :=
  cbn [fst snd m_map m_free m_data m_error m_lastf m_order m_flush m_hash
       raise free set_map set_free set_data set_error set_lastf set_order
       set_flush set_hash xor_order].

(** The continuation loop changes the free-space index and the error
    bits only. *)
Lemma continuation_frame (fuel : nat) (cnt _order _block : Z) :
  forall i j sz buf sbuf u,
  exists i' sz' buf' sbuf' u',
    continuation fuel cnt _order _block i j sz buf sbuf u = (i', sz', buf', sbuf', u') /\
    m_map u' = m_map u /\ m_hash u' = m_hash u /\ m_data u' = m_data u /\
    m_lastf u' = m_lastf u /\ m_order u' = m_order u /\ m_flush u' = m_flush u.
Proof.
  induction fuel as [|f IH]; intros i j sz buf sbuf u; cbn [continuation].
  - eexists _, _, _, _, _. split; [reflexivity|]. repeat split.
  - destruct ((sz >? data_size) && (j <? cnt)).
    + destruct (read_block (m_data u) i) as [sb|].
      * destruct ((u64 (order sb) =? _order) && (u64 (size sb) =? CONT)).
        { apply IH. }
        { eexists _, _, _, _, _. split; [reflexivity|]. repeat split. }
      * eexists _, _, _, _, _. split; [reflexivity|]. repeat split.
    + eexists _, _, _, _, _. split; [reflexivity|]. repeat split.
Qed.

(** A property of the hash seen so far and the state that every
    iteration of the block loop keeps holds after the loop. *)
Lemma scan_blocks_inv (Inv : list Z -> umap -> Prop) (cnt : Z) :
  (forall i lh u, Inv lh u ->
     Inv (snd (fst (reload_block cnt i lh u))) (snd (reload_block cnt i lh u))) ->
  forall fuel i lh u, Inv lh u ->
    Inv (fst (scan_blocks fuel cnt i lh u)) (snd (scan_blocks fuel cnt i lh u)).
Proof.
  intros Step. induction fuel as [|f IH]; intros i lh u H; cbn [scan_blocks].
  - exact H.
  - destruct (i <? cnt); [|exact H].
    specialize (Step i lh u H).
    destruct (reload_block cnt i lh u) as [[i' lh'] u']. apply IH. exact Step.
Qed.

(** A valid order lies in [[1, INT64_MAX]]. *)
Lemma valid_order (o : Z) :
  (u64 (u64 o - 1) >=? INT64_MAX) = false -> 1 <= u64 o <= INT64_MAX.
Proof.
  intros H. rewrite Z.geb_leb in H. apply Z.leb_gt in H.
  assert (B : 0 <= u64 o < 2 ^ 64) by (apply Z.mod_pos_bound; lia).
  unfold INT64_MAX in *. destruct (Z.eq_dec (u64 o) 0) as [E|N].
  - rewrite E in H. change (u64 (0 - 1)) with (2 ^ 64 - 1) in H. lia.
  - unfold u64 at 1 in H. rewrite Z.mod_small in H by lia. lia.
Qed.


(** *** A container without a terminator block *)

Section NoTerminator.

Variable vw : view.
(** No readable block of the view is a terminator. *)
Hypothesis no_terminator : forall i hd, read_block vw i = Some hd -> u64 (size hd) <> 0.

Definition first_pass (lh : list Z) (u : umap) : Prop :=
  m_data u = vw /\ m_flush u = FLUSH_FIRST /\ m_lastf u = NONE32 /\
  m_order u = 0 /\ lh = repeat 0 64%nat.

Definition second_pass (lh : list Z) (u : umap) : Prop :=
  m_data u = vw /\ m_flush u = 0 /\ m_lastf u = NONE32 /\
  m_hash u = 0 /\ lh = repeat 0 64%nat.

Lemma first_pass_step (cnt i : Z) (lh : list Z) (u : umap) :
  first_pass lh u ->
  first_pass (snd (fst (reload_block cnt i lh u))) (snd (reload_block cnt i lh u)).
Proof.
  intros (D & F & L & O & H). unfold reload_block.
  destruct (read_block (m_data u) i) as [hd|] eqn:R;
    [|unfold first_pass; fields; auto].
  destruct (u64 (u64 (order hd) - 1) >=? INT64_MAX) eqn:A;
    [unfold first_pass; fields; auto|].
  destruct (u64 (size hd) >=? 2 ^ 31) eqn:B.
  { destruct (negb (u64 (size hd) =? CONT)); unfold first_pass; fields; auto. }
  rewrite F. rewrite Z.eqb_refl. cbn [negb andb]. rewrite ?F.
  pose proof (valid_order _ A) as V.
  replace (u64 (order hd) >? FLUSH_FIRST) with false
    by (symmetry; rewrite Z.gtb_ltb; apply Z.ltb_ge; unfold FLUSH_FIRST, INT64_MAX in *; lia).
  replace (u64 (size hd) =? 0) with false
    by (symmetry; apply Z.eqb_neq; apply (no_terminator i); rewrite <- D; exact R).
  destruct (continuation_frame (Z.to_nat cnt) cnt (u64 (order hd)) i i (u32 (i + 1))
              (u64 (size hd) - Z.min (u64 (size hd)) data_size)
              (firstn (Z.to_nat (Z.min (u64 (size hd)) data_size)) (data hd)) hd u)
    as (i' & sz' & buf' & sbuf' & u' & E & _ & _ & D' & L' & O' & F').
  rewrite E.
  destruct (negb (sz' =? 0)).
  { unfold first_pass. fields. repeat split; congruence. }
  destruct (load_key buf') as [key rest].
  destruct (map_emplace key (null_control, T_default) (m_map u')) as [[m [ctrl v0]] ins].
  destruct (c_order ctrl <? u64 (order hd)).
  - destruct (negb (c_order ctrl =? 0)); unfold first_pass; fields;
      repeat split; congruence.
  - unfold first_pass. fields. repeat split; congruence.
Qed.

Lemma second_pass_step (cnt i : Z) (lh : list Z) (u : umap) :
  second_pass lh u ->
  second_pass (snd (fst (reload_block cnt i lh u))) (snd (reload_block cnt i lh u)).
Proof.
  intros (D & F & L & O & H). unfold reload_block.
  destruct (read_block (m_data u) i) as [hd|] eqn:R;
    [|unfold second_pass; fields; auto].
  destruct (u64 (u64 (order hd) - 1) >=? INT64_MAX) eqn:A;
    [unfold second_pass; fields; auto|].
  destruct (u64 (size hd) >=? 2 ^ 31) eqn:B.
  { destruct (negb (u64 (size hd) =? CONT)); unfold second_pass; fields; auto. }
  pose proof (valid_order _ A) as V.
  set (u1 := if negb (m_flush u =? FLUSH_FIRST) && (u64 (order hd) >? m_order u)
             then set_order u (u64 (order hd)) else u).
  assert (U1 : m_data u1 = vw /\ m_flush u1 = 0 /\ m_lastf u1 = NONE32 /\ m_hash u1 = 0).
  { unfold u1. destruct (negb (m_flush u =? FLUSH_FIRST) && (u64 (order hd) >? m_order u));
      fields; auto. }
  destruct U1 as (D1 & F1 & L1 & O1).
  replace (u64 (order hd) >? m_flush u1) with true
    by (symmetry; apply Z.gtb_lt; rewrite F1; lia).
  unfold second_pass. fields. auto.
Qed.

Lemma reload_pass_first (u : umap) :
  m_data u = vw -> m_flush u = FLUSH_FIRST ->
  first_pass (fst (reload_pass u)) (snd (reload_pass u)).
Proof.
  intros D F. unfold reload_pass. apply scan_blocks_inv.
  - intros i lh u1. apply first_pass_step.
  - unfold first_pass. fields. auto.
Qed.

Lemma reload_pass_second (u : umap) :
  m_data u = vw -> m_flush u = 0 ->
  second_pass (fst (reload_pass u)) (snd (reload_pass u)).
Proof.
  intros D F. unfold reload_pass. apply scan_blocks_inv.
  - intros i lh u1. apply second_pass_step.
  - unfold second_pass. fields. auto.
Qed.

Lemma check_zero (u : umap) : m_hash u = 0 -> check u (repeat 0 64%nat) = true.
Proof. intros H. unfold check. rewrite H. reflexivity. Qed.

Lemma finalize_skipped (u : umap) : m_order u <= m_flush u -> finalize u = Some u.
Proof.
  intros H. unfold finalize.
  replace (m_order u <=? m_flush u) with true by (symmetry; apply Z.leb_le; exact H).
  reflexivity.
Qed.

(** C4, as the code has it.  For every container in which no readable
    block is a terminator, [init] returns with [m_lastf] equal to the
    "none" value [-1] and the file untouched: no terminator is emitted. *)
Theorem init_without_terminator (u : umap) :
  exists u', init vw u = Some u' /\ m_lastf u' = NONE32 /\ m_data u' = vw.
Proof.
  unfold init. cbn [reload].
  pose proof (reload_pass_first (set_flush (set_data u vw) FLUSH_FIRST) eq_refl eq_refl) as P1.
  destruct (reload_pass (set_flush (set_data u vw) FLUSH_FIRST)) as [lh1 u1].
  cbn [fst snd] in P1. destruct P1 as (D1 & F1 & L1 & O1 & H1).
  rewrite F1, Z.eqb_refl.
  destruct (check (set_flush u1 (m_order u1)) lh1).
  - cbn [negb]. fields. rewrite L1, Z.eqb_refl.
    rewrite finalize_skipped by (fields; lia).
    eexists. split; [reflexivity|]. fields. auto.
  - cbn [negb].
    pose proof (reload_pass_second (set_flush u1 (m_order u1)) D1 O1) as P2.
    destruct (reload_pass (set_flush u1 (m_order u1))) as [lh2 u2].
    cbn [fst snd] in P2. destruct P2 as (D2 & F2 & L2 & O2 & H2).
    rewrite F2. change (0 =? FLUSH_FIRST) with false. change (0 =? FLUSH_THIRD) with false.
    cbv iota. rewrite H2, (check_zero u2 O2). cbn [negb]. fields.
    rewrite L2, Z.eqb_refl.
    rewrite finalize_skipped by (fields; lia).
    eexists. split; [reflexivity|]. fields. auto.
Qed.


End NoTerminator.


(** *** The combined hash *)

(** What an entry contributes: nothing while it is dirty, else the HMAC
    of its order and the position of its head block. *)
Definition contrib (c : control) : Z :=
  if c_order c =? 0 then 0 else hmac (c_order c) (head_block c).

(** XOR over the live entries of the map. *)
Fixpoint live_xor (m : list (K * (control * T))) : Z :=
  match m with
  | [] => 0
  | (_, (c, _)) :: r => Z.lxor (contrib c) (live_xor r)
  end.

Definition hash_ok (u : umap) : Prop := m_hash u = live_xor (m_map u).

(** Every record of the map needs at least one block. *)
Definition sizes_ok (m : list (K * (control * T))) : Prop :=
  Forall (fun e => blocks_needed (save (fst e) (snd (snd e))) <> 0) m.

Lemma lxor_swap (a x y : Z) : Z.lxor (Z.lxor a x) (Z.lxor x y) = Z.lxor a y.
Proof.
  rewrite Z.lxor_assoc, <- (Z.lxor_assoc x x y), Z.lxor_nilpotent, Z.lxor_0_l.
  reflexivity.
Qed.

Lemma live_xor_update (k : K) (c c' : control) (v v' : T) (m : list (K * (control * T))) :
  lookup k m = Some (c, v) ->
  live_xor (update k (c', v') m) = Z.lxor (live_xor m) (Z.lxor (contrib c) (contrib c')).
Proof.
  induction m as [|[k0 [c0 v0]] r IH]; cbn [lookup update live_xor]; [discriminate|].
  destruct (K_eqb k0 k).
  - intros E. inversion E; subst. cbn [live_xor].
    rewrite (Z.lxor_comm (contrib c) (live_xor r)), lxor_swap. apply Z.lxor_comm.
  - intros E. cbn [live_xor]. rewrite (IH E), Z.lxor_assoc. reflexivity.
Qed.

Lemma lookup_update (k : K) (e e' : control * T) (m : list (K * (control * T))) :
  lookup k m = Some e -> lookup k (update k e' m) = Some e'.
Proof.
  induction m as [|[k0 e0] r IH]; cbn [lookup update]; [discriminate|].
  destruct (K_eqb k0 k) eqn:Q; intros E; cbn [lookup]; rewrite Q; [reflexivity|exact (IH E)].
Qed.

Lemma keys_update (k : K) (e : control * T) (m : list (K * (control * T))) :
  map fst (update k e m) = map fst m.
Proof.
  induction m as [|[k0 e0] r IH]; cbn [update map]; [reflexivity|].
  destruct (K_eqb k0 k); cbn [map fst]; [reflexivity|]. rewrite IH. reflexivity.
Qed.

Lemma sizes_update (k : K) (c c' : control) (v : T) (m : list (K * (control * T))) :
  lookup k m = Some (c, v) -> sizes_ok m -> sizes_ok (update k (c', v) m).
Proof.
  unfold sizes_ok. induction m as [|[k0 [c0 v0]] r IH]; cbn [lookup update]; [discriminate|].
  destruct (K_eqb k0 k); intros E F; inversion F; subst.
  - inversion E; subst. constructor; assumption.
  - constructor; [assumption|]. apply IH; assumption.
Qed.

Lemma live_xor_app (m : list (K * (control * T))) (k : K) (v : T) :
  live_xor (m ++ [(k, (null_control, v))]) = live_xor m.
Proof.
  induction m as [|[k0 [c0 v0]] r IH]; cbn [app live_xor].
  - reflexivity.
  - rewrite IH. reflexivity.
Qed.


Lemma contrib_dirty (c : control) : contrib (with_order c 0) = 0.
Proof. reflexivity. Qed.

Lemma dirty_ok (k : K) (u : umap) :
  hash_ok u ->
  hash_ok (dirty k u) /\ m_order (dirty k u) = m_order u /\
  m_data (dirty k u) = m_data u /\ m_free (dirty k u) = m_free u /\
  map fst (m_map (dirty k u)) = map fst (m_map u) /\
  (sizes_ok (m_map u) -> sizes_ok (m_map (dirty k u))) /\
  (forall c v, lookup k (m_map u) = Some (c, v) ->
     exists c', lookup k (m_map (dirty k u)) = Some (c', v) /\ c_order c' = 0 /\
                new_block c' = new_block c /\ new_count c' = new_count c).
Proof.
  unfold hash_ok, dirty. intros H.
  destruct (lookup k (m_map u)) as [[ctrl v]|] eqn:L.
  - destruct (negb (c_order ctrl =? 0)) eqn:Q.
    + fields. rewrite (live_xor_update k ctrl _ v v _ L), contrib_dirty, Z.lxor_0_r.
      split; [|split; [reflexivity|split; [reflexivity|split; [reflexivity|split;
        [apply keys_update|split]]]]].
      * rewrite H. unfold contrib. apply negb_true_iff in Q. rewrite Q. reflexivity.
      * apply (sizes_update k ctrl _ v _ L).
      * intros c v0 E. inversion E; subst. exists (with_order c 0).
        split; [apply (lookup_update k _ _ _ L)|]. repeat split.
    + split; [exact H|]. repeat split; auto.
      intros c v0 E. inversion E; subst. exists c. split; [exact L|].
      apply negb_false_iff, Z.eqb_eq in Q. repeat split; auto.
  - split; [exact H|]. repeat split; auto. intros c v E. discriminate E.
Qed.

(** The block loop keeps the hash in step with the entry it writes. *)
Lemma write_blocks_ok (fuel : nat) (k : K) (v : T) (ctrl : control) (buf : list Z)
    (cnt : Z) :
  c_order ctrl <> 0 -> new_count ctrl <> 0 ->
  forall prev i u,
    hash_ok u -> lookup k (m_map u) = Some (ctrl, v) ->
    let u' := write_blocks fuel k v ctrl buf prev i cnt u in
    hash_ok u' /\ map fst (m_map u') = map fst (m_map u) /\
    (sizes_ok (m_map u) -> sizes_ok (m_map u')) /\
    (m_order u' = m_order u \/ m_order u' = u64 (m_order u - 1)).
Proof.
  intros O N. induction fuel as [|f IH]; intros prev i u H L; cbn [write_blocks].
  - cbv zeta. auto.
  - destruct (i <? cnt); [|cbv zeta; auto].
    destruct (write_block (m_data u) (u32 (new_block ctrl + i))
                {| order := c_order ctrl; size := if i =? 0 then len buf else CONT;
                   data := fill_data buf prev i cnt |}) as [ok vw].
    destruct ok.
    + apply (IH _ _ (set_data u vw)); [exact H|exact L].
    + cbv zeta. unfold hash_ok in *. fields.
      rewrite (live_xor_update k ctrl _ v v _ L).
      split; [|split; [apply keys_update|split; [apply (sizes_update k ctrl _ v _ L)|auto]]].
      rewrite H. f_equal. unfold contrib at 1.
      replace (c_order ctrl =? 0) with false by (symmetry; apply Z.eqb_neq; exact O).
      unfold head_block.
      replace (new_count ctrl =? 0) with false by (symmetry; apply Z.eqb_neq; exact N).
      cbn [negb]. change (contrib (with_order (with_new ctrl 0 0) 0)) with 0.
      rewrite Z.lxor_0_r. reflexivity.
Qed.


Section Hash.

(** [K_eqb] is the equality of keys. *)
Hypothesis K_eqb_eq : forall a b, K_eqb a b = true -> a = b.

Lemma lookup_sizes (k : K) (c : control) (v : T) (m : list (K * (control * T))) :
  lookup k m = Some (c, v) -> sizes_ok m -> blocks_needed (save k v) <> 0.
Proof.
  unfold sizes_ok. induction m as [|[k0 [c0 v0]] r IH]; cbn [lookup]; [discriminate|].
  destruct (K_eqb k0 k) eqn:Q; intros E F; inversion F; subst.
  - inversion E; subst. apply K_eqb_eq in Q. subst k0. assumption.
  - apply IH; assumption.
Qed.

Lemma u64_small (x : Z) : 0 <= x < 2 ^ 64 -> u64 x = x.
Proof. intros H. unfold u64. apply Z.mod_small. exact H. Qed.

Lemma write_ok (k : K) (u u' : umap) :
  hash_ok u -> 0 <= m_order u -> m_order u + 1 < 2 ^ 64 -> sizes_ok (m_map u) ->
  write k u = Some u' ->
  hash_ok u' /\ map fst (m_map u') = map fst (m_map u) /\ sizes_ok (m_map u') /\
  (m_order u' = m_order u \/ m_order u' = m_order u + 1).
Proof.
  intros H O1 O2 S W. unfold write in W.
  destruct (lookup k (m_map u)) as [[c0 v]|] eqn:L0;
    [|inversion W; subst; auto].
  destruct (dirty_ok k u H) as (Hd & Od & _ & _ & Kd & Sd & Ld).
  destruct (Ld c0 v L0) as (c' & L' & Oc & NB & NC).
  pose proof (lookup_sizes k c0 v _ L0 S) as CN.
  set (ud := dirty k u) in *.
  set (cnt := blocks_needed (save k v)) in *.
  change (m_map (set_order ud (u64 (m_order ud + 1)))) with (m_map ud) in W.
  rewrite L' in W.
  change (m_order (set_order ud (u64 (m_order ud + 1)))) with (u64 (m_order ud + 1)) in W.
  rewrite Od, u64_small in W by lia.
  set (ord := m_order u + 1) in *.
  set (u2 := set_order ud ord) in *.
  assert (A : exists ctrl u3,
     (if negb (new_count (with_order c' ord) =? cnt)
      then
        match get_free cnt (m_free (free (new_block (with_order c' ord))
                                      (new_count (with_order c' ord)) u2)) with
        | Some (pos, fm) =>
            Some (with_new (with_order c' ord) pos cnt,
                  set_free (free (new_block (with_order c' ord))
                              (new_count (with_order c' ord)) u2) fm)
        | None => None
        end
      else Some (with_order c' ord, u2)) = Some (ctrl, u3) /\
     c_order ctrl = ord /\ new_count ctrl = cnt /\
     m_map u3 = m_map ud /\ m_hash u3 = m_hash ud /\ m_order u3 = ord).
  { destruct (negb (new_count (with_order c' ord) =? cnt)) eqn:Q.
    - destruct (get_free cnt _) as [[pos fm]|]; [|discriminate W].
      eexists _, _. split; [reflexivity|]. repeat split.
    - apply negb_false_iff, Z.eqb_eq in Q.
      eexists _, _. split; [reflexivity|]. repeat split. exact Q. }
  destruct A as (ctrl & u3 & EA & Oc2 & Nc2 & M3 & H3 & O3).
  rewrite EA in W.
  set (u5 := set_map (xor_order (c_order ctrl) (new_block ctrl) u3)
               (update k (ctrl, v) (m_map (xor_order (c_order ctrl) (new_block ctrl) u3)))).
  assert (EU : write_blocks (Z.to_nat cnt) k v ctrl (save k v)
                 (repeat 0 (Z.to_nat data_size)) 0 cnt u5 = u').
  { apply (f_equal (fun o => match o with Some x => x | None => u' end)) in W. exact W. }
  clear W. rewrite <- EU. clear EU u'.
  assert (H5 : hash_ok u5).
  { unfold hash_ok, u5. fields. rewrite M3, H3.
    rewrite (live_xor_update k c' ctrl v v _ L'), Hd. f_equal.
    unfold contrib. rewrite Oc. cbn [Z.eqb]. rewrite Z.lxor_0_l.
    replace (c_order ctrl =? 0) with false by (symmetry; apply Z.eqb_neq; lia).
    unfold head_block.
    replace (new_count ctrl =? 0) with false by (symmetry; apply Z.eqb_neq; lia).
    reflexivity. }
  assert (L5 : lookup k (m_map u5) = Some (ctrl, v)).
  { unfold u5. fields. rewrite M3. apply (lookup_update k _ _ _ L'). }
  destruct (write_blocks_ok (Z.to_nat cnt) k v ctrl (save k v) cnt ltac:(lia) ltac:(lia)
              (repeat 0 (Z.to_nat data_size)) 0 u5 H5 L5) as (Hw & Kw & Sw & Ow).
  split; [exact Hw|]. split; [|split].
  - rewrite Kw. unfold u5. fields. rewrite M3, keys_update. exact Kd.
  - apply Sw. unfold u5. fields. rewrite M3. apply (sizes_update k c' ctrl v _ L'), Sd, S.
  - change (m_order u5) with (m_order u3) in Ow. rewrite O3 in Ow.
    destruct Ow as [E|E]; [right; exact E|left].
    rewrite E. unfold ord. rewrite u64_small by lia. lia.
Qed.

Lemma write_dirty_ok (keys : list K) :
  forall u u',
  hash_ok u -> 0 <= m_order u -> m_order u + Z.of_nat (length keys) < 2 ^ 64 ->
  sizes_ok (m_map u) ->
  write_dirty keys u = Some u' ->
  hash_ok u' /\ map fst (m_map u') = map fst (m_map u) /\ sizes_ok (m_map u') /\
  m_order u <= m_order u' <= m_order u + Z.of_nat (length keys).
Proof.
  induction keys as [|k r IH]; intros u u' H O1 O2 S W; cbn [write_dirty] in W.
  - inversion W; subst. cbn [length]. repeat split; auto; lia.
  - cbn [length] in *. rewrite Nat2Z.inj_succ in *.
    assert (Skip : write_dirty r u = Some u' ->
      hash_ok u' /\ map fst (m_map u') = map fst (m_map u) /\ sizes_ok (m_map u') /\
      m_order u <= m_order u' <= Z.succ (m_order u + Z.of_nat (length r) - 0) ).
    { intros W'. destruct (IH u u' H O1 ltac:(lia) S W') as (A & B & C & D).
      repeat split; auto; lia. }
    destruct (lookup k (m_map u)) as [[ctrl v]|]; [|apply Skip in W; intuition lia].
    destruct (c_order ctrl =? 0); [|apply Skip in W; intuition lia].
    destruct (write k u) as [u1|] eqn:W1; [|discriminate W].
    destruct (write_ok k u u1 H O1 ltac:(lia) S W1) as (H1 & K1 & S1 & O1').
    destruct (IH u1 u' H1 ltac:(lia) ltac:(lia) S1 W) as (A & B & C & D).
    split; [exact A|]. split; [congruence|]. split; [exact C|]. lia.
Qed.

Lemma promote_ok (keys : list K) :
  forall u, hash_ok u ->
  hash_ok (promote keys u) /\ m_data (promote keys u) = m_data u /\
  m_hash (promote keys u) = m_hash u /\ m_lastf (promote keys u) = m_lastf u /\
  m_order (promote keys u) = m_order u /\ m_flush (promote keys u) = m_flush u.
Proof.
  induction keys as [|k r IH]; intros u H; cbn [promote].
  - repeat split; auto.
  - destruct (lookup k (m_map u)) as [[ctrl v]|] eqn:L; [|apply IH, H].
    destruct (negb (new_count ctrl =? 0)) eqn:Q; [|apply IH, H].
    match goal with |- context [promote r ?x] => set (u1 := x) end.
    assert (H1 : hash_ok u1).
    { unfold hash_ok, u1 in *. fields. rewrite (live_xor_update k ctrl _ v v _ L), H.
      rewrite <- (Z.lxor_0_r (live_xor (m_map u))) at 1. f_equal.
      unfold contrib, head_block. cbn [c_order new_count new_block load_block].
      rewrite Q. cbn [Z.eqb negb]. symmetry. apply Z.lxor_nilpotent. }
    destruct (IH u1 H1) as (A & B & C & D & E & F).
    repeat split; assumption.
Qed.

(** A block that was written is read back. *)
Lemma read_written (v v' : view) (i : Z) (b : block_layout) :
  write_block v i b = (true, v') -> read_block v' i = Some b.
Proof.
  unfold write_block, read_block.
  destruct (match plan v with [] => (true, []) | x :: r => (x, r) end) as [ok rest].
  destruct (ok && (0 <=? i) && (i <=? count v)) eqn:C; [|discriminate].
  apply andb_true_iff in C. destruct C as [C C3].
  apply andb_true_iff in C. destruct C as [_ C2].
  apply Z.leb_le in C2, C3. intros E. inversion E; subst v'; clear E.
  unfold count in *. cbn [blocks].
  destruct (i =? Z.of_nat (length (blocks v))) eqn:Q.
  - apply Z.eqb_eq in Q. rewrite length_app. cbn [length].
    replace (i <? 0) with false by (symmetry; apply Z.ltb_ge; lia).
    replace (i >=? Z.of_nat (length (blocks v) + 1)) with false
      by (symmetry; rewrite Z.geb_leb; apply Z.leb_gt; lia).
    cbn [orb]. rewrite Q, Nat2Z.id, app_nth2, Nat.sub_diag by lia. reflexivity.
  - apply Z.eqb_neq in Q.
    assert (L : (Z.to_nat i < length (blocks v))%nat) by lia.
    assert (RL : forall (l : list (option block_layout)) n x,
               length (replace_nth n x l) = length l).
    { induction l as [|y l IHl]; intros [|n] x; cbn; auto. }
    assert (RN : forall (l : list (option block_layout)) n x,
               (n < length l)%nat -> nth n (replace_nth n x l) None = x).
    { induction l as [|y l IHl]; intros [|n] x Hn; cbn in *; try lia; auto.
      apply IHl. lia. }
    rewrite RL.
    replace (i <? 0) with false by (symmetry; apply Z.ltb_ge; lia).
    replace (i >=? Z.of_nat (length (blocks v))) with false
      by (symmetry; rewrite Z.geb_leb; apply Z.leb_gt; lia).
    cbn [orb]. apply RN. exact L.
Qed.

Lemma emit_terminator_ok (u u' : umap) (ok : bool) :
  hash_ok u -> emit_terminator u = Some (ok, u') ->
  hash_ok u' /\ m_hash u' = m_hash u /\
  (ok = true ->
   m_flush u' = m_order u' /\ m_order u' = u64 (m_order u + 1) /\
   exists term,
     read_block (m_data u') (m_lastf u') = Some term /\
     order term = m_order u' /\ size term = 0 /\
     firstn 64 (data term) = be_bytes 64 (m_hash u')).
Proof.
  intros H E. unfold emit_terminator in E.
  destruct (get_free 1 (m_free u)) as [[new_pos fm]|]; [|discriminate E].
  match type of E with
  | context [write_block ?v ?i ?b] => destruct (write_block v i b) as [okw vw] eqn:W
  end.
  destruct okw; cbn [negb] in E.
  - apply (f_equal (fun o => match o with Some x => x | None => (ok, u') end)) in E.
    apply (f_equal fst) in E as E1. apply (f_equal snd) in E as E2.
    cbn [fst snd] in E1, E2. subst ok.
    match type of E2 with promote ?ks ?x = _ => set (u1 := x) in * end.
    assert (H1 : hash_ok u1) by exact H.
    destruct (promote_ok (map fst (m_map u1)) u1 H1) as (A & B & C & D & O & F).
    rewrite E2 in *. split; [exact A|]. split; [exact C|].
    intros _. rewrite F, O. split; [reflexivity|]. split; [reflexivity|].
    eexists. rewrite B, D. unfold u1. fields.
    split; [exact (read_written _ _ _ _ W)|].
    cbn [order size data]. split; [reflexivity|]. split; [reflexivity|].
    rewrite C. unfold u1. fields.
    rewrite <- (be_bytes_length 64 (m_hash u)) at 1. apply sfs.firstn_exact.
  - apply (f_equal (fun o => match o with Some x => x | None => (ok, u') end)) in E.
    apply (f_equal fst) in E as E1. apply (f_equal snd) in E as E2.
    cbn [fst snd] in E1, E2. subst ok u'.
    split; [exact H|]. split; [reflexivity|]. discriminate.
Qed.


(** *** The writer and the flush order *)

(** Every record fills at least one block and fewer than [2^32]. *)
Hypothesis save_fits : forall k v, blocks_needed (save k v) <> 0.

Lemma sizes_all (m : list (K * (control * T))) : sizes_ok m.
Proof.
  unfold sizes_ok. apply Forall_forall. intros [k [c v]] _. apply save_fits.
Qed.

Lemma apply_wop_ok (o : wop) (u : umap) (b : bool) :
  hash_ok u ->
  let u' := fst (apply_wop o (u, b)) in
  hash_ok u' /\ m_order u' = m_order u /\ m_flush u' = m_flush u /\
  (length (m_map u') <= S (length (m_map u)))%nat.
Proof.
  intros H. destruct o as [k f|k v]; cbn [apply_wop].
  - destruct (lookup k (m_map u)) as [e|] eqn:L; [|cbn [fst]; auto].
    destruct (dirty_ok k u H) as (H1 & O1 & _ & _ & K1 & _ & _).
    assert (F1 : m_flush (dirty k u) = m_flush u).
    { unfold dirty. rewrite L. destruct e as [c v].
      destruct (negb (c_order c =? 0)); reflexivity. }
    assert (N1 : length (m_map (dirty k u)) = length (m_map u)).
    { rewrite <- (length_map fst), K1, length_map. reflexivity. }
    destruct (lookup k (m_map (dirty k u))) as [[c v]|] eqn:L1; cbn [fst];
      [|repeat split; auto; lia].
    unfold hash_ok in *. fields.
    rewrite (live_xor_update k c c v (f v) _ L1), Z.lxor_nilpotent, Z.lxor_0_r.
    split; [exact H1|]. split; [exact O1|]. split; [exact F1|].
    rewrite <- (length_map fst), keys_update, length_map. lia.
  - unfold map_emplace. destruct (lookup k (m_map u)) as [e|] eqn:L; cbn [fst].
    + assert (H0 : hash_ok (set_map u (m_map u))) by exact H.
      destruct (dirty_ok k _ H0) as (H1 & O1 & _ & _ & K1 & _ & _).
      split; [exact H1|]. split; [exact O1|]. split.
      * unfold dirty. fields. rewrite L. destruct e as [c w].
        destruct (negb (c_order c =? 0)); reflexivity.
      * rewrite <- (length_map fst), K1, length_map. fields. lia.
    + assert (H0 : hash_ok (set_map u (m_map u ++ [(k, (null_control, v))]))).
      { unfold hash_ok in *. fields. rewrite live_xor_app. exact H. }
      destruct (dirty_ok k _ H0) as (H1 & O1 & _ & _ & K1 & _ & _).
      split; [exact H1|]. split; [exact O1|]. split.
      * unfold dirty. fields.
        destruct (lookup k (m_map u ++ [(k, (null_control, v))])) as [[c w]|];
          [|reflexivity].
        destruct (negb (c_order c =? 0)); reflexivity.
      * rewrite <- (length_map fst), K1, length_map. fields.
        rewrite length_app. cbn [length]. lia.
Qed.

Lemma writer_ok (ops : list wop) :
  forall u b, hash_ok u ->
  let u' := fst (fold_left (fun st o => apply_wop o st) ops (u, b)) in
  hash_ok u' /\ m_order u' = m_order u /\ m_flush u' = m_flush u /\
  (length (m_map u') <= length (m_map u) + length ops)%nat.
Proof.
  induction ops as [|o r IH]; intros u b H; cbn [fold_left length].
  - cbn [fst]. repeat split; auto. lia.
  - destruct (apply_wop_ok o u b H) as (H1 & O1 & F1 & N1).
    destruct (apply_wop o (u, b)) as [u1 b1] eqn:E. cbn [fst] in *.
    destruct (IH u1 b1 H1) as (H2 & O2 & F2 & N2). cbv zeta.
    split; [exact H2|]. split; [congruence|]. split; [congruence|]. lia.
Qed.


Lemma dirty_flush (k : K) (u : umap) : m_flush (dirty k u) = m_flush u.
Proof.
  unfold dirty. destruct (lookup k (m_map u)) as [[c v]|]; [|reflexivity].
  destruct (negb (c_order c =? 0)); reflexivity.
Qed.

Lemma write_blocks_flush (fuel : nat) (k : K) (v : T) (ctrl : control) (buf : list Z)
    (cnt : Z) :
  forall prev i u, m_flush (write_blocks fuel k v ctrl buf prev i cnt u) = m_flush u.
Proof.
  induction fuel as [|f IH]; intros prev i u; cbn [write_blocks]; [reflexivity|].
  destruct (i <? cnt); [|reflexivity].
  destruct (write_block (m_data u) (u32 (new_block ctrl + i))
              {| order := c_order ctrl; size := if i =? 0 then len buf else CONT;
                 data := fill_data buf prev i cnt |}) as [ok vw].
  destruct ok; [|reflexivity]. rewrite IH. reflexivity.
Qed.

Lemma write_flush (k : K) (u u' : umap) : write k u = Some u' -> m_flush u' = m_flush u.
Proof.
  unfold write. destruct (lookup k (m_map u)) as [[c v]|]; [|congruence].
  match goal with
  | |- context [lookup k (m_map ?x)] => destruct (lookup k (m_map x)) as [[c1 v1]|]
  end.
  2:{ intros E. inversion E. fields. apply dirty_flush. }
  match goal with
  | |- context [negb ?b] => destruct (negb b)
  end.
  - match goal with
    | |- context [get_free ?n ?f] => destruct (get_free n f) as [[pos fm]|]
    end; [|discriminate].
    intros E.
    apply (f_equal (fun o => match o with Some x => m_flush x | None => 0 end)) in E.
    rewrite <- E, write_blocks_flush. fields. apply dirty_flush.
  - intros E.
    apply (f_equal (fun o => match o with Some x => m_flush x | None => 0 end)) in E.
    rewrite <- E, write_blocks_flush. fields. apply dirty_flush.
Qed.

Lemma write_dirty_flush (keys : list K) :
  forall u u', write_dirty keys u = Some u' -> m_flush u' = m_flush u.
Proof.
  induction keys as [|k r IH]; intros u u' W; cbn [write_dirty] in W.
  - congruence.
  - destruct (lookup k (m_map u)) as [[c v]|]; [|exact (IH _ _ W)].
    destruct (c_order c =? 0); [|exact (IH _ _ W)].
    destruct (write k u) as [u1|] eqn:W1; [|discriminate W].
    rewrite (IH _ _ W). exact (write_flush _ _ _ W1).
Qed.

(** A terminator that [finalize] writes holds the combined hash of the
    entries that are live when it returns. *)
Lemma finalize_ok (u u' : umap) :
  hash_ok u -> 0 <= m_order u ->
  m_order u + Z.of_nat (length (m_map u)) + 1 < 2 ^ 64 ->
  finalize u = Some u' ->
  hash_ok u' /\ 0 <= m_order u' /\
  (m_flush u' <> m_flush u ->
   exists term,
     read_block (m_data u') (m_lastf u') = Some term /\
     order term = m_order u' /\ size term = 0 /\
     firstn 64 (data term) = be_bytes 64 (m_hash u')).
Proof.
  intros H O B F. unfold finalize in F.
  destruct (m_order u <=? m_flush u).
  { inversion F; subst. split; [exact H|]. split; [exact O|]. congruence. }
  destruct (write_dirty (map fst (m_map u)) u) as [u1|] eqn:W; [|discriminate F].
  rewrite <- (length_map fst) in B.
  assert (B1 : m_order u + Z.of_nat (length (map fst (m_map u))) < 2 ^ 64) by lia.
  destruct (write_dirty_ok _ u u1 H O B1 (sizes_all _) W) as (H1 & _ & _ & O1).
  pose proof (write_dirty_flush _ _ _ W) as F1.
  destruct (emit_terminator u1) as [[ok u2]|] eqn:E; [|discriminate F].
  inversion F; subst u2; clear F.
  destruct (emit_terminator_ok u1 u' ok H1 E) as (H2 & _ & T2).
  split; [exact H2|].
  assert (O2 : 0 <= m_order u').
  { unfold emit_terminator in E.
    destruct (get_free 1 (m_free u1)) as [[p fm]|]; [|discriminate E].
    match type of E with
    | context [write_block ?v ?i ?b] => destruct (write_block v i b) as [okw vw]
    end.
    destruct okw; cbn [negb] in E.
    - destruct ok; [|discriminate E].
      destruct (T2 eq_refl) as (_ & Q & _). rewrite Q. apply Z.mod_pos_bound. lia.
    - apply (f_equal (fun o => match o with Some x => m_order (snd x) | None => 0 end))
        in E.
      cbn [snd] in E. rewrite <- E. fields. apply Z.mod_pos_bound. lia. }
  split; [exact O2|]. intros N. destruct ok.
  - destruct (T2 eq_refl) as (_ & _ & R). exact R.
  - exfalso. apply N. rewrite <- F1. unfold emit_terminator in E.
    destruct (get_free 1 (m_free u1)) as [[p fm]|]; [|discriminate E].
    match type of E with
    | context [write_block ?v ?i ?b] => destruct (write_block v i b) as [okw vw]
    end.
    destruct okw; cbn [negb] in E; [discriminate E|].
    apply (f_equal (fun o => match o with Some x => m_flush (snd x) | None => 0 end)) in E.
    cbn [snd] in E. rewrite <- E. reflexivity.
Qed.


(** The order counter does not wrap during the transaction. *)
Definition no_overflow (ops : list wop) (u : umap) : Prop :=
  m_order u + 2 * Z.of_nat (length (m_map u) + length ops) + 1 < 2 ^ 64.

Lemma transaction_ok (ops : list wop) (flush : bool) (u u' : umap) :
  hash_ok u -> 0 <= m_order u -> no_overflow ops u ->
  transaction ops flush u = Some u' ->
  hash_ok u' /\ 0 <= m_order u' /\
  (m_flush u' <> m_flush u ->
   exists term,
     read_block (m_data u') (m_lastf u') = Some term /\
     order term = m_order u' /\ size term = 0 /\
     firstn 64 (data term) = be_bytes 64 (m_hash u')).
Proof.
  intros H O B X. unfold transaction, no_overflow in *.
  destruct (writer_ok ops u false H) as (H1 & O1 & F1 & N1).
  destruct (fold_left (fun st o => apply_wop o st) ops (u, false)) as [u1 modify].
  cbn [fst] in *.
  assert (Mid : exists u2,
            (if modify then write_dirty (map fst (m_map u1)) u1 else Some u1) = Some u2 /\
            hash_ok u2 /\ length (m_map u2) = length (m_map u1) /\
            m_order u1 <= m_order u2 <= m_order u1 + Z.of_nat (length (m_map u1)) /\
            m_flush u2 = m_flush u1).
  { destruct modify.
    - destruct (write_dirty (map fst (m_map u1)) u1) as [u2|] eqn:W; [|discriminate X].
      assert (B1 : m_order u1 + Z.of_nat (length (map fst (m_map u1))) < 2 ^ 64)
        by (rewrite length_map; lia).
      destruct (write_dirty_ok _ u1 u2 H1 ltac:(lia) B1 (sizes_all _) W)
        as (H2 & K2 & _ & O2).
      exists u2. split; [reflexivity|]. split; [exact H2|].
      split; [rewrite <- (length_map fst), K2, length_map; reflexivity|].
      split; [rewrite length_map in O2; exact O2|].
      exact (write_dirty_flush _ _ _ W).
    - exists u1. split; [reflexivity|]. split; [exact H1|]. split; [reflexivity|].
      split; [lia|reflexivity]. }
  destruct Mid as (u2 & E2 & H2 & N2 & O2 & F2). rewrite E2 in X.
  destruct flush.
  - assert (B2 : m_order u2 + Z.of_nat (length (m_map u2)) + 1 < 2 ^ 64) by lia.
    destruct (finalize_ok u2 u' H2 ltac:(lia) B2 X) as (H3 & O3 & T3).
    split; [exact H3|]. split; [exact O3|]. intros N. apply T3. congruence.
  - inversion X; subst u'. split; [exact H2|]. split; [lia|]. intros N. congruence.
Qed.


(** *** What [reload] rebuilds *)

Hypothesis K_eqb_refl : forall a, K_eqb a a = true.

(** An entry as [reload] and a completed [finalize] leave it: written, with
    no run waiting to be promoted. *)
Definition clean (c : control) : Prop := c_order c <> 0 /\ new_count c = 0.

Definition all_clean (m : list (K * (control * T))) : Prop :=
  Forall (fun e => clean (fst (snd e))) m.

Definition settled (u : umap) : Prop :=
  hash_ok u /\ 0 <= m_order u /\ all_clean (m_map u).

Lemma lookup_clean (k : K) (c : control) (v : T) (m : list (K * (control * T))) :
  lookup k m = Some (c, v) -> all_clean m -> clean c.
Proof.
  unfold all_clean. induction m as [|[k0 [c0 v0]] r IH]; cbn [lookup]; [discriminate|].
  destruct (K_eqb k0 k); intros E F; inversion F; subst.
  - inversion E; subst. assumption.
  - apply IH; assumption.
Qed.

Lemma update_clean (k : K) (c : control) (v : T) (m : list (K * (control * T))) :
  all_clean m -> clean c -> all_clean (update k (c, v) m).
Proof.
  unfold all_clean. intros F C. induction F as [|[k0 [c0 v0]] r P F IH]; cbn [update].
  - constructor.
  - destruct (K_eqb k0 k); constructor; assumption.
Qed.

Lemma lookup_new (k : K) (e : control * T) (m : list (K * (control * T))) :
  lookup k m = None -> lookup k (m ++ [(k, e)]) = Some e.
Proof.
  induction m as [|[k0 e0] r IH]; cbn [lookup app].
  - rewrite K_eqb_refl. reflexivity.
  - destruct (K_eqb k0 k); [discriminate|exact IH].
Qed.

Lemma update_new (k : K) (e e' : control * T) (m : list (K * (control * T))) :
  lookup k m = None -> update k e' (m ++ [(k, e)]) = m ++ [(k, e')].
Proof.
  induction m as [|[k0 e0] r IH]; cbn [lookup update app].
  - rewrite K_eqb_refl. reflexivity.
  - destruct (K_eqb k0 k); [discriminate|]. intros E. rewrite (IH E). reflexivity.
Qed.

Lemma settled_frame (u u' : umap) :
  m_map u' = m_map u -> m_hash u' = m_hash u -> 0 <= m_order u' ->
  settled u -> settled u'.
Proof.
  unfold settled, hash_ok. intros M H O (A & _ & C). rewrite M, H. auto.
Qed.

(** On a head block the continuation loop leaves [i] and [sbuf] alone. *)
Lemma continuation_head (fuel : nat) (cnt _order _block i j sz : Z)
    (buf : list Z) (hd : block_layout) (u : umap) :
  read_block (m_data u) i = Some hd -> u64 (size hd) <> CONT ->
  exists sz' buf' u',
    continuation fuel cnt _order _block i j sz buf hd u = (i, sz', buf', hd, u') /\
    m_map u' = m_map u /\ m_hash u' = m_hash u /\ m_order u' = m_order u.
Proof.
  intros R N. destruct fuel as [|f]; cbn [continuation].
  - exists sz, buf, u. repeat split; auto.
  - destruct ((sz >? data_size) && (j <? cnt)).
    + rewrite R.
      replace (u64 (size hd) =? CONT) with false by (symmetry; apply Z.eqb_neq; exact N).
      rewrite andb_false_r.
      eexists _, _, _. split; [reflexivity|]. repeat split; auto.
    + exists sz, buf, u. repeat split; auto.
Qed.


Lemma live_xor_snoc (m : list (K * (control * T))) (k : K) (c : control) (v : T) :
  live_xor (m ++ [(k, (c, v))]) = Z.lxor (live_xor m) (contrib c).
Proof.
  induction m as [|[k0 [c0 v0]] r IH]; cbn [app live_xor].
  - rewrite Z.lxor_0_r, Z.lxor_0_l. reflexivity.
  - rewrite IH, Z.lxor_assoc. reflexivity.
Qed.

Lemma u64_nonneg (x : Z) : 0 <= u64 x.
Proof. unfold u64. apply Z.mod_pos_bound. lia. Qed.

(** One iteration of the block loop keeps the combined hash equal to the
    XOR over the entries materialized so far. *)
Lemma reload_block_settled (cnt i : Z) (lh : list Z) (u : umap) :
  settled u -> settled (snd (reload_block cnt i lh u)).
Proof.
  intros S. unfold reload_block.
  destruct (read_block (m_data u) i) as [hd|] eqn:R.
  2:{ cbn [snd]. apply (settled_frame u); fields; auto; apply S. }
  cbv zeta.
  destruct (u64 (u64 (order hd) - 1) >=? INT64_MAX) eqn:A.
  { cbn [snd]. apply (settled_frame u); fields; auto; apply S. }
  destruct (u64 (size hd) >=? 2 ^ 31) eqn:B.
  { cbn [snd]. destruct (negb (u64 (size hd) =? CONT));
      apply (settled_frame u); fields; auto; apply S. }
  apply valid_order in A.
  set (u1 := if negb (m_flush u =? FLUSH_FIRST) && (u64 (order hd) >? m_order u)
             then set_order u (u64 (order hd)) else u).
  assert (S1 : settled u1 /\ m_data u1 = m_data u).
  { unfold u1. destruct (negb (m_flush u =? FLUSH_FIRST) && (u64 (order hd) >? m_order u)).
    - split; [|reflexivity]. apply (settled_frame u); fields; auto. apply u64_nonneg.
    - split; [exact S|reflexivity]. }
  destruct S1 as [S1 D1]. clearbody u1.
  destruct (u64 (order hd) >? m_flush u1).
  { cbn [snd]. apply (settled_frame u1); fields; auto; apply S1. }
  destruct (u64 (size hd) =? 0).
  { destruct ((m_flush u1 =? FLUSH_FIRST) && (u64 (order hd) >? m_order u1)).
    { cbn [snd]. apply (settled_frame u1); fields; auto. apply u64_nonneg. }
    destruct (m_flush u1 =? u64 (order hd));
      cbn [snd]; apply (settled_frame u1); fields; auto; apply S1. }
  assert (NC : u64 (size hd) <> CONT).
  { rewrite Z.geb_leb in B. apply Z.leb_gt in B. unfold CONT. lia. }
  assert (R1 : read_block (m_data u1) i = Some hd) by (rewrite D1; exact R).
  destruct (continuation_head (Z.to_nat cnt) cnt (u64 (order hd)) i i (u32 (i + 1))
              (u64 (size hd) - Z.min (u64 (size hd)) data_size)
              (firstn (Z.to_nat (Z.min (u64 (size hd)) data_size)) (data hd)) hd u1 R1 NC)
    as (sz' & buf' & u2 & E & M2 & H2 & O2).
  rewrite E.
  assert (S2 : settled u2).
  { apply (settled_frame u1); auto. rewrite O2. apply S1. }
  clear E R1 M2 H2 O2.
  destruct (negb (sz' =? 0)).
  { cbn [snd]. apply (settled_frame u2); fields; auto; apply S2. }
  destruct (load_key buf') as [key rest]. unfold map_emplace.
  destruct S2 as (Hh & Ho & Hc).
  destruct (lookup key (m_map u2)) as [[ctrl t]|] eqn:L.
  - destruct (c_order ctrl <? u64 (order hd)).
    + destruct (lookup_clean _ _ _ _ L Hc) as [C1 C2].
      replace (c_order ctrl =? 0) with false by (symmetry; apply Z.eqb_neq; exact C1).
      cbn [negb snd]. unfold settled, hash_ok in *. fields.
      split; [|split; [exact Ho|]].
      * rewrite (live_xor_update key ctrl _ t _ _ L), Hh, <- Z.lxor_assoc.
        f_equal; [f_equal|]; unfold contrib, head_block;
          cbn [c_order new_count new_block load_block].
        { replace (c_order ctrl =? 0) with false by (symmetry; apply Z.eqb_neq; exact C1).
          rewrite C2. reflexivity. }
        { replace (u64 (order hd) =? 0) with false by (symmetry; apply Z.eqb_neq; lia).
          rewrite C2. reflexivity. }
      * apply update_clean; [exact Hc|]. split; cbn [c_order new_count]; [lia|exact C2].
    + cbn [snd]. unfold settled, hash_ok in *. fields. auto.
  - replace (c_order null_control <? u64 (order hd)) with true
      by (symmetry; apply Z.ltb_lt; cbn [null_control c_order]; lia).
    change (negb (c_order null_control =? 0)) with false.
    cbn [negb snd]. unfold settled, hash_ok in *. fields.
    rewrite (update_new _ _ _ _ L).
    split; [|split; [exact Ho|]].
    + rewrite live_xor_snoc, Hh. f_equal. unfold contrib, head_block.
      cbn [c_order new_count new_block load_block null_control].
      replace (u64 (order hd) =? 0) with false by (symmetry; apply Z.eqb_neq; lia).
      reflexivity.
    + apply Forall_app. split; [exact Hc|]. constructor; [|constructor].
      split; cbn [fst snd c_order new_count null_control]; [lia|reflexivity].
Qed.


Lemma reload_pass_settled (u : umap) : settled (snd (reload_pass u)).
Proof.
  unfold reload_pass. apply (scan_blocks_inv (fun _ x => settled x)).
  - intros i lh x S. apply reload_block_settled. exact S.
  - unfold settled, hash_ok, all_clean. fields. cbn [live_xor].
    split; [reflexivity|]. split; [lia|constructor].
Qed.

Lemma reload_settled (fuel : nat) :
  forall u u', reload fuel u = Some u' -> settled u'.
Proof.
  induction fuel as [|f IH]; intros u u' E; cbn [reload] in E; [discriminate E|].
  pose proof (reload_pass_settled u) as S.
  destruct (reload_pass u) as [lh u1]. cbn [snd] in S.
  destruct (m_flush u1 =? FLUSH_FIRST).
  - destruct (negb (check (set_flush u1 (m_order u1)) lh)); [exact (IH _ _ E)|].
    inversion E; subst u'. apply (settled_frame u1); fields; auto; apply S.
  - destruct (m_flush u1 =? FLUSH_THIRD).
    + inversion E; subst u'. apply (settled_frame u1); fields; auto; apply S.
    + destruct (negb (check u1 lh)); [exact (IH _ _ E)|].
      inversion E; subst u'. apply (settled_frame u1); fields; auto; apply S.
Qed.

Lemma write_dirty_clean (keys : list K) (u : umap) :
  all_clean (m_map u) -> write_dirty keys u = Some u.
Proof.
  intros C. induction keys as [|k r IH]; cbn [write_dirty]; [reflexivity|].
  destruct (lookup k (m_map u)) as [[c v]|] eqn:L; [|exact IH].
  destruct (lookup_clean _ _ _ _ L C) as [N _].
  replace (c_order c =? 0) with false by (symmetry; apply Z.eqb_neq; exact N).
  exact IH.
Qed.

Lemma emit_terminator_order (u u' : umap) (ok : bool) :
  emit_terminator u = Some (ok, u') -> 0 <= m_order u'.
Proof.
  intros E. unfold emit_terminator in E.
  destruct (get_free 1 (m_free u)) as [[p fm]|]; [|discriminate E].
  match type of E with
  | context [write_block ?v ?i ?b] => destruct (write_block v i b) as [okw vw]
  end.
  destruct okw; cbn [negb] in E;
    apply (f_equal (fun o => match o with Some x => m_order (snd x) | None => 0 end)) in E;
    cbn [snd] in E; rewrite <- E.
  - assert (P : forall ks y, m_order (promote ks y) = m_order y).
    { induction ks as [|k r IH]; intros y; cbn [promote]; [reflexivity|].
      destruct (lookup k (m_map y)) as [[c v]|]; [|apply IH].
      destruct (negb (new_count c =? 0)); rewrite IH; reflexivity. }
    rewrite P. fields. apply u64_nonneg.
  - fields. apply u64_nonneg.
Qed.

(** [init] leaves the combined hash equal to the XOR over the entries it
    has materialized. *)
Lemma init_ok (vw : view) (u0 u : umap) :
  init vw u0 = Some u -> hash_ok u /\ 0 <= m_order u.
Proof.
  unfold init. intros E.
  destruct (reload 3 (set_flush (set_data u0 vw) FLUSH_FIRST)) as [u1|] eqn:R;
    [|discriminate E].
  destruct (reload_settled _ _ _ R) as (H1 & O1 & C1).
  destruct (m_lastf u1 =? NONE32).
  2:{ inversion E; subst u. auto. }
  unfold finalize in E. destruct (m_order u1 <=? m_flush u1).
  { inversion E; subst u. auto. }
  rewrite (write_dirty_clean _ _ C1) in E.
  destruct (emit_terminator u1) as [[ok u2]|] eqn:X; [|discriminate E].
  inversion E; subst u2.
  split; [exact (proj1 (emit_terminator_ok _ _ _ H1 X))|].
  exact (emit_terminator_order _ _ _ X).
Qed.


(** *** The terminator and the combined hash *)

(** The states of a map in use: [init] on some view, then [write(f)] and
    [flush(f)] transactions during which the order counter does not
    wrap. *)
Inductive reachable : umap -> Prop :=
| reach_init (vw : view) (u0 u : umap) :
    init vw u0 = Some u -> reachable u
| reach_transaction (ops : list wop) (flush : bool) (u u' : umap) :
    reachable u -> no_overflow ops u -> transaction ops flush u = Some u' ->
    reachable u'.

Lemma reachable_ok (u : umap) : reachable u -> hash_ok u /\ 0 <= m_order u.
Proof.
  induction 1 as [vw u0 u I|ops flush u u' R [H O] B X].
  - exact (init_ok _ _ _ I).
  - destruct (transaction_ok ops flush u u' H O B X) as (H' & O' & _). auto.
Qed.

(** C5.  When a [flush(f)] transaction on a map in use has written a
    terminator (the flush order has moved), the combined accumulator
    equals the XOR, over the entries of the map that are live (order not
    0), of the HMAC of the entry's order and the position of its head
    block, and the block at [m_lastf] is a terminator (size 0) carrying the
    new order whose data starts with the 64 big-endian bytes of that
    accumulator.  Keys are compared by equality, every record needs at least
    one block, and the 64-bit order counter does not wrap. *)
Theorem terminator_holds_combined_hash (ops : list wop) (u u' : umap) :
  reachable u -> no_overflow ops u ->
  transaction ops true u = Some u' ->
  m_flush u' <> m_flush u ->
  m_hash u' = live_xor (m_map u') /\
  exists term,
    read_block (m_data u') (m_lastf u') = Some term /\
    order term = m_order u' /\ size term = 0 /\
    firstn 64 (data term) = be_bytes 64 (m_hash u').
Proof.
  intros R B X N. destruct (reachable_ok u R) as [H O].
  destruct (transaction_ok ops true u u' H O B X) as (H' & _ & Tm).
  split; [exact H'|exact (Tm N)].
Qed.


(** *** The passes of [reload] *)

(** What the block loop keeps of the two order counters. *)
Definition counters (flush : Z) (u : umap) : Prop :=
  m_flush u = flush /\ 0 <= m_order u <= INT64_MAX.

Lemma reload_block_counters (flush cnt i : Z) (lh : list Z) (u : umap) :
  counters flush u -> counters flush (snd (reload_block cnt i lh u)).
Proof.
  unfold counters. intros [F O]. unfold reload_block.
  destruct (read_block (m_data u) i) as [hd|] eqn:R; [|cbn [snd]; fields; auto].
  cbv zeta.
  destruct (u64 (u64 (order hd) - 1) >=? INT64_MAX) eqn:A; [cbn [snd]; fields; auto|].
  destruct (u64 (size hd) >=? 2 ^ 31) eqn:B.
  { cbn [snd]. destruct (negb (u64 (size hd) =? CONT)); fields; auto. }
  apply valid_order in A.
  set (u1 := if negb (m_flush u =? FLUSH_FIRST) && (u64 (order hd) >? m_order u)
             then set_order u (u64 (order hd)) else u).
  assert (S1 : (m_flush u1 = flush /\ 0 <= m_order u1 <= INT64_MAX) /\ m_data u1 = m_data u).
  { unfold u1. destruct (negb (m_flush u =? FLUSH_FIRST) && (u64 (order hd) >? m_order u));
      fields; split; auto. split; [exact F|lia]. }
  destruct S1 as [[F1 O1] D1]. clearbody u1.
  destruct (u64 (order hd) >? m_flush u1); [cbn [snd]; fields; auto|].
  destruct (u64 (size hd) =? 0).
  { destruct ((m_flush u1 =? FLUSH_FIRST) && (u64 (order hd) >? m_order u1)).
    { cbn [snd]. fields. split; [exact F1|lia]. }
    destruct (m_flush u1 =? u64 (order hd)); cbn [snd]; fields; auto. }
  destruct (continuation_frame (Z.to_nat cnt) cnt (u64 (order hd)) i i (u32 (i + 1))
              (u64 (size hd) - Z.min (u64 (size hd)) data_size)
              (firstn (Z.to_nat (Z.min (u64 (size hd)) data_size)) (data hd)) hd u1)
    as (i' & sz' & buf' & sbuf' & u2 & E & _ & _ & _ & _ & O2 & F2).
  rewrite E. rewrite <- O2, <- F2 in *. clear E O2 F2.
  destruct (negb (sz' =? 0)); [cbn [snd]; fields; auto|].
  destruct (load_key buf') as [key rest].
  destruct (map_emplace key (null_control, T_default) (m_map u2)) as [[m [ctrl t]] ins].
  destruct (c_order ctrl <? u64 (order hd)); [|cbn [snd]; fields; auto].
  destruct (negb (c_order ctrl =? 0)); cbn [snd]; fields; auto.
Qed.

Lemma reload_pass_counters (u : umap) : counters (m_flush u) (snd (reload_pass u)).
Proof.
  unfold reload_pass.
  apply (scan_blocks_inv (fun _ x => counters (m_flush u) x)).
  - intros i lh x S. apply reload_block_counters. exact S.
  - unfold counters, INT64_MAX. fields. split; [reflexivity|lia].
Qed.

(** [reload] makes at most three passes over the file: started by [init]
    with [m_flush = -1] it returns within three rounds, whatever the file
    holds.  The order counter then lies in [[0, INT64_MAX]], and the flush
    order equals it unless the third pass ran, which leaves the flush
    order 0 and raises bit 32. *)
Theorem reload_three_passes (u : umap) :
  m_flush u = FLUSH_FIRST ->
  exists u', reload 3 u = Some u' /\
    0 <= m_order u' <= INT64_MAX /\
    (m_flush u' = m_order u' \/
     (m_flush u' = 0 /\ Z.testbit (m_error u') 5 = true)).
Proof.
  intros F.
  assert (Third : forall x, m_flush x = FLUSH_THIRD ->
            exists u', reload 1 x = Some u' /\ 0 <= m_order u' <= INT64_MAX /\
              m_flush u' = 0 /\ Z.testbit (m_error u') 5 = true).
  { intros x Fx. cbn [reload].
    destruct (reload_pass_counters x) as [F1 O1]. rewrite Fx in F1.
    destruct (reload_pass x) as [lh x1]. cbn [snd] in *. rewrite F1.
    change (FLUSH_THIRD =? FLUSH_FIRST) with false. rewrite Z.eqb_refl.
    eexists. split; [reflexivity|]. fields. split; [exact O1|]. split; [reflexivity|].
    rewrite Z.lor_spec. replace (Z.testbit 32 5) with true by reflexivity.
    apply orb_true_r. }
  assert (Second : forall x, 0 <= m_flush x <= INT64_MAX ->
            exists u', reload 2 x = Some u' /\ 0 <= m_order u' <= INT64_MAX /\
              (m_flush u' = m_order u' \/
               (m_flush u' = 0 /\ Z.testbit (m_error u') 5 = true))).
  { intros x Fx. cbn [reload].
    destruct (reload_pass_counters x) as [F1 O1].
    destruct (reload_pass x) as [lh x1]. cbn [snd] in *.
    unfold INT64_MAX, FLUSH_FIRST, FLUSH_THIRD in *.
    replace (m_flush x1 =? 2 ^ 64 - 1) with false by (symmetry; apply Z.eqb_neq; lia).
    replace (m_flush x1 =? 2 ^ 64 - 2) with false by (symmetry; apply Z.eqb_neq; lia).
    destruct (negb (check x1 lh)).
    - destruct (Third (set_flush x1 (2 ^ 64 - 2)) eq_refl) as (u' & E & O & Tb).
      cbn [reload] in E. exists u'. split; [exact E|]. split; [exact O|]. right. exact Tb.
    - eexists. split; [reflexivity|]. fields. split; [exact O1|]. left. reflexivity. }
  cbn [reload].
  destruct (reload_pass_counters u) as [F1 O1]. rewrite F in F1.
  destruct (reload_pass u) as [lh u1] eqn:P. cbn [snd] in *. rewrite F1, Z.eqb_refl.
  destruct (negb (check (set_flush u1 (m_order u1)) lh)).
  - destruct (Second (set_flush u1 (m_order u1)) O1) as (u' & E & R).
    cbn [reload] in E. exists u'. split; [exact E|exact R].
  - eexists. split; [reflexivity|]. fields. split; [exact O1|]. left. reflexivity.
Qed.

(** *** A second flush *)

Lemma promote_counters (keys : list K) :
  forall u, m_order (promote keys u) = m_order u /\ m_flush (promote keys u) = m_flush u.
Proof.
  induction keys as [|k r IH]; intros u; cbn [promote]; [auto|].
  destruct (lookup k (m_map u)) as [[c v]|]; [|apply IH].
  destruct (negb (new_count c =? 0)); [|apply IH].
  match goal with |- context [promote r ?x] => destruct (IH x) as [A B] end.
  rewrite A, B. auto.
Qed.

Lemma emit_terminator_flush (u u' : umap) (ok : bool) :
  emit_terminator u = Some (ok, u') ->
  if ok then m_flush u' = m_order u' else m_flush u' = m_flush u.
Proof.
  intros E. unfold emit_terminator in E.
  destruct (get_free 1 (m_free u)) as [[p fm]|]; [|discriminate E].
  match type of E with
  | context [write_block ?v ?i ?b] => destruct (write_block v i b) as [okw vw]
  end.
  destruct okw; cbn [negb] in E;
    apply (f_equal (fun o => match o with Some x => x | None => (ok, u') end)) in E;
    apply (f_equal fst) in E as E1; apply (f_equal snd) in E as E2;
    cbn [fst snd] in E1, E2; subst ok; rewrite <- E2.
  - match goal with
    | |- context [promote ?ks ?x] => destruct (promote_counters ks x) as [A B]
    end.
    rewrite A, B. reflexivity.
  - reflexivity.
Qed.

(** After a [finalize] that has written a terminator, a second [finalize]
    returns at once: no block is written and the state stays as it is. *)
Theorem finalize_twice (u u' : umap) :
  finalize u = Some u' -> m_flush u' <> m_flush u -> finalize u' = Some u'.
Proof.
  intros F N. unfold finalize in F.
  destruct (m_order u <=? m_flush u); [inversion F; subst; contradiction|].
  destruct (write_dirty (map fst (m_map u)) u) as [u1|] eqn:W; [|discriminate F].
  pose proof (write_dirty_flush _ _ _ W) as F1.
  destruct (emit_terminator u1) as [[ok u2]|] eqn:E; [|discriminate F].
  inversion F; subst u2; clear F.
  pose proof (emit_terminator_flush _ _ _ E) as Tf. destruct ok.
  - apply finalize_skipped. lia.
  - exfalso. apply N. congruence.
Qed.

(** *** The map a reader sees *)

(** [reader::operator[]] and [writer::get] (lines 474-484, 611-621):
    [None] is the null pointer. *)
Definition reader_get (k : K) (u : umap) : option T :=
  option_map snd (lookup k (m_map u)).

(** Replacing the control block of an entry leaves every value. *)
Lemma values_update (k k' : K) (c c' : control) (v : T) (m : list (K * (control * T))) :
  lookup k m = Some (c, v) ->
  option_map snd (lookup k' (update k (c', v) m)) = option_map snd (lookup k' m).
Proof.
  induction m as [|[k0 [c0 v0]] r IH]; cbn [lookup update]; [discriminate|].
  destruct (K_eqb k0 k) eqn:Q; intros E; cbn [lookup].
  - inversion E; subst. destruct (K_eqb k0 k'); reflexivity.
  - destruct (K_eqb k0 k'); [reflexivity|exact (IH E)].
Qed.

Lemma dirty_values (k k' : K) (u : umap) : reader_get k' (dirty k u) = reader_get k' u.
Proof.
  unfold reader_get, dirty.
  destruct (lookup k (m_map u)) as [[c v]|] eqn:L; [|reflexivity].
  destruct (negb (c_order c =? 0)); [|reflexivity].
  fields. exact (values_update k k' c _ v _ L).
Qed.

Lemma dirty_entry (k : K) (c : control) (v : T) (u : umap) :
  lookup k (m_map u) = Some (c, v) ->
  exists c', lookup k (m_map (dirty k u)) = Some (c', v).
Proof.
  intros L. unfold dirty. rewrite L.
  destruct (negb (c_order c =? 0)).
  - fields. eexists. exact (lookup_update k _ _ _ L).
  - exists c. exact L.
Qed.

Lemma write_blocks_values (fuel : nat) (k k' : K) (v : T) (ctrl : control)
    (buf : list Z) (cnt : Z) :
  forall prev i u, lookup k (m_map u) = Some (ctrl, v) ->
    reader_get k' (write_blocks fuel k v ctrl buf prev i cnt u) = reader_get k' u.
Proof.
  induction fuel as [|f IH]; intros prev i u L; cbn [write_blocks]; [reflexivity|].
  destruct (i <? cnt); [|reflexivity].
  destruct (write_block (m_data u) (u32 (new_block ctrl + i))
              {| order := c_order ctrl; size := if i =? 0 then len buf else CONT;
                 data := fill_data buf prev i cnt |}) as [ok vw].
  destruct ok.
  - rewrite (IH _ _ (set_data u vw) L). reflexivity.
  - unfold reader_get. fields. exact (values_update k k' ctrl _ v _ L).
Qed.

Lemma write_values (k k' : K) (u u' : umap) :
  write k u = Some u' -> reader_get k' u' = reader_get k' u.
Proof.
  unfold write. destruct (lookup k (m_map u)) as [[c0 v]|] eqn:L0; [|congruence].
  destruct (dirty_entry k c0 v u L0) as (c1 & L1).
  pose proof (dirty_values k k' u) as D.
  cbn [set_order m_map]. rewrite L1.
  match goal with
  | |- context [negb ?b] => destruct (negb b)
  end.
  - match goal with
    | |- context [get_free ?n ?f] => destruct (get_free n f) as [[pos fm]|]
    end; [|discriminate].
    intros E.
    apply (f_equal (fun o => match o with Some x => reader_get k' x | None => None end))
      in E.
    rewrite <- E, write_blocks_values.
    + unfold reader_get in *. fields. rewrite <- D. exact (values_update k k' c1 _ v _ L1).
    + fields. exact (lookup_update k _ _ _ L1).
  - intros E.
    apply (f_equal (fun o => match o with Some x => reader_get k' x | None => None end))
      in E.
    rewrite <- E, write_blocks_values.
    + unfold reader_get in *. fields. rewrite <- D. exact (values_update k k' c1 _ v _ L1).
    + fields. exact (lookup_update k _ _ _ L1).
Qed.

Lemma write_dirty_values (keys : list K) (k' : K) :
  forall u u', write_dirty keys u = Some u' -> reader_get k' u' = reader_get k' u.
Proof.
  induction keys as [|k r IH]; intros u u' W; cbn [write_dirty] in W.
  - congruence.
  - destruct (lookup k (m_map u)) as [[c v]|]; [|exact (IH _ _ W)].
    destruct (c_order c =? 0); [|exact (IH _ _ W)].
    destruct (write k u) as [u1|] eqn:W1; [|discriminate W].
    rewrite (IH _ _ W). exact (write_values _ _ _ _ W1).
Qed.

Lemma promote_values (keys : list K) (k' : K) :
  forall u, reader_get k' (promote keys u) = reader_get k' u.
Proof.
  induction keys as [|k r IH]; intros u; cbn [promote]; [reflexivity|].
  destruct (lookup k (m_map u)) as [[c v]|] eqn:L; [|apply IH].
  destruct (negb (new_count c =? 0)); [|apply IH].
  rewrite IH. unfold reader_get. fields. exact (values_update k k' c _ v _ L).
Qed.

Lemma finalize_values (k' : K) (u u' : umap) :
  finalize u = Some u' -> reader_get k' u' = reader_get k' u.
Proof.
  unfold finalize. destruct (m_order u <=? m_flush u); [congruence|].
  destruct (write_dirty (map fst (m_map u)) u) as [u1|] eqn:W; [|discriminate].
  rewrite <- (write_dirty_values _ k' _ _ W).
  unfold emit_terminator.
  destruct (get_free 1 (m_free u1)) as [[p fm]|]; [|discriminate].
  match goal with
  | |- context [write_block ?v ?i ?b] => destruct (write_block v i b) as [okw vw]
  end.
  destruct okw; cbn [negb]; intros E;
    apply (f_equal (fun o => match o with Some x => reader_get k' x | None => None end))
      in E; rewrite <- E.
  - rewrite promote_values. reflexivity.
  - reflexivity.
Qed.

(** The writer calls on a finite map from keys to values: [writer[k]]
    followed by an assignment through the pointer changes the value of a
    key that is present, [writer.add(k, v)] inserts [v] unless the key is
    present. *)
Definition map_op (o : wop) (g : K -> option T) : K -> option T :=
  match o with
  | Index k f => fun k' => if K_eqb k k' then option_map f (g k') else g k'
  | Add k v =>
      fun k' => if K_eqb k k'
                then Some (match g k' with Some w => w | None => v end)
                else g k'
  end.

Definition map_ops (ops : list wop) (g : K -> option T) : K -> option T :=
  fold_left (fun g o => map_op o g) ops g.

Lemma map_ops_ext (ops : list wop) :
  forall g1 g2, (forall k, g1 k = g2 k) -> forall k, map_ops ops g1 k = map_ops ops g2 k.
Proof.
  unfold map_ops. induction ops as [|o r IH]; intros g1 g2 E k; cbn [fold_left].
  - apply E.
  - apply IH. intros k0. destruct o as [k1 f|k1 v]; cbn [map_op];
      destruct (K_eqb k1 k0); rewrite ?E; reflexivity.
Qed.

Lemma K_eqb_other (k0 k k' : K) :
  K_eqb k0 k = false -> K_eqb k0 k' = true -> K_eqb k k' = false.
Proof.
  intros A B. apply K_eqb_eq in B. subst k0.
  destruct (K_eqb k k') eqn:Q; [|reflexivity].
  apply K_eqb_eq in Q. subst k'. rewrite K_eqb_refl in A. discriminate A.
Qed.

Lemma lookup_update_get (k k' : K) (e : control * T) (m : list (K * (control * T))) :
  lookup k' (update k e m) =
  if K_eqb k k' then match lookup k m with Some _ => Some e | None => None end
  else lookup k' m.
Proof.
  induction m as [|[k0 e0] r IH]; cbn [lookup update].
  - destruct (K_eqb k k'); reflexivity.
  - destruct (K_eqb k0 k) eqn:A; cbn [lookup].
    + apply K_eqb_eq in A. subst k0. destruct (K_eqb k k'); reflexivity.
    + destruct (K_eqb k0 k') eqn:B.
      * rewrite (K_eqb_other _ _ _ A B). reflexivity.
      * exact IH.
Qed.

Lemma lookup_app_new (k k' : K) (e : control * T) (m : list (K * (control * T))) :
  lookup k' (m ++ [(k, e)]) =
  match lookup k' m with
  | Some x => Some x
  | None => if K_eqb k k' then Some e else None
  end.
Proof.
  induction m as [|[k0 e0] r IH]; cbn [lookup app]; [reflexivity|].
  destruct (K_eqb k0 k'); [reflexivity|exact IH].
Qed.

Lemma apply_wop_get (o : wop) (u : umap) (b : bool) (k' : K) :
  reader_get k' (fst (apply_wop o (u, b))) = map_op o (fun k => reader_get k u) k'.
Proof.
  destruct o as [k f|k v]; cbn [apply_wop map_op].
  - destruct (lookup k (m_map u)) as [[c v]|] eqn:L.
    + destruct (dirty_entry k c v u L) as (c' & L').
      rewrite L'. cbn [fst]. unfold reader_get at 1. fields.
      rewrite lookup_update_get, L'.
      destruct (K_eqb k k') eqn:Q.
      * apply K_eqb_eq in Q. subst k'. unfold reader_get. rewrite L. reflexivity.
      * fold (reader_get k' (dirty k u)). apply dirty_values.
    + cbn [fst]. destruct (K_eqb k k') eqn:Q; [|reflexivity].
      apply K_eqb_eq in Q. subst k'. unfold reader_get. rewrite L. reflexivity.
  - unfold map_emplace. destruct (lookup k (m_map u)) as [[c w]|] eqn:L; cbn [fst].
    + rewrite dirty_values. unfold reader_get. fields.
      destruct (K_eqb k k') eqn:Q; [|reflexivity].
      apply K_eqb_eq in Q. subst k'. rewrite L. reflexivity.
    + rewrite dirty_values. unfold reader_get. fields. rewrite lookup_app_new.
      destruct (K_eqb k k') eqn:Q.
      * apply K_eqb_eq in Q. subst k'. rewrite L. reflexivity.
      * destruct (lookup k' (m_map u)); reflexivity.
Qed.

Lemma writer_get (ops : list wop) :
  forall u b k,
    reader_get k (fst (fold_left (fun st o => apply_wop o st) ops (u, b)))
    = map_ops ops (fun k0 => reader_get k0 u) k.
Proof.
  induction ops as [|o r IH]; intros u b k; cbn [fold_left]; [reflexivity|].
  destruct (apply_wop o (u, b)) as [u1 b1] eqn:E.
  rewrite IH. unfold map_ops at 2. cbn [fold_left]. apply map_ops_ext.
  intros k0. rewrite <- apply_wop_get with (b := b), E. reflexivity.
Qed.

(** Whatever happens to the blocks (allocation, failed block writes, a
    failed terminator), a transaction that returns leaves the reader the
    finite map that the writer calls describe: persistence never changes a
    value, adds or removes a key. *)
Theorem transaction_is_map_update (ops : list wop) (flush : bool) (u u' : umap) :
  transaction ops flush u = Some u' ->
  forall k, reader_get k u' = map_ops ops (fun k0 => reader_get k0 u) k.
Proof.
  intros X k. unfold transaction in X.
  pose proof (writer_get ops u false k) as G.
  destruct (fold_left (fun st o => apply_wop o st) ops (u, false)) as [u1 modify].
  cbn [fst] in G. rewrite <- G.
  assert (Mid : exists u2,
            (if modify then write_dirty (map fst (m_map u1)) u1 else Some u1) = Some u2 /\
            reader_get k u2 = reader_get k u1).
  { destruct modify.
    - destruct (write_dirty (map fst (m_map u1)) u1) as [u2|] eqn:W; [|discriminate X].
      exists u2. split; [reflexivity|]. exact (write_dirty_values _ k _ _ W).
    - exists u1. auto. }
  destruct Mid as (u2 & E2 & V2). rewrite E2 in X. rewrite <- V2.
  destruct flush.
  - exact (finalize_values k _ _ X).
  - congruence.
Qed.

(** *** A record that fits one block *)

Lemma continuation_idle (fuel : nat) (cnt _order _block i j : Z) (buf : list Z)
    (sbuf : block_layout) (u : umap) :
  continuation fuel cnt _order _block i j 0 buf sbuf u = (i, 0, buf, sbuf, u).
Proof.
  destruct fuel as [|f]; [reflexivity|]. cbn [continuation].
  replace (0 >? data_size) with false by reflexivity. reflexivity.
Qed.

(** The payload [write] gives the only block of a record that fits one
    block starts with the record. *)
Lemma fill_data_single (buf prev : list Z) :
  len buf <= data_size ->
  firstn (length buf) (fill_data buf prev 0 1) = buf.
Proof.
  intros L. unfold fill_data. cbn [Z.eqb negb andb].
  replace (len buf - 0 * data_size) with (len buf) by ring.
  rewrite Z.min_l by exact L. unfold len. rewrite Nat2Z.id.
  cbn [Z.mul Z.to_nat skipn]. rewrite firstn_all.
  rewrite <- (app_nil_r buf) at 2. rewrite <- app_assoc. cbn [app].
  apply sfs.firstn_exact.
Qed.

(** The block loop of [reload] on a head block that holds a record of one
    block: it materializes the entry with the key and the value of the
    record, the order and the position of the block, unless the map holds
    the key with the same or a later order. *)
Lemma reload_block_record (cnt i o : Z) (lh : list Z) (u : umap) (k : K) (v : T)
    (rest : list Z) :
  read_block (m_data u) i
    = Some {| order := o; size := len (save k v);
              data := fill_data (save k v) (repeat 0 (Z.to_nat data_size)) 0 1 |} ->
  0 < len (save k v) <= data_size ->
  1 <= o <= INT64_MAX -> o <= m_flush u -> 0 <= i < UINT32_MAX ->
  load_key (save k v) = (k, rest) -> load_value rest = v ->
  (forall c w, lookup k (m_map u) = Some (c, w) -> c_order c < o) ->
  exists c, lookup k (m_map (snd (reload_block cnt i lh u))) = Some (c, v) /\
            c_order c = o /\ load_block c = i /\ load_count c = 1.
Proof.
  intros R Hs Ho Hf Hi Lk Lv Old. unfold reload_block. rewrite R. cbv zeta.
  cbn [order size data].
  assert (Ds : data_size = 4032) by reflexivity.
  unfold INT64_MAX, UINT32_MAX in *.
  rewrite (u64_small o) by lia. rewrite (u64_small (o - 1)) by lia.
  rewrite (u64_small (len (save k v))) by lia.
  replace (o - 1 >=? 2 ^ 63 - 1) with false
    by (symmetry; rewrite Z.geb_leb; apply Z.leb_gt; lia).
  replace (len (save k v) >=? 2 ^ 31) with false
    by (symmetry; rewrite Z.geb_leb; apply Z.leb_gt; lia).
  set (u1 := if negb (m_flush u =? FLUSH_FIRST) && (o >? m_order u)
             then set_order u o else u).
  assert (S1 : m_flush u1 = m_flush u /\ m_map u1 = m_map u).
  { unfold u1. destruct (negb (m_flush u =? FLUSH_FIRST) && (o >? m_order u)); auto. }
  destruct S1 as [F1 M1]. clearbody u1.
  replace (o >? m_flush u1) with false
    by (symmetry; rewrite Z.gtb_ltb; apply Z.ltb_ge; lia).
  replace (len (save k v) =? 0) with false by (symmetry; apply Z.eqb_neq; lia).
  rewrite Z.min_l by lia. rewrite Z.sub_diag, continuation_idle.
  cbn [Z.eqb negb]. unfold len at 1. rewrite Nat2Z.id.
  rewrite fill_data_single by lia. rewrite Lk, Lv. unfold map_emplace. rewrite M1.
  assert (Lc : u32 (u32 (i + 1) - i) = 1).
  { unfold u32. rewrite (Z.mod_small (i + 1)) by lia.
    replace (i + 1 - i) with 1 by ring. reflexivity. }
  destruct (lookup k (m_map u)) as [[ctrl w]|] eqn:L.
  - specialize (Old _ _ eq_refl).
    replace (c_order ctrl <? o) with true by (symmetry; apply Z.ltb_lt; exact Old).
    eexists. split.
    + destruct (negb (c_order ctrl =? 0)); cbn [snd]; fields;
        exact (lookup_update k _ _ _ L).
    + cbn [c_order load_block load_count]. auto.
  - replace (c_order null_control <? o) with true
      by (symmetry; apply Z.ltb_lt; cbn [null_control c_order]; lia).
    change (negb (c_order null_control =? 0)) with false.
    cbn [snd]. fields. eexists. split.
    + apply (lookup_update k (null_control, T_default)). apply lookup_new. exact L.
    + cbn [c_order load_block load_count]. auto.
Qed.

Lemma blocks_needed_single (buf : list Z) :
  0 < len buf <= data_size -> blocks_needed buf = 1.
Proof.
  intros H. unfold blocks_needed. assert (Ds : data_size = 4032) by reflexivity.
  rewrite Ds in *.
  destruct (Z.eq_dec (len buf) 4032) as [E|E].
  - rewrite E. reflexivity.
  - rewrite Z.div_small by lia. rewrite Z.mod_small by lia.
    replace (len buf =? 0) with false by (symmetry; apply Z.eqb_neq; lia). reflexivity.
Qed.

Lemma dirty_order (k : K) (u : umap) : m_order (dirty k u) = m_order u.
Proof.
  unfold dirty. destruct (lookup k (m_map u)) as [[c v]|]; [|reflexivity].
  destruct (negb (c_order c =? 0)); reflexivity.
Qed.

Lemma write_single (k : K) (u u' : umap) (c0 c : control) (v v' : T) :
  lookup k (m_map u) = Some (c0, v) ->
  0 < len (save k v) <= data_size ->
  write k u = Some u' ->
  lookup k (m_map u') = Some (c, v') -> c_order c <> 0 ->
  v' = v /\ c_order c = u64 (m_order u + 1) /\
  read_block (m_data u') (u32 (new_block c))
  = Some {| order := c_order c; size := len (save k v);
            data := fill_data (save k v) (repeat 0 (Z.to_nat data_size)) 0 1 |}.
Proof.
  intros L0 Hs W L' O. unfold write in W. rewrite L0 in W.
  destruct (dirty_entry k c0 v u L0) as (c1 & L1).
  rewrite (blocks_needed_single _ Hs) in W.
  pose proof (dirty_order k u) as Od.
  set (ud := dirty k u) in *.
  change (m_map (set_order ud (u64 (m_order ud + 1)))) with (m_map ud) in W.
  rewrite L1 in W.
  change (m_order (set_order ud (u64 (m_order ud + 1)))) with (u64 (m_order ud + 1)) in W.
  rewrite Od in W.
  set (ord := u64 (m_order u + 1)) in *.
  set (u2 := set_order ud ord) in *.
  assert (A : exists ctrl u3,
     (if negb (new_count (with_order c1 ord) =? 1)
      then
        match get_free 1 (m_free (free (new_block (with_order c1 ord))
                                    (new_count (with_order c1 ord)) u2)) with
        | Some (pos, fm) =>
            Some (with_new (with_order c1 ord) pos 1,
                  set_free (free (new_block (with_order c1 ord))
                              (new_count (with_order c1 ord)) u2) fm)
        | None => None
        end
      else Some (with_order c1 ord, u2)) = Some (ctrl, u3) /\
     c_order ctrl = ord /\ m_map u3 = m_map ud).
  { destruct (negb (new_count (with_order c1 ord) =? 1)).
    - destruct (get_free 1 _) as [[pos fm]|]; [|discriminate W].
      eexists _, _. split; [reflexivity|]. split; reflexivity.
    - eexists _, _. split; [reflexivity|]. split; reflexivity. }
  destruct A as (ctrl & u3 & EA & Oc & M3).
  rewrite EA in W. clear EA.
  set (u5 := set_map (xor_order (c_order ctrl) (new_block ctrl) u3)
               (update k (ctrl, v) (m_map (xor_order (c_order ctrl) (new_block ctrl) u3))))
    in *.
  assert (L5 : lookup k (m_map u5) = Some (ctrl, v)).
  { unfold u5. fields. rewrite M3. apply (lookup_update k _ _ _ L1). }
  apply (f_equal (fun o => match o with Some x => x | None => u' end)) in W.
  change (Z.to_nat 1) with 1%nat in W. cbn [write_blocks] in W.
  change (0 <? 1) with true in W. change (0 =? 0) with true in W. cbv iota in W.
  rewrite Z.add_0_r in W.
  destruct (write_block (m_data u5) (u32 (new_block ctrl))
              {| order := c_order ctrl; size := len (save k v);
                 data := fill_data (save k v) (repeat 0 (Z.to_nat data_size)) 0 1 |})
    as [ok vw] eqn:Wb.
  destruct ok.
  - subst u'. change (m_map (set_data u5 vw)) with (m_map u5) in L'.
    rewrite L5 in L'.
    assert (Ec : ctrl = c) by congruence. assert (Ev : v = v') by congruence.
    subst c v'. split; [reflexivity|]. split; [exact Oc|].
    change (m_data (set_data u5 vw)) with vw. exact (read_written _ _ _ _ Wb).
  - exfalso. apply O. subst u'. cbv zeta in L'. revert L'. fields.
    rewrite (lookup_update k _ _ _ L5). intros E.
    assert (Ec : with_order (with_new ctrl 0 0) 0 = c) by congruence.
    rewrite <- Ec. reflexivity.
Qed.

(** A record of one block that [write] has stored is the record that the
    block loop of [reload] reads from the file.  [write] is called on the
    entry of key [k], whose record fits one block, and returns; the entry
    keeps a nonzero order, so the block write has not failed.  From the
    file as [write] left it, and whatever else the reloading store holds,
    [reload_block] at the block of the entry materializes the entry with
    the key and the value that were saved, the order [write] gave it, and
    the position of the block, unless the order is later than the last
    flush or the map holds the key with the same or a later order. *)
Theorem written_record_is_reloaded (k : K) (u u' w : umap) (c0 c : control) (v v' : T)
    (cnt : Z) (lh rest : list Z) :
  lookup k (m_map u) = Some (c0, v) ->
  0 < len (save k v) <= data_size ->
  0 <= m_order u < INT64_MAX ->
  write k u = Some u' ->
  lookup k (m_map u') = Some (c, v') -> c_order c <> 0 ->
  u32 (new_block c) <> UINT32_MAX ->
  load_key (save k v) = (k, rest) -> load_value rest = v ->
  m_data w = m_data u' -> c_order c <= m_flush w ->
  (forall c1 v1, lookup k (m_map w) = Some (c1, v1) -> c_order c1 < c_order c) ->
  v' = v /\ c_order c = m_order u + 1 /\
  exists c2,
    lookup k (m_map (snd (reload_block cnt (u32 (new_block c)) lh w))) = Some (c2, v) /\
    c_order c2 = c_order c /\ load_block c2 = u32 (new_block c) /\ load_count c2 = 1.
Proof.
  intros L0 Hs Ho W L' O Hi Lk Lv Dw Hf Old.
  destruct (write_single k u u' c0 c v v' L0 Hs W L' O) as (Ev & Oc & R).
  unfold INT64_MAX in Ho. rewrite u64_small in Oc by lia.
  split; [exact Ev|]. split; [exact Oc|].
  apply (reload_block_record cnt (u32 (new_block c)) (c_order c) lh w k v rest).
  - rewrite Dw. exact R.
  - exact Hs.
  - unfold INT64_MAX. lia.
  - exact Hf.
  - unfold UINT32_MAX in *. unfold u32 in *.
    pose proof (Z.mod_pos_bound (new_block c) (2 ^ 32) ltac:(lia)). lia.
  - exact Lk.
  - exact Lv.
  - exact Old.
Qed.

End Hash.


End Umap.

Arguments m_map {K T} _.
Arguments m_free {K T} _.
Arguments m_data {K T} _.
Arguments m_error {K T} _.
Arguments m_lastf {K T} _.
Arguments m_order {K T} _.
Arguments m_flush {K T} _.
Arguments m_hash {K T} _.

(** The key to value mapping a reader sees. *)
Definition contents {K T} (u : umap K T) : list (K * T) :=
  map (fun e => (fst e, snd (snd e))) (m_map u).

(** *** An instance: [umap<std::string, std::vector<uchar>>]

    Keys and values are byte strings, serialized by [sstl].  The HMAC is
    replaced by a stand-in that maps distinct (order, position) pairs to
    distinct non-zero values. *)
Module bytes_map.

Definition key_eqb (a b : list Z) : bool :=
  if list_eq_dec Z.eq_dec a b then true else false.

Definition save (k v : list Z) : list Z :=
  sstl.save (sstl.VPair (sstl.VBytes k) (sstl.VBytes v)).

Definition load_key (buf : list Z) : list Z * list Z :=
  match sstl.decode sstl.TBytes 0 buf with
  | (sstl.VBytes k, rest) => (k, rest)
  | (_, rest) => ([], rest)
  end.

Definition load_value (rest : list Z) : list Z :=
  match sstl.decode sstl.TBytes 0 rest with
  | (sstl.VBytes v, _) => v
  | _ => []
  end.

Definition toy_hmac (ord pos : Z) : Z := ord * 2 ^ 64 + pos + 1.

Definition state := umap (list Z) (list Z).

Definition fresh : state := ssdb.fresh (list Z) (list Z).

Definition init (vw : view) (u : state) : option state :=
  ssdb.init (list Z) (list Z) key_eqb [] save load_key load_value toy_hmac vw u.

Definition transaction (ops : list (wop (list Z) (list Z))) (flush : bool) (u : state)
    : option state :=
  ssdb.transaction (list Z) (list Z) key_eqb save toy_hmac ops flush u.

Definition add (k v : list Z) : wop (list Z) (list Z) := Add (list Z) (list Z) k v.
Definition assign (k v : list Z) : wop (list Z) (list Z) :=
  Index (list Z) (list Z) k (fun _ => v).

(** Open a store on [vw], run [flush(f)] with the writer calls [ops], stop
    the process and open the file again. *)
Definition flush_and_reopen (vw : view) (ops : list (wop (list Z) (list Z)))
    : option (state * state) :=
  match init vw fresh with
  | None => None
  | Some u0 =>
      match transaction ops true u0 with
      | None => None
      | Some u1 =>
          match init (m_data u1) fresh with
          | None => None
          | Some u2 => Some (u1, u2)
          end
      end
  end.

Definition empty_file : view := {| blocks := []; plan := [] |}.

(** A value of 5000 bytes: its record takes two blocks. *)
Definition long_value : list Z := repeat 7 5000.

(** What a run leaves behind: the map contents, the error bits, the
    terminator index, the number of blocks in the file. *)
Definition observe (u : state) : list (list Z * list Z) * Z * Z * nat :=
  (contents u, m_error u, m_lastf u, length (blocks (m_data u))).

(** C1 at its failing input.  On an empty file, [flush(f)] with
    [add("k", v)] for a 5000-byte [v] completes without error: the map
    holds the entry, the file has three blocks and the terminator is block
    2.  Opening the file again yields an empty map with the salvage bit 32
    (and bit 16) set: the scan does not follow the run of a record longer
    than one block. *)
Theorem reopen_loses_long_record :
  option_map (fun p => (observe (fst p), observe (snd p)))
    (flush_and_reopen empty_file [add [107] long_value])
  = Some (([([107], long_value)], 0, 2, 3%nat), ([], 48, 1, 3%nat)) /\
  Z.land 48 32 = 32.
Proof. split; [vm_compute; reflexivity|reflexivity]. Qed.

(** The same run of calls with values that fit one block is restored
    (scenario S3 of the specification). *)
Lemma reopen_restores_short_records :
  option_map (fun p => (observe (fst p), observe (snd p)))
    (flush_and_reopen empty_file [add [97] [1]; add [98] [2]])
  = Some (([([97], [1]); ([98], [2])], 0, 2, 3%nat),
          ([([97], [1]); ([98], [2])], 0, 2, 3%nat)).
Proof. vm_compute. reflexivity. Qed.

(** C4 at its failing input: [init] on a freshly created, empty container
    returns with [m_lastf] still [-1] and without having written a
    block, because [finalize] returns at once when [m_order <= m_flush]. *)
Theorem init_leaves_no_terminator :
  option_map (fun u => (m_lastf u, blocks (m_data u), m_order u, m_flush u, m_error u))
    (init empty_file fresh)
  = Some (NONE32, [], 0, 0, 0).
Proof. vm_compute. reflexivity. Qed.

(** C9 at its failing input.  On a freshly opened empty container the
    first [write] of a one-block entry whose block write fails aborts the
    entry ([order = 0], bit 64, [m_order] back to 0, hash back to 0), but
    [add_free(0, 1)] meets the interval [(1, 2^32 - 1)] that [get_free]
    left, the merged length wraps to 0 and the index becomes [(0, 0)]:
    block 0 is not free afterwards, and the next allocation throws. *)
Theorem failed_write_loses_free_space :
  let r := match init {| blocks := []; plan := [false] |} fresh with
           | Some u0 => transaction [add [107] [1]] false u0
           | None => None
           end in
  option_map (fun u => (m_free u, m_error u, m_order u, m_hash u,
                        map (fun e => (fst e, fst (snd e))) (m_map u))) r
  = Some ([(0, 0)], 64, 0, 0, [([107], null_control)]) /\
  ~ free_space.is_free [(0, 0)] 0 /\
  match r with
  | Some u1 => transaction [add [108] [1]] false u1
  | None => None
  end = None.
Proof.
  cbv zeta. split; [vm_compute; reflexivity|].
  split; [apply free_space.is_free_dummy|vm_compute; reflexivity].
Qed.

(** C7 at its failing input.  On a freshly created container the first
    [flush(f)] with [add("k", {1})] leaves the free-space index
    [(2, 2^32 - 2); (UINT32_MAX, 0)]: blocks 0 and 1 hold the record and
    the terminator, and the release of the "none" terminator index has
    stored an empty entry at [UINT32_MAX].  [get_free(2^32 - 3)] on this
    index returns block 2, the start of the only sufficient interval, but
    the remainder [(UINT32_MAX, 1)] is not stored, because [emplace] finds
    the key present: block [UINT32_MAX], which was free and is not one of
    the [2^32 - 3] blocks at the front of the interval, is not free
    afterwards. *)
Theorem get_free_drops_remainder :
  let m := [(2, 2 ^ 32 - 2); (UINT32_MAX, 0)] in
  option_map (fun u => m_free u)
    (match init empty_file fresh with
     | Some u0 => transaction [add [107] [1]] true u0
     | None => None
     end) = Some m /\
  free_space.get_free (2 ^ 32 - 3) m = Some (2, [(UINT32_MAX, 0)]) /\
  free_space.is_free m UINT32_MAX /\
  ~ (2 <= UINT32_MAX < 2 + (2 ^ 32 - 3)) /\
  ~ free_space.is_free [(UINT32_MAX, 0)] UINT32_MAX.
Proof.
  cbv zeta. split; [vm_compute; reflexivity|].
  split; [vm_compute; reflexivity|]. split; [|split].
  - exists 2, (2 ^ 32 - 2). split; [left; reflexivity|unfold UINT32_MAX; lia].
  - unfold UINT32_MAX. lia.
  - intros (f & s & [E|[]] & H). inversion E; subst. lia.
Qed.


(** A file holding one record of 5000 bytes that was never committed:
    its head block and its continuation block, no terminator. *)
Definition two_block_record : view :=
  {| blocks := [Some {| order := 1; size := 5000; data := repeat 7 4032 |};
                Some {| order := 1; size := CONT; data := repeat 7 4032 |}];
     plan := [] |}.

Lemma two_block_record_read (i : Z) (hd : block_layout) :
  read_block two_block_record i = Some hd -> size hd = 5000 \/ size hd = CONT.
Proof.
  unfold read_block. change (count two_block_record) with 2.
  destruct (i <? 0) eqn:A; [discriminate|]. destruct (i >=? 2) eqn:B; [discriminate|].
  apply Z.ltb_ge in A. rewrite Z.geb_leb in B. apply Z.leb_gt in B.
  cbn [orb]. intros R.
  assert (C : i = 0 \/ i = 1) by lia.
  destruct C; subst i; cbn in R; inversion R; subst; cbn [size]; auto.
Qed.

(** Witness for [long_record_dropped]: the head block of the record. *)
Lemma long_record_dropped_witness :
  let u := set_data _ _ fresh two_block_record in
  exists i' lh' u',
    reload_block (list Z) (list Z) key_eqb [] load_key load_value toy_hmac
      2 0 (repeat 0 64%nat) (set_flush _ _ u FLUSH_FIRST) = (i', lh', u') /\
    m_map u' = [] /\ m_hash u' = 0 /\ Z.testbit (m_error u') 4 = true.
Proof.
  cbv zeta.
  destruct (long_record_dropped (list Z) (list Z) key_eqb [] load_key load_value toy_hmac
              2 0 (repeat 0 64%nat)
              (set_flush _ _ (set_data _ _ fresh two_block_record) FLUSH_FIRST)
              {| order := 1; size := 5000; data := repeat 7 4032 |})
    as (i' & lh' & u' & E & M & H & B).
  - reflexivity.
  - reflexivity.
  - exists i', lh', u'. split; [exact E|]. split; [exact M|]. split; [exact H|].
    apply B; [reflexivity|reflexivity|vm_compute; discriminate].
Defined.

(** Witness for [init_without_terminator]: opening that file. *)
Lemma init_without_terminator_witness :
  exists u', init two_block_record fresh = Some u' /\
             m_lastf u' = NONE32 /\ m_data u' = two_block_record.
Proof.
  apply (init_without_terminator (list Z) (list Z) key_eqb [] save load_key load_value
           toy_hmac two_block_record).
  intros i hd R. destruct (two_block_record_read i hd R) as [E|E]; rewrite E; discriminate.
Defined.


(** A file whose only block is a terminator carrying a hash that matches
    nothing: all three passes run. *)
Definition forged_terminator : view :=
  {| blocks := [Some {| order := 1; size := 0; data := repeat 1 4032 |}]; plan := [] |}.

(** Witness for [reload_three_passes]. *)
Lemma reload_three_passes_witness :
  exists u',
    reload (list Z) (list Z) key_eqb [] load_key load_value toy_hmac 3
      (set_flush _ _ (set_data _ _ fresh forged_terminator) FLUSH_FIRST) = Some u' /\
    0 <= m_order u' <= INT64_MAX /\
    (m_flush u' = m_order u' \/ (m_flush u' = 0 /\ Z.testbit (m_error u') 5 = true)).
Proof.
  apply reload_three_passes. reflexivity.
Defined.

(** The store opened on an empty file, after [writer.add("k", [1])]. *)
Definition added : state :=
  match init empty_file fresh with
  | Some u0 => fst (apply_wop (list Z) (list Z) key_eqb toy_hmac (add [107] [1]) (u0, false))
  | None => fresh
  end.

(** The same store after [write] on the entry of "k". *)
Definition written : state :=
  match write (list Z) (list Z) key_eqb save toy_hmac [107] added with
  | Some u => u
  | None => added
  end.

Definition written_entry : control :=
  match lookup (list Z) (list Z) key_eqb [107] (m_map written) with
  | Some (c, _) => c
  | None => null_control
  end.

(** Another store on the file that [write] left, about to reload it. *)
Definition reopened : state :=
  set_flush _ _ (set_data _ _ fresh (m_data written)) FLUSH_FIRST.

(** Witness for [written_record_is_reloaded]. *)
Lemma written_record_is_reloaded_witness :
  [1] = [1] /\ c_order written_entry = m_order added + 1 /\
  exists c2,
    lookup (list Z) (list Z) key_eqb [107]
      (m_map (snd (reload_block (list Z) (list Z) key_eqb [] load_key load_value toy_hmac
                     1 (u32 (new_block written_entry)) (repeat 0 64%nat) reopened)))
    = Some (c2, [1]) /\
    c_order c2 = c_order written_entry /\
    load_block c2 = u32 (new_block written_entry) /\ load_count c2 = 1.
Proof.
  apply (written_record_is_reloaded (list Z) (list Z) key_eqb [] save load_key load_value
           toy_hmac) with (u := added) (u' := written) (c0 := null_control)
                          (rest := snd (load_key (save [107] [1]))).
  - intros a. unfold key_eqb. destruct (list_eq_dec Z.eq_dec a a); [reflexivity|contradiction].
  - vm_compute. reflexivity.
  - vm_compute. split; [reflexivity|discriminate].
  - vm_compute. split; [discriminate|reflexivity].
  - vm_compute. reflexivity.
  - vm_compute. reflexivity.
  - vm_compute. discriminate.
  - vm_compute. discriminate.
  - vm_compute. reflexivity.
  - vm_compute. reflexivity.
  - reflexivity.
  - vm_compute. discriminate.
  - intros c w L. vm_compute in L. discriminate L.
Defined.

End bytes_map.


(** *** An instance with one-block records: [umap<bool, bool>] *)
Module flag_map.

Definition save (k v : bool) : list Z :=
  sstl.save (sstl.VPair (sstl.VBool k) (sstl.VBool v)).

Definition load_key (buf : list Z) : bool * list Z :=
  match sstl.decode sstl.TBool 0 buf with
  | (sstl.VBool k, rest) => (k, rest)
  | (_, rest) => (false, rest)
  end.

Definition load_value (rest : list Z) : bool :=
  match sstl.decode sstl.TBool 0 rest with
  | (sstl.VBool v, _) => v
  | _ => false
  end.

Definition state := umap bool bool.

Definition init (vw : view) (u : state) : option state :=
  ssdb.init bool bool Bool.eqb false save load_key load_value bytes_map.toy_hmac vw u.

Definition transaction (ops : list (wop bool bool)) (flush : bool) (u : state)
    : option state :=
  ssdb.transaction bool bool Bool.eqb save bytes_map.toy_hmac ops flush u.

Lemma save_fits (k v : bool) : blocks_needed (save k v) <> 0.
Proof. destruct k, v; vm_compute; discriminate. Qed.

(** Witness for [terminator_holds_combined_hash]: the first [flush(f)]
    on an empty container, adding one entry. *)
Lemma terminator_holds_combined_hash_witness :
  exists u u' : state,
    init bytes_map.empty_file (fresh bool bool) = Some u /\
    transaction [Add bool bool true false] true u = Some u' /\
    m_hash u' = live_xor bool bool bytes_map.toy_hmac (m_map u') /\
    exists term,
      read_block (m_data u') (m_lastf u') = Some term /\
      order term = m_order u' /\ size term = 0 /\
      firstn 64 (data term) = be_bytes 64 (m_hash u').
Proof.
  eexists. eexists. split; [vm_compute; reflexivity|].
  split; [vm_compute; reflexivity|].
  eapply (terminator_holds_combined_hash bool bool Bool.eqb false save load_key load_value
           bytes_map.toy_hmac (fun a b => proj1 (Bool.eqb_true_iff a b)) save_fits
           Bool.eqb_reflx [Add bool bool true false]).
  - apply (reach_init bool bool Bool.eqb false save load_key load_value bytes_map.toy_hmac
             bytes_map.empty_file (fresh bool bool)).
    vm_compute. reflexivity.
  - vm_compute. reflexivity.
  - vm_compute. reflexivity.
  - vm_compute. discriminate.
Defined.

Lemma eqb_eq (a b : bool) : Bool.eqb a b = true -> a = b.
Proof. destruct a, b; auto; discriminate. Qed.

(** An entry added to a new container, written but not yet flushed, and
    the same map after [flush()]. *)
Definition unflushed : state :=
  Eval vm_compute in
    match init bytes_map.empty_file (fresh bool bool) with
    | Some u0 =>
        match transaction [Add bool bool true false] false u0 with
        | Some u => u
        | None => u0
        end
    | None => fresh bool bool
    end.

Definition flushed : state :=
  Eval vm_compute in
    match ssdb.finalize bool bool Bool.eqb save bytes_map.toy_hmac unflushed with
    | Some u => u
    | None => unflushed
    end.

(** Witness for [finalize_twice]: [flush()] is called twice on the map
    with the unflushed entry. *)
Lemma finalize_twice_witness :
  ssdb.finalize bool bool Bool.eqb save bytes_map.toy_hmac unflushed = Some flushed /\
  m_flush flushed <> m_flush unflushed /\
  ssdb.finalize bool bool Bool.eqb save bytes_map.toy_hmac flushed = Some flushed.
Proof.
  assert (F : ssdb.finalize bool bool Bool.eqb save bytes_map.toy_hmac unflushed
              = Some flushed) by (vm_compute; reflexivity).
  assert (N : m_flush flushed <> m_flush unflushed) by (vm_compute; discriminate).
  split; [exact F|]. split; [exact N|].
  exact (finalize_twice bool bool Bool.eqb save bytes_map.toy_hmac unflushed flushed F N).
Defined.

(** Two insertions, an assignment and an insertion that finds its key,
    flushed to a new container. *)
Definition toggles : list (wop bool bool) :=
  [Add bool bool true false; Add bool bool false false;
   Index bool bool true negb; Add bool bool false true].

(** The map opened on a new container. *)
Definition opened : state :=
  Eval vm_compute in
    match init bytes_map.empty_file (fresh bool bool) with
    | Some u0 => u0
    | None => fresh bool bool
    end.

Definition toggled : state :=
  Eval vm_compute in
    match transaction toggles true opened with
    | Some u => u
    | None => opened
    end.

(** Witness for [transaction_is_map_update]. *)
Lemma transaction_is_map_update_witness :
  init bytes_map.empty_file (fresh bool bool) = Some opened /\
  transaction toggles true opened = Some toggled /\
  reader_get bool bool Bool.eqb true toggled = Some true /\
  reader_get bool bool Bool.eqb false toggled = Some false.
Proof.
  assert (X : ssdb.transaction bool bool Bool.eqb save bytes_map.toy_hmac toggles true opened
              = Some toggled) by (vm_compute; reflexivity).
  split; [vm_compute; reflexivity|]. split; [unfold transaction; exact X|].
  pose proof (transaction_is_map_update bool bool Bool.eqb save bytes_map.toy_hmac
                eqb_eq Bool.eqb_reflx toggles true opened toggled X) as G.
  split; [rewrite (G true)|rewrite (G false)]; reflexivity.
Defined.

End flag_map.


End ssdb.

(** ** [to::pubkey]: text forms of a public key (to_pubkey.cpp)

    Characters are their codes. *)

Module palette_text.
Import Ascii String.

Definition codes (s : string) : list Z :=
  map (fun a => Z.of_N (N_of_ascii a)) (list_ascii_of_string s).

(** Base57 uses: numbers, latin uppercase without 'B', 'D', 'I', 'O',
    latin lowercase without 'l' *)
Definition s_base57_palette : list Z :=
  Eval vm_compute in codes "0123456789ACEFGHJKLMNPQRSTUVWXYZabcdefghijkmnopqrstuvwxyz".

Definition s_hex_palette : list Z := Eval vm_compute in codes "0123456789abcdef".

End palette_text.

Module pubkey.

Definition s_base57_palette : list Z := palette_text.s_base57_palette.
Definition s_hex_palette : list Z := palette_text.s_hex_palette.

(** [base57_lookup<Ch, Pos>::value] *)
Fixpoint base57_lookup (ch : Z) (pal : list Z) (pos : Z) : Z :=
  match pal with
  | [] => 57
  | c :: r => if c =? ch then pos else base57_lookup ch r (pos + 1)
  end.

(** [base57_lut[ch]] for an [uchar] *)
Definition base57_lut (ch : Z) : Z := base57_lookup ch s_base57_palette 0.

(** [hex()] (lines 44-60) *)
Definition hex (m_key : list Z) : list Z :=
  flat_map (fun value => [nth (Z.to_nat (Z.shiftr value 4)) s_hex_palette 0;
                          nth (Z.to_nat (Z.land value 15)) s_hex_palette 0]) m_key.

(** The inner loop of [base57()]: the [n] characters of [value], the
    least significant last. *)
Fixpoint digits57 (n : nat) (value : Z) : list Z :=
  match n with
  | O => []
  | S k => digits57 k (value / 57) ++ [nth (Z.to_nat (value mod 57)) s_base57_palette 0]
  end.

(** The key in blocks of 8 bytes: [for (i = 0; i < sizeof(m_key); i += 8)]. *)
Fixpoint blocks_of (n : nat) (width : nat) (l : list Z) : list (list Z) :=
  match n with
  | O => []
  | S k => firstn width l :: blocks_of k width (skipn width l)
  end.

(** [base57() const] (lines 62-83) *)
Definition base57 (m_key : list Z) : list Z :=
  flat_map (fun block => digits57 11 (be_value block)) (blocks_of 4 8 m_key).

(** The character [ptr[i]] of a C string: the terminator behind its end. *)
Definition char_at (ptr : list Z) (i : nat) : Z := nth i ptr 0.

(** The inner loop of [base57(ptr)]: [value *= 57; value += lut[...]] in
    64 bits. *)
Definition value57 (chars : list Z) : Z :=
  fold_left (fun value ch => u64 (u64 (value * 57) + base57_lut ch)) chars 0.

(** [base57(const char* ptr)] (lines 85-113): [None] when it returns
    [false], else the key it stores. *)
Definition base57_parse (ptr : list Z) : option (list Z) :=
  (* Validate characters *)
  if forallb (fun i => base57_lut (char_at ptr i) <? 57) (seq 0 44)
  then Some (flat_map (fun p => be_bytes 8 (value57 (map (char_at ptr) (seq p 11))))
                      [0; 11; 22; 33]%nat)
  else None.

(** *** Reading back the Base57 form *)

Definition byte_list (l : list Z) : Prop := Forall (fun b => 0 <= b < 256) l.

Lemma le_value_bound (l : list Z) :
  byte_list l -> 0 <= le_value l < 256 ^ Z.of_nat (length l).
Proof.
  induction 1 as [|b r Hb _ IH]; cbn [le_value length].
  - cbn. lia.
  - rewrite Nat2Z.inj_succ, Z.pow_succ_r by lia. lia.
Qed.

Lemma le_bytes_value (l : list Z) :
  byte_list l -> le_bytes (length l) (le_value l) = l.
Proof.
  induction 1 as [|b r Hb _ IH]; cbn [le_value length le_bytes]; [reflexivity|].
  replace (b + 256 * le_value r) with (b + le_value r * 256) by ring.
  rewrite Z.mod_add, Z.div_add, Z.mod_small, Z.div_small, Z.add_0_l, IH by lia.
  reflexivity.
Qed.

Lemma be_bytes_value (l : list Z) :
  byte_list l -> be_bytes (length l) (be_value l) = l.
Proof.
  intros B. unfold be_bytes, be_value.
  rewrite <- (length_rev l), le_bytes_value, rev_involutive; [reflexivity|].
  apply Forall_rev. exact B.
Qed.

Lemma be_value_bound (l : list Z) :
  byte_list l -> 0 <= be_value l < 256 ^ Z.of_nat (length l).
Proof.
  intros B. unfold be_value. rewrite <- (length_rev l).
  apply le_value_bound, Forall_rev, B.
Qed.

(** Every character of the palette is looked up as its position. *)
Lemma lut_palette (d : Z) :
  0 <= d < 57 -> base57_lut (nth (Z.to_nat d) s_base57_palette 0) = d.
Proof.
  intros H.
  assert (T : forallb (fun n => base57_lut (nth n s_base57_palette 0) =? Z.of_nat n)
                (seq 0 57) = true) by (vm_compute; reflexivity).
  rewrite forallb_forall in T.
  specialize (T (Z.to_nat d)). rewrite Z2Nat.id in T by lia.
  apply Z.eqb_eq, T, in_seq. lia.
Qed.

Lemma digits57_length (n : nat) : forall value, length (digits57 n value) = n.
Proof.
  induction n as [|k IH]; intros value; cbn [digits57]; [reflexivity|].
  rewrite length_app, IH. cbn [length]. lia.
Qed.

Lemma digits57_valid (n : nat) :
  forall value, 0 <= value ->
    Forall (fun ch => 0 <= base57_lut ch < 57) (digits57 n value).
Proof.
  induction n as [|k IH]; intros value H; cbn [digits57]; [constructor|].
  apply Forall_app. split.
  - apply IH. apply Z.div_pos; lia.
  - constructor; [|constructor].
    pose proof (Z.mod_pos_bound value 57 eq_refl). rewrite lut_palette; lia.
Qed.

Lemma value57_snoc (chars : list Z) (ch : Z) :
  value57 (chars ++ [ch]) = u64 (u64 (value57 chars * 57) + base57_lut ch).
Proof. unfold value57. rewrite fold_left_app. reflexivity. Qed.

Lemma value57_digits (n : nat) :
  forall value, 0 <= value < 2 ^ 64 -> value < 57 ^ Z.of_nat n ->
    value57 (digits57 n value) = value.
Proof.
  induction n as [|k IH]; intros value B P.
  - cbn in P. cbn. lia.
  - cbn [digits57]. rewrite value57_snoc.
    rewrite Nat2Z.inj_succ, Z.pow_succ_r in P by lia.
    pose proof (Z.mod_pos_bound value 57 eq_refl) as M.
    pose proof (Z.div_mod value 57 ltac:(lia)) as D.
    assert (Q : 0 <= value / 57) by (apply Z.div_pos; lia).
    rewrite IH by (try apply Z.div_lt_upper_bound; lia).
    rewrite lut_palette by lia.
    unfold u64. rewrite (Z.mod_small (value / 57 * 57)) by lia.
    rewrite Z.mod_small by lia. lia.
Qed.

Lemma chars_at (pre a rest : list Z) :
  map (char_at (pre ++ a ++ rest)) (seq (length pre) (length a)) = a.
Proof.
  revert pre. induction a as [|x a IH]; intros pre; cbn [length seq map]; [reflexivity|].
  f_equal.
  - unfold char_at. rewrite app_nth2, Nat.sub_diag by lia. reflexivity.
  - replace (pre ++ (x :: a) ++ rest) with ((pre ++ [x]) ++ a ++ rest)
      by (rewrite <- app_assoc; reflexivity).
    replace (S (length pre)) with (length (pre ++ [x]))
      by (rewrite length_app; cbn [length]; lia).
    apply IH.
Qed.

Lemma valid_chars (s : list Z) (n : nat) :
  length s = n -> Forall (fun ch => 0 <= base57_lut ch < 57) s ->
  forallb (fun i => base57_lut (char_at s i) <? 57) (seq 0 n) = true.
Proof.
  intros L F. apply forallb_forall. intros i Hi. apply in_seq in Hi.
  apply Z.ltb_lt. rewrite Forall_forall in F.
  apply F. unfold char_at. apply nth_In. lia.
Qed.

(** A block of 8 bytes comes back from its 11 characters. *)
Lemma block_round_trip (block : list Z) :
  byte_list block -> length block = 8%nat ->
  be_bytes 8 (value57 (digits57 11 (be_value block))) = block.
Proof.
  intros B L. pose proof (be_value_bound block B) as V. rewrite L in V.
  change (256 ^ Z.of_nat 8) with (2 ^ 64) in V.
  rewrite value57_digits by (try exact V; change (57 ^ Z.of_nat 11) with 20635899893042801193;
                             lia).
  rewrite <- L at 1. apply be_bytes_value, B.
Qed.

Lemma key_blocks (key : list Z) :
  length key = 32%nat ->
  exists b0 b1 b2 b3,
    key = b0 ++ b1 ++ b2 ++ b3 /\ blocks_of 4 8 key = [b0; b1; b2; b3] /\
    length b0 = 8%nat /\ length b1 = 8%nat /\ length b2 = 8%nat /\ length b3 = 8%nat.
Proof.
  intros L.
  exists (firstn 8 key), (firstn 8 (skipn 8 key)), (firstn 8 (skipn 8 (skipn 8 key))),
    (firstn 8 (skipn 8 (skipn 8 (skipn 8 key)))).
  split; [|split; [reflexivity|]].
  - rewrite <- (firstn_skipn 8 key) at 1. f_equal.
    rewrite <- (firstn_skipn 8 (skipn 8 key)) at 1. f_equal.
    rewrite <- (firstn_skipn 8 (skipn 8 (skipn 8 key))) at 1. f_equal.
    symmetry. apply firstn_all2. rewrite !length_skipn. lia.
  - rewrite !length_firstn, !length_skipn. lia.
Qed.

(** [base57(ptr)] applied to the text [base57()] gives for a key accepts
    it and stores that key. *)
Theorem base57_round_trip (key : list Z) :
  byte_list key -> length key = 32%nat ->
  base57_parse (base57 key) = Some key.
Proof.
  intros B L.
  destruct (key_blocks key L) as (b0 & b1 & b2 & b3 & E & Bl & L0 & L1 & L2 & L3).
  assert (B0 : byte_list b0 /\ byte_list b1 /\ byte_list b2 /\ byte_list b3).
  { unfold byte_list in *. rewrite E in B.
    apply Forall_app in B. destruct B as [B0 B].
    apply Forall_app in B. destruct B as [B1 B].
    apply Forall_app in B. tauto. }
  destruct B0 as (B0 & B1 & B2 & B3).
  unfold base57. rewrite Bl. cbn [flat_map]. rewrite app_nil_r.
  assert (V : forall b, byte_list b -> 0 <= be_value b)
    by (intros b Hb; apply be_value_bound, Hb).
  assert (R : forall b, byte_list b -> length b = 8%nat ->
            exists d, digits57 11 (be_value b) = d /\ length d = 11%nat /\
              Forall (fun ch => 0 <= base57_lut ch < 57) d /\
              be_bytes 8 (value57 d) = b).
  { intros b Hb Lb. eexists. split; [reflexivity|]. split; [apply digits57_length|].
    split; [apply digits57_valid, V, Hb|apply block_round_trip; assumption]. }
  destruct (R b0 B0 L0) as (d0 & -> & Ld0 & F0 & R0).
  destruct (R b1 B1 L1) as (d1 & -> & Ld1 & F1 & R1).
  destruct (R b2 B2 L2) as (d2 & -> & Ld2 & F2 & R2).
  destruct (R b3 B3 L3) as (d3 & -> & Ld3 & F3 & R3).
  clear R V.
  unfold base57_parse. rewrite (valid_chars _ 44).
  - cbn [flat_map]. rewrite app_nil_r.
    pose proof (chars_at [] d0 (d1 ++ d2 ++ d3)) as C0.
    pose proof (chars_at d0 d1 (d2 ++ d3)) as C1.
    pose proof (chars_at (d0 ++ d1) d2 d3) as C2.
    pose proof (chars_at (d0 ++ d1 ++ d2) d3 []) as C3.
    rewrite Ld0 in C0. rewrite Ld0, Ld1 in C1.
    rewrite length_app, Ld0, Ld1, Ld2 in C2.
    rewrite !length_app, Ld0, Ld1, Ld2, Ld3 in C3.
    cbn [length Nat.add app] in C0, C2, C3.
    rewrite app_nil_r in C3. rewrite <- app_assoc in C2.
    repeat rewrite <- app_assoc in C3.
    rewrite C0, C1, C2, C3, R0, R1, R2, R3, E. reflexivity.
  - rewrite !length_app, Ld0, Ld1, Ld2, Ld3. reflexivity.
  - repeat (apply Forall_app; split); assumption.
Qed.

(** Witness for [base57_round_trip]: the key with bytes 0, 8, 16, ... *)
Lemma base57_round_trip_witness :
  base57_parse (base57 (map (fun n => Z.of_nat (8 * n)) (seq 0 32)))
  = Some (map (fun n => Z.of_nat (8 * n)) (seq 0 32)).
Proof.
  apply base57_round_trip.
  - unfold byte_list. apply Forall_forall. intros b Hb. apply in_map_iff in Hb.
    destruct Hb as (n & E & Hn). apply in_seq in Hn. lia.
  - reflexivity.
Defined.

(** *** What [base57(ptr)] accepts *)

Lemma lookup_found (ch : Z) (pal : list Z) :
  forall pos, base57_lookup ch pal pos <> 57 -> In ch pal.
Proof.
  induction pal as [|c r IH]; intros pos H; cbn [base57_lookup] in H; [contradiction|].
  destruct (c =? ch) eqn:Q; [left; apply Z.eqb_eq, Q|right; exact (IH _ H)].
Qed.

Lemma lut_valid (ch : Z) : base57_lut ch < 57 <-> In ch s_base57_palette.
Proof.
  split.
  - intros H. apply (lookup_found ch _ 0). unfold base57_lut in H. lia.
  - intros H. destruct (In_nth _ _ 0 H) as (n & Ln & E). rewrite <- E.
    change (length s_base57_palette) with 57%nat in Ln.
    pose proof (lut_palette (Z.of_nat n) ltac:(lia)) as P.
    rewrite Nat2Z.id in P. lia.
Qed.

Lemma lut_nonneg (ch : Z) : 0 <= base57_lut ch.
Proof.
  unfold base57_lut.
  assert (G : forall pal pos, 0 <= pos -> 0 <= base57_lookup ch pal pos).
  { induction pal as [|c r IH]; intros pos Hp; cbn [base57_lookup]; [lia|].
    destruct (c =? ch); [exact Hp|apply IH; lia]. }
  apply G. lia.
Qed.

(** [base57(ptr)] returns [true] exactly for the texts whose first 44
    characters are characters of the palette; a shorter text is refused at
    its terminator. *)
Theorem base57_parse_accepts (ptr : list Z) :
  ((exists key, base57_parse ptr = Some key) <->
   (forall i, (i < 44)%nat -> In (char_at ptr i) s_base57_palette)) /\
  ((length ptr < 44)%nat -> base57_parse ptr = None).
Proof.
  assert (A : forallb (fun i => base57_lut (char_at ptr i) <? 57) (seq 0 44) = true <->
              (forall i, (i < 44)%nat -> In (char_at ptr i) s_base57_palette)).
  { rewrite forallb_forall. split.
    - intros H i Hi. apply lut_valid, Z.ltb_lt, H, in_seq. lia.
    - intros H i Hi. apply in_seq in Hi. apply Z.ltb_lt, lut_valid, H. lia. }
  unfold base57_parse.
  destruct (forallb (fun i => base57_lut (char_at ptr i) <? 57) (seq 0 44)) eqn:F.
  - split.
    + split; [intros _; apply A; reflexivity|intros _; eexists; reflexivity].
    + intros L. exfalso. pose proof (proj1 A eq_refl (length ptr) L) as I.
      unfold char_at in I. rewrite nth_overflow in I by lia.
      vm_compute in I. intuition discriminate.
  - split; [|reflexivity]. split.
    + intros (key & E). discriminate E.
    + intros H. apply A in H. discriminate H.
Qed.

(** The value of a group of characters without the 64-bit wrap. *)
Definition exact57 (chars : list Z) : Z :=
  fold_left (fun value ch => value * 57 + base57_lut ch) chars 0.

Lemma value57_exact (chars : list Z) : value57 chars = u64 (exact57 chars).
Proof.
  unfold value57, exact57.
  assert (G : forall a b, a = u64 b ->
            fold_left (fun value ch => u64 (u64 (value * 57) + base57_lut ch)) chars a
            = u64 (fold_left (fun value ch => value * 57 + base57_lut ch) chars b)).
  { induction chars as [|c r IH]; intros a b E; cbn [fold_left]; [exact E|].
    apply IH. subst a. unfold u64.
    rewrite Zplus_mod_idemp_l.
    rewrite <- (Zplus_mod_idemp_l (b mod 2 ^ 64 * 57)), Zmult_mod_idemp_l.
    rewrite Zplus_mod_idemp_l. reflexivity. }
  apply G. reflexivity.
Qed.

Lemma exact57_digits (n : nat) :
  forall value, 0 <= value < 57 ^ Z.of_nat n -> exact57 (digits57 n value) = value.
Proof.
  induction n as [|k IH]; intros value P.
  - cbn in P. cbn. lia.
  - cbn [digits57]. unfold exact57. rewrite fold_left_app. cbn [fold_left].
    fold (exact57 (digits57 k (value / 57))).
    rewrite Nat2Z.inj_succ, Z.pow_succ_r in P by lia.
    pose proof (Z.mod_pos_bound value 57 eq_refl) as M.
    pose proof (Z.div_mod value 57 ltac:(lia)) as D.
    assert (Q : 0 <= value / 57) by (apply Z.div_pos; lia).
    rewrite IH by (split; [exact Q|apply Z.div_lt_upper_bound; lia]).
    rewrite lut_palette by lia. lia.
Qed.

(** The text form of a key is not unique: a group of 11 characters may
    stand for a value of [2^64] or more (up to [57^11 - 1]), [base57(ptr)]
    accepts it and stores the value modulo [2^64], the same bytes as for the
    group of the reduced value. *)
Theorem base57_parse_wraps (value : Z) (rest : list Z) :
  2 ^ 64 <= value < 57 ^ 11 ->
  length rest = 33%nat -> Forall (fun ch => In ch s_base57_palette) rest ->
  digits57 11 value <> digits57 11 (value - 2 ^ 64) /\
  exists key,
    base57_parse (digits57 11 value ++ rest) = Some key /\
    base57_parse (digits57 11 (value - 2 ^ 64) ++ rest) = Some key.
Proof.
  intros V L F.
  assert (P : 57 ^ 11 = 20635899893042801193) by reflexivity.
  assert (P' : 57 ^ Z.of_nat 11 = 20635899893042801193) by reflexivity.
  split.
  - intros E. apply (f_equal exact57) in E.
    rewrite !exact57_digits in E by lia. lia.
  - assert (Val : forall v, 0 <= v ->
              forallb (fun i => base57_lut (char_at (digits57 11 v ++ rest) i) <? 57)
                (seq 0 44) = true).
    { intros v Hv. apply valid_chars.
      - rewrite length_app, digits57_length, L. reflexivity.
      - apply Forall_app. split; [apply digits57_valid, Hv|].
        eapply Forall_impl; [|exact F]. intros ch I.
        apply lut_valid in I. split; [apply lut_nonneg|exact I]. }
    assert (Blk : forall v, map (char_at (digits57 11 v ++ rest)) (seq 0 11)
                            = digits57 11 v).
    { intros v. pose proof (chars_at [] (digits57 11 v) rest) as C.
      rewrite digits57_length in C. exact C. }
    assert (Oth : forall v p, (11 <= p)%nat ->
              map (char_at (digits57 11 v ++ rest)) (seq p 11)
              = map (char_at (repeat 0 11 ++ rest)) (seq p 11)).
    { intros v p Hp. apply map_ext_in. intros i Hi. apply in_seq in Hi.
      unfold char_at. rewrite !app_nth2 by (rewrite ?digits57_length, ?repeat_length; lia).
      rewrite digits57_length, repeat_length. reflexivity. }
    unfold base57_parse. rewrite !Val by lia. eexists. split; [reflexivity|].
    cbn [flat_map]. rewrite !Blk, !value57_exact, !exact57_digits by lia.
    rewrite !(Oth value), !(Oth (value - 2 ^ 64)) by lia.
    do 3 f_equal. unfold u64.
    replace value with (value - 2 ^ 64 + 1 * 2 ^ 64) at 2 by ring.
    rewrite Z.mod_add by lia. reflexivity.
Qed.

(** Witness for [base57_parse_wraps]: the group of the value [2^64]
    against the group "00000000000", followed by 33 characters '0'. *)
Lemma base57_parse_wraps_witness :
  digits57 11 (2 ^ 64) <> digits57 11 (2 ^ 64 - 2 ^ 64) /\
  exists key,
    base57_parse (digits57 11 (2 ^ 64) ++ repeat 48 33) = Some key /\
    base57_parse (digits57 11 (2 ^ 64 - 2 ^ 64) ++ repeat 48 33) = Some key.
Proof.
  apply base57_parse_wraps.
  - split; [lia|reflexivity].
  - apply repeat_length.
  - apply Forall_forall. intros ch I. apply repeat_spec in I. subst ch. left. reflexivity.
Defined.

(** *** The hexadecimal form *)

Lemma hex_digit_inj (a b : Z) :
  0 <= a < 16 -> 0 <= b < 16 ->
  nth (Z.to_nat a) s_hex_palette 0 = nth (Z.to_nat b) s_hex_palette 0 -> a = b.
Proof.
  intros Ha Hb E.
  assert (D : NoDup s_hex_palette).
  { vm_compute. repeat (constructor; [cbn; intuition discriminate|]). constructor. }
  rewrite NoDup_nth in D.
  assert (Z.to_nat a = Z.to_nat b).
  { apply D; [change (length s_hex_palette) with 16%nat; lia..|exact E]. }
  lia.
Qed.

(** [hex()] gives two characters for each byte, and different keys have
    different hexadecimal forms. *)
Theorem hex_injective (k1 k2 : list Z) :
  byte_list k1 -> byte_list k2 ->
  length (hex k1) = (2 * length k1)%nat /\
  (hex k1 = hex k2 -> k1 = k2).
Proof.
  intros B1. split.
  - clear. induction k1 as [|b r IH]; [reflexivity|].
    cbn [hex flat_map app length] in *. unfold hex in IH. rewrite IH. lia.
  - revert k2 H. induction B1 as [|b r Hb _ IH]; intros k2 B2 E.
    + destruct k2; [reflexivity|discriminate E].
    + destruct B2 as [|b' r' Hb' B2]; [discriminate E|].
      cbn [hex flat_map app] in E. inversion E as [[E1 E2 E3]].
      assert (S4 : forall x, 0 <= x < 256 -> 0 <= Z.shiftr x 4 < 16).
      { intros x Hx. rewrite Z.shiftr_div_pow2 by lia. change (2 ^ 4) with 16.
        split; [apply Z.div_pos; lia|apply Z.div_lt_upper_bound; lia]. }
      assert (L4 : forall x, 0 <= x < 256 -> 0 <= Z.land x 15 < 16).
      { intros x Hx. change 15 with (Z.ones 4). rewrite Z.land_ones by lia.
        apply Z.mod_pos_bound. lia. }
      apply hex_digit_inj in E1; [|apply S4; assumption..].
      apply hex_digit_inj in E2; [|apply L4; assumption..].
      f_equal.
      * rewrite !Z.shiftr_div_pow2 in E1 by lia. change (2 ^ 4) with 16 in E1.
        change 15 with (Z.ones 4) in E2. rewrite !Z.land_ones in E2 by lia.
        change (2 ^ 4) with 16 in E2.
        rewrite (Z.div_mod b 16), (Z.div_mod b' 16) by lia. congruence.
      * apply IH; [exact B2|exact E3].
Qed.

(** Witness for [hex_injective]. *)
Lemma hex_injective_witness :
  length (hex [0; 171; 255]) = (2 * 3)%nat /\
  (hex [0; 171; 255] = hex [0; 171; 255] -> [0; 171; 255] = [0; 171; 255]).
Proof.
  apply hex_injective; repeat constructor; lia.
Defined.

(** *** The anonymous cryptobox (to_pubkey.cpp, lines 121-221)

    OpenSSL enters as five functions: [X25519 priv pub] is the shared
    secret when the call returns 1, [X25519_public_from_private], [SHA512],
    and AES-256-GCM as [gcm_seal key nonce aad plaintext] and
    [gcm_open key nonce aad ciphertext tag].  [rand] is what [RAND_bytes]
    delivers and [ctx] tells whether [EVP_CIPHER_CTX_new] returned a
    context. *)

Section Cryptobox.

Variable X25519 : list Z -> list Z -> option (list Z).
Variable X25519_public_from_private : list Z -> list Z.
Variable SHA512 : list Z -> list Z.
Variable gcm_seal : list Z -> list Z -> list Z -> list Z -> option (list Z * list Z).
Variable gcm_open : list Z -> list Z -> list Z -> list Z -> list Z -> option (list Z).

(** "Arbitrary size limit" *)
Definition size_limit : Z := 268435456.

(** [static uchar nonce[12] = {0}] *)
Definition nonce : list Z := repeat 0 12.

(** The 32 bytes of [enc_key] that AES-256 takes as its key. *)
Definition aes_key (enc_key : list Z) : list Z := firstn 32 enc_key.

(** [secret] (lines 121-134) *)
Definition secret (m_key priv_key : list Z) : option (list Z) :=
  match X25519 priv_key m_key with
  | None => None
  | Some shared_key => Some (SHA512 shared_key)
  end.

(** [encrypt] (lines 136-185): the cryptobox, when it returns true. *)
Definition encrypt (m_key buf : list Z) (rand : option (list Z)) (ctx : bool)
    : option (list Z) :=
  if Z.of_nat (length buf) >? size_limit then None
  else
    match rand with
    | None => None
    | Some priv_key =>
        match X25519 priv_key m_key with
        | None => None
        | Some shared_key =>
            let enc_key := SHA512 shared_key in
            if negb ctx then None
            else
              (* Write ephemeral public key *)
              let head := X25519_public_from_private priv_key in
              match gcm_seal (aes_key enc_key) nonce (firstn 32 head) buf with
              | None => None
              | Some (ct, tag) => Some (head ++ ct ++ tag)
              end
        end
    end.

(** [decrypt] (lines 187-221): the plaintext, when it returns true. *)
Definition decrypt (size : Z) (priv_key cryptobox : list Z) (ctx : bool)
    : option (list Z) :=
  if size >? size_limit then None
  else
    match secret (firstn 32 cryptobox) priv_key with
    | None => None
    | Some enc_key =>
        if negb ctx then None
        else
          gcm_open (aes_key enc_key) nonce (firstn 32 cryptobox)
                   (firstn (Z.to_nat size) (skipn 32 cryptobox))
                   (firstn 16 (skipn (32 + Z.to_nat size) cryptobox))
    end.

(** The two sides of the key agreement arrive at the same secret; a
    public key has 32 bytes; the cipher returns a ciphertext as long as
    the plaintext with a 16-byte tag, and opens what it has sealed. *)
Hypothesis agreement : forall a b,
  X25519 a (X25519_public_from_private b) = X25519 b (X25519_public_from_private a).
Hypothesis public_length : forall a, length (X25519_public_from_private a) = 32%nat.
Hypothesis seal_shape : forall k n a p c t,
  gcm_seal k n a p = Some (c, t) -> length c = length p /\ length t = 16%nat.
Hypothesis open_seal : forall k n a p c t,
  gcm_seal k n a p = Some (c, t) -> gcm_open k n a c t = Some p.

(** A cryptobox made for the public key of [priv_key] has 48 bytes more
    than the message, and [decrypt] with [priv_key] and the size of the
    message returns the message. *)
Theorem cryptobox_round_trip (priv_key buf : list Z) (rand : option (list Z))
    (ctx : bool) (box : list Z) :
  encrypt (X25519_public_from_private priv_key) buf rand ctx = Some box ->
  length box = (length buf + 48)%nat /\
  decrypt (Z.of_nat (length buf)) priv_key box true = Some buf.
Proof.
  unfold encrypt, decrypt, secret. intros E.
  destruct (Z.of_nat (length buf) >? size_limit); [discriminate|].
  destruct rand as [eph|]; [|discriminate].
  rewrite agreement in E.
  destruct (X25519 priv_key (X25519_public_from_private eph)) as [shared_key|] eqn:A;
    [|discriminate].
  destruct (negb ctx); [discriminate|]. cbv zeta in E.
  pose proof (public_length eph) as Lh.
  rewrite firstn_all2 in E by lia.
  destruct (gcm_seal (aes_key (SHA512 shared_key)) nonce
              (X25519_public_from_private eph) buf) as [[ct tag]|] eqn:S; [|discriminate].
  destruct (seal_shape _ _ _ _ _ _ S) as [Lc Lt].
  apply (f_equal (fun o => match o with Some x => x | None => [] end)) in E.
  subst box. split; [rewrite !length_app; lia|].
  assert (F1 : firstn 32 (X25519_public_from_private eph ++ ct ++ tag)
               = X25519_public_from_private eph).
  { rewrite <- Lh at 1. rewrite firstn_app, Nat.sub_diag, firstn_all.
    apply app_nil_r. }
  assert (F2 : skipn 32 (X25519_public_from_private eph ++ ct ++ tag) = ct ++ tag).
  { rewrite <- Lh at 1. rewrite skipn_app, Nat.sub_diag, skipn_all. reflexivity. }
  assert (F3 : skipn (32 + Z.to_nat (Z.of_nat (length buf)))
                 (X25519_public_from_private eph ++ ct ++ tag) = tag).
  { rewrite Nat2Z.id, Nat.add_comm, <- skipn_skipn. rewrite F2, <- Lc.
    rewrite skipn_app, Nat.sub_diag, skipn_all. reflexivity. }
  assert (F4 : firstn (length buf) (ct ++ tag) = ct).
  { rewrite <- Lc. rewrite firstn_app, Nat.sub_diag, firstn_all. apply app_nil_r. }
  assert (F5 : firstn 16 tag = tag) by (apply firstn_all2; lia).
  rewrite F1, F2, F3, A, Nat2Z.id, F4, F5. cbn [negb].
  exact (open_seal _ _ _ _ _ _ S).
Qed.

End Cryptobox.

(** Functions for running the model: the key agreement adds up the bytes
    of the two public keys, the tag is the additional data. *)
Definition toy_public (a : list Z) : list Z := firstn 32 (a ++ repeat 0 32).

Definition toy_X25519 (a u : list Z) : option (list Z) :=
  Some [fold_right Z.add 0 (toy_public a) + fold_right Z.add 0 u].

Definition toy_SHA512 (s : list Z) : list Z := s.

Definition toy_gcm_seal (k n a p : list Z) : option (list Z * list Z) :=
  Some (p, firstn 16 (a ++ repeat 0 16)).

Definition toy_gcm_open (k n a c t : list Z) : option (list Z) :=
  if list_eq_dec Z.eq_dec t (firstn 16 (a ++ repeat 0 16)) then Some c else None.

Lemma toy_agreement (a b : list Z) :
  toy_X25519 a (toy_public b) = toy_X25519 b (toy_public a).
Proof. unfold toy_X25519. rewrite Z.add_comm. reflexivity. Qed.

Lemma toy_public_length (a : list Z) : length (toy_public a) = 32%nat.
Proof.
  unfold toy_public. rewrite length_firstn, length_app, repeat_length. lia.
Qed.

Lemma toy_gcm_shape (k n a p c t : list Z) :
  toy_gcm_seal k n a p = Some (c, t) -> length c = length p /\ length t = 16%nat.
Proof.
  intros E. unfold toy_gcm_seal in E.
  assert (C : c = p) by congruence.
  assert (Tg : t = firstn 16 (a ++ repeat 0 16)) by congruence.
  subst c t. split; [reflexivity|].
  rewrite length_firstn, length_app, repeat_length. lia.
Qed.

Lemma toy_gcm_open_seal (k n a p c t : list Z) :
  toy_gcm_seal k n a p = Some (c, t) -> toy_gcm_open k n a c t = Some p.
Proof.
  intros E. unfold toy_gcm_seal in E.
  assert (C : c = p) by congruence.
  assert (Tg : t = firstn 16 (a ++ repeat 0 16)) by congruence.
  subst c t. unfold toy_gcm_open.
  destruct (list_eq_dec Z.eq_dec (firstn 16 (a ++ repeat 0 16))
              (firstn 16 (a ++ repeat 0 16))); [reflexivity|contradiction].
Qed.

Definition alice : list Z := repeat 5 32.
Definition ephemeral : list Z := repeat 9 32.

(** Witness for [cryptobox_round_trip]: three bytes sent to [alice]. *)
Lemma cryptobox_round_trip_witness :
  exists box,
    encrypt toy_X25519 toy_public toy_SHA512 toy_gcm_seal (toy_public alice) [1; 2; 3]
            (Some ephemeral) true = Some box /\
    length box = 51%nat /\
    decrypt toy_X25519 toy_SHA512 toy_gcm_open 3 alice box true = Some [1; 2; 3].
Proof.
  eexists. split; [vm_compute; reflexivity|].
  apply (cryptobox_round_trip toy_X25519 toy_public toy_SHA512 toy_gcm_seal toy_gcm_open
           toy_agreement toy_public_length toy_gcm_shape toy_gcm_open_seal
           alice [1; 2; 3] (Some ephemeral) true).
  vm_compute. reflexivity.
Defined.

End pubkey.

(** ** [lfs::list]: the list of pending items (the header appended to
    ssdb.cpp, lines 148-266)

    A chain of [list_item]s is the list of their data, from the item
    pointed to along [m_link].  One thread is modelled: the
    compare-exchange of [push] succeeds at its first attempt. *)

Module lfs.

Section List.

Variable T : Type.

(** [push] (lines 218-227): the new item links to the old head. *)
Definition push (x : T) (m_head : list T) : list T := x :: m_head.

(** [pop_all] (lines 230-233): the chain withdrawn and the empty list. *)
Definition pop_all (m_head : list T) : list T * list T := (m_head, []).

(** "Reverse element order in linked list" (lines 248-254): [prev] is
    the chain still to turn, [head] the chain turned so far. *)
Fixpoint reverse_links (prev head : list T) : list T :=
  match prev with
  | [] => head
  | d :: pprev => reverse_links pprev (d :: head)
  end.

Section Apply.

Variable S : Type.
Variable func : T -> S -> S.

(** The [for] loop over the chain [ptr] (lines 257-260). *)
Fixpoint visit (ptr : list T) (count : Z) (st : S) : Z * S :=
  match ptr with
  | [] => (count, st)
  | d :: link => visit link (count + 1) (func d st)
  end.

(** [apply] (lines 236-264): the count, the state [func] has built and
    the list left behind. *)
Definition apply (m_head : list T) (st : S) : Z * S * list T :=
  match m_head with
  | [] => (0, st, [])
  | d :: link =>
      let head :=
        match link with
        | [] => [d]
        | _ :: _ => reverse_links link [d]
        end in
      (visit head 0 st, [])
  end.

Lemma pushes_rev (xs acc : list T) :
  fold_left (fun l x => push x l) xs acc = rev xs ++ acc.
Proof.
  revert acc. induction xs as [|x r IH]; intros acc; [reflexivity|].
  cbn [fold_left rev]. rewrite IH, <- app_assoc. reflexivity.
Qed.

Lemma reverse_links_rev (prev head : list T) : reverse_links prev head = rev prev ++ head.
Proof.
  revert head. induction prev as [|d r IH]; intros head; [reflexivity|].
  cbn [reverse_links rev]. rewrite IH, <- app_assoc. reflexivity.
Qed.

Lemma visit_fold (ptr : list T) (count : Z) (st : S) :
  visit ptr count st
  = (count + Z.of_nat (length ptr), fold_left (fun s x => func x s) ptr st).
Proof.
  revert count st. induction ptr as [|d r IH]; intros count st.
  - cbn [visit length fold_left]. f_equal. lia.
  - cbn [visit fold_left]. rewrite IH. f_equal. cbn [length]. lia.
Qed.

(** [apply] hands the items to [func] in the order in which they were
    pushed, returns their number and leaves the list empty. *)
Theorem apply_in_push_order (xs : list T) (st : S) :
  apply (fold_left (fun l x => push x l) xs []) st
  = (Z.of_nat (length xs), fold_left (fun s x => func x s) xs st, []).
Proof.
  rewrite pushes_rev, app_nil_r. unfold apply.
  destruct (rev xs) as [|d link] eqn:E.
  - assert (X : xs = []) by (rewrite <- (rev_involutive xs), E; reflexivity).
    subst xs. reflexivity.
  - assert (Hd : match link with [] => [d] | _ :: _ => reverse_links link [d] end = xs).
    { rewrite <- (rev_involutive xs), E. cbn [rev].
      destruct link; [reflexivity|apply reverse_links_rev]. }
    cbv zeta. rewrite Hd, visit_fold. reflexivity.
Qed.

End Apply.

End List.

End lfs.
